(** * Coverage data engine: a shallow embedding of [coverage/results.py] and
      [coverage/sqldata.py], and the properties of its specification.

    The first half of the file holds the embedding: Python values and
    exceptions, binary64 floats, the numbits codec, the result formatting of
    [results.py] and the SQLite-backed store of [sqldata.py].  The second half
    holds the lemmas and the theorems about them. *)

From Stdlib Require Import ZArith NArith List String Ascii Bool Lia.
From Stdlib Require Import Sorted Permutation.
From Stdlib Require Import DecimalString QArith.
From Stdlib Require Import Floats.SpecFloat.
Import ListNotations.

Open Scope string_scope.
Open Scope list_scope.
Open Scope Z_scope.

(* ================================================================== *)
(** * Python values, exceptions and built-ins *)
(* ================================================================== *)

(** Python floats are IEEE 754 binary64 numbers. *)
Definition float := spec_float.

Definition prec64 : Z := 53.
Definition emax64 : Z := 1024.

Definition fdiv : float -> float -> float := SFdiv prec64 emax64.
Definition fsub : float -> float -> float := SFsub prec64 emax64.
Definition fmul : float -> float -> float := SFmul prec64 emax64.
Definition flt : float -> float -> bool := SFltb.
Definition fle : float -> float -> bool := SFleb.
Definition feq : float -> float -> bool := SFeqb.

(** [float(n)] for a Python int: the nearest binary64, ties to even. *)
Definition float_of_int (n : Z) : float := binary_normalize prec64 emax64 n 0 false.

(** A binary64 value in the canonical form that the comparisons expect. *)
Definition is_float (x : float) : bool := valid_binary prec64 emax64 x.

(** A Python [str] is modelled by the [string] of its code points, which are
    taken below 256: the character with code [n] is [ascii_of_nat n]. *)

(** The arguments of a message: exceptions keep the format string and its
    arguments apart, so that no [repr] has to be modelled. *)
Inductive pyval :=
| VStr (s : string)
| VInt (z : Z)
| VFloat (f : float).

(** The exception classes that the modelled code can raise.  [DataError] is
    the subclass of [CoverageException] that [coverage.exceptions] defines next
    to [ConfigError]; the store of [sqldata.py] never raises it. *)
Inductive exc_class :=
| CoverageException
| DataError
| ConfigError
| AssertionError
| OverflowError
| ZeroDivisionError
| ValueError
| KeyError
| Sqlite3Error.

Record exc := Exc { exc_cls : exc_class; exc_msg : string; exc_args : list pyval }.

Inductive result (A : Type) :=
| Return (a : A)
| Raise (e : exc).
Arguments Return {A} a.
Arguments Raise {A} e.

Definition is_raise {A} (r : result A) : bool :=
  match r with Raise _ => true | Return _ => false end.

Definition raises_class {A} (c : exc_class) (r : result A) : Prop :=
  exists msg args, r = Raise (Exc c msg args).

(** ** Decimal text of integers: ["%d" % n]. *)
Definition str_of_int (n : Z) : string := NilZero.string_of_int (Z.to_int n).

(** ** [sorted]: insertion into an ordered list, stable. *)
Section Sorted.
Context {A : Type} (leb : A -> A -> bool).

Fixpoint insert_sorted (x : A) (l : list A) : list A :=
  match l with
  | [] => [x]
  | y :: l' => if leb y x then y :: insert_sorted x l' else x :: l
  end.

Definition sorted (l : list A) : list A :=
  fold_left (fun acc x => insert_sorted x acc) l [].
End Sorted.

(** Orders of the values that get sorted: ints, lists of ints, and tuples. *)
Fixpoint list_Z_leb (a b : list Z) : bool :=
  match a, b with
  | [], _ => true
  | _ :: _, [] => false
  | x :: a', y :: b' => if x <? y then true else if y <? x then false else list_Z_leb a' b'
  end.

Definition pair_leb {A B} (ltA : A -> A -> bool) (lebB : B -> B -> bool)
  (p q : A * B) : bool :=
  if ltA (fst p) (fst q) then true
  else if ltA (fst q) (fst p) then false
  else lebB (snd p) (snd q).

(** [", ".join(...)] *)
Fixpoint join (sep : string) (l : list string) : string :=
  match l with
  | [] => ""
  | [s] => s
  | s :: l' => (s ++ sep ++ join sep l')%string
  end.

Definition memZ (x : Z) (l : list Z) : bool := existsb (Z.eqb x) l.

(** ** Exact decimal rounding of binary64 values: [round] and ["%.*f"]. *)

(** The value of a finite float [m * 2^e] as a fraction. *)
Definition frac_of (m : positive) (e : Z) : Z * Z :=
  if 0 <=? e then (Zpos m * 2 ^ e, 1) else (Zpos m, 2 ^ (- e)).

(** The fraction times [10^p], for any integer [p]. *)
Definition scale10 (f : Z * Z) (p : Z) : Z * Z :=
  if 0 <=? p then (fst f * 10 ^ p, snd f) else (fst f, snd f * 10 ^ (- p)).

(** The integer nearest to [a / b], ties to the even one ([0 <= a], [0 < b]). *)
Definition round_half_even (a b : Z) : Z :=
  let q := a / b in
  match (2 * (a mod b)) ?= b with
  | Lt => q
  | Gt => q + 1
  | Eq => if Z.even q then q else q + 1
  end.

(** The binary64 nearest to [(-1)^s * a / b], ties to even. *)
Definition nearest_float (s : bool) (a b : Z) : float :=
  match a, b with
  | Z0, _ => S754_zero s
  | Zpos pa, Zpos pb => fdiv (S754_finite s pa 0) (S754_finite false pb 0)
  | _, _ => S754_nan
  end.

(** [round(x, ndigits)] on a float: the decimal with [ndigits] places nearest
    to the exact value of [x], ties to even, converted back to a float.  Nans,
    infinities and zeros round to themselves; a result out of range raises. *)
Definition py_round (x : float) (ndigits : Z) : result float :=
  match x with
  | S754_finite s m e =>
      let '(a, b) := scale10 (frac_of m e) ndigits in
      let n := round_half_even a b in
      let r := if 0 <=? ndigits then nearest_float s n (10 ^ ndigits)
               else nearest_float s (n * 10 ^ (- ndigits)) 1 in
      match r with
      | S754_infinity _ =>
          Raise (Exc OverflowError "rounded value too large to represent" [])
      | _ => Return r
      end
  | _ => Return x
  end.

Fixpoint zeros (n : nat) : string :=
  match n with O => "" | S n' => String "0" (zeros n') end.

(** The digits of [n * 10^-p] with exactly [p] decimals ([0 <= n]). *)
Definition fixed_point (p : Z) (n : Z) : string :=
  let ip := n / 10 ^ p in
  let fp := str_of_int (n mod 10 ^ p) in
  if p =? 0 then str_of_int ip
  else (str_of_int ip ++ "." ++ zeros (Z.to_nat p - String.length fp) ++ fp)%string.

(** ["%.*f" % (p, x)]: the exact value of [x] rounded to [p] decimals, ties to
    even; a negative precision counts as zero. *)
Definition format_f (p : Z) (x : float) : string :=
  let p := Z.max 0 p in
  let sign (s : bool) := if s then "-" else "" in
  match x with
  | S754_nan => "nan"
  | S754_infinity s => (sign s ++ "inf")%string
  | S754_zero s => (sign s ++ fixed_point p 0)%string
  | S754_finite s m e =>
      let '(a, b) := scale10 (frac_of m e) p in
      (sign s ++ fixed_point p (round_half_even a b))%string
  end.

(* ================================================================== *)
(** * [coverage/results.py] *)
(* ================================================================== *)

Abbreviation TLineNo := Z (only parsing).

(** Truth value of [start: Optional[TLineNo]]: [None] and [0] are false. *)
Definition truthy (start : option TLineNo) : bool :=
  match start with
  | Some s => negb (s =? 0)
  | None => false
  end.

(** Modelled from the spec: [nice_pair] of [coverage/misc.py], which is not
    among the sources; a run renders as [a-b] and a singleton as [a]. *)
Definition nice_pair (pair : TLineNo * TLineNo) : string :=
  let '(start, end_) := pair in
  if start =? end_ then str_of_int start
  else (str_of_int start ++ "-" ++ str_of_int end_)%string.

(** The state of the loop of [_line_ranges]: [pairs], [start], [end].  [end]
    is unbound until [start] is first set; it is only read when [start] is
    true, so the initial [0] is never used. *)
Record ranges_state := RS {
  rs_pairs : list (TLineNo * TLineNo);
  rs_start : option TLineNo;
  rs_end : TLineNo;
}.

(** The body of [for stmt in statements]; [lines] is what is left of the
    sorted lines from index [lidx] on. *)
Fixpoint line_ranges_loop (statements lines : list TLineNo) (st : ranges_state)
  : ranges_state :=
  match statements with
  | [] => st
  | stmt :: statements' =>
      match lines with
      | [] => st                                   (* lidx >= len(lines): break *)
      | l :: lines' =>
          if stmt =? l then
            line_ranges_loop statements' lines'
              (RS (rs_pairs st)
                  (if truthy (rs_start st) then rs_start st else Some stmt)
                  stmt)
          else if truthy (rs_start st) then
            line_ranges_loop statements' lines
              (RS (rs_pairs st ++ [(match rs_start st with Some s => s | None => 0 end,
                                    rs_end st)])
                  None (rs_end st))
          else line_ranges_loop statements' lines st
      end
  end.

Definition _line_ranges (statements lines : list TLineNo)
  : list (TLineNo * TLineNo) :=
  let statements := sorted Z.leb statements in
  let lines := sorted Z.leb lines in
  let st := line_ranges_loop statements lines (RS [] None 0) in
  if truthy (rs_start st)
  then rs_pairs st ++ [(match rs_start st with Some s => s | None => 0 end, rs_end st)]
  else rs_pairs st.

(** The items that the [arcs] argument adds, for one [(line, exits)]. *)
Definition arc_items (lines : list TLineNo) (line : TLineNo) (exits : list TLineNo)
  : list (TLineNo * string) :=
  flat_map (fun ex =>
    if negb (memZ line lines) && negb (memZ ex lines) then
      let dest := if 0 <? ex then str_of_int ex else "exit" in
      [(line, (str_of_int line ++ "->" ++ dest)%string)]
    else []) (sorted Z.leb exits).

Definition format_lines (statements lines : list TLineNo)
  (arcs : option (list (TLineNo * list TLineNo))) : string :=
  let line_items :=
    map (fun pair => (fst pair, nice_pair pair)) (_line_ranges statements lines) in
  let line_items :=
    match arcs with
    | None => line_items
    | Some arcs =>
        let line_exits := sorted (pair_leb Z.ltb list_Z_leb) arcs in
        line_items ++ flat_map (fun le => arc_items lines (fst le) (snd le)) line_exits
    end in
  join ", " (map snd (sorted (pair_leb Z.ltb String.leb) line_items)).

(** ** [class Numbers] *)
Record Numbers := mkNumbers {
  _precision : Z;
  _near0 : float;
  _near100 : float;
  n_files : Z;
  n_statements : Z;
  n_excluded : Z;
  n_missing : Z;
  n_branches : Z;
  n_partial_branches : Z;
  n_missing_branches : Z;
}.

(** [Numbers.__init__]; the assertion on [precision] is part of it. *)
Definition Numbers_init (precision n_files n_statements n_excluded n_missing
    n_branches n_partial_branches n_missing_branches : Z) : result Numbers :=
  if (0 <=? precision) && (precision <? 10) then
    let near0 := fdiv (float_of_int 1) (float_of_int (10 ^ precision)) in
    Return {| _precision := precision;
              _near0 := near0;
              _near100 := fsub (float_of_int 100) near0;
              n_files := n_files;
              n_statements := n_statements;
              n_excluded := n_excluded;
              n_missing := n_missing;
              n_branches := n_branches;
              n_partial_branches := n_partial_branches;
              n_missing_branches := n_missing_branches |}
  else Raise (Exc AssertionError "" []).

Definition n_executed (self : Numbers) : Z := n_statements self - n_missing self.

Definition n_executed_branches (self : Numbers) : Z :=
  n_branches self - n_missing_branches self.

Definition ratio_covered (self : Numbers) : Z * Z :=
  (n_executed self + n_executed_branches self, n_statements self + n_branches self).

(** The float of a Python int in an arithmetic expression: an int beyond the
    range of binary64 raises. *)
Definition float_of_operand (n : Z) : result float :=
  match float_of_int n with
  | S754_infinity _ => Raise (Exc OverflowError "int too large to convert to float" [])
  | f => Return f
  end.

(** [(100.0 * numerator) / denominator]: the product first, then the
    quotient, which raises on a zero denominator. *)
Definition pc_covered (self : Numbers) : result float :=
  if 0 <? n_statements self then
    let '(numerator, denominator) := ratio_covered self in
    match float_of_operand numerator with
    | Raise e => Raise e
    | Return fnum =>
        match float_of_operand denominator with
        | Raise e => Raise e
        | Return fden =>
            if denominator =? 0 then
              Raise (Exc ZeroDivisionError "float division by zero" [])
            else Return (fdiv (fmul (float_of_int 100) fnum) fden)
        end
    end
  else Return (float_of_int 100).

Definition display_covered (self : Numbers) (pc : float) : result string :=
  if flt (float_of_int 0) pc && flt pc (_near0 self) then
    Return (format_f (_precision self) (_near0 self))
  else if flt (_near100 self) pc && flt pc (float_of_int 100) then
    Return (format_f (_precision self) (_near100 self))
  else
    match py_round pc (_precision self) with
    | Return pc' => Return (format_f (_precision self) pc')
    | Raise e => Raise e
    end.

Definition pc_covered_str (self : Numbers) : result string :=
  match pc_covered self with
  | Return pc => display_covered self pc
  | Raise e => Raise e
  end.

Definition pc_str_width (self : Numbers) : Z :=
  if 0 <? _precision self then 3 + (1 + _precision self) else 3.

(** ** [should_fail_under] *)
Definition should_fail_under (total fail_under : float) (precision : Z)
  : result bool :=
  if negb (fle (float_of_int 0) fail_under && fle fail_under (float_of_int 100)) then
    Raise (Exc ConfigError "fail_under={} is invalid. Must be between 0 and 100."
               [VFloat fail_under])
  else if feq fail_under (float_of_int 100) && negb (feq total (float_of_int 100)) then
    Return true
  else
    match py_round total precision with
    | Return r => Return (flt r fail_under)
    | Raise e => Raise e
    end.

(** The Python literal [a.b...]: the float nearest to [n / 10^k]. *)
Definition float_lit (n : Z) (k : Z) : float :=
  nearest_float (n <? 0) (Z.abs n) (10 ^ k).


(* ================================================================== *)
(** * The numbits codec *)
(* ================================================================== *)

(** Modelled from the spec: [coverage/numbits.py] is not among the sources.
    A numbits value is a sequence of bytes where bit [i] of byte [k] is set
    iff the integer [8*k + i] is in the set; [encode] gives the canonical form
    without trailing zero bytes, [union] is the bitwise or aligned to byte 0
    and as long as the longer argument. *)
Definition numbits := list N.

Definition byte_of_nums (nums : list nat) (k : nat) : N :=
  fold_left (fun b num =>
               if Nat.eqb (Nat.div num 8) k
               then N.lor b (N.shiftl 1 (N.of_nat (Nat.modulo num 8)))
               else b) nums 0%N.

Definition nums_to_numbits (nums : list nat) : numbits :=
  match nums with
  | [] => []
  | _ => map (byte_of_nums nums) (seq 0 (Nat.div (list_max nums) 8 + 1))
  end.

Fixpoint numbits_to_nums_from (byte_i : nat) (nb : numbits) : list nat :=
  match nb with
  | [] => []
  | byte :: nb' =>
      map (fun bit_i => (byte_i * 8 + bit_i)%nat)
          (filter (fun bit_i => N.testbit byte (N.of_nat bit_i)) (seq 0 8))
      ++ numbits_to_nums_from (S byte_i) nb'
  end.

Definition numbits_to_nums (nb : numbits) : list nat := numbits_to_nums_from 0 nb.

Fixpoint numbits_union (a b : numbits) : numbits :=
  match a, b with
  | [], _ => b
  | _, [] => a
  | x :: a', y :: b' => N.lor x y :: numbits_union a' b'
  end.

(** Bit [n] of a numbits value. *)
Definition numbits_bit (nb : numbits) (n : nat) : bool :=
  N.testbit (nth (Nat.div n 8) nb 0%N) (N.of_nat (Nat.modulo n 8)).

(* ================================================================== *)
(** * Python dicts: association lists in insertion order *)
(* ================================================================== *)

Section Dict.
Context {K V : Type} (eqb : K -> K -> bool).

Fixpoint dict_get (k : K) (d : list (K * V)) : option V :=
  match d with
  | [] => None
  | (k', v) :: d' => if eqb k k' then Some v else dict_get k d'
  end.

(** [d[k] = v]: an existing key keeps its place. *)
Fixpoint dict_set (k : K) (v : V) (d : list (K * V)) : list (K * V) :=
  match d with
  | [] => [(k, v)]
  | (k', v') :: d' => if eqb k k' then (k, v) :: d' else (k', v') :: dict_set k v d'
  end.

(** [{k: v for ...}] and [d.update(...)]. *)
Definition dict_update (d : list (K * V)) (items : list (K * V)) : list (K * V) :=
  fold_left (fun d kv => dict_set (fst kv) (snd kv) d) items d.

Definition dict_mem (k : K) (d : list (K * V)) : bool :=
  match dict_get k d with Some _ => true | None => false end.
End Dict.

Definition key_eqb (a b : string * string) : bool :=
  String.eqb (fst a) (fst b) && String.eqb (snd a) (snd b).

Definition is_empty {A} (l : list A) : bool :=
  match l with [] => true | _ => false end.

(** [int(s)] on the text of a decimal integer. *)
Definition py_int (s : string) : option Z :=
  option_map Z.of_int (NilZero.int_of_string s).

(* ================================================================== *)
(** * Regular expressions *)
(* ================================================================== *)

(** The regular expressions whose matching is written out here are those
    made of literal characters, [.], a starred character or [.], a leading [^]
    and a trailing [$]; [re_compile] gives [None] for every other pattern. *)
Inductive re_atom :=
| RChar (c : ascii)
| RAny
| RStar (c : option ascii).          (* [c*], or [.*] for [None] *)

Record regex := mkRegex {
  re_bol : bool;                     (* leading [^] *)
  re_atoms : list re_atom;
  re_eol : bool;                     (* trailing [$] *)
}.

Definition is_meta (c : ascii) : bool :=
  existsb (Ascii.eqb c)
    ["."; "^"; "$"; "*"; "+"; "?"; "{"; "}"; "["; "]"; "\"; "|"; "("; ")"]%char.

(** The atoms of a pattern body, and whether it ends with [$]. *)
Fixpoint parse_atoms (p : string) : option (list re_atom * bool) :=
  match p with
  | EmptyString => Some ([], false)
  | String c p' =>
      if Ascii.eqb c "$" then
        match p' with EmptyString => Some ([], true) | _ => None end
      else
        let one (x : option ascii) :=
          match p' with
          | String "*" p'' =>
              option_map (fun r => (RStar x :: fst r, snd r)) (parse_atoms p'')
          | _ =>
              option_map (fun r => (match x with Some a => RChar a | None => RAny end
                                    :: fst r, snd r)) (parse_atoms p')
          end in
        if Ascii.eqb c "." then one None
        else if is_meta c then None
        else one (Some c)
  end.

Definition re_compile (p : string) : option regex :=
  match p with
  | String "^" p' => option_map (fun r => mkRegex true (fst r) (snd r)) (parse_atoms p')
  | _ => option_map (fun r => mkRegex false (fst r) (snd r)) (parse_atoms p)
  end.

Definition atom_ok (x : option ascii) (c : ascii) : bool :=
  match x with Some a => Ascii.eqb a c | None => negb (Ascii.eqb c "010") end.

(** Does the pattern match a prefix of the text (up to its end, with [$])? *)
Fixpoint match_here (atoms : list re_atom) (eol : bool) (text : string) : bool :=
  match atoms with
  | [] =>
      if eol then
        match text with
        | EmptyString => true
        | String c EmptyString => Ascii.eqb c "010"    (* before a final newline *)
        | _ => false
        end
      else true
  | RChar a :: atoms' =>
      match text with
      | String c text' => Ascii.eqb a c && match_here atoms' eol text'
      | EmptyString => false
      end
  | RAny :: atoms' =>
      match text with
      | String c text' => atom_ok None c && match_here atoms' eol text'
      | EmptyString => false
      end
  | RStar x :: atoms' =>
      (fix star (text : string) : bool :=
         match_here atoms' eol text
         || match text with
            | String c text' => atom_ok x c && star text'
            | EmptyString => false
            end) text
  end.

(** Does the pattern match at some position of the text? *)
Fixpoint match_from (atoms : list re_atom) (eol : bool) (text : string) : bool :=
  match_here atoms eol text
  || match text with
     | String _ text' => match_from atoms eol text'
     | EmptyString => false
     end.

(** [re.search(pattern, string) is not None]; [None] when [re.search] raises.
    [beyond] is Python's answer on the patterns that are not written out
    here: it is a parameter of the model, and nothing is assumed of it. *)
Definition re_search (beyond : string -> string -> option bool)
    (pattern text : string) : option bool :=
  match re_compile pattern with
  | None => beyond pattern text
  | Some r =>
      Some (if re_bol r then match_here (re_atoms r) (re_eol r) text
            else match_from (re_atoms r) (re_eol r) text)
  end.


(* ================================================================== *)
(** * [coverage/sqldata.py]: the database *)
(* ================================================================== *)

Definition SCHEMA_VERSION : Z := 7.

(** The tables of [SCHEMA], rows in the order of their rowids, which is the
    order of insertion.  SQLite's limits on the size of a statement and of
    its values are not modelled, nor is the memory of the process. *)
Record Db := mkDb {
  coverage_schema_rows : list Z;                 (* version *)
  meta_rows : list (string * string);            (* key, value; unique (key) *)
  file_rows : list (Z * string);                 (* id, path; unique (path) *)
  context_rows : list (Z * string);              (* id, context; unique (context) *)
  line_bits_rows : list (Z * Z * numbits);       (* file_id, context_id, numbits *)
  arc_rows : list (Z * Z * Z * Z);               (* file_id, context_id, fromno, tono *)
  tracer_rows : list (Z * string);               (* file_id, tracer *)
}.

Definition set_meta_rows (db : Db) r :=
  mkDb (coverage_schema_rows db) r (file_rows db) (context_rows db)
       (line_bits_rows db) (arc_rows db) (tracer_rows db).
Definition set_file_rows (db : Db) r :=
  mkDb (coverage_schema_rows db) (meta_rows db) r (context_rows db)
       (line_bits_rows db) (arc_rows db) (tracer_rows db).
Definition set_context_rows (db : Db) r :=
  mkDb (coverage_schema_rows db) (meta_rows db) (file_rows db) r
       (line_bits_rows db) (arc_rows db) (tracer_rows db).
Definition set_line_bits_rows (db : Db) r :=
  mkDb (coverage_schema_rows db) (meta_rows db) (file_rows db) (context_rows db)
       r (arc_rows db) (tracer_rows db).
Definition set_arc_rows (db : Db) r :=
  mkDb (coverage_schema_rows db) (meta_rows db) (file_rows db) (context_rows db)
       (line_bits_rows db) r (tracer_rows db).
Definition set_tracer_rows (db : Db) r :=
  mkDb (coverage_schema_rows db) (meta_rows db) (file_rows db) (context_rows db)
       (line_bits_rows db) (arc_rows db) r.

(** The id that an [integer primary key] column gets on insertion. *)
Definition next_rowid (ids : list Z) : Z := fold_left Z.max ids 0 + 1.

Definition has_path (path : string) (rows : list (Z * string)) : bool :=
  existsb (fun r => String.eqb (snd r) path) rows.

(** [insert or replace into file (path) values (?)]; gives [lastrowid]. *)
Definition sql_replace_file (path : string) (db : Db) : Db * Z :=
  let id := next_rowid (map fst (file_rows db)) in
  (set_file_rows db
     (filter (fun r => negb (String.eqb (snd r) path)) (file_rows db) ++ [(id, path)]),
   id).

(** [insert or ignore into file (path) values (?)] *)
Definition sql_ignore_file (path : string) (db : Db) : Db :=
  if has_path path (file_rows db) then db
  else set_file_rows db
         (file_rows db ++ [(next_rowid (map fst (file_rows db)), path)]).

(** [insert into context (context) values (?)]; [None] on a constraint. *)
Definition sql_insert_context (context : string) (db : Db) : option (Db * Z) :=
  if has_path context (context_rows db) then None
  else
    let id := next_rowid (map fst (context_rows db)) in
    Some (set_context_rows db (context_rows db ++ [(id, context)]), id).

(** [insert or ignore into context (context) values (?)] *)
Definition sql_ignore_context (context : string) (db : Db) : Db :=
  match sql_insert_context context db with
  | Some (db', _) => db'
  | None => db
  end.

(** [select id from context where context = ?] *)
Definition sql_context_ids (context : string) (db : Db) : list Z :=
  map fst (filter (fun r => String.eqb (snd r) context) (context_rows db)).

Definition line_key_eqb (file_id context_id : Z) (r : Z * Z * numbits) : bool :=
  (fst (fst r) =? file_id) && (snd (fst r) =? context_id).

(** [select numbits from line_bits where file_id = ? and context_id = ?] *)
Definition sql_line_bits (file_id context_id : Z) (db : Db) : list numbits :=
  map snd (filter (line_key_eqb file_id context_id) (line_bits_rows db)).

(** [insert or replace into line_bits ... values (?, ?, ?)] *)
Definition sql_replace_line_bits (file_id context_id : Z) (nb : numbits) (db : Db) : Db :=
  set_line_bits_rows db
    (filter (fun r => negb (line_key_eqb file_id context_id r)) (line_bits_rows db)
     ++ [(file_id, context_id, nb)]).

(** [insert into line_bits ... values (?, ?, ?)]; [None] on a constraint. *)
Definition sql_insert_line_bits (file_id context_id : Z) (nb : numbits) (db : Db)
  : option Db :=
  if existsb (line_key_eqb file_id context_id) (line_bits_rows db) then None
  else Some (set_line_bits_rows db (line_bits_rows db ++ [(file_id, context_id, nb)])).

Definition arc_eqb (a b : Z * Z * Z * Z) : bool :=
  let '(f1, c1, x1, y1) := a in
  let '(f2, c2, x2, y2) := b in
  (f1 =? f2) && (c1 =? c2) && (x1 =? x2) && (y1 =? y2).

(** The values of an [integer] column: 64 bits, signed.  [sqlite3] raises
    [OverflowError] when it is given another Python int to bind. *)
Definition sqlite_int (n : Z) : bool := (- 2 ^ 63 <=? n) && (n <? 2 ^ 63).

(** [insert or ignore into arc ... values (?, ?, ?, ?)] *)
Definition sql_ignore_arc (row : Z * Z * Z * Z) (db : Db) : Db :=
  if existsb (arc_eqb row) (arc_rows db) then db
  else set_arc_rows db (arc_rows db ++ [row]).

(** [insert into meta (key, value) values (?, ?)]; [None] on a constraint. *)
Definition sql_insert_meta (key value : string) (db : Db) : option Db :=
  if existsb (fun r => String.eqb (fst r) key) (meta_rows db) then None
  else Some (set_meta_rows db (meta_rows db ++ [(key, value)])).

(** [select value from meta where key = ?] *)
Definition sql_meta (key : string) (db : Db) : list string :=
  map snd (filter (fun r => String.eqb (fst r) key) (meta_rows db)).

(** [select tracer from tracer where file_id = ?] *)
Definition sql_tracer (file_id : Z) (db : Db) : list string :=
  map snd (filter (fun r => fst r =? file_id) (tracer_rows db)).

(** [insert into tracer (file_id, tracer) values (?, ?)]; [None] on a
    constraint. *)
Definition sql_insert_tracer (file_id : Z) (tracer : string) (db : Db) : option Db :=
  if existsb (fun r => fst r =? file_id) (tracer_rows db) then None
  else Some (set_tracer_rows db (tracer_rows db ++ [(file_id, tracer)])).

(** [insert or ignore into tracer (file_id, tracer) values (?, ?)] *)
Definition sql_ignore_tracer (file_id : Z) (tracer : string) (db : Db) : Db :=
  match sql_insert_tracer file_id tracer db with
  | Some db' => db'
  | None => db
  end.

(** [... inner join file on file.id = X.file_id inner join context on
    context.id = X.context_id]: the path and context names of a row. *)
Definition join_names (db : Db) (file_id context_id : Z) : list (string * string) :=
  flat_map (fun f =>
    if fst f =? file_id then
      flat_map (fun c => if fst c =? context_id then [(snd f, snd c)] else [])
               (context_rows db)
    else []) (file_rows db).

(** [select file.path, context.context, line_bits.numbits from line_bits
    inner join file ... inner join context ...] *)
Definition sql_line_bits_joined (db : Db) : list (string * string * numbits) :=
  flat_map (fun r =>
    map (fun pc => (fst pc, snd pc, snd r))
        (join_names db (fst (fst r)) (snd (fst r)))) (line_bits_rows db).

(** [select file.path, context.context, arc.fromno, arc.tono from arc
    inner join file ... inner join context ...] *)
Definition sql_arcs_joined (db : Db) : list (string * string * Z * Z) :=
  flat_map (fun r =>
    let '(file_id, context_id, fromno, tono) := r in
    map (fun pc => (fst pc, snd pc, fromno, tono))
        (join_names db file_id context_id)) (arc_rows db).

(** [select file.path, tracer from tracer inner join file on
    file.id = tracer.file_id] *)
Definition sql_tracers_joined (db : Db) : list (string * string) :=
  flat_map (fun t =>
    flat_map (fun f => if fst f =? fst t then [(snd f, snd t)] else [])
             (file_rows db)) (tracer_rows db).

(** The order in which SQLite gives the rows of [arc] and of [line_bits] for
    one file: that of the index of their [unique] constraint. *)
Definition arc_index_leb (a b : Z * Z * Z * Z) : bool :=
  let '(f1, c1, x1, y1) := a in
  let '(f2, c2, x2, y2) := b in
  list_Z_leb [f1; c1; x1; y1] [f2; c2; x2; y2].

Definition line_bits_index_leb (a b : Z * Z * numbits) : bool :=
  list_Z_leb [fst (fst a); snd (fst a)] [fst (fst b); snd (fst b)].

(** [ ... and context_id in (?, ...)] when [_query_context_ids] is set. *)
Definition in_query (ids : option (list Z)) (context_id : Z) : bool :=
  match ids with
  | None => true
  | Some ids => memZ context_id ids
  end.

(* ================================================================== *)
(** * [coverage/sqldata.py]: [class CoverageData] *)
(* ================================================================== *)

(** What the code takes from the process it runs in: [sys.argv], the version
    of the package and the clock, which [_create_db] reads, and Python's
    [re.search] on the regular expressions that are not written out above:
    [re_beyond pattern string] is [Some b] when [re.search(pattern, string)]
    returns, [b] telling whether it found a match, and [None] when it
    raises. *)
Record Environ := mkEnviron {
  sys_argv : string;
  __version__ : string;
  now : string;
  re_beyond : string -> string -> option bool;
}.

(** The attributes of a [CoverageData] object, for one process and one thread,
    together with the database behind [_filename]: the data file when it
    exists on disk, or the in-memory database of the registered connection
    when [_no_disk] is set.  [_dbs] tells whether [self._dbs] holds the
    connection of the thread. *)
Record CoverageData := mkCoverageData {
  environ : Environ;
  _no_disk : bool;
  _file_map : list (string * Z);
  _dbs : bool;
  _have_used : bool;
  _has_lines : bool;
  _has_arcs : bool;
  _current_context : option string;
  _current_context_id : option Z;
  _query_context_ids : option (list Z);
  database : option Db;
}.

Definition set__file_map (s : CoverageData) v : CoverageData :=
  mkCoverageData (environ s) (_no_disk s) v (_dbs s) (_have_used s)
    (_has_lines s) (_has_arcs s) (_current_context s) (_current_context_id s)
    (_query_context_ids s) (database s).
Definition set__dbs (s : CoverageData) v : CoverageData :=
  mkCoverageData (environ s) (_no_disk s) (_file_map s) v (_have_used s)
    (_has_lines s) (_has_arcs s) (_current_context s) (_current_context_id s)
    (_query_context_ids s) (database s).
Definition set__have_used (s : CoverageData) v : CoverageData :=
  mkCoverageData (environ s) (_no_disk s) (_file_map s) (_dbs s) v
    (_has_lines s) (_has_arcs s) (_current_context s) (_current_context_id s)
    (_query_context_ids s) (database s).
Definition set__has_lines (s : CoverageData) v : CoverageData :=
  mkCoverageData (environ s) (_no_disk s) (_file_map s) (_dbs s)
    (_have_used s) v (_has_arcs s) (_current_context s)
    (_current_context_id s) (_query_context_ids s) (database s).
Definition set__has_arcs (s : CoverageData) v : CoverageData :=
  mkCoverageData (environ s) (_no_disk s) (_file_map s) (_dbs s)
    (_have_used s) (_has_lines s) v (_current_context s)
    (_current_context_id s) (_query_context_ids s) (database s).
Definition set__current_context (s : CoverageData) v : CoverageData :=
  mkCoverageData (environ s) (_no_disk s) (_file_map s) (_dbs s)
    (_have_used s) (_has_lines s) (_has_arcs s) v (_current_context_id s)
    (_query_context_ids s) (database s).
Definition set__current_context_id (s : CoverageData) v : CoverageData :=
  mkCoverageData (environ s) (_no_disk s) (_file_map s) (_dbs s)
    (_have_used s) (_has_lines s) (_has_arcs s) (_current_context s) v
    (_query_context_ids s) (database s).
Definition set__query_context_ids (s : CoverageData) v : CoverageData :=
  mkCoverageData (environ s) (_no_disk s) (_file_map s) (_dbs s)
    (_have_used s) (_has_lines s) (_has_arcs s) (_current_context s)
    (_current_context_id s) v (database s).
Definition set_database (s : CoverageData) v : CoverageData :=
  mkCoverageData (environ s) (_no_disk s) (_file_map s) (_dbs s)
    (_have_used s) (_has_lines s) (_has_arcs s) (_current_context s)
    (_current_context_id s) (_query_context_ids s) v.

(** [CoverageData.__init__]: [data_file] is what the file system holds under
    the file name; nothing exists under the name [":memory:"]. *)
Definition CoverageData_init (e : Environ) (no_disk : bool) (data_file : option Db)
  : CoverageData :=
  {| environ := e;
     _no_disk := no_disk;
     _file_map := [];
     _dbs := false;
     _have_used := false;
     _has_lines := false;
     _has_arcs := false;
     _current_context := None;
     _current_context_id := None;
     _query_context_ids := None;
     database := if no_disk then None else data_file |}.

(** ** Methods: state and exceptions *)

Definition M (A : Type) : Type := CoverageData -> result A * CoverageData.

Definition ret {A} (a : A) : M A := fun s => (Return a, s).

Definition bind {A B} (m : M A) (k : A -> M B) : M B :=
  fun s =>
    match m s with
    | (Return a, s') => k a s'
    | (Raise e, s') => (Raise e, s')
    end.

Definition raise {A} (c : exc_class) (msg : string) (args : list pyval) : M A :=
  fun s => (Raise (Exc c msg args), s).

Definition get : M CoverageData := fun s => (Return s, s).

Definition modify (f : CoverageData -> CoverageData) : M unit :=
  fun s => (Return tt, f s).

Declare Scope py_scope.
Delimit Scope py_scope with py.
Notation "x <- m ;; k" := (bind m (fun x => k))
  (at level 61, m at next level, right associativity) : py_scope.
Notation "m ;; k" := (bind m (fun _ => k))
  (at level 61, right associativity) : py_scope.
Open Scope py_scope.

Fixpoint for_each {X} (l : list X) (body : X -> M unit) : M unit :=
  match l with
  | [] => ret tt
  | x :: l' => body x ;; for_each l' body
  end.

Definition when (b : bool) (m : M unit) : M unit := if b then m else ret tt.

(** ** The connection *)

(** [SqliteDb.execute] turns every [sqlite3.Error] (a missing table, a broken
    constraint, an exception in [REGEXP]) into a [CoverageException].  The
    messages about the data file carry its name and the text of the underlying
    error; these two arguments are left out of [exc_args]. *)
Definition no_table {A} : M A :=
  raise CoverageException "Couldn't use data file {!r}: {}" [].

Definition query {A} (q : Db -> A) : M A :=
  s <- get ;;
  match database s with
  | Some db => ret (q db)
  | None => no_table
  end.

Definition execute (stmt : Db -> Db) : M unit :=
  s <- get ;;
  match database s with
  | Some db => modify (fun s => set_database s (Some (stmt db)))
  | None => no_table
  end.

(** [SqliteDb.__exit__], when the block has raised: the [sqlite3] connection
    rolls the transaction back, and the connection of a data file is closed.
    The connection runs with [journal_mode=off]: the rollback gives a data
    file the content it had when the transaction began, and leaves an
    in-memory database as the block wrote it. *)
Definition rollback (s0 s : CoverageData) : CoverageData :=
  if _no_disk s0 then s else set_database s (database s0).

(** [with db: body], for the [SqliteDb] of the object; [s0] is the state on
    entry.  When the block returns, the connection commits.  The blocks nest
    ([nest]) and the transaction ends with the outermost one: an exception
    that leaves an inner block leaves the outer ones as well, so that the
    rollback to the start of an inner block is covered by that of the
    outermost one. *)
Definition with_db {A} (body : M A) : M A :=
  fun s0 =>
    match body s0 with
    | (Return a, s) => (Return a, s)
    | (Raise e, s) => (Raise e, rollback s0 s)
    end.

(** [_reset]: dropping the connection of an in-memory database drops the
    database; a data file stays. *)
Definition _reset : M unit :=
  modify (fun s =>
    let s := set_database s (if _no_disk s then None else database s) in
    let s := set__dbs s false in
    let s := set__file_map s [] in
    let s := set__have_used s false in
    set__current_context_id s None).

(** [_create_db]; nothing raises in its block. *)
Definition _create_db : M unit :=
  modify (fun s =>
    set_database (set__dbs s true)
      (Some {| coverage_schema_rows := [SCHEMA_VERSION];
               meta_rows := [("sys_argv", sys_argv (environ s));
                             ("version", __version__ (environ s));
                             ("when", now (environ s))];
               file_rows := [];
               context_rows := [];
               line_bits_rows := [];
               arc_rows := [];
               tracer_rows := [] |})).

Definition _read_db : M unit :=
  with_db
    (s <- get ;;
     match match database s with Some db => coverage_schema_rows db | None => [] end with
     | [] =>
         raise CoverageException
           "Data file {!r} doesn't seem to be a coverage data file: {}" []
     | schema_version :: _ =>
         if negb (schema_version =? SCHEMA_VERSION) then
           raise CoverageException
             "Couldn't use data file {!r}: wrong schema: {} instead of {}"
             [VInt schema_version; VInt SCHEMA_VERSION]
         else
           rows <- query (sql_meta "has_arcs") ;;
           for_each rows (fun row =>
             match py_int row with
             | Some n =>
                 modify (fun s => set__has_lines (set__has_arcs s (negb (n =? 0))) (n =? 0))
             | None =>
                 raise ValueError "invalid literal for int() with base 10: {!r}" [VStr row]
             end) ;;
           files <- query file_rows ;;
           for_each files (fun r =>
             modify (fun s =>
               set__file_map s (dict_set String.eqb (snd r) (fst r) (_file_map s))))
     end).

Definition _open_db : M unit :=
  modify (fun s => set__dbs s true) ;;
  _read_db.

(** [os.path.exists(self._filename)] *)
Definition file_exists (s : CoverageData) : bool :=
  negb (_no_disk s) && match database s with Some _ => true | None => false end.

Definition _connect : M unit :=
  s <- get ;;
  if _dbs s then ret tt
  else if file_exists s then _open_db
  else _create_db.

(** [erase(parallel=False)]; [file_be_gone] removes the data file. *)
Definition erase : M unit :=
  _reset ;;
  s <- get ;;
  if _no_disk s then ret tt
  else modify (fun s => set_database s None).

Definition read : M unit :=
  _connect ;;
  with_db (modify (fun s => set__have_used s true)).

(** [_start_using], in the process that made the object. *)
Definition _start_using : M unit :=
  s <- get ;;
  when (negb (_have_used s)) erase ;;
  modify (fun s => set__have_used s true).

(** [write]: the data is in the database already. *)
Definition write : M unit := ret tt.

(** [try: ... except CoverageException: return False] *)
Definition except_CoverageException (m : M bool) : M bool :=
  fun s =>
    match m s with
    | (Raise (Exc CoverageException _ _), s') => (Return false, s')
    | r => r
    end.

(** [__nonzero__], which is [__bool__]: is there a measured file? *)
Definition __nonzero__ : M bool :=
  s <- get ;;
  if negb (_dbs s) && negb (file_exists s) then ret false
  else
    except_CoverageException
      (_connect ;;
       with_db
         (rows <- query (fun db => firstn 1 (file_rows db)) ;;
          ret (negb (is_empty rows)))).

(** ** Serialization *)

(** A byte string: what [dumps] makes of the tables [db], which is [b'z']
    followed by the compressed text of the SQL script that [dump] gives for
    them, or bytes that do not start with [b'z'].  The other byte strings
    that start with [b'z'] are not modelled. *)
Inductive serialized :=
| Dumped (db : Db)
| Unrecognized (data : string)
    (head : match data with String "z" _ => False | _ => True end).

Definition dumps : M serialized :=
  _connect ;;
  with_db (query Dumped).

(** The first [len] characters: [data[:len]]. *)
Fixpoint prefix (len : nat) (data : string) : string :=
  match len, data with
  | S len', String c data' => String c (prefix len' data')
  | _, _ => ""
  end.

(** [loads]: the script of a dump makes the tables and their rows, in a
    database that has none; in a data file that exists, its first statement
    finds the table [arc] and fails.  The new [SqliteDb] of an in-memory
    database is a new, empty database. *)
Definition loads (data : serialized) : M unit :=
  match data with
  | Unrecognized data _ =>
      raise CoverageException "Unrecognized serialization: {!r} (head of {} bytes)"
        [VStr (prefix 40 data); VInt (Z.of_nat (String.length data))]
  | Dumped db =>
      modify (fun s => set__dbs s true) ;;
      with_db
        (s <- get ;;
         if file_exists s then raise Sqlite3Error "table arc already exists" []
         else modify (fun s => set_database s (Some db))) ;;
      _read_db ;;
      modify (fun s => set__have_used s true)
  end.

(** ** Files and contexts *)

Definition _file_id (filename : string) (add : bool) : M (option Z) :=
  s <- get ;;
  when (negb (dict_mem String.eqb filename (_file_map s)) && add)
    (_connect ;;
     with_db
       (r <- query (sql_replace_file filename) ;;
        let '(db', lastrowid) := r in
        modify (fun s =>
          set__file_map (set_database s (Some db'))
            (dict_set String.eqb filename lastrowid (_file_map s))))) ;;
  s <- get ;;
  ret (dict_get String.eqb filename (_file_map s)).

Definition _context_id (context : string) : M (option Z) :=
  _start_using ;;
  _connect ;;
  with_db
    (ids <- query (sql_context_ids context) ;;
     ret (hd_error ids)).

Definition set_context (context : option string) : M unit :=
  modify (fun s => set__current_context_id (set__current_context s context) None).

Definition _set_context_id : M unit :=
  s <- get ;;
  let context := match _current_context s with          (* [... or ""] *)
                 | Some c => c
                 | None => ""
                 end in
  context_id <- _context_id context ;;
  match context_id with
  | Some id => modify (fun s => set__current_context_id s (Some id))
  | None =>
      _connect ;;
      with_db
        (r <- query (sql_insert_context context) ;;
         match r with
         | Some (db', lastrowid) =>
             modify (fun s =>
               set__current_context_id (set_database s (Some db')) (Some lastrowid))
         | None => no_table
         end)
  end.

Definition _choose_lines_or_arcs (lines arcs : bool) : M unit :=
  if negb (lines || arcs) then raise AssertionError "" []
  else if lines && arcs then raise AssertionError "" []
  else
    s <- get ;;
    if lines && _has_arcs s then
      raise CoverageException "Can't add lines to existing arc data" []
    else if arcs && _has_lines s then
      raise CoverageException "Can't add arcs to existing line data" []
    else
      when (negb (_has_arcs s) && negb (_has_lines s))
        (modify (fun s => set__has_arcs (set__has_lines s lines) arcs) ;;
         _connect ;;
         with_db
           (r <- query (sql_insert_meta "has_arcs" (if arcs then "1" else "0")) ;;
            match r with
            | Some db' => modify (fun s => set_database s (Some db'))
            | None => no_table
            end)).

(** An id bound to a statement.  The ids that the code binds are never [None]
    ([_file_id] with [add=True], [_current_context_id] after
    [_set_context_id]); the tables of the model hold no NULL. *)
Definition the {A} (o : option A) : M A :=
  match o with
  | Some a => ret a
  | None => raise Sqlite3Error "NULL id" []
  end.

(** ** Recording *)

Definition add_lines (line_data : list (string * list nat)) : M unit :=
  _start_using ;;
  _choose_lines_or_arcs true false ;;
  if is_empty line_data then ret tt
  else
    _connect ;;
    with_db
      (_set_context_id ;;
       for_each line_data (fun '(filename, linenos) =>
         let linemap := nums_to_numbits linenos in
         file_id <- bind (_file_id filename true) the ;;
         s <- get ;;
         context_id <- the (_current_context_id s) ;;
         existing <- query (sql_line_bits file_id context_id) ;;
         let linemap := match existing with
                        | nb :: _ => numbits_union linemap nb
                        | [] => linemap
                        end in
         execute (sql_replace_line_bits file_id context_id linemap))).

(** One row of the [executemany] of [add_arcs]: the two line numbers are
    bound, then the statement runs. *)
Definition insert_arc (file_id context_id fromno tono : Z) : M unit :=
  if sqlite_int fromno && sqlite_int tono then
    execute (sql_ignore_arc (file_id, context_id, fromno, tono))
  else
    raise OverflowError "Python int too large to convert to SQLite INTEGER" [].

Definition add_arcs (arc_data : list (string * list (Z * Z))) : M unit :=
  _start_using ;;
  _choose_lines_or_arcs false true ;;
  if is_empty arc_data then ret tt
  else
    _connect ;;
    with_db
      (_set_context_id ;;
       for_each arc_data (fun '(filename, arcs) =>
         file_id <- bind (_file_id filename true) the ;;
         s <- get ;;
         context_id <- the (_current_context_id s) ;;
         for_each arcs (fun '(fromno, tono) =>
           insert_arc file_id context_id fromno tono))).

Definition file_tracer (filename : string) : M (option string) :=
  _start_using ;;
  _connect ;;
  with_db
    (file_id <- _file_id filename false ;;
     match file_id with
     | None => ret None
     | Some file_id =>
         rows <- query (sql_tracer file_id) ;;
         match rows with
         | tracer :: _ => ret (Some tracer)
         | [] => ret (Some "")
         end
     end).

Definition add_file_tracers (file_tracers : list (string * string)) : M unit :=
  if is_empty file_tracers then ret tt
  else
    _start_using ;;
    _connect ;;
    with_db
      (for_each file_tracers (fun '(filename, plugin_name) =>
         file_id <- _file_id filename false ;;
         match file_id with
         | None =>
             raise CoverageException
               "Can't add file tracer data for unmeasured file '%s'" [VStr filename]
         | Some file_id =>
             existing_plugin <- file_tracer filename ;;
             let existing_plugin :=
               match existing_plugin with Some t => t | None => "" end in
             if negb (String.eqb existing_plugin "") then
               when (negb (String.eqb existing_plugin plugin_name))
                 (raise CoverageException
                    "Conflicting file tracer name for '%s': %r vs %r"
                    [VStr filename; VStr existing_plugin; VStr plugin_name])
             else
               when (negb (String.eqb plugin_name ""))
                 (r <- query (sql_insert_tracer file_id plugin_name) ;;
                  match r with
                  | Some db' => modify (fun s => set_database s (Some db'))
                  | None => no_table
                  end)
         end)).

Definition touch_file (filename plugin_name : string) : M unit :=
  _start_using ;;
  s <- get ;;
  if negb (_has_arcs s) && negb (_has_lines s) then
    raise CoverageException "Can't touch files in an empty CoverageData" []
  else
    _file_id filename true ;;
    when (negb (String.eqb plugin_name ""))
      (add_file_tracers [(filename, plugin_name)]).

(** Modelled from the spec: [PathAliases] of [coverage/files.py] is not among
    the sources; [map] gives the replacement of the first matching pattern, or
    the input unchanged.  An aliases object is modelled by its [map]; the one
    that [update] makes when it is given none has no pattern. *)
Definition PathAliases : Type := string -> string.
Definition PathAliases_empty : PathAliases := fun path => path.

Definition lookup {V} (d : list (string * V)) (k : string) : M V :=
  match dict_get String.eqb k d with
  | Some v => ret v
  | None => raise KeyError "{!r}" [VStr k]
  end.

Fixpoint map_M {X Y} (f : X -> M Y) (l : list X) : M (list Y) :=
  match l with
  | [] => ret []
  | x :: l' => y <- f x ;; ys <- map_M f l' ;; ret (y :: ys)
  end.

(** [executemany] does not go through [SqliteDb.execute]: a broken constraint
    is a plain [sqlite3.IntegrityError]. *)
Definition executemany_raw (stmt : Db -> option Db) : M unit :=
  s <- get ;;
  match database s with
  | Some db =>
      match stmt db with
      | Some db' => modify (fun s => set_database s (Some db'))
      | None => raise Sqlite3Error "UNIQUE constraint failed" []
      end
  | None => raise Sqlite3Error "no such table" []
  end.

Definition lift {A} (r : result A) : M A := fun s => (r, s).

(** The loop of [update] that prepares the tracers and fails if a conflict is
    found: [for path in files.values(): ...]. *)
Fixpoint check_tracers (this_tracers tracers : list (string * string))
  (paths : list string) (tracer_map : list (string * string))
  : result (list (string * string)) :=
  match paths with
  | [] => Return tracer_map
  | path :: paths' =>
      let this_tracer := dict_get String.eqb path this_tracers in
      let other_tracer :=
        match dict_get String.eqb path tracers with
        | Some t => t
        | None => ""
        end in
      match this_tracer with
      | Some t =>
          if negb (String.eqb t other_tracer) then
            Raise (Exc CoverageException
                     "Conflicting file tracer name for '%s': %r vs %r"
                     [VStr path; VStr t; VStr other_tracer])
          else check_tracers this_tracers tracers paths'
                 (dict_set String.eqb path other_tracer tracer_map)
      | None =>
          check_tracers this_tracers tracers paths'
            (dict_set String.eqb path other_tracer tracer_map)
      end
  end.

Definition update (other_data : CoverageData) (aliases : option PathAliases) : M unit :=
  self <- get ;;
  if _has_lines self && _has_arcs other_data then
    raise CoverageException "Can't combine arc data with line data" []
  else if _has_arcs self && _has_lines other_data then
    raise CoverageException "Can't combine line data with arc data" []
  else
    let aliases := match aliases with Some a => a | None => PathAliases_empty end in
    _start_using ;;
    (* other_data.read(); with other_data._connect() as conn: *)
    match (read ;; _connect ;; query (fun db => db)) other_data with
    | (Raise e, _) => lift (Raise e)
    | (Return odb, _) =>
        let files := dict_update String.eqb []
                       (map (fun r => (snd r, aliases (snd r))) (file_rows odb)) in
        let contexts := map snd (context_rows odb) in
        arcs <- map_M (fun '(path, context, fromno, tono) =>
                         file <- lookup files path ;;
                         ret (file, context, fromno, tono))
                      (sql_arcs_joined odb) ;;
        line_items <- map_M (fun '(path, context, nb) =>
                               file <- lookup files path ;;
                               ret ((file, context), nb))
                            (sql_line_bits_joined odb) ;;
        let lines := dict_update key_eqb [] line_items in
        tracer_items <- map_M (fun '(path, tracer) =>
                                 file <- lookup files path ;;
                                 ret (file, tracer))
                              (sql_tracers_joined odb) ;;
        let tracers := dict_update String.eqb [] tracer_items in
        (* with self._connect() as conn: *)
        _connect ;;
        with_db
          (paths <- query (fun db => map snd (file_rows db)) ;;
           this_tracer_rows <- query sql_tracers_joined ;;
           let this_tracers :=
             dict_update String.eqb
               (dict_update String.eqb [] (map (fun path => (path, "")) paths))
               (map (fun r => (aliases (fst r), snd r)) this_tracer_rows) in
           for_each (map snd files) (fun file => execute (sql_ignore_file file)) ;;
           file_ids <- query (fun db =>
                         dict_update String.eqb []
                           (map (fun r => (snd r, fst r)) (file_rows db))) ;;
           for_each contexts (fun context => execute (sql_ignore_context context)) ;;
           context_ids <- query (fun db =>
                            dict_update String.eqb []
                              (map (fun r => (snd r, fst r)) (context_rows db))) ;;
           tracer_map <- lift (check_tracers this_tracers tracers (map snd files) []) ;;
           this_lines <- query sql_line_bits_joined ;;
           let lines :=
             fold_left (fun lines '(path, context, nb) =>
                          let key := (aliases path, context) in
                          let nb := match dict_get key_eqb key lines with
                                    | Some other_nb => numbits_union other_nb nb
                                    | None => nb
                                    end in
                          dict_set key_eqb key nb lines) this_lines lines in
           when (negb (is_empty arcs))
             (_choose_lines_or_arcs false true ;;
              for_each arcs (fun '(file, context, fromno, tono) =>
                file_id <- lookup file_ids file ;;
                context_id <- lookup context_ids context ;;
                execute (sql_ignore_arc (file_id, context_id, fromno, tono)))) ;;
           when (negb (is_empty lines))
             (_choose_lines_or_arcs true false ;;
              execute (fun db => set_line_bits_rows db []) ;;
              rows <- map_M (fun '((file, context), nb) =>
                               file_id <- lookup file_ids file ;;
                               context_id <- lookup context_ids context ;;
                               ret (file_id, context_id, nb)) lines ;;
              for_each rows (fun '(file_id, context_id, nb) =>
                executemany_raw (sql_insert_line_bits file_id context_id nb))) ;;
           for_each tracer_map (fun '(filename, tracer) =>
             file_id <- lookup file_ids filename ;;
             execute (sql_ignore_tracer file_id tracer))) ;;
        _reset ;;
        read
    end.

(** ** Queries *)

Definition has_arcs : M bool :=
  s <- get ;; ret (_has_arcs s).

Definition measured_files : M (list string) :=
  s <- get ;; ret (map fst (_file_map s)).

Section Dedup.
Context {A : Type} (eqb : A -> A -> bool).

(** [set(...)] and [select distinct], listed in the order of first
    occurrence. *)
Fixpoint dedup (l : list A) : list A :=
  match l with
  | [] => []
  | x :: l' => x :: filter (fun y => negb (eqb x y)) (dedup l')
  end.
End Dedup.

Definition measured_contexts : M (list string) :=
  _start_using ;;
  _connect ;;
  with_db
    (contexts <- query (fun db => map snd (context_rows db)) ;;
     ret (dedup String.eqb contexts)).

Definition set_query_context (context : string) : M unit :=
  _start_using ;;
  _connect ;;
  with_db
    (ids <- query (sql_context_ids context) ;;
     modify (fun s => set__query_context_ids s (Some ids))).

(** [_regexp(text, pattern)]: [re.search(text, pattern) is not None];
    [None] when [re.search] raises. *)
Definition _regexp (e : Environ) (text pattern : string) : option bool :=
  re_search (re_beyond e) text pattern.

(** [x regexp y] in SQL calls the function [REGEXP(y, x)]. *)
Definition sql_regexp (e : Environ) (x y : string) : option bool := _regexp e y x.

(** [context regexp ? or context regexp ? ...] on one row: the alternatives
    from left to right, up to the first that holds. *)
Fixpoint regexp_any (e : Environ) (context : string) (patterns : list string)
  : option bool :=
  match patterns with
  | [] => Some false
  | pattern :: patterns' =>
      match sql_regexp e context pattern with
      | None => None
      | Some true => Some true
      | Some false => regexp_any e context patterns'
      end
  end.

(** [select id from context where ...], row after row; [ids] are the rows
    selected so far.  [execute] steps to the first row of the answer, and
    [fetchall] to the others: an exception of [REGEXP] is an error of
    [execute] as long as no row is selected, and a plain [sqlite3] error of
    [fetchall] afterwards. *)
Fixpoint select_regexp (e : Environ) (patterns : list string)
    (rows : list (Z * string)) (ids : list Z) : M (list Z) :=
  match rows with
  | [] => ret ids
  | (id, context) :: rows' =>
      match regexp_any e context patterns with
      | Some true => select_regexp e patterns rows' (ids ++ [id])
      | Some false => select_regexp e patterns rows' ids
      | None =>
          if is_empty ids then no_table
          else raise Sqlite3Error "user-defined function raised exception" []
      end
  end.

Definition set_query_contexts (contexts : list string) : M unit :=
  _start_using ;;
  if negb (is_empty contexts) then
    _connect ;;
    with_db
      (s <- get ;;
       rows <- query context_rows ;;
       ids <- select_regexp (environ s) contexts rows [] ;;
       modify (fun s => set__query_context_ids s (Some ids)))
  else
    modify (fun s => set__query_context_ids s None).

Definition arc_pair_eqb (a b : Z * Z) : bool :=
  (fst a =? fst b) && (snd a =? snd b).

Definition arcs (filename : string) : M (option (list (Z * Z))) :=
  _start_using ;;
  _connect ;;
  with_db
    (file_id <- _file_id filename false ;;
     match file_id with
     | None => ret None
     | Some file_id =>
         s <- get ;;
         rows <- query (fun db =>
                   filter (fun '(f, c, _, _) =>
                             (f =? file_id) && in_query (_query_context_ids s) c)
                          (sorted arc_index_leb (arc_rows db))) ;;
         ret (Some (dedup arc_pair_eqb
                      (map (fun '(_, _, fromno, tono) => (fromno, tono)) rows)))
     end).

(** [lines]: the list of a Python set, whose order is not modelled. *)
Definition lines (filename : string) : M (option (list Z)) :=
  _start_using ;;
  s <- get ;;
  arcs_ <- (if _has_arcs s then arcs filename else ret None) ;;
  match arcs_ with
  | Some arcs_ =>
      let all_lines := flat_map (fun a => [fst a; snd a]) arcs_ in
      ret (Some (dedup Z.eqb (filter (fun l => 0 <? l) all_lines)))
  | None =>
      _connect ;;
      with_db
        (file_id <- _file_id filename false ;;
         match file_id with
         | None => ret None
         | Some file_id =>
             s <- get ;;
             bitmaps <- query (fun db =>
                          map snd
                            (filter (fun r => (fst (fst r) =? file_id)
                                              && in_query (_query_context_ids s)
                                                          (snd (fst r)))
                                    (line_bits_rows db))) ;;
             ret (Some (dedup Z.eqb
                          (flat_map (fun nb => map Z.of_nat (numbits_to_nums nb))
                                    bitmaps)))
         end)
  end.

(** [lineno_contexts_map[lineno]] of the [defaultdict(list)]. *)
Definition contexts_of (lineno : Z) (m : list (Z * list string)) : list string :=
  match dict_get Z.eqb lineno m with
  | Some l => l
  | None => []
  end.

Definition add_context_once (lineno : Z) (context : string) (m : list (Z * list string))
  : list (Z * list string) :=
  if existsb (String.eqb context) (contexts_of lineno m)
  then dict_set Z.eqb lineno (contexts_of lineno m) m
  else dict_set Z.eqb lineno (contexts_of lineno m ++ [context]) m.

Definition append_context (lineno : Z) (context : string) (m : list (Z * list string))
  : list (Z * list string) :=
  dict_set Z.eqb lineno (contexts_of lineno m ++ [context]) m.

Definition contexts_by_lineno (filename : string) : M (list (Z * list string)) :=
  _start_using ;;
  _connect ;;
  with_db
    (file_id <- _file_id filename false ;;
     match file_id with
     | None => ret []
     | Some file_id =>
         s <- get ;;
         if _has_arcs s then
           (* from arc, context where arc.file_id = ? and arc.context_id = context.id *)
           rows <- query (fun db =>
                     flat_map (fun '(f, c, fromno, tono) =>
                       if (f =? file_id) && in_query (_query_context_ids s) c then
                         map (fun cr => (fromno, tono, snd cr))
                             (filter (fun cr => fst cr =? c) (context_rows db))
                       else []) (sorted arc_index_leb (arc_rows db))) ;;
           ret (fold_left (fun m '(fromno, tono, context) =>
                             add_context_once tono context
                               (add_context_once fromno context m))
                          rows [])
         else
           (* from line_bits l, context c where l.context_id = c.id and file_id = ? *)
           rows <- query (fun db =>
                     flat_map (fun r =>
                       if (fst (fst r) =? file_id)
                          && in_query (_query_context_ids s) (snd (fst r)) then
                         map (fun cr => (snd r, snd cr))
                             (filter (fun cr => fst cr =? snd (fst r)) (context_rows db))
                       else []) (sorted line_bits_index_leb (line_bits_rows db))) ;;
           ret (fold_left (fun m '(nb, context) =>
                             fold_left (fun m lineno =>
                                          append_context (Z.of_nat lineno) context m)
                                       (numbits_to_nums nb) m)
                          rows [])
     end).

(** ** The calls on a store *)
Inductive call :=
| Add_lines (line_data : list (string * list nat))
| Add_arcs (arc_data : list (string * list (Z * Z)))
| Add_file_tracers (file_tracers : list (string * string))
| Touch_file (filename plugin_name : string)
| Set_context (context : option string)
| Set_query_context (context : string)
| Set_query_contexts (contexts : list string)
| Update (other_data : CoverageData) (aliases : option PathAliases)
| Erase
| Read
| Write
| Nonzero
| Dumps
| Loads (data : serialized)
| Lines (filename : string)
| Arcs (filename : string)
| Contexts_by_lineno (filename : string)
| File_tracer (filename : string)
| Measured_files
| Measured_contexts
| Has_arcs.

Definition forget {A} (m : M A) : M unit := m ;; ret tt.

Definition do_call (c : call) : M unit :=
  match c with
  | Add_lines d => add_lines d
  | Add_arcs d => add_arcs d
  | Add_file_tracers d => add_file_tracers d
  | Touch_file f p => touch_file f p
  | Set_context c => set_context c
  | Set_query_context c => set_query_context c
  | Set_query_contexts cs => set_query_contexts cs
  | Update o a => update o a
  | Erase => erase
  | Read => read
  | Write => write
  | Nonzero => forget __nonzero__
  | Dumps => forget dumps
  | Loads data => loads data
  | Lines f => forget (lines f)
  | Arcs f => forget (arcs f)
  | Contexts_by_lineno f => forget (contexts_by_lineno f)
  | File_tracer f => forget (file_tracer f)
  | Measured_files => forget measured_files
  | Measured_contexts => forget measured_contexts
  | Has_arcs => forget has_arcs
  end.

(** The store after a sequence of calls, each of which may return or raise. *)
Definition after_calls (cs : list call) (s : CoverageData) : CoverageData :=
  fold_left (fun s c => snd (do_call c s)) cs s.


(* ================================================================== *)
(** * [class Analysis]: the part behind [missing_formatted] *)
(* ================================================================== *)

Abbreviation TArc := (Z * Z)%type (only parsing).

Definition arc_leb : TArc -> TArc -> bool := pair_leb Z.ltb Z.leb.

Module Analysis.
(** The attributes that [Analysis.__init__] sets from the file reporter and
    the data: the sets are lists, [executed] and [arcs_executed] are the
    translated lines and arcs of the data. *)
Record t := mk {
  statements : list TLineNo;
  excluded : list TLineNo;
  executed : list TLineNo;
  data_has_arcs : bool;
  data_arcs : list TArc;
  _arc_possibilities : list TArc;
  exit_counts : list (TLineNo * Z);
  no_branch : list TLineNo;
}.

(** [self.missing = self.statements - self.executed] *)
Definition missing (self : t) : list TLineNo :=
  filter (fun s => negb (memZ s (executed self))) (statements self).

Definition has_arcs (self : t) : bool := data_has_arcs self.

Definition arc_possibilities (self : t) : list TArc := _arc_possibilities self.

Definition arcs_executed (self : t) : list TArc := sorted arc_leb (data_arcs self).

Definition arcs_missing (self : t) : list TArc :=
  sorted arc_leb
    (filter (fun p =>
               negb (existsb (arc_pair_eqb p) (arcs_executed self))
               && negb (memZ (fst p) (no_branch self))
               && negb (memZ (snd p) (excluded self)))
            (arc_possibilities self)).

Definition _branch_lines (self : t) : list TLineNo :=
  map fst (filter (fun lc => 1 <? snd lc) (exit_counts self)).

Definition missing_branch_arcs (self : t) : list (TLineNo * list TLineNo) :=
  fold_left (fun mba '(l1, l2) =>
               if memZ l1 (_branch_lines self)
               then dict_set Z.eqb l1
                      (match dict_get Z.eqb l1 mba with Some l => l | None => [] end
                       ++ [l2]) mba
               else mba)
            (arcs_missing self) [].

Definition missing_formatted (self : t) (branches : bool) : string :=
  let arcs := if branches && has_arcs self
              then Some (missing_branch_arcs self)
              else None in
  format_lines (statements self) (missing self) arcs.
End Analysis.

(* ================================================================== *)
(** * Runs of missing statements, as the specification words them *)
(* ================================================================== *)

(** The statement just before a run, and the one just after it, are not
    among the lines. *)
Definition ends_outside (lines : list TLineNo) (before : list TLineNo) : Prop :=
  forall b0 s, before = b0 ++ [s] -> ~ In s lines.

Definition starts_outside (lines : list TLineNo) (after : list TLineNo) : Prop :=
  forall s a0, after = s :: a0 -> ~ In s lines.

(** [a .. b] is a maximal run of consecutive statements that are all among
    [lines]; [statements] is in ascending order. *)
Definition maximal_run (statements lines : list TLineNo) (a b : TLineNo) : Prop :=
  exists before run after,
    statements = before ++ run ++ after /\
    hd_error run = Some a /\ last run a = b /\
    Forall (fun s => In s lines) run /\
    ends_outside lines before /\ starts_outside lines after.

(** The runs of the statements that are among [lines], with the run that is
    open when the walk starts. *)
Fixpoint runs_from (lines : list TLineNo) (statements : list TLineNo)
  (cur : option (TLineNo * TLineNo)) : list (TLineNo * TLineNo) :=
  match statements with
  | [] => match cur with Some p => [p] | None => [] end
  | s :: statements' =>
      if memZ s lines then
        runs_from lines statements'
          (Some (match cur with Some p => fst p | None => s end, s))
      else
        match cur with
        | Some p => p :: runs_from lines statements' None
        | None => runs_from lines statements' None
        end
  end.

(** What [_line_ranges] returns from a state of its loop. *)
Definition finish (st : ranges_state) : list (TLineNo * TLineNo) :=
  if truthy (rs_start st)
  then rs_pairs st ++ [(match rs_start st with Some s => s | None => 0 end, rs_end st)]
  else rs_pairs st.

Definition open_run (st : ranges_state) : option (TLineNo * TLineNo) :=
  if truthy (rs_start st)
  then Some (match rs_start st with Some s => s | None => 0 end, rs_end st)
  else None.

(** Ranges in ascending order that do not touch. *)
Fixpoint chain (prev : Z) (r : list (TLineNo * TLineNo)) : Prop :=
  match r with
  | [] => True
  | p :: r' => prev < fst p /\ fst p <= snd p /\ chain (snd p) r'
  end.

Definition attached (lines S : list Z) (cur : option (Z * Z)) (a b : Z) : Prop :=
  exists a0 b0 R S2,
    cur = Some (a0, b0) /\ S = R ++ S2 /\ Forall (fun s => In s lines) R /\
    starts_outside lines S2 /\ a = a0 /\ b = last R b0.

Definition detached (lines S : list Z) (cur : option (Z * Z)) (a b : Z) : Prop :=
  exists S1 R S2,
    S = S1 ++ R ++ S2 /\ hd_error R = Some a /\ last R a = b /\
    Forall (fun s => In s lines) R /\
    ends_outside lines S1 /\ starts_outside lines S2 /\
    (cur <> None -> S1 <> []).

(** [0 <= fail_under <= 100.0] *)
Definition valid_fail_under (fail_under : float) : bool :=
  fle (float_of_int 0) fail_under && fle fail_under (float_of_int 100).

(* ================================================================== *)
(** * What the regular expressions of the model match *)
(* ================================================================== *)

Section RegexSpec.
Local Open Scope string_scope.





End RegexSpec.

(* ================================================================== *)
(** * The exact values of floats *)
(* ================================================================== *)

(** The rational that a float stands for, when it stands for one. *)
Definition float_value (x : float) : option Q :=
  match x with
  | S754_zero _ => Some 0%Q
  | S754_finite s m e =>
      Some ((if s then - fst (frac_of m e) else fst (frac_of m e))
            # Z.to_pos (snd (frac_of m e)))
  | _ => None
  end.

(** [10^-p] *)
Definition pow10_minus (p : Z) : Q := 1 # Z.to_pos (10 ^ p).

(** The conditions on the two floats of a [Numbers] under which
    [display_covered] keeps the boundaries: [near0 = m0 * 2^e0] and its
    neighbours enclose [10^-p], [near100 = m1 * 2^e1] and its neighbours
    enclose [100 - 10^-p], and both render as these decimals. *)
Definition boundaries_ok (self : Numbers) (m0 : positive) (e0 : Z)
    (m1 : positive) (e1 : Z) : bool :=
  let p := _precision self in
  let d := 10 ^ p in
  let t1 := 100 * d - 1 in
  (0 <=? p) && (e0 <? 0) && (e1 <? 0) && (-1074 <=? e0) && (-1074 <=? e1)
  && (Zpos m0 <? 2 ^ 53) && (Zpos m1 <? 2 ^ 53)
  && ((Zpos m0 - 1) * d <? 2 ^ (- e0)) && (2 ^ 53 * d <=? 2 ^ (1 - e0))
  && (2 ^ (- e0) <? (Zpos m0 + 1) * d)
  && ((Zpos m1 - 1) * d <? t1 * 2 ^ (- e1)) && (2 ^ 53 * d <=? t1 * 2 ^ (1 - e1))
  && (t1 * 2 ^ (- e1) <? (Zpos m1 + 1) * d)
  && match display_covered self (S754_finite false m0 e0) with
     | Return t => String.eqb t (fixed_point p 1)
     | Raise _ => false
     end
  && match display_covered self (S754_finite false m1 e1) with
     | Return t => String.eqb t (fixed_point p t1)
     | Raise _ => false
     end
  && String.eqb (format_f p (S754_finite false m0 e0)) (fixed_point p 1)
  && String.eqb (format_f p (S754_finite false m1 e1)) (fixed_point p t1)
  && flt (S754_finite false m0 e0) (S754_finite false m1 e1).

(* ================================================================== *)
(** * Invariants of a store *)
(* ================================================================== *)

(** What the code keeps of the [meta] and [coverage_schema] tables of a data
    file: the version it wrote, and at most one [has_arcs] row, ["0"] or
    ["1"]. *)
Definition db_meta_ok (db : Db) : Prop :=
  coverage_schema_rows db = [SCHEMA_VERSION]
  /\ (sql_meta "has_arcs" db = []
      \/ sql_meta "has_arcs" db = ["0"]
      \/ sql_meta "has_arcs" db = ["1"]).

(** An object that has neither chosen a mode nor connected. *)
Definition fresh (s : CoverageData) : Prop :=
  _dbs s = false /\ _has_lines s = false /\ _has_arcs s = false.

(** The flags of the object are those of the [has_arcs] row, if any. *)
Definition agrees (s : CoverageData) (db : Db) : Prop :=
  match sql_meta "has_arcs" db with
  | [] => True
  | v :: _ => _has_arcs s = String.eqb v "1" /\ _has_lines s = negb (String.eqb v "1")
  end.

(** The mode of a store: [Some false] is lines-mode, [Some true] arcs-mode. *)
Definition mode_is (mode : option bool) (s : CoverageData) : Prop :=
  match mode with
  | None => True
  | Some arcs => _has_arcs s = arcs /\ _has_lines s = negb arcs
  end.

(** The invariant of the objects that the calls produce, from a new object on
    a data file that is absent or was written by this code.  [used] asks for
    [_have_used]; [mode] asks for the mode. *)
Definition Inv (used : bool) (mode : option bool) (s : CoverageData) : Prop :=
  (used = true -> _have_used s = true)
  /\ (_dbs s = true -> database s <> None)
  /\ (_have_used s = true -> _dbs s = true \/ database s = None)
  /\ (forall db, database s = Some db -> db_meta_ok db /\ (fresh s \/ agrees s db))
  /\ mode_is mode s.

(** A triple on the state that a method leaves, whether it returns or
    raises. *)
Definition hoare {A} (P : CoverageData -> Prop) (m : M A) (Q : CoverageData -> Prop)
  : Prop :=
  forall s, P s -> Q (snd (m s)).

(** A statement that leaves [meta] and [coverage_schema] alone. *)
Definition meta_stable (stmt : Db -> Db) : Prop :=
  forall db, meta_rows (stmt db) = meta_rows db
             /\ coverage_schema_rows (stmt db) = coverage_schema_rows db.

(** An update of the attributes that the invariant does not read. *)
Definition attrs_stable (f : CoverageData -> CoverageData) : Prop :=
  forall s, _dbs (f s) = _dbs s /\ _have_used (f s) = _have_used s
            /\ _has_lines (f s) = _has_lines s /\ _has_arcs (f s) = _has_arcs s
            /\ database (f s) = database s.

(** A store in use whose connection is registered. *)
Definition ready (s : CoverageData) : Prop := _have_used s = true /\ _dbs s = true.

(** An update of the attributes that keeps a store ready. *)
Definition ready_stable (f : CoverageData -> CoverageData) : Prop :=
  forall s, _have_used (f s) = _have_used s /\ _dbs (f s) = _dbs s.

(** A call that does not load a dump, and a call whose dump, if it loads
    one, holds tables that this code wrote. *)
Definition no_load (c : call) : Prop :=
  match c with
  | Loads (Dumped _) => False
  | _ => True
  end.

Definition loads_ok (c : call) : Prop :=
  match c with
  | Loads (Dumped db) => db_meta_ok db
  | _ => True
  end.

(** A store made with [no_disk]: its database is in memory. *)
Definition in_memory (s : CoverageData) : Prop := _no_disk s = true.

(** The attributes after [_read_db]: the flags of the [has_arcs] row, and the
    file map of the [file] table. *)
Definition load_flags (rows : list string) (s : CoverageData) : CoverageData :=
  match rows with
  | [] => s
  | v :: _ =>
      set__has_lines (set__has_arcs s (String.eqb v "1")) (negb (String.eqb v "1"))
  end.

Definition load_files (files : list (Z * string)) (s : CoverageData) : CoverageData :=
  fold_left (fun s r =>
               set__file_map s (dict_set String.eqb (snd r) (fst r) (_file_map s)))
            files s.

(** The database that [_create_db] makes. *)
Definition new_db (e : Environ) : Db :=
  {| coverage_schema_rows := [SCHEMA_VERSION];
     meta_rows := [("sys_argv", sys_argv e); ("version", __version__ e); ("when", now e)];
     file_rows := [];
     context_rows := [];
     line_bits_rows := [];
     arc_rows := [];
     tracer_rows := [] |}.

(** A new store on an absent data file, for the examples. *)
Definition example_environ : Environ :=
  mkEnviron "['coverage', 'run']" "5.0" "2019-12-14 12:00:00" (fun _ _ => None).

Definition new_store : CoverageData := CoverageData_init example_environ false None.

Definition new_memory_store : CoverageData := CoverageData_init example_environ true None.

(** A store with one measured file that has a tracer. *)
Definition tracer_store : CoverageData :=
  after_calls [Add_lines [("f.py", [1%nat])]; Add_file_tracers [("f.py", "plugin")]] new_store.


(** Two stores for the examples: one in arcs-mode, one in lines-mode. *)
Definition arcs_store : CoverageData :=
  after_calls [Add_arcs [("f.py", [(1, 2)])]] new_store.

Definition lines_store : CoverageData :=
  after_calls [Add_lines [("f.py", [1%nat; 2%nat])]] new_store.

(** What [dumps] returns for a store; the empty byte string if it raises. *)
Definition dump_of (s : CoverageData) : serialized :=
  match fst (dumps s) with
  | Return data => data
  | Raise _ => Unrecognized "" I
  end.

(** A store in use: the object has connected to its database [db]. *)
Definition in_use (s : CoverageData) (db : Db) : Prop :=
  _have_used s = true /\ _dbs s = true /\ database s = Some db.

(** The tracer of a file in the tables: [None] for a file that is not
    measured, [""] for a measured file without a tracer row. *)
Definition db_tracer (db : Db) (path : string) : option string :=
  match filter (fun r => String.eqb (snd r) path) (file_rows db) with
  | [] => None
  | r :: _ =>
      Some (match sql_tracer (fst r) db with
            | t :: _ => t
            | [] => ""
            end)
  end.

(** The contexts that match the query: every context as long as no query
    context is set, and then the contexts whose id is among those that
    [set_query_context] or [set_query_contexts] has put in
    [_query_context_ids]. *)
Definition matching (s : CoverageData) (context_id : Z) : Prop :=
  forall ids, _query_context_ids s = Some ids -> In context_id ids.

(** What [contexts_by_lineno] lists for a known file: in lines-mode, line [l]
    with context [name] when a row of the file has bit [l] set, and its
    context is named [name] and matches the query; in arcs-mode, the same for
    the two ends of the arcs of the file. *)
Definition line_with_context (s : CoverageData) (db : Db) (file_id : Z)
    (l : Z) (name : string) : Prop :=
  exists context_id nb n,
    In (file_id, context_id, nb) (line_bits_rows db)
    /\ matching s context_id
    /\ In (context_id, name) (context_rows db)
    /\ numbits_bit nb n = true
    /\ l = Z.of_nat n.

Definition arc_end_with_context (s : CoverageData) (db : Db) (file_id : Z)
    (l : Z) (name : string) : Prop :=
  exists context_id fromno tono,
    In (file_id, context_id, fromno, tono) (arc_rows db)
    /\ matching s context_id
    /\ In (context_id, name) (context_rows db)
    /\ (l = fromno \/ l = tono).

Definition has_context (s : CoverageData) (db : Db) (file_id : Z)
    (l : Z) (name : string) : Prop :=
  if _has_arcs s then arc_end_with_context s db file_id l name
  else line_with_context s db file_id l name.

(** The map of [contexts_by_lineno] is well formed: each key once, and no key
    without a context. *)
Definition contexts_well (m : list (Z * list string)) : Prop :=
  NoDup (map fst m)
  /\ forall l, In l (map fst m) <-> exists name, In name (contexts_of l m).

(** The events that the two loops of [contexts_by_lineno] add to the map. *)
Definition line_events (rows : list (numbits * string)) : list (Z * string) :=
  flat_map (fun r => map (fun n => (Z.of_nat n, snd r)) (numbits_to_nums (fst r))) rows.

Definition arc_events (rows : list (Z * Z * string)) : list (Z * string) :=
  flat_map (fun r => [(fst (fst r), snd r); (snd (fst r), snd r)]) rows.

(** What [arcs] and [lines] return for a known file. *)
Definition arcs_of (s : CoverageData) (db : Db) (file_id : Z) : list (Z * Z) :=
  dedup arc_pair_eqb
    (map (fun '(_, _, fromno, tono) => (fromno, tono))
       (filter (fun '(f, c, _, _) =>
                  (f =? file_id) && in_query (_query_context_ids s) c)
               (sorted arc_index_leb (arc_rows db)))).

Definition lines_of (s : CoverageData) (db : Db) (file_id : Z) : list Z :=
  if _has_arcs s then
    dedup Z.eqb (filter (fun l => 0 <? l)
                   (flat_map (fun a => [fst a; snd a]) (arcs_of s db file_id)))
  else
    dedup Z.eqb
      (flat_map (fun nb => map Z.of_nat (numbits_to_nums nb))
         (map snd
            (filter (fun r => (fst (fst r) =? file_id)
                              && in_query (_query_context_ids s) (snd (fst r)))
                    (line_bits_rows db)))).


(** * The parts of [update] *)

(** A list of items that gives each key one value. *)
Definition functional {K V} (d : list (K * V)) : Prop :=
  forall k v v', In (k, v) d -> In (k, v') d -> v = v'.

(** [files] of [update] without aliases: each path of the other store, mapped
    to itself. *)
Definition other_files (odb : Db) : list (string * string) :=
  dict_update String.eqb []
    (map (fun r => (snd r, PathAliases_empty (snd r))) (file_rows odb)).

(** [this_tracers] and [tracers] of [update] without aliases. *)
Definition this_tracers_of (db : Db) : list (string * string) :=
  dict_update String.eqb
    (dict_update String.eqb [] (map (fun path => (path, "")) (map snd (file_rows db))))
    (map (fun r => (PathAliases_empty (fst r), snd r)) (sql_tracers_joined db)).

Definition other_tracers_of (odb : Db) : list (string * string) :=
  dict_update String.eqb [] (sql_tracers_joined odb).

(** The tables of this store once [update] has created the file and context
    rows of the other store. *)
Definition with_other_files (odb db : Db) : Db :=
  fold_left (fun db file => sql_ignore_file file db) (map snd (other_files odb)) db.

Definition with_other_rows (odb db : Db) : Db :=
  fold_left (fun db context => sql_ignore_context context db)
    (map snd (context_rows odb)) (with_other_files odb db).

(** [file_ids] and [context_ids] of [update]. *)
Definition path_ids (db : Db) : list (string * Z) :=
  dict_update String.eqb [] (map (fun r => (snd r, fst r)) (file_rows db)).

Definition context_ids_of (db : Db) : list (string * Z) :=
  dict_update String.eqb [] (map (fun r => (snd r, fst r)) (context_rows db)).

(** [lines] of [update]: the rows of the other store, then those of this
    store merged into them. *)
Definition merged_lines (odb db : Db) : list (string * string * numbits) :=
  fold_left (fun lines '(path, context, nb) =>
               let key := (PathAliases_empty path, context) in
               let nb := match dict_get key_eqb key lines with
                         | Some other_nb => numbits_union other_nb nb
                         | None => nb
                         end in
               dict_set key_eqb key nb lines)
    (sql_line_bits_joined db)
    (dict_update key_eqb []
       (map (fun '(path, context, nb) => ((path, context), nb)) (sql_line_bits_joined odb))).

(** The part of the block of [update] that writes, from [if arcs:] on. *)
Definition update_write (arcs : list (string * string * Z * Z))
    (lines : list (string * string * numbits))
    (file_ids context_ids : list (string * Z)) (tracer_map : list (string * string))
  : M unit :=
  when (negb (is_empty arcs))
    (_choose_lines_or_arcs false true ;;
     for_each arcs (fun '(file, context, fromno, tono) =>
       file_id <- lookup file_ids file ;;
       context_id <- lookup context_ids context ;;
       execute (sql_ignore_arc (file_id, context_id, fromno, tono)))) ;;
  when (negb (is_empty lines))
    (_choose_lines_or_arcs true false ;;
     execute (fun db => set_line_bits_rows db []) ;;
     rows <- map_M (fun '((file, context), nb) =>
                      file_id <- lookup file_ids file ;;
                      context_id <- lookup context_ids context ;;
                      ret (file_id, context_id, nb)) lines ;;
     for_each rows (fun '(file_id, context_id, nb) =>
       executemany_raw (sql_insert_line_bits file_id context_id nb))) ;;
  for_each tracer_map (fun '(filename, tracer) =>
    file_id <- lookup file_ids filename ;;
    execute (sql_ignore_tracer file_id tracer)).

(** What [update] needs of the two stores: this one is in use, the other one
    can be read, and their modes do not exclude each other. *)
Definition can_update (s : CoverageData) (db : Db) (other_data : CoverageData) (odb : Db)
  : Prop :=
  in_use s db
  /\ fst ((read ;; _connect ;; query (fun db => db)) other_data) = Return odb
  /\ _has_lines s && _has_arcs other_data = false
  /\ _has_arcs s && _has_lines other_data = false.

(** The schema's constraints on the [file] and [tracer] tables: [path] is
    unique, and [file_id] is the primary key of [tracer]. *)
Definition tracers_unique (db : Db) : Prop :=
  NoDup (map snd (file_rows db)) /\ NoDup (map fst (tracer_rows db)).

(** The error of [update] and [add_file_tracers] on two tracer names. *)
Definition conflict (path t t' : string) : exc :=
  Exc CoverageException "Conflicting file tracer name for '%s': %r vs %r"
    [VStr path; VStr t; VStr t'].

Definition conflict_msg : string := "Conflicting file tracer name for '%s': %r vs %r".

(** The method never raises an error with this message. *)
Definition avoids {A} (msg : string) (m : M A) : Prop :=
  forall s e, fst (m s) = Raise e -> exc_msg e <> msg.

(** The tables of a store. *)
Definition tables (s : CoverageData) : Db :=
  match database s with
  | Some db => db
  | None => new_db (environ s)
  end.

(** A store whose file has another tracer. *)
Definition other_tracer_store : CoverageData :=
  after_calls [Add_lines [("f.py", [1%nat])]; Add_file_tracers [("f.py", "other")]]
    new_store.

(* ================================================================== *)
(** * The constraints of the schema, and the file map *)
(* ================================================================== *)

(** The largest [file.id], [0] for an empty table: [insert] gives the next
    row the id after it. *)
Definition id_bound (db : Db) : Z := fold_left Z.max (map fst (file_rows db)) 0.

(** What the schema asks of the tables ([id] primary keys, [unique (path)],
    [unique (context)], [unique (file_id, context_id)] for [line_bits], [unique
    (file_id, context_id, fromno, tono)] for [arc], [file_id] primary key of
    [tracer]), and no row refers to a file id that is still to be given
    out. *)
Record db_wf (db : Db) : Prop := mk_db_wf {
  wf_file_ids : NoDup (map fst (file_rows db));
  wf_file_paths : NoDup (map snd (file_rows db));
  wf_context_ids : NoDup (map fst (context_rows db));
  wf_context_names : NoDup (map snd (context_rows db));
  wf_line_keys : NoDup (map fst (line_bits_rows db));
  wf_arcs : NoDup (arc_rows db);
  wf_tracer_keys : NoDup (map fst (tracer_rows db));
  wf_line_files : forall r, In r (line_bits_rows db) -> fst (fst r) <= id_bound db;
  wf_arc_files : forall r, In r (arc_rows db) -> fst (fst (fst r)) <= id_bound db;
  wf_tracer_files : forall r, In r (tracer_rows db) -> fst r <= id_bound db;
}.

(** Each entry of [_file_map] is a row of the [file] table. *)
Definition map_ok (s : CoverageData) (db : Db) : Prop :=
  forall filename file_id,
    dict_get String.eqb filename (_file_map s) = Some file_id ->
    In (file_id, filename) (file_rows db).

(** The invariant of the tables and the file map of an object whose database
    is in memory. *)
Definition WF (s : CoverageData) : Prop :=
  in_memory s
  /\ (_dbs s = false -> _file_map s = [])
  /\ forall db, database s = Some db -> db_wf db /\ map_ok s db.

(** A file id that the tables know. *)
Definition known (file_id : Z) (s : CoverageData) : Prop :=
  forall db, database s = Some db -> file_id <= id_bound db.

(** A triple on the result and the state of a method: [Q] when it returns,
    [E] when it raises. *)
Definition triple {A} (P : CoverageData -> Prop) (m : M A)
    (Q : A -> CoverageData -> Prop) (E : CoverageData -> Prop) : Prop :=
  forall s, P s ->
    match m s with
    | (Return a, s') => Q a s'
    | (Raise _, s') => E s'
    end.

(** A statement that keeps the constraints and the rows of [file]. *)
Definition wf_stable (stmt : Db -> Db) : Prop :=
  forall db, db_wf db -> db_wf (stmt db) /\ file_rows (stmt db) = file_rows db.

(** An update of the attributes that the invariant of the tables does not
    read. *)
Definition maps_stable (f : CoverageData -> CoverageData) : Prop :=
  forall s, _dbs (f s) = _dbs s /\ _file_map (f s) = _file_map s
            /\ database (f s) = database s /\ _no_disk (f s) = _no_disk s.

(** The invariant, on a connected store, with file ids that the tables
    know. *)
Definition K (ids : list Z) (s : CoverageData) : Prop :=
  WF s /\ ready s /\ forall id, In id ids -> known id s.

(** A computation that leaves the state as it is. *)
Definition pure_m {A} (m : M A) : Prop := forall s, snd (m s) = s.

(* ================================================================== *)
(** * What a store holds for a file *)
(* ================================================================== *)

(** [None] of a query is no data. *)
Definition as_list {A} (o : option (list A)) : list A :=
  match o with
  | Some l => l
  | None => []
  end.

(** The arcs of the rows of a file, whatever the context, in the order of the
    index; [None] for a file that is not in the file map. *)
Definition arcs_raw (s : CoverageData) (db : Db) (filename : string)
  : option (list (Z * Z)) :=
  option_map
    (fun file_id =>
       map (fun r => (snd (fst r), snd r))
           (filter (fun r => fst (fst (fst r)) =? file_id)
                   (sorted arc_index_leb (arc_rows db))))
    (dict_get String.eqb filename (_file_map s)).

(** The line numbers of the rows of a file, whatever the context. *)
Definition lines_raw (s : CoverageData) (db : Db) (filename : string)
  : option (list nat) :=
  option_map
    (fun file_id =>
       flat_map (fun r => numbits_to_nums (snd r))
                (filter (fun r => fst (fst r) =? file_id) (line_bits_rows db)))
    (dict_get String.eqb filename (_file_map s)).

(** Two stores with the same data: only [meta], the flags of the mode and
    [_current_context_id] may differ. *)
Definition same_data (s : CoverageData) (db : Db) (s' : CoverageData) (db' : Db) : Prop :=
  _file_map s' = _file_map s
  /\ _query_context_ids s' = _query_context_ids s
  /\ _current_context s' = _current_context s
  /\ file_rows db' = file_rows db
  /\ line_bits_rows db' = line_bits_rows db
  /\ arc_rows db' = arc_rows db
  /\ tracer_rows db' = tracer_rows db.

(** A connected store whose tables and file map are consistent. *)
Definition good (s : CoverageData) (db : Db) : Prop :=
  in_use s db /\ db_wf db /\ map_ok s db.


(** Arcs whose line numbers SQLite can store. *)
Definition storable (arcs : list (Z * Z)) : Prop :=
  forall a, In a arcs -> sqlite_int (fst a) && sqlite_int (snd a) = true.

(* ================================================================== *)
(** * Proofs: [_line_ranges] and [format_lines] *)
(* ================================================================== *)

Lemma memZ_In x l : memZ x l = true <-> In x l.
Proof.
  unfold memZ. rewrite existsb_exists. split.
  - intros [y [Hy E]]. apply Z.eqb_eq in E. now subst.
  - intros H. exists x. split; [assumption | apply Z.eqb_refl].
Qed.

Lemma memZ_false x l : memZ x l = false <-> ~ In x l.
Proof.
  rewrite <- memZ_In. destruct (memZ x l); intuition congruence.
Qed.

(* insertion sort facts *)
Section SortFacts.
Context {A : Type} (leb : A -> A -> bool).

Lemma insert_sorted_last x l :
  Forall (fun y => leb y x = true) l -> insert_sorted leb x l = l ++ [x].
Proof.
  induction 1 as [|y l Hy Hl IH]; simpl; [reflexivity|].
  rewrite Hy, IH. reflexivity.
Qed.

Lemma sorted_acc_ordered l : forall acc,
  StronglySorted (fun x y => leb x y = true) (acc ++ l) ->
  fold_left (fun acc x => insert_sorted leb x acc) l acc = acc ++ l.
Proof.
  induction l as [|x l IH]; intros acc H; simpl.
  - now rewrite app_nil_r.
  - rewrite insert_sorted_last.
    + rewrite IH; rewrite <- app_assoc; [reflexivity | exact H].
    + clear IH. induction acc as [|y acc IHa]; constructor.
      * simpl in H. inversion H as [|? ? ? Hall]; subst.
        rewrite Forall_forall in Hall. apply Hall.
        apply in_or_app. right. left. reflexivity.
      * apply IHa. simpl in H. now inversion H.
Qed.

Lemma sorted_ordered l :
  StronglySorted (fun x y => leb x y = true) l -> sorted leb l = l.
Proof. intros H. unfold sorted. now rewrite sorted_acc_ordered. Qed.

Lemma insert_sorted_perm x l : Permutation (insert_sorted leb x l) (x :: l).
Proof.
  induction l as [|y l IH]; simpl; [reflexivity|].
  destruct (leb y x).
  - rewrite IH. apply perm_swap.
  - reflexivity.
Qed.

Lemma sorted_perm_acc l : forall acc,
  Permutation (fold_left (fun acc x => insert_sorted leb x acc) l acc) (acc ++ l).
Proof.
  induction l as [|x l IH]; intros acc; simpl.
  - now rewrite app_nil_r.
  - etransitivity; [apply IH|].
    etransitivity; [apply Permutation_app_tail, insert_sorted_perm|].
    simpl. apply Permutation_middle.
Qed.

Lemma sorted_perm l : Permutation (sorted leb l) l.
Proof. unfold sorted. apply (sorted_perm_acc l []). Qed.
End SortFacts.

Lemma insert_sorted_Z_sorted x l :
  StronglySorted Z.le l -> StronglySorted Z.le (insert_sorted Z.leb x l).
Proof.
  induction 1 as [|y l Hl IH Hy]; simpl.
  - constructor; constructor.
  - destruct (Z.leb_spec y x).
    + constructor; [assumption|].
      rewrite Forall_forall in *. intros z Hz.
      apply (Permutation_in _ (insert_sorted_perm Z.leb x l)) in Hz.
      destruct Hz as [<-|Hz]; [assumption | now apply Hy].
    + constructor; [now constructor|].
      constructor; [lia|].
      rewrite Forall_forall in *. intros z Hz. specialize (Hy z Hz). lia.
Qed.

Lemma sorted_Z_sorted l : StronglySorted Z.le (sorted Z.leb l).
Proof.
  unfold sorted.
  assert (G : forall acc, StronglySorted Z.le acc ->
            StronglySorted Z.le (fold_left (fun acc x => insert_sorted Z.leb x acc) l acc)).
  { induction l as [|x l IH]; intros acc H; simpl; [assumption|].
    apply IH. now apply insert_sorted_Z_sorted. }
  apply G. constructor.
Qed.

Lemma sorted_le_nodup_lt l :
  StronglySorted Z.le l -> NoDup l -> StronglySorted Z.lt l.
Proof.
  induction 1 as [|x l Hl IH Hx]; intros Hnd; constructor.
  - apply IH. now inversion Hnd.
  - inversion Hnd as [|? ? Hnotin _]; subst.
    rewrite Forall_forall in *. intros y Hy.
    specialize (Hx y Hy). assert (x <> y) by (intros ->; contradiction). lia.
Qed.

Lemma sorted_Z_strict l : NoDup l -> StronglySorted Z.lt (sorted Z.leb l).
Proof.
  intros H. apply sorted_le_nodup_lt; [apply sorted_Z_sorted|].
  eapply Permutation_NoDup; [|exact H].
  symmetry. apply sorted_perm.
Qed.

Lemma runs_from_ext lines lines' statements : forall cur,
  (forall s, In s statements -> memZ s lines = memZ s lines') ->
  runs_from lines statements cur = runs_from lines' statements cur.
Proof.
  induction statements as [|s S IH]; intros cur H; simpl; [reflexivity|].
  rewrite <- (H s (or_introl eq_refl)).
  destruct (memZ s lines); [|destruct cur]; rewrite IH; auto;
    intros; apply H; now right.
Qed.

Lemma runs_from_no_lines statements :
  runs_from [] statements None = [].
Proof. induction statements; simpl; auto. Qed.

(** The loop of [_line_ranges] on sorted arguments computes [runs_from]. *)
Lemma line_ranges_loop_runs statements : forall lines st,
  StronglySorted Z.lt statements ->
  StronglySorted Z.lt lines ->
  incl lines statements ->
  Forall (fun s => 0 < s) statements ->
  finish (line_ranges_loop statements lines st)
  = rs_pairs st ++ runs_from lines statements (open_run st).
Proof.
  induction statements as [|s S IH]; intros lines st HS HL Hincl Hpos.
  - simpl. unfold finish, open_run. destruct (truthy (rs_start st)); simpl;
      [reflexivity | now rewrite app_nil_r].
  - inversion HS as [|? ? HS' HsS]; subst.
    inversion Hpos as [|? ? Hs0 Hpos']; subst.
    rewrite Forall_forall in HsS.
    destruct lines as [|l L].
    + simpl. rewrite runs_from_no_lines.
      unfold finish, open_run. destruct (truthy (rs_start st)); simpl;
        [reflexivity | now rewrite app_nil_r].
    + inversion HL as [|? ? HL' HlL]; subst.
      rewrite Forall_forall in HlL.
      cbn [line_ranges_loop runs_from].
      destruct (Z.eqb_spec s l) as [->|Hne].
      * (* the statement is the next line *)
        assert (Hmem : memZ l (l :: L) = true) by (apply memZ_In; now left).
        rewrite Hmem.
        rewrite IH; auto.
        -- cbn [rs_pairs]. f_equal.
           rewrite (runs_from_ext (l :: L) L).
           ++ f_equal. unfold open_run; cbn [rs_start rs_end].
              destruct (truthy (rs_start st)) eqn:Et.
              ** rewrite Et. reflexivity.
              ** cbn [truthy]. destruct (Z.eqb_spec l 0); [lia | reflexivity].
           ++ intros x Hx. unfold memZ. simpl.
              destruct (Z.eqb_spec x l); [|reflexivity].
              subst. specialize (HsS l Hx). lia.
        -- intros x Hx. destruct (Hincl x (or_intror Hx)) as [E|]; [|assumption].
           specialize (HlL x Hx). lia.
      * (* the statement is not among the lines left *)
        assert (HlS : In l S).
        { destruct (Hincl l (or_introl eq_refl)); [congruence | assumption]. }
        assert (Hmem : memZ s (l :: L) = false).
        { apply memZ_false. intros [->|Hin]; [congruence|].
          specialize (HlL s Hin). specialize (HsS l HlS). lia. }
        rewrite Hmem.
        assert (Hincl' : incl (l :: L) S).
        { intros x Hx. destruct (Hincl x Hx) as [E|]; [|assumption].
          apply memZ_false in Hmem. subst x. contradiction. }
        unfold open_run at 1.
        destruct (truthy (rs_start st)) eqn:Et.
        -- rewrite IH; auto. cbn [rs_pairs]. rewrite <- app_assoc. reflexivity.
        -- rewrite IH; auto. unfold open_run. rewrite Et. reflexivity.
Qed.

Lemma line_ranges_runs statements lines :
  NoDup statements -> NoDup lines -> incl lines statements ->
  Forall (fun s => 0 < s) statements ->
  _line_ranges statements lines
  = runs_from (sorted Z.leb lines) (sorted Z.leb statements) None.
Proof.
  intros HS HL Hincl Hpos.
  change (_line_ranges statements lines)
    with (finish (line_ranges_loop (sorted Z.leb statements) (sorted Z.leb lines)
                    (RS [] None 0))).
  rewrite line_ranges_loop_runs; [reflexivity | | | |].
  - now apply sorted_Z_strict.
  - now apply sorted_Z_strict.
  - intros x Hx.
    apply (Permutation_in _ (Permutation_sym (sorted_perm Z.leb statements))).
    apply Hincl.
    apply (Permutation_in _ (sorted_perm Z.leb lines)). exact Hx.
  - rewrite Forall_forall in *. intros x Hx. apply Hpos.
    apply (Permutation_in _ (sorted_perm Z.leb statements)). exact Hx.
Qed.

Lemma last_cons_default (x d : Z) l : last (x :: l) d = last l x.
Proof.
  revert x d. induction l as [|y l IH]; intros x d; [reflexivity|].
  change (last (x :: y :: l) d) with (last (y :: l) d).
  rewrite IH. symmetry. apply (IH y x).
Qed.

Lemma ends_outside_cons lines s S1 :
  S1 <> [] -> (ends_outside lines (s :: S1) <-> ends_outside lines S1).
Proof.
  intros Hne. unfold ends_outside. split; intros H b0 x E.
  - apply (H (s :: b0) x). now rewrite E.
  - destruct b0 as [|y b0]; simpl in E.
    + injection E as _ E. congruence.
    + injection E as _ E. eapply H. exact E.
Qed.

Lemma ends_outside_one lines s : ends_outside lines [s] <-> ~ In s lines.
Proof.
  unfold ends_outside. split.
  - intros H. apply (H [] s). reflexivity.
  - intros H b0 x E. destruct b0 as [|y b0]; simpl in E.
    + injection E as ->. assumption.
    + injection E as _ E. destruct b0; discriminate.
Qed.

Lemma ends_outside_nil lines : ends_outside lines [].
Proof. intros b0 s E. destruct b0; discriminate. Qed.

Lemma starts_outside_nil lines : starts_outside lines [].
Proof. intros s a0 E. discriminate. Qed.

Lemma starts_outside_cons lines s S : starts_outside lines (s :: S) <-> ~ In s lines.
Proof.
  unfold starts_outside. split.
  - intros H. apply (H s S). reflexivity.
  - intros H x a0 E. injection E as -> _. assumption.
Qed.

Ltac run_facts :=
  repeat split;
  auto using ends_outside_nil, starts_outside_nil;
  try (now rewrite last_cons_default);
  try (now apply ends_outside_cons);
  try (now apply ends_outside_one);
  try (now apply starts_outside_cons);
  try congruence.

Lemma runs_from_spec lines S : forall cur a b,
  In (a, b) (runs_from lines S cur) <->
  attached lines S cur a b \/ detached lines S cur a b.
Proof.
  induction S as [|s S IH]; intros cur a b.
  - simpl. split.
    + intros H. left. destruct cur as [[a0 b0]|]; [|contradiction].
      destruct H as [H|[]]. injection H as -> ->.
      exists a, b, [], []. run_facts.
    + intros [(a0 & b0 & R & S2 & -> & E & _ & _ & -> & ->)
             |(S1 & R & S2 & E & Hhd & _)].
      * destruct R; [|discriminate]. left. reflexivity.
      * destruct S1; [|discriminate]. destruct R; discriminate.
  - cbn [runs_from]. destruct (memZ s lines) eqn:Hs.
    + (* the statement is a line: the run goes on, or starts *)
      apply memZ_In in Hs. rewrite IH. clear IH. split.
      * intros [(a0 & b0 & R & S2 & Ec & -> & HR & HS2 & -> & ->)
               |(S1 & R & S2 & -> & Hhd & Hl & HR & HS1 & HS2 & Hne)].
        -- injection Ec as <- <-. destruct cur as [[a0 b0]|]; cbn [fst].
           ++ left. exists a0, b0, (s :: R), S2. run_facts.
           ++ right. exists [], (s :: R), S2. run_facts.
        -- right. exists (s :: S1), R, S2.
           assert (S1 <> []) by (apply Hne; discriminate).
           run_facts.
      * intros [(a0 & b0 & R & S2 & -> & E & HR & HS2 & -> & ->)
               |(S1 & R & S2 & E & Hhd & Hl & HR & HS1 & HS2 & Hne)].
        -- destruct R as [|r R]; simpl in E.
           ++ subst S2. apply starts_outside_cons in HS2. contradiction.
           ++ injection E as <- ->. left.
              exists a0, s, R, S2. inversion HR; subst. run_facts.
        -- destruct S1 as [|s1 S1]; simpl in E.
           ++ destruct R as [|r R]; [discriminate|].
              simpl in E. injection E as <- ->.
              simpl in Hhd. injection Hhd as <-.
              left. exists (match cur with Some p => fst p | None => s end), s, R, S2.
              destruct cur as [p|]; [exfalso; apply Hne; [discriminate | reflexivity]|].
              inversion HR; subst. run_facts.
           ++ injection E as <- ->.
              assert (S1 <> []).
              { intros ->. apply ends_outside_one in HS1. contradiction. }
              right. exists S1, R, S2.
              apply ends_outside_cons in HS1; [|assumption]. run_facts.
    + (* the statement is not a line: the open run, if any, is closed *)
      apply memZ_false in Hs.
      assert (Hdet : forall c, In (a, b) (runs_from lines S None)
                          <-> detached lines (s :: S) c a b).
      { intros c. rewrite IH. clear IH. split.
        - intros [(a0 & b0 & R & S2 & Ec & _)
                 |(S1 & R & S2 & -> & Hhd & Hl & HR & HS1 & HS2 & Hne)];
            [discriminate|].
          exists (s :: S1), R, S2.
          assert (ends_outside lines (s :: S1)).
          { destruct S1; [now apply ends_outside_one | now apply ends_outside_cons]. }
          run_facts.
        - intros (S1 & R & S2 & E & Hhd & Hl & HR & HS1 & HS2 & Hne).
          right. destruct S1 as [|s1 S1]; simpl in E.
          + destruct R as [|r R]; [discriminate|]. simpl in E.
            injection E as <- ->. inversion HR; subst. contradiction.
          + injection E as <- ->. exists S1, R, S2.
            assert (ends_outside lines S1).
            { destruct S1; [apply ends_outside_nil | now apply ends_outside_cons in HS1]. }
            run_facts. }
      destruct cur as [[a0 b0]|].
      * cbn [In]. rewrite (Hdet (Some (a0, b0))). split.
        -- intros [E|H]; [|now right]. injection E as -> ->. left.
           exists a, b, [], (s :: S). run_facts.
        -- intros [(a1 & b1 & R & S2 & Ec & E & HR & HS2 & -> & ->)|H]; [|now right].
           injection Ec as -> ->. left.
           destruct R as [|r R]; [reflexivity|].
           simpl in E. injection E as <- ->. inversion HR; subst. contradiction.
      * rewrite (Hdet None). split; [now right|].
        intros [(a1 & b1 & R & S2 & Ec & _)|H]; [discriminate | assumption].
Qed.

Lemma runs_maximal lines lines' S a b :
  (forall s, In s lines' <-> In s lines) ->
  In (a, b) (runs_from lines' S None) <-> maximal_run S lines a b.
Proof.
  intros Hl. rewrite runs_from_spec. unfold maximal_run, attached, detached.
  assert (HF : forall R, Forall (fun s => In s lines') R <-> Forall (fun s => In s lines) R).
  { intros R. rewrite !Forall_forall. split; intros H x Hx; apply Hl; auto. }
  assert (HE : forall R, ends_outside lines' R <-> ends_outside lines R).
  { intros R. split; intros H b0 s E Hs; apply (H b0 s E); now apply Hl. }
  assert (HT : forall R, starts_outside lines' R <-> starts_outside lines R).
  { intros R. split; intros H s a0 E Hs; apply (H s a0 E); now apply Hl. }
  split.
  - intros [(a0 & b0 & R & S2 & Ec & _)
           |(S1 & R & S2 & -> & Hhd & Hla & HR & HS1 & HS2 & _)]; [discriminate|].
    exists S1, R, S2. rewrite <- HF, <- HE, <- HT. auto 10.
  - intros (S1 & R & S2 & -> & Hhd & Hla & HR & HS1 & HS2).
    right. exists S1, R, S2. rewrite HF, HE, HT.
    repeat split; auto; congruence.
Qed.

(** The runs are in ascending order and do not touch. *)
Lemma runs_from_chain lines S : forall cur lo,
  StronglySorted Z.lt S ->
  Forall (fun s => lo < s) S ->
  match cur with
  | Some (a0, b0) =>
      a0 <= b0 /\ b0 <= lo ->
      exists b' r, runs_from lines S cur = (a0, b') :: r /\ b0 <= b' /\ chain b' r
  | None => chain lo (runs_from lines S None)
  end.
Proof.
  induction S as [|s S IH]; intros cur lo HS Hlo.
  - destruct cur as [[a0 b0]|]; simpl; [|exact I].
    intros [? ?]. exists b0, []. simpl. repeat split; auto; lia.
  - inversion HS as [|? ? HS' HsS]; subst.
    inversion Hlo as [|? ? Hs Hlo']; subst.
    cbn [runs_from]. destruct (memZ s lines).
    + destruct cur as [[a0 b0]|]; cbn [fst].
      * intros [? ?].
        destruct (IH (Some (a0, s)) s HS' HsS) as (b' & r & E & Hb & Hc); [lia|].
        exists b', r. repeat split; auto; lia.
      * destruct (IH (Some (s, s)) s HS' HsS) as (b' & r & E & Hb & Hc); [lia|].
        rewrite E. simpl. repeat split; auto; lia.
    + assert (Hsl : Forall (fun x => lo < x) S).
      { rewrite Forall_forall in *. intros x Hx. specialize (HsS x Hx). lia. }
      destruct cur as [[a0 b0]|].
      * intros [? ?]. exists b0, (runs_from lines S None).
        repeat split; auto; [lia|].
        apply (IH None b0 HS').
        rewrite Forall_forall in *. intros x Hx. specialize (Hsl x Hx). lia.
      * apply (IH None lo HS' Hsl).
Qed.

Lemma chain_sorted r : forall lo,
  chain lo r ->
  StronglySorted (fun p q => snd p < fst q) r /\ Forall (fun p => lo < fst p) r.
Proof.
  induction r as [|p r IH]; intros lo H; simpl in *.
  - split; constructor.
  - destruct H as (H1 & H2 & H3). destruct (IH _ H3) as [IH1 IH2].
    split; constructor; auto.
    rewrite Forall_forall in *. intros q Hq. specialize (IH2 q Hq). lia.
Qed.

Lemma line_items_sorted (ranges : list (Z * Z)) :
  StronglySorted (fun p q => snd p < fst q) ranges ->
  Forall (fun p => fst p <= snd p) ranges ->
  sorted (pair_leb Z.ltb String.leb) (map (fun pair => (fst pair, nice_pair pair)) ranges)
  = map (fun pair => (fst pair, nice_pair pair)) ranges.
Proof.
  intros Hs Hle. apply sorted_ordered.
  induction Hs as [|p r Hr IH Hp]; simpl; constructor.
  - apply IH. now inversion Hle.
  - inversion Hle as [|? ? Hp' Hle']; subst.
    rewrite Forall_forall in *. intros q Hq.
    apply in_map_iff in Hq. destruct Hq as (q0 & <- & Hq0).
    specialize (Hp q0 Hq0). unfold pair_leb. cbn [fst snd].
    destruct (Z.ltb_spec (fst p) (fst q0)); [reflexivity | lia].
Qed.

Lemma chain_ordered r : forall lo,
  chain lo r -> Forall (fun p => fst p <= snd p) r.
Proof.
  induction r as [|p r IH]; intros lo H; constructor; simpl in H.
  - tauto.
  - apply (IH (snd p)). tauto.
Qed.

(** C8.  Under the conditions that the docstring of [format_lines] sets (the
    lines are among the statements, all are positive; both are sets), the
    ranges of [_line_ranges] are exactly the maximal runs of consecutive
    statements that are all among the lines, in ascending order; without arcs
    [format_lines], and so [missing_formatted], joins with [", "] one token per
    range, ["a"] for a singleton and ["a-b"] otherwise; on the statements
    [1,2,3,4,5,10,11,12,13,14] and the lines [1,2,5,10,11,13,14] the result is
    ["1-2, 5-11, 13-14"]. *)
Theorem format_lines_coalesces_runs (statements lines : list Z) :
  NoDup statements -> NoDup lines -> incl lines statements ->
  Forall (fun s => 0 < s) statements ->
  let ranges := _line_ranges statements lines in
  (forall a b, In (a, b) ranges <-> maximal_run (sorted Z.leb statements) lines a b)
  /\ StronglySorted (fun p q => snd p < fst q) ranges
  /\ format_lines statements lines None = join ", " (map nice_pair ranges)
  /\ (forall an, Analysis.statements an = statements -> Analysis.missing an = lines ->
        Analysis.missing_formatted an false = join ", " (map nice_pair ranges))
  /\ (forall a, nice_pair (a, a) = str_of_int a)
  /\ (forall a b, a <> b -> nice_pair (a, b) = (str_of_int a ++ "-" ++ str_of_int b)%string)
  /\ format_lines [1;2;3;4;5;10;11;12;13;14] [1;2;5;10;11;13;14] None
     = "1-2, 5-11, 13-14".
Proof.
  intros HS HL Hincl Hpos ranges.
  assert (E : ranges = runs_from (sorted Z.leb lines) (sorted Z.leb statements) None)
    by (now apply line_ranges_runs).
  assert (Hchain : chain 0 ranges).
  { rewrite E.
    apply (runs_from_chain (sorted Z.leb lines) (sorted Z.leb statements) None 0).
    - now apply sorted_Z_strict.
    - rewrite Forall_forall in *. intros x Hx. apply Hpos.
      apply (Permutation_in _ (sorted_perm Z.leb statements)). exact Hx. }
  assert (Hfmt : format_lines statements lines None = join ", " (map nice_pair ranges)).
  { unfold format_lines. fold ranges.
    rewrite line_items_sorted.
    - rewrite map_map. reflexivity.
    - apply (chain_sorted ranges 0 Hchain).
    - apply (chain_ordered ranges 0 Hchain). }
  split; [|split; [|split; [|split; [|split; [|split]]]]].
  - intros a b. rewrite E. apply runs_maximal.
    intros s. split; intros H.
    + apply (Permutation_in _ (sorted_perm Z.leb lines)). exact H.
    + apply (Permutation_in _ (Permutation_sym (sorted_perm Z.leb lines))). exact H.
  - apply (chain_sorted ranges 0 Hchain).
  - exact Hfmt.
  - intros an Hst Hmi. unfold Analysis.missing_formatted. cbn [andb].
    rewrite Hst, Hmi. exact Hfmt.
  - intros a. unfold nice_pair. now rewrite Z.eqb_refl.
  - intros a b Hab. unfold nice_pair. destruct (Z.eqb_spec a b); [contradiction | reflexivity].
  - vm_compute. reflexivity.
Qed.

Lemma format_lines_coalesces_runs_witness :
  maximal_run (sorted Z.leb [1;2;3;4;5;10;11;12;13;14]) [1;2;5;10;11;13;14] 5 11.
Proof.
  refine (proj1 (proj1 (format_lines_coalesces_runs
                          [1;2;3;4;5;10;11;12;13;14] [1;2;5;10;11;13;14] _ _ _ _)
                   5 11) _).
  - repeat (apply NoDup_cons; [cbn; lia|]). apply NoDup_nil.
  - repeat (apply NoDup_cons; [cbn; lia|]). apply NoDup_nil.
  - intros x Hx. cbn in *. intuition.
  - repeat (apply Forall_cons; [lia|]). apply Forall_nil.
  - vm_compute. intuition.
Defined.

(* ================================================================== *)
(** * Proofs: [should_fail_under] *)
(* ================================================================== *)

(** C5.  [should_fail_under] raises [ConfigError] exactly when [fail_under] is
    not within [0, 100]; otherwise it is true when [fail_under == 100.0] and
    [total != 100.0], and in every remaining case it is the comparison of
    [round(total, precision)] with [fail_under].  With [fail_under = 90],
    [total = 89.9] and [precision = 0] it is false; with [fail_under = 100] and
    [total = 99.9999] it is true; [fail_under = -1] raises. *)
Theorem should_fail_under_cases :
  (forall total fail_under precision,
     raises_class ConfigError (should_fail_under total fail_under precision)
     <-> valid_fail_under fail_under = false)
  /\ (forall total fail_under precision,
        valid_fail_under fail_under = true ->
        feq fail_under (float_of_int 100) = true ->
        feq total (float_of_int 100) = false ->
        should_fail_under total fail_under precision = Return true)
  /\ (forall total fail_under precision r,
        valid_fail_under fail_under = true ->
        feq fail_under (float_of_int 100) && negb (feq total (float_of_int 100)) = false ->
        py_round total precision = Return r ->
        should_fail_under total fail_under precision = Return (flt r fail_under))
  /\ should_fail_under (float_lit 899 1) (float_lit 90 0) 0 = Return false
  /\ (forall precision,
        should_fail_under (float_lit 999999 4) (float_lit 100 0) precision = Return true)
  /\ (forall total precision,
        raises_class ConfigError (should_fail_under total (float_lit (-1) 0) precision)).
Proof.
  assert (H1 : forall total fail_under precision,
     raises_class ConfigError (should_fail_under total fail_under precision)
     <-> valid_fail_under fail_under = false).
  { intros total fu p. unfold should_fail_under, raises_class.
    fold (valid_fail_under fu). destruct (valid_fail_under fu); cbn [negb].
    - split; [|discriminate]. intros (msg & args & H).
      destruct (feq fu (float_of_int 100) && negb (feq total (float_of_int 100)));
        [discriminate|].
      unfold py_round in H. destruct total as [| | |s m e]; try discriminate.
      destruct (scale10 (frac_of m e) p) as [a b].
      match type of H with
      | context [match ?r with S754_infinity _ => _ | _ => _ end] => destruct r
      end; discriminate.
    - split; [reflexivity|]. intros _. eauto. }
  split; [exact H1|]. split; [|split; [|split; [|split]]].
  - intros total fu p Hv H100 Ht. unfold should_fail_under.
    fold (valid_fail_under fu). rewrite Hv, H100, Ht. reflexivity.
  - intros total fu p r Hv Hc Hr. unfold should_fail_under.
    fold (valid_fail_under fu). rewrite Hv, Hc, Hr. reflexivity.
  - vm_compute. reflexivity.
  - intros p. reflexivity.
  - intros total p. apply H1. vm_compute. reflexivity.
Qed.

(* ================================================================== *)
(** * Proofs: [_regexp] *)
(* ================================================================== *)

Section RegexProofs.
Local Open Scope string_scope.







End RegexProofs.

(* ================================================================== *)
(** * Proofs: [display_covered] *)
(* ================================================================== *)

Lemma digits2_size m : digits2_pos m = Pos.size m.
Proof. induction m; simpl; congruence. Qed.

Lemma digits2_upper m : Zpos m < 2 ^ Zpos (digits2_pos m).
Proof.
  rewrite digits2_size.
  pose proof (Pos.size_gt m) as H.
  apply Pos2Z.pos_lt_pos in H. rewrite Pos2Z.inj_pow in H. exact H.
Qed.

Lemma digits2_lower m : 2 ^ (Zpos (digits2_pos m) - 1) <= Zpos m.
Proof.
  rewrite digits2_size.
  pose proof (Pos.size_le m) as H.
  apply Pos2Z.pos_le_pos in H. rewrite Pos2Z.inj_pow in H.
  change (Z.pos m~0) with (2 * Z.pos m) in H.
  replace (Z.pos (Pos.size m)) with (Z.succ (Z.pos (Pos.size m) - 1)) in H by lia.
  rewrite Z.pow_succ_r in H by lia. lia.
Qed.

(** What [bounded] says of a mantissa and its exponent. *)
Lemma bounded_digits m e :
  bounded prec64 emax64 m e = true ->
  -1074 <= e /\ Zpos (digits2_pos m) <= 53 /\ (-1074 < e -> Zpos (digits2_pos m) = 53).
Proof.
  unfold bounded, canonical_mantissa, fexp, emin, prec64, emax64.
  intros H. apply andb_prop in H. destruct H as [H _].
  apply Z.eqb_eq in H. lia.
Qed.

Lemma bounded_mantissa m e :
  bounded prec64 emax64 m e = true ->
  -1074 <= e /\ Zpos m < 2 ^ 53 /\ (-1074 < e -> 2 ^ 52 <= Zpos m).
Proof.
  intros H. destruct (bounded_digits m e H) as (He & Hd & Hn).
  split; [assumption|]. split.
  - pose proof (digits2_upper m).
    assert (2 ^ Zpos (digits2_pos m) <= 2 ^ 53) by (apply Z.pow_le_mono_r; lia).
    lia.
  - intros Hlt. specialize (Hn Hlt). pose proof (digits2_lower m) as Hl.
    rewrite Hn in Hl. exact Hl.
Qed.

Lemma flt_finite m e M E :
  flt (S754_finite false m e) (S754_finite false M E) = true ->
  e < E \/ (e = E /\ Zpos m < Zpos M).
Proof.
  unfold flt, SFltb, SFcompare.
  change (Pos.compare_cont Eq m M) with (Pos.compare m M).
  intros H.
  destruct (Z.compare_spec e E) as [He|He|He]; [right | left; exact He | discriminate].
  destruct (Pos.compare_spec m M) as [Hm|Hm|Hm]; try discriminate.
  split; [assumption | lia].
Qed.

Lemma flt_neither m e M E :
  flt (S754_finite false m e) (S754_finite false M E) = false ->
  flt (S754_finite false M E) (S754_finite false m e) = false ->
  m = M /\ e = E.
Proof.
  unfold flt, SFltb, SFcompare.
  change (Pos.compare_cont Eq m M) with (Pos.compare m M).
  change (Pos.compare_cont Eq M m) with (Pos.compare M m).
  rewrite (Z.compare_antisym e E), (Pos.compare_antisym m M).
  intros H1 H2.
  destruct (Z.compare_spec e E) as [He|He|He]; cbn [CompOpp] in *; try discriminate.
  destruct (Pos.compare_spec m M) as [Hm|Hm|Hm]; cbn [CompOpp] in *; try discriminate.
  auto.
Qed.

(** A float below [M * 2^E] in the order of floats is below every threshold
    [tn / td] above the float that precedes [M * 2^E]. *)
Lemma flt_below m e M E tn td :
  bounded prec64 emax64 m e = true ->
  E < 0 -> 0 < td -> 0 < tn ->
  (Zpos M - 1) * td < tn * 2 ^ (- E) ->
  2 ^ 53 * td <= tn * 2 ^ (1 - E) ->
  flt (S754_finite false m e) (S754_finite false M E) = true ->
  fst (frac_of m e) * td < tn * snd (frac_of m e).
Proof.
  intros Hb HE Htd Htn C1 C2 Hlt.
  destruct (bounded_mantissa m e Hb) as (Hemin & Hm & _).
  apply flt_finite in Hlt. destruct Hlt as [Hlt|[Heq Hlt]]; [|subst e].
  - unfold frac_of. destruct (Z.leb_spec 0 e); [lia|]. cbn [fst snd].
    assert (2 ^ (1 - E) <= 2 ^ (- e)) by (apply Z.pow_le_mono_r; lia).
    assert (tn * 2 ^ (1 - E) <= tn * 2 ^ (- e)) by (apply Z.mul_le_mono_nonneg_l; lia).
    assert (Zpos m * td < 2 ^ 53 * td) by (apply Z.mul_lt_mono_pos_r; lia).
    lia.
  - unfold frac_of. destruct (Z.leb_spec 0 E); [lia|]. cbn [fst snd].
    assert (Zpos m * td <= (Zpos M - 1) * td) by (apply Z.mul_le_mono_nonneg_r; lia).
    lia.
Qed.

(** A float above [M * 2^E] in the order of floats is above every threshold
    [tn / td] below the float that follows [M * 2^E]. *)
Lemma flt_above m e M E tn td :
  bounded prec64 emax64 m e = true ->
  -1074 <= E -> E < 0 -> Zpos M < 2 ^ 53 -> 0 < td -> 0 < tn ->
  tn * 2 ^ (- E) < (Zpos M + 1) * td ->
  flt (S754_finite false M E) (S754_finite false m e) = true ->
  tn * snd (frac_of m e) < fst (frac_of m e) * td.
Proof.
  intros Hb HEmin HE HM Htd Htn C3 Hlt.
  destruct (bounded_mantissa m e Hb) as (Hemin & Hm & Hn).
  apply flt_finite in Hlt. destruct Hlt as [Hlt|[Heq Hlt]]; [|subst e].
  - specialize (Hn ltac:(lia)).
    assert (Hbig : tn * 2 ^ (- E) < 2 ^ 53 * td).
    { assert ((Zpos M + 1) * td <= 2 ^ 53 * td) by (apply Z.mul_le_mono_nonneg_r; lia).
      lia. }
    assert (Hmt : 2 ^ 52 * td <= Zpos m * td) by (apply Z.mul_le_mono_nonneg_r; lia).
    unfold frac_of. destruct (Z.leb_spec 0 e); cbn [fst snd].
    + assert (2 ^ 1 <= 2 ^ (- E)) by (apply Z.pow_le_mono_r; lia).
      assert (tn * 2 ^ 1 <= tn * 2 ^ (- E)) by (apply Z.mul_le_mono_nonneg_l; lia).
      assert (1 <= 2 ^ e) by (apply Z.pow_le_mono_r with (b := 0) (c := e) (a := 2) in H; lia).
      assert (Zpos m * td <= Zpos m * 2 ^ e * td).
      { apply Z.mul_le_mono_nonneg_r; [lia|]. nia. }
      change (2 ^ 1) with 2 in *. change (2 ^ 53) with (2 * 2 ^ 52) in Hbig. lia.
    + assert (He : 2 ^ (- e) <= 2 ^ (- E - 1)) by (apply Z.pow_le_mono_r; lia).
      assert (tn * 2 ^ (- e) <= tn * 2 ^ (- E - 1)) by (apply Z.mul_le_mono_nonneg_l; lia).
      replace (- E) with (Z.succ (- E - 1)) in Hbig by lia.
      rewrite Z.pow_succ_r in Hbig by lia.
      change (2 ^ 53) with (2 * 2 ^ 52) in Hbig. lia.
  - unfold frac_of. destruct (Z.leb_spec 0 E); [lia|]. cbn [fst snd].
    assert ((Zpos M + 1) * td <= Zpos m * td) by (apply Z.mul_le_mono_nonneg_r; lia).
    lia.
Qed.

Lemma frac_of_pos m e : 0 < fst (frac_of m e) /\ 0 < snd (frac_of m e).
Proof.
  unfold frac_of. destruct (Z.leb_spec 0 e); cbn [fst snd].
  - split; [|lia]. assert (0 < 2 ^ e) by (apply Z.pow_pos_nonneg; lia). lia.
  - split; [lia|]. apply Z.pow_pos_nonneg; lia.
Qed.

Lemma value_finite_lt m e v tn td :
  0 < td ->
  float_value (S754_finite false m e) = Some v ->
  (v < tn # Z.to_pos td)%Q <-> fst (frac_of m e) * td < tn * snd (frac_of m e).
Proof.
  intros Htd Hv. injection Hv as <-. unfold Qlt. cbn [Qnum Qden].
  destruct (frac_of_pos m e) as [_ Hb].
  rewrite !Z2Pos.id by assumption. reflexivity.
Qed.

Lemma value_finite_gt m e v tn td :
  0 < td ->
  float_value (S754_finite false m e) = Some v ->
  (tn # Z.to_pos td < v)%Q <-> tn * snd (frac_of m e) < fst (frac_of m e) * td.
Proof.
  intros Htd Hv. injection Hv as <-. unfold Qlt. cbn [Qnum Qden].
  destruct (frac_of_pos m e) as [_ Hb].
  rewrite !Z2Pos.id by assumption. reflexivity.
Qed.

Lemma value_positive m e v :
  float_value (S754_finite false m e) = Some v -> (0 < v)%Q.
Proof.
  intros Hv. injection Hv as <-. unfold Qlt. cbn [Qnum Qden].
  destruct (frac_of_pos m e). lia.
Qed.

Lemma value_negative m e v :
  float_value (S754_finite true m e) = Some v -> (v < 0)%Q.
Proof.
  intros Hv. injection Hv as <-. unfold Qlt. cbn [Qnum Qden].
  destruct (frac_of_pos m e). lia.
Qed.

Lemma hundred_is : float_of_int 100 = S754_finite false 7036874417766400 (-46).
Proof. reflexivity. Qed.

Lemma zero_is : float_of_int 0 = S754_zero false.
Proof. reflexivity. Qed.

(** Below 100 in the order of floats is below 100, and above is above. *)
Lemma flt_hundred_below m e v :
  bounded prec64 emax64 m e = true ->
  float_value (S754_finite false m e) = Some v ->
  flt (S754_finite false m e) (float_of_int 100) = true -> (v < 100)%Q.
Proof.
  intros Hb Hv H. rewrite hundred_is in H.
  change 100%Q with (100 # Z.to_pos 1).
  apply (value_finite_lt m e v 100 1); [lia | assumption|].
  apply (flt_below m e 7036874417766400 (-46) 100 1); try assumption; try lia;
    vm_compute; congruence.
Qed.

Lemma flt_hundred_above m e v :
  bounded prec64 emax64 m e = true ->
  float_value (S754_finite false m e) = Some v ->
  flt (float_of_int 100) (S754_finite false m e) = true -> (100 < v)%Q.
Proof.
  intros Hb Hv H. rewrite hundred_is in H.
  change 100%Q with (100 # Z.to_pos 1).
  apply (value_finite_gt m e v 100 1); [lia | assumption|].
  apply (flt_above m e 7036874417766400 (-46) 100 1); try assumption; try lia;
    vm_compute; congruence.
Qed.

Lemma hundred_value m e v :
  float_value (S754_finite false m e) = Some v ->
  S754_finite false m e = float_of_int 100 -> (v == 100)%Q.
Proof.
  intros Hv E. rewrite hundred_is in E. injection E as -> ->.
  injection Hv as <-. vm_compute. reflexivity.
Qed.

Lemma near100_threshold p v :
  0 <= p ->
  (100 - pow10_minus p < v)%Q <-> ((100 * 10 ^ p - 1) # Z.to_pos (10 ^ p) < v)%Q.
Proof.
  intros Hp.
  assert (Hd : 0 < 10 ^ p) by (apply Z.pow_pos_nonneg; lia).
  unfold Qlt, Qminus, Qplus, Qopp, pow10_minus. cbn [Qnum Qden].
  change (Z.pos (1 * Z.to_pos (10 ^ p))) with (Z.pos (Z.to_pos (10 ^ p))).
  rewrite Z2Pos.id by assumption.
  replace (100 * 10 ^ p + - (1) * 1) with (100 * 10 ^ p - 1) by ring. reflexivity.
Qed.

Lemma boundaries_facts (self : Numbers) m0 e0 m1 e1 :
  boundaries_ok self m0 e0 m1 e1 = true ->
  let p := _precision self in
  let d := 10 ^ p in
  let t1 := 100 * d - 1 in
  (0 <= p /\ e0 < 0 /\ e1 < 0 /\ -1074 <= e0 /\ -1074 <= e1
   /\ Zpos m0 < 2 ^ 53 /\ Zpos m1 < 2 ^ 53)
  /\ ((Zpos m0 - 1) * d < 1 * 2 ^ (- e0) /\ 2 ^ 53 * d <= 1 * 2 ^ (1 - e0)
      /\ 1 * 2 ^ (- e0) < (Zpos m0 + 1) * d)
  /\ ((Zpos m1 - 1) * d < t1 * 2 ^ (- e1) /\ 2 ^ 53 * d <= t1 * 2 ^ (1 - e1)
      /\ t1 * 2 ^ (- e1) < (Zpos m1 + 1) * d)
  /\ display_covered self (S754_finite false m0 e0) = Return (fixed_point p 1)
  /\ display_covered self (S754_finite false m1 e1) = Return (fixed_point p t1)
  /\ format_f p (S754_finite false m0 e0) = fixed_point p 1
  /\ format_f p (S754_finite false m1 e1) = fixed_point p t1
  /\ flt (S754_finite false m0 e0) (S754_finite false m1 e1) = true.
Proof.
  unfold boundaries_ok. intros H.
  repeat (apply andb_prop in H; destruct H as [H ?]).
  repeat match goal with
         | H : (_ <=? _) = true |- _ => apply Z.leb_le in H
         | H : (_ <? _) = true |- _ => apply Z.ltb_lt in H
         | H : String.eqb _ _ = true |- _ => apply String.eqb_eq in H
         end.
  destruct (display_covered self (S754_finite false m0 e0)) as [t0|]; [|discriminate].
  destruct (display_covered self (S754_finite false m1 e1)) as [t1'|]; [|discriminate].
  repeat match goal with
         | H : String.eqb _ _ = true |- _ => apply String.eqb_eq in H
         end.
  subst. rewrite !Z.mul_1_l. repeat split; assumption.
Qed.

Lemma display_covered_generic (self : Numbers) m0 e0 m1 e1 (pc : float) (v : Q) :
  _near0 self = S754_finite false m0 e0 ->
  _near100 self = S754_finite false m1 e1 ->
  boundaries_ok self m0 e0 m1 e1 = true ->
  is_float pc = true ->
  float_value pc = Some v ->
  let p := _precision self in
  ((0 < v)%Q -> (v < pow10_minus p)%Q ->
     display_covered self pc = Return (fixed_point p 1))
  /\ ((100 - pow10_minus p < v)%Q -> (v < 100)%Q ->
        display_covered self pc = Return (fixed_point p (100 * 10 ^ p - 1)))
  /\ (~ (0 < v /\ v < pow10_minus p)%Q -> ~ (100 - pow10_minus p < v /\ v < 100)%Q ->
        display_covered self pc
        = match py_round pc p with
          | Return r => Return (format_f p r)
          | Raise e => Raise e
          end).
Proof.
  intros Hn0 Hn1 Hok Hfl Hv p.
  destruct (boundaries_facts self m0 e0 m1 e1 Hok)
    as ((Hp & He0 & He1 & Hl0 & Hl1 & Hm0 & Hm1) & (A1 & A2 & A3) & (B1 & B2 & B3)
        & D0 & D1 & F0 & F1 & Hlt01).
  subst p. set (p := _precision self) in *.
  assert (Hd : 0 < 10 ^ p) by (apply Z.pow_pos_nonneg; lia).
  destruct pc as [s| | |s m e]; try discriminate.
  - (* zero *)
    injection Hv as <-.
    assert (E : display_covered self (S754_zero s)
                = match py_round (S754_zero s) p with
                  | Return r => Return (format_f p r)
                  | Raise e => Raise e
                  end).
    { unfold display_covered. fold p. rewrite Hn1. reflexivity. }
    split; [|split].
    + intros H. exfalso. revert H. unfold Qlt. simpl. lia.
    + intros H H'. exfalso. apply (near100_threshold p _ Hp) in H.
      revert H. unfold Qlt. cbn [Qnum Qden]. rewrite Z2Pos.id by assumption. lia.
    + intros _ _. exact E.
  - destruct s.
    + (* negative *)
      pose proof (value_negative m e v Hv) as Hneg.
      assert (E : display_covered self (S754_finite true m e)
                  = match py_round (S754_finite true m e) p with
                    | Return r => Return (format_f p r)
                    | Raise e => Raise e
                    end).
      { unfold display_covered. fold p. rewrite Hn1. reflexivity. }
      split; [|split].
      * intros H. exfalso. revert H Hneg. unfold Qlt. simpl. lia.
      * intros H H'. exfalso. apply (near100_threshold p _ Hp) in H.
        revert H Hneg. unfold Qlt. cbn [Qnum Qden].
        rewrite Z2Pos.id by assumption. nia.
      * intros _ _. exact E.
    + (* positive *)
      pose proof (value_positive m e v Hv) as Hpos.
      change (is_float (S754_finite false m e)) with (bounded prec64 emax64 m e) in Hfl.
      assert (L0 : flt (S754_finite false m e) (S754_finite false m0 e0) = true ->
                   (v < pow10_minus p)%Q).
      { intros H. apply (value_finite_lt m e v 1 (10 ^ p)); [lia | assumption|].
        apply (flt_below m e m0 e0 1 (10 ^ p)); auto; lia. }
      assert (G0 : flt (S754_finite false m0 e0) (S754_finite false m e) = true ->
                   (pow10_minus p < v)%Q).
      { intros H. apply (value_finite_gt m e v 1 (10 ^ p)); [lia | assumption|].
        apply (flt_above m e m0 e0 1 (10 ^ p)); auto; lia. }
      assert (L1 : flt (S754_finite false m e) (S754_finite false m1 e1) = true ->
                   (v < (100 * 10 ^ p - 1) # Z.to_pos (10 ^ p))%Q).
      { intros H. apply (value_finite_lt m e v (100 * 10 ^ p - 1) (10 ^ p));
          [lia | assumption|].
        apply (flt_below m e m1 e1 (100 * 10 ^ p - 1) (10 ^ p)); auto; lia. }
      assert (G1 : flt (S754_finite false m1 e1) (S754_finite false m e) = true ->
                   (100 - pow10_minus p < v)%Q).
      { intros H. apply (proj2 (near100_threshold p v Hp)).
        apply (value_finite_gt m e v (100 * 10 ^ p - 1) (10 ^ p)); [lia | assumption|].
        apply (flt_above m e m1 e1 (100 * 10 ^ p - 1) (10 ^ p)); auto; lia. }
      assert (T01 : (pow10_minus p < 100 - pow10_minus p)%Q).
      { unfold Qlt, Qminus, Qplus, Qopp, pow10_minus. cbn [Qnum Qden].
        change (Z.pos (1 * Z.to_pos (10 ^ p))) with (Z.pos (Z.to_pos (10 ^ p))).
        rewrite Z2Pos.id by assumption. nia. }
      unfold display_covered. fold p. rewrite Hn0, Hn1.
      change (flt (float_of_int 0) (S754_finite false m e)) with true. cbn [andb].
      destruct (flt (S754_finite false m e) (S754_finite false m0 e0)) eqn:C0.
      * (* below near0 *)
        specialize (L0 eq_refl). split; [|split].
        -- intros _ _. now rewrite F0.
        -- intros H _. exfalso.
           apply (Qlt_irrefl v). eapply Qlt_trans; [exact L0|].
           eapply Qlt_trans; [exact T01 | exact H].
        -- intros H _. exfalso. apply H. split; assumption.
      * destruct (flt (S754_finite false m1 e1) (S754_finite false m e)
                  && flt (S754_finite false m e) (float_of_int 100)) eqn:C12.
        -- (* between near100 and 100 *)
           apply andb_prop in C12. destruct C12 as [C1 C2].
           specialize (G1 C1).
           pose proof (flt_hundred_below m e v Hfl Hv C2) as H100.
           split; [|split].
           ++ intros _ H. exfalso.
              apply (Qlt_irrefl v). eapply Qlt_trans; [exact H|].
              eapply Qlt_trans; [exact T01 | exact G1].
           ++ intros _ _. now rewrite F1.
           ++ intros _ H. exfalso. apply H. split; assumption.
        -- (* the rounding branch *)
           split; [|split].
           ++ intros _ H.
              destruct (flt (S754_finite false m0 e0) (S754_finite false m e)) eqn:C0'.
              ** exfalso. apply (Qlt_irrefl v). eapply Qlt_trans; [exact H | now apply G0].
              ** destruct (flt_neither m e m0 e0 C0 C0') as [-> ->].
                 unfold display_covered in D0. fold p in D0. rewrite Hn0, Hn1 in D0.
                 change (flt (float_of_int 0) (S754_finite false m0 e0)) with true in D0.
                 cbn [andb] in D0. rewrite C0, C12 in D0. exact D0.
           ++ intros H H100.
              destruct (flt (S754_finite false m e) (float_of_int 100)) eqn:C2.
              ** rewrite andb_true_r in C12.
                 destruct (flt (S754_finite false m e) (S754_finite false m1 e1)) eqn:C1'.
                 --- exfalso. apply (near100_threshold p _ Hp) in H.
                     apply (Qlt_irrefl v). eapply Qlt_trans; [now apply L1 | exact H].
                 --- destruct (flt_neither m e m1 e1 C1' C12) as [-> ->].
                     unfold display_covered in D1. fold p in D1. rewrite Hn0, Hn1 in D1.
                     change (flt (float_of_int 0) (S754_finite false m1 e1)) with true in D1.
                     cbn [andb] in D1. rewrite C0, C12 in D1.
                     cbn [andb] in D1. exact D1.
              ** exfalso.
                 destruct (flt (float_of_int 100) (S754_finite false m e)) eqn:C2'.
                 --- pose proof (flt_hundred_above m e v Hfl Hv C2') as Ha.
                     apply (Qlt_irrefl v). eapply Qlt_trans; eassumption.
                 --- rewrite hundred_is in C2, C2'.
                     destruct (flt_neither _ _ _ _ C2 C2') as [-> ->].
                     injection Hv as <-. revert H100. vm_compute. congruence.
           ++ intros _ _. reflexivity.
Qed.

Ltac boundaries_case Hinit Hfl Hv :=
  vm_compute in Hinit; injection Hinit as <-;
  match goal with
  | |- context [display_covered ?self ?pc] =>
      match eval vm_compute in (_near0 self) with
      | S754_finite false ?m0 ?e0 =>
          match eval vm_compute in (_near100 self) with
          | S754_finite false ?m1 ?e1 =>
              exact (display_covered_generic self m0 e0 m1 e1 pc _
                       eq_refl eq_refl ltac:(vm_compute; reflexivity) Hfl Hv)
          end
      end
  end.

(** C4, as the code has it.  For every precision [0 <= p < 10] and every
    binary64 [pc] of exact value [v]: if [0 < v < 10^-p] the text is that of
    [10^-p]; if [100 - 10^-p < v < 100] it is that of [100 - 10^-p]; otherwise
    it is ["%.*f" % (p, round(pc, p))].  The rounding is that of the binary64
    value: at precision 2, [display_covered(50.555)] is ["50.55"], for the
    float nearest to 50.555 lies below it, and [display_covered(100)] is
    ["100.00"]. *)
Theorem display_covered_boundaries
    (p n_files n_statements n_excluded n_missing n_branches n_partial_branches
       n_missing_branches : Z) (self : Numbers) (pc : float) (v : Q) :
  0 <= p < 10 ->
  Numbers_init p n_files n_statements n_excluded n_missing n_branches
    n_partial_branches n_missing_branches = Return self ->
  is_float pc = true ->
  float_value pc = Some v ->
  ((0 < v)%Q -> (v < pow10_minus p)%Q ->
     display_covered self pc = Return (fixed_point p 1))
  /\ ((100 - pow10_minus p < v)%Q -> (v < 100)%Q ->
        display_covered self pc = Return (fixed_point p (100 * 10 ^ p - 1)))
  /\ (~ (0 < v /\ v < pow10_minus p)%Q -> ~ (100 - pow10_minus p < v /\ v < 100)%Q ->
        display_covered self pc
        = match py_round pc p with
          | Return r => Return (format_f p r)
          | Raise e => Raise e
          end)
  /\ (p = 2 ->
      display_covered self (float_lit 50555 3) = Return "50.55"
      /\ display_covered self (float_lit 100 0) = Return "100.00"
      /\ display_covered self (float_lit 0 0) = Return "0.00").
Proof.
  intros Hp Hinit Hfl Hv.
  assert (Hex : p = 2 ->
      display_covered self (float_lit 50555 3) = Return "50.55"
      /\ display_covered self (float_lit 100 0) = Return "100.00"
      /\ display_covered self (float_lit 0 0) = Return "0.00").
  { intros ->. vm_compute in Hinit. injection Hinit as <-.
    repeat split; vm_compute; reflexivity. }
  cut (((0 < v)%Q -> (v < pow10_minus p)%Q ->
          display_covered self pc = Return (fixed_point p 1))
       /\ ((100 - pow10_minus p < v)%Q -> (v < 100)%Q ->
             display_covered self pc = Return (fixed_point p (100 * 10 ^ p - 1)))
       /\ (~ (0 < v /\ v < pow10_minus p)%Q ->
           ~ (100 - pow10_minus p < v /\ v < 100)%Q ->
           display_covered self pc
           = match py_round pc p with
             | Return r => Return (format_f p r)
             | Raise e => Raise e
             end)).
  { intros (A & B & C). auto. }
  clear Hex.
  assert (Hcases : p = 0 \/ p = 1 \/ p = 2 \/ p = 3 \/ p = 4 \/ p = 5 \/ p = 6
                   \/ p = 7 \/ p = 8 \/ p = 9) by lia.
  destruct Hcases as [->|[->|[->|[->|[->|[->|[->|[->|[->| ->]]]]]]]]];
    boundaries_case Hinit Hfl Hv.
Qed.

Lemma display_covered_boundaries_witness :
  exists self,
    Numbers_init 2 1 10 0 1 0 0 0 = Return self
    /\ display_covered self (float_lit 5 3) = Return "0.01"
    /\ display_covered self (float_lit 99995 3) = Return "99.99".
Proof.
  eexists. split; [reflexivity|]. split.
  - refine (proj1 (display_covered_boundaries 2 1 10 0 1 0 0 0 _ (float_lit 5 3) _
                     (conj _ _) eq_refl eq_refl eq_refl) _ _);
      vm_compute; congruence.
  - refine (proj1 (proj2 (display_covered_boundaries 2 1 10 0 1 0 0 0 _
                            (float_lit 99995 3) _
                            (conj _ _) eq_refl eq_refl eq_refl)) _ _);
      vm_compute; congruence.
Defined.

(** C4 as stated fails at its own example: at precision 2 the float [50.555]
    is displayed as ["50.55"], not ["50.56"]. *)
Lemma display_covered_50_555_counterexample :
  exists self,
    Numbers_init 2 0 0 0 0 0 0 0 = Return self
    /\ float_lit 50555 3 = S754_finite false 7114983723803607 (-47)
    /\ display_covered self (float_lit 50555 3) = Return "50.55"
    /\ display_covered self (float_lit 50555 3) <> Return "50.56".
Proof.
  eexists. split; [reflexivity|]. split; [reflexivity|].
  split; [reflexivity | discriminate].
Qed.

(* ================================================================== *)
(** * Proofs: the invariant of a store and the mode lock *)
(* ================================================================== *)

(* ---- hoare rules ---- *)
Lemma hoare_ret {A} (P : CoverageData -> Prop) (a : A) : hoare P (ret a) P.
Proof. intros s H. exact H. Qed.

Lemma hoare_raise {A} (P : CoverageData -> Prop) c msg args :
  hoare P (@raise A c msg args) P.
Proof. intros s H. exact H. Qed.

Lemma hoare_get (P : CoverageData -> Prop) : hoare P get P.
Proof. intros s H. exact H. Qed.

Lemma hoare_bind {A B} (P R Q : CoverageData -> Prop) (m : M A) (k : A -> M B) :
  hoare P m R -> (forall a, hoare R (k a) Q) -> (forall s, R s -> Q s) ->
  hoare P (bind m k) Q.
Proof.
  intros Hm Hk HRQ s HP. unfold bind. specialize (Hm s HP).
  destruct (m s) as [[a|e] s']; cbn [snd] in *.
  - apply Hk. exact Hm.
  - apply HRQ. exact Hm.
Qed.

Lemma hoare_seq {A B} (P : CoverageData -> Prop) (m : M A) (k : A -> M B) :
  hoare P m P -> (forall a, hoare P (k a) P) -> hoare P (bind m k) P.
Proof. intros Hm Hk. apply (hoare_bind P P P); auto. Qed.

Lemma hoare_weaken {A} (P P' Q Q' : CoverageData -> Prop) (m : M A) :
  hoare P m Q -> (forall s, P' s -> P s) -> (forall s, Q s -> Q' s) -> hoare P' m Q'.
Proof. intros H HP HQ s Hs. apply HQ, H, HP, Hs. Qed.

Lemma hoare_for_each {X} (P : CoverageData -> Prop) (l : list X) (body : X -> M unit) :
  (forall x, hoare P (body x) P) -> hoare P (for_each l body) P.
Proof.
  intros Hb. induction l as [|x l IH]; cbn [for_each].
  - apply hoare_ret.
  - apply hoare_seq; auto.
Qed.

Lemma hoare_map_M {X Y} (P : CoverageData -> Prop) (l : list X) (f : X -> M Y) :
  (forall x, hoare P (f x) P) -> hoare P (map_M f l) P.
Proof.
  intros Hf. induction l as [|x l IH]; cbn [map_M].
  - apply hoare_ret.
  - apply hoare_seq; [apply Hf|]. intros y.
    apply hoare_seq; [apply IH|]. intros ys. apply hoare_ret.
Qed.

Lemma hoare_when (P : CoverageData -> Prop) (b : bool) (m : M unit) :
  hoare P m P -> hoare P (when b m) P.
Proof. intros H. destruct b; [exact H | apply hoare_ret]. Qed.

Lemma hoare_the {A} (P : CoverageData -> Prop) (o : option A) : hoare P (the o) P.
Proof. destruct o; [apply hoare_ret | apply hoare_raise]. Qed.

Lemma hoare_lookup {V} (P : CoverageData -> Prop) (d : list (string * V)) k :
  hoare P (lookup d k) P.
Proof. unfold lookup. destruct (dict_get _ _ _); [apply hoare_ret | apply hoare_raise]. Qed.

Lemma hoare_no_table {A} (P : CoverageData -> Prop) : hoare P (@no_table A) P.
Proof. apply hoare_raise. Qed.

Lemma hoare_query {A} (P : CoverageData -> Prop) (q : Db -> A) : hoare P (query q) P.
Proof.
  intros s H. unfold query, bind, get. cbn.
  destruct (database s); exact H.
Qed.

(* ---- transactions ---- *)

Lemma set_database_id s : set_database s (database s) = s.
Proof. destruct s. reflexivity. Qed.

Lemma rollback_same s0 s : database s = database s0 -> rollback s0 s = s.
Proof.
  intros H. unfold rollback. destruct (_no_disk s0); [reflexivity|].
  rewrite <- H. apply set_database_id.
Qed.

Lemma with_db_fst {A} (body : M A) s : fst (with_db body s) = fst (body s).
Proof. unfold with_db. destruct (body s) as [[a|e] s']; reflexivity. Qed.

Lemma with_db_return {A} (body : M A) s a s' :
  body s = (Return a, s') -> with_db body s = (Return a, s').
Proof. intros H. unfold with_db. now rewrite H. Qed.

Lemma with_db_raise {A} (body : M A) s e s' :
  body s = (Raise e, s') -> with_db body s = (Raise e, rollback s s').
Proof. intros H. unfold with_db. now rewrite H. Qed.

(** A block that leaves the database as it is has nothing to roll back. *)
Lemma with_db_keeps {A} (body : M A) s :
  database (snd (body s)) = database s -> with_db body s = body s.
Proof.
  intros H. unfold with_db. destruct (body s) as [[a|e] s']; [reflexivity|].
  cbn [snd] in H. now rewrite rollback_same.
Qed.

Lemma rollback_attrs s0 s :
  _dbs (rollback s0 s) = _dbs s /\ _have_used (rollback s0 s) = _have_used s
  /\ _has_lines (rollback s0 s) = _has_lines s /\ _has_arcs (rollback s0 s) = _has_arcs s
  /\ _file_map (rollback s0 s) = _file_map s
  /\ _query_context_ids (rollback s0 s) = _query_context_ids s
  /\ _no_disk (rollback s0 s) = _no_disk s.
Proof. unfold rollback. destruct (_no_disk s0); cbn; repeat split. Qed.

(** A postcondition that the rollback keeps holds after the block. *)
Lemma hoare_with_db_stable {A} (P Q : CoverageData -> Prop) (body : M A) :
  hoare P body Q -> (forall s0 s, P s0 -> Q s -> Q (rollback s0 s)) ->
  hoare P (with_db body) Q.
Proof.
  intros Hb Hr s HP. unfold with_db. specialize (Hb s HP).
  destruct (body s) as [[a|e] s']; cbn [snd] in *; auto.
Qed.

(* ---- a store stays ready ---- *)

Lemma ready_modify f : ready_stable f -> hoare ready (modify f) ready.
Proof. intros Hf s [Hu Hd]. cbn. destruct (Hf s) as [E1 E2]. split; congruence. Qed.

Lemma ready_execute stmt : hoare ready (execute stmt) ready.
Proof.
  intros s H. unfold execute, bind, get. cbn. destruct (database s); exact H.
Qed.

Lemma ready_executemany_raw stmt : hoare ready (executemany_raw stmt) ready.
Proof.
  intros s H. unfold executemany_raw, bind, get. cbn.
  destruct (database s) as [db|]; [|exact H]. destruct (stmt db); exact H.
Qed.

Lemma ready_with_db {A} (body : M A) :
  hoare ready body ready -> hoare ready (with_db body) ready.
Proof.
  intros H. apply hoare_with_db_stable; [exact H|].
  intros s0 s _ [Hu Hd]. destruct (rollback_attrs s0 s) as (E1 & E2 & _).
  split; congruence.
Qed.

(* ---- invariant facts ---- *)

Lemma Inv_weaken used mode s : Inv used mode s -> Inv false mode s.
Proof.
  intros (H1 & H2 & H3 & H4 & H5).
  split; [discriminate|]. exact (conj H2 (conj H3 (conj H4 H5))).
Qed.

Lemma Inv_forget used mode s : Inv used mode s -> Inv used None s.
Proof.
  intros (H1 & H2 & H3 & H4 & H5).
  exact (conj H1 (conj H2 (conj H3 (conj H4 I)))).
Qed.

Lemma Inv_attrs used mode f s :
  attrs_stable f -> Inv used mode s -> Inv used mode (f s).
Proof.
  intros Hf (H1 & H2 & H3 & H4 & H5).
  destruct (Hf s) as (E1 & E2 & E3 & E4 & E5).
  unfold Inv, fresh, agrees, mode_is in *.
  rewrite E1, E2, E3, E4, E5.
  exact (conj H1 (conj H2 (conj H3 (conj H4 H5)))).
Qed.

Lemma hoare_modify_attrs used mode f :
  attrs_stable f -> hoare (Inv used mode) (modify f) (Inv used mode).
Proof. intros Hf s H. cbn. now apply Inv_attrs. Qed.

Lemma Inv_set_db used mode s db db' :
  database s = Some db ->
  meta_rows db' = meta_rows db ->
  coverage_schema_rows db' = coverage_schema_rows db ->
  Inv used mode s -> Inv used mode (set_database s (Some db')).
Proof.
  intros Hdb Em Es (H1 & H2 & H3 & H4 & H5).
  destruct (H4 db Hdb) as [Hok Hag].
  unfold Inv, fresh, agrees, mode_is, db_meta_ok, sql_meta in *. cbn.
  split; [exact H1|]. split; [discriminate|].
  split; [|split; [|exact H5]].
  - intros Hu. destruct (H3 Hu) as [Hd|Hd]; [now left | congruence].
  - intros db0 E. injection E as <-. rewrite Em, Es. split; assumption.
Qed.

(* ---- statements leave meta alone ---- *)

Ltac stable :=
  intros db; unfold sql_ignore_file, sql_ignore_context, sql_insert_context,
    sql_replace_line_bits, sql_ignore_arc, sql_ignore_tracer, sql_insert_tracer;
  repeat match goal with
         | |- context [if ?b then _ else _] => destruct b
         end; cbn; auto.

Lemma stable_ignore_file path : meta_stable (sql_ignore_file path).
Proof. stable. Qed.

Lemma stable_ignore_context c : meta_stable (sql_ignore_context c).
Proof. stable. Qed.

Lemma stable_replace_line_bits f c nb : meta_stable (sql_replace_line_bits f c nb).
Proof. stable. Qed.

Lemma stable_ignore_arc row : meta_stable (sql_ignore_arc row).
Proof. stable. Qed.

Lemma stable_ignore_tracer f t : meta_stable (sql_ignore_tracer f t).
Proof. stable. Qed.

Lemma stable_delete_line_bits : meta_stable (fun db => set_line_bits_rows db []).
Proof. intros db. cbn. auto. Qed.

Lemma stable_insert_context c db db' id :
  sql_insert_context c db = Some (db', id) ->
  meta_rows db' = meta_rows db /\ coverage_schema_rows db' = coverage_schema_rows db.
Proof.
  unfold sql_insert_context. destruct (has_path _ _); [discriminate|].
  intros H. injection H as <- _. cbn. auto.
Qed.

Lemma stable_insert_tracer f t db db' :
  sql_insert_tracer f t db = Some db' ->
  meta_rows db' = meta_rows db /\ coverage_schema_rows db' = coverage_schema_rows db.
Proof.
  unfold sql_insert_tracer. destruct (existsb _ _); [discriminate|].
  intros H. injection H as <-. cbn. auto.
Qed.

Lemma stable_insert_line_bits f c nb db db' :
  sql_insert_line_bits f c nb db = Some db' ->
  meta_rows db' = meta_rows db /\ coverage_schema_rows db' = coverage_schema_rows db.
Proof.
  unfold sql_insert_line_bits. destruct (existsb _ _); [discriminate|].
  intros H. injection H as <-. cbn. auto.
Qed.

Lemma hoare_execute used mode stmt :
  meta_stable stmt -> hoare (Inv used mode) (execute stmt) (Inv used mode).
Proof.
  intros Hst s H. unfold execute, bind, get. cbn.
  destruct (database s) as [db|] eqn:E; cbn; [|exact H].
  destruct (Hst db). now apply (Inv_set_db used mode s db).
Qed.

Lemma hoare_executemany_raw used mode stmt :
  (forall db db', stmt db = Some db' ->
     meta_rows db' = meta_rows db /\ coverage_schema_rows db' = coverage_schema_rows db) ->
  hoare (Inv used mode) (executemany_raw stmt) (Inv used mode).
Proof.
  intros Hst s H. unfold executemany_raw, bind, get. cbn.
  destruct (database s) as [db|] eqn:E; cbn; [|exact H].
  destruct (stmt db) as [db'|] eqn:E'; cbn; [|exact H].
  destruct (Hst db db' E'). now apply (Inv_set_db used mode s db).
Qed.

(* ---- the connection ---- *)

Lemma sql_meta_fresh_db e :
  sql_meta "has_arcs"
    {| coverage_schema_rows := [SCHEMA_VERSION];
       meta_rows := [("sys_argv", sys_argv e); ("version", __version__ e); ("when", now e)];
       file_rows := []; context_rows := []; line_bits_rows := [];
       arc_rows := []; tracer_rows := [] |} = [].
Proof. reflexivity. Qed.

Lemma hoare_reset used mode : hoare (Inv used mode) _reset (Inv false mode).
Proof.
  intros s (H1 & H2 & H3 & H4 & H5). unfold _reset, modify. cbn.
  unfold Inv, fresh, agrees, mode_is in *. cbn.
  split; [discriminate|]. split; [discriminate|]. split; [discriminate|].
  split; [|exact H5].
  intros db E. destruct (_no_disk s); [discriminate|].
  destruct (H4 db E) as [Hok [(_ & Hl & Ha)|Hag]]; split; auto.
Qed.

Lemma reset_state s :
  _dbs (snd (_reset s)) = false /\ _have_used (snd (_reset s)) = false
  /\ _has_lines (snd (_reset s)) = _has_lines s
  /\ _has_arcs (snd (_reset s)) = _has_arcs s.
Proof. cbn. auto. Qed.

Lemma hoare_create_db used mode : hoare (Inv used mode) _create_db (Inv used mode).
Proof.
  intros s (H1 & H2 & H3 & H4 & H5). unfold _create_db, modify. cbn.
  unfold Inv, fresh, agrees, mode_is, db_meta_ok in *. cbn.
  split; [exact H1|]. split; [discriminate|]. split; [now left|].
  split; [|exact H5].
  intros db E. injection E as <-. rewrite sql_meta_fresh_db. auto.
Qed.

Lemma for_each_modify {X} (f : X -> CoverageData -> CoverageData) (l : list X) : forall s,
  for_each l (fun r => modify (f r)) s = (Return tt, fold_left (fun s r => f r s) l s).
Proof.
  induction l as [|x l IH]; intros s; cbn [for_each fold_left].
  - reflexivity.
  - unfold bind at 1. cbn. apply IH.
Qed.

Lemma load_files_attrs files : attrs_stable (load_files files).
Proof.
  unfold load_files. induction files as [|r files IH]; intros s; cbn [fold_left].
  - repeat split.
  - destruct (IH (set__file_map s (dict_set String.eqb (snd r) (fst r) (_file_map s))))
      as (E1 & E2 & E3 & E4 & E5).
    rewrite E1, E2, E3, E4, E5. cbn. repeat split.
Qed.

Lemma load_files_other files s :
  environ (load_files files s) = environ s
  /\ _no_disk (load_files files s) = _no_disk s
  /\ _current_context (load_files files s) = _current_context s
  /\ _current_context_id (load_files files s) = _current_context_id s
  /\ _query_context_ids (load_files files s) = _query_context_ids s.
Proof.
  unfold load_files. revert s. induction files as [|r files IH]; intros s; cbn [fold_left].
  - repeat split.
  - destruct (IH (set__file_map s (dict_set String.eqb (snd r) (fst r) (_file_map s))))
      as (E1 & E2 & E3 & E4 & E5).
    rewrite E1, E2, E3, E4, E5. cbn. repeat split.
Qed.

Lemma load_files_map files : forall s,
  _file_map (load_files files s)
  = dict_update String.eqb (_file_map s) (map (fun r => (snd r, fst r)) files).
Proof.
  unfold load_files, dict_update.
  induction files as [|r files IH]; intros s; cbn [fold_left map]; [reflexivity|].
  rewrite IH. reflexivity.
Qed.

(** [_read_db] on tables that the code wrote. *)
Lemma read_db_result s db :
  database s = Some db -> db_meta_ok db ->
  _read_db s
  = (Return tt, load_files (file_rows db) (load_flags (sql_meta "has_arcs" db) s)).
Proof.
  intros Hdb (Hs & Hm). unfold _read_db. apply with_db_return.
  unfold bind, modify, get, query. cbn. rewrite Hdb, Hs. cbn.
  unfold bind, get. cbn. rewrite Hdb.
  destruct Hm as [Hm|[Hm|Hm]]; rewrite Hm; cbn; unfold bind, get; cbn;
    rewrite Hdb; apply for_each_modify.
Qed.

(** [_open_db] on a data file that the code wrote. *)
Lemma open_db_result s db :
  database s = Some db -> db_meta_ok db ->
  _open_db s
  = (Return tt,
     load_files (file_rows db) (load_flags (sql_meta "has_arcs" db) (set__dbs s true))).
Proof.
  intros Hdb Hok. unfold _open_db. unfold bind at 1. cbn [modify fst snd].
  now apply read_db_result.
Qed.

Lemma Inv_open used mode s db :
  Inv used mode s -> database s = Some db ->
  Inv used mode
    (load_files (file_rows db) (load_flags (sql_meta "has_arcs" db) (set__dbs s true))).
Proof.
  intros HI Hdb. apply Inv_attrs; [apply load_files_attrs|].
  destruct HI as (H1 & H2 & H3 & H4 & H5).
  destruct (H4 db Hdb) as [Hok Hfa].
  assert (Hok' := Hok). destruct Hok' as [Hs Hm].
  unfold Inv, fresh, agrees, mode_is, load_flags in *.
  destruct Hm as [Hm|[Hm|Hm]]; rewrite Hm in *; cbn.
  - split; [exact H1|]. split; [congruence|]. split; [now left|]. split; [|exact H5].
    intros db0 E. rewrite Hdb in E. injection E as <-. rewrite Hm. auto.
  - split; [exact H1|]. split; [congruence|]. split; [now left|]. split.
    + intros db0 E. rewrite Hdb in E. injection E as <-. rewrite Hm. cbn. auto.
    + destruct mode as [a|]; [|exact I]. destruct H5 as [Ha Hl].
      destruct Hfa as [(_ & Hl' & Ha')|Hag]; [destruct a; cbn in *; congruence|].
      cbn in Hag. destruct Hag. split; congruence.
  - split; [exact H1|]. split; [congruence|]. split; [now left|]. split.
    + intros db0 E. rewrite Hdb in E. injection E as <-. rewrite Hm. cbn. auto.
    + destruct mode as [a|]; [|exact I]. destruct H5 as [Ha Hl].
      destruct Hfa as [(_ & Hl' & Ha')|Hag]; [destruct a; cbn in *; congruence|].
      cbn in Hag. destruct Hag. split; congruence.
Qed.

Lemma connect_result s :
  _connect s
  = if _dbs s then (Return tt, s)
    else if file_exists s then _open_db s
    else (Return tt, set_database (set__dbs s true) (Some (new_db (environ s)))).
Proof.
  unfold _connect, bind, get. cbn. destruct (_dbs s); [reflexivity|].
  destruct (file_exists s); reflexivity.
Qed.

Lemma Inv_create used mode s :
  Inv used mode s ->
  Inv used mode (set_database (set__dbs s true) (Some (new_db (environ s)))).
Proof. apply (hoare_create_db used mode s). Qed.

(** Under the invariant [_connect] returns, with the connection registered. *)
Lemma connect_ok used mode s :
  Inv used mode s ->
  exists s', _connect s = (Return tt, s')
             /\ Inv used mode s' /\ _dbs s' = true
             /\ _have_used s' = _have_used s
             /\ (_dbs s = true -> s' = s).
Proof.
  intros HI. rewrite connect_result. destruct (_dbs s) eqn:Ed.
  - exists s. auto.
  - unfold file_exists. destruct (_no_disk s) eqn:En; cbn [negb andb].
    + eexists. split; [reflexivity|]. split; [now apply Inv_create|].
      cbn. repeat split. discriminate.
    + destruct (database s) as [db|] eqn:Edb.
      * assert (Hok : db_meta_ok db) by (apply HI; exact Edb).
        rewrite (open_db_result s db Edb Hok).
        eexists. split; [reflexivity|]. split; [now apply Inv_open|].
        destruct (load_files_attrs (file_rows db)
                    (load_flags (sql_meta "has_arcs" db) (set__dbs s true)))
          as (E1 & E2 & _).
        rewrite E1, E2. unfold load_flags.
        destruct (sql_meta "has_arcs" db); cbn; repeat split; discriminate.
      * eexists. split; [reflexivity|]. split; [now apply Inv_create|].
        cbn. repeat split. discriminate.
Qed.

Lemma hoare_connect used mode : hoare (Inv used mode) _connect (Inv used mode).
Proof.
  intros s H. destruct (connect_ok used mode s H) as (s' & E & HI & _).
  rewrite E. exact HI.
Qed.

Lemma hoare_connect_dbs used mode :
  hoare (Inv used mode) _connect (fun s => Inv used mode s /\ _dbs s = true).
Proof.
  intros s H. destruct (connect_ok used mode s H) as (s' & E & HI & Hd & _).
  rewrite E. auto.
Qed.

Lemma erase_result s :
  erase s = (Return tt, set_database (snd (_reset s)) None).
Proof.
  unfold erase, bind, get, _reset, modify. cbn.
  destruct (_no_disk s); reflexivity.
Qed.

Lemma hoare_erase used mode : hoare (Inv used mode) erase (Inv false mode).
Proof.
  intros s (H1 & H2 & H3 & H4 & H5). rewrite erase_result. cbn.
  unfold Inv, mode_is in *. cbn.
  split; [discriminate|]. split; [discriminate|]. split; [discriminate|].
  split; [discriminate | exact H5].
Qed.

Lemma start_using_result s :
  _start_using s
  = (Return tt,
     if _have_used s then set__have_used s true
     else set__have_used (set_database (snd (_reset s)) None) true).
Proof.
  unfold _start_using, bind, get, when, erase, _reset, modify. cbn.
  destruct (_have_used s); cbn; [reflexivity|].
  destruct (_no_disk s); reflexivity.
Qed.

Lemma hoare_start_using used mode :
  hoare (Inv used mode) _start_using (Inv true mode).
Proof.
  intros s (H1 & H2 & H3 & H4 & H5). rewrite start_using_result. cbn [snd].
  destruct (_have_used s) eqn:Eu.
  - unfold Inv, fresh, agrees, mode_is in *. cbn.
    split; [reflexivity|]. split; [exact H2|]. split; [auto|]. split; [exact H4 | exact H5].
  - unfold Inv, mode_is in *. cbn.
    split; [reflexivity|]. split; [discriminate|]. split; [now right|].
    split; [discriminate | exact H5].
Qed.

Lemma hoare_read used mode : hoare (Inv used mode) read (Inv true mode).
Proof.
  intros s H. unfold read, bind.
  destruct (connect_ok used mode s H) as (s' & E & (H1 & H2 & H3 & H4 & H5) & Hd & _).
  rewrite E. unfold with_db. cbn.
  unfold Inv, fresh, agrees, mode_is in *. cbn.
  split; [reflexivity|]. split; [exact H2|]. split; [now left|].
  split; [exact H4 | exact H5].
Qed.

(* ---- a ready store stays ready, and the rollback keeps the invariant ---- *)

Lemma ready_connect : hoare ready _connect ready.
Proof. intros s [Hu Hd]. rewrite connect_result, Hd. now split. Qed.

Lemma ready_start_using : hoare ready _start_using ready.
Proof. intros s [Hu Hd]. rewrite start_using_result, Hu. cbn. now split. Qed.

Lemma Inv_rollback mode s0 s :
  Inv true mode s0 -> _dbs s0 = true -> ready s ->
  (forall mode', Inv true mode' s0 -> Inv true mode' s) ->
  Inv true mode (rollback s0 s).
Proof.
  intros H0 Hd0 [Hu Hd] Hall. pose proof (Hall mode H0) as (G1 & G2 & G3 & G4 & G5).
  unfold rollback. destruct (_no_disk s0); [exact (Hall mode H0)|].
  destruct H0 as (H1 & H2 & H3 & H4 & H5).
  destruct (database s0) as [db0|] eqn:Edb0; [|exfalso; now apply H2].
  destruct (H4 db0 eq_refl) as [Hok Hfa].
  unfold Inv, fresh, agrees, mode_is. cbn.
  split; [exact G1|]. split; [discriminate|]. split; [now left|]. split; [|exact G5].
  intros db E. injection E as <-. split; [exact Hok|]. right.
  destruct Hfa as [(Hf & _)|Hag]; [congruence|].
  unfold agrees in Hag.
  destruct (sql_meta "has_arcs" db0) as [|v l]; [exact I|]. destruct Hag as [Ha Hl].
  assert (H0' : Inv true (Some (String.eqb v "1")) s0).
  { unfold Inv, mode_is. rewrite Edb0.
    split; [exact H1|]. split; [exact H2|]. split; [exact H3|]. split; [exact H4|].
    split; assumption. }
  destruct (Hall _ H0') as (_ & _ & _ & _ & Hm). exact Hm.
Qed.

Lemma hoare_with_db {A} mode (body : M A) :
  hoare ready body ready ->
  (forall mode', hoare (Inv true mode') body (Inv true mode')) ->
  hoare (fun s => Inv true mode s /\ _dbs s = true) (with_db body) (Inv true mode).
Proof.
  intros Hr Hb s [HI Hd]. unfold with_db.
  pose proof (Hr s (conj (proj1 HI eq_refl) Hd)) as Hr'.
  destruct (body s) as [[a|e] s'] eqn:E; cbn [snd] in *.
  - specialize (Hb mode s HI). now rewrite E in Hb.
  - apply Inv_rollback; auto.
    intros mode' H'. specialize (Hb mode' s H'). now rewrite E in Hb.
Qed.

Lemma hoare_connect_with_db {A} mode (body : M A) :
  hoare ready body ready ->
  (forall mode', hoare (Inv true mode') body (Inv true mode')) ->
  hoare (Inv true mode) (_connect ;; with_db body) (Inv true mode).
Proof.
  intros Hr Hb. apply (hoare_bind _ (fun s => Inv true mode s /\ _dbs s = true)).
  - apply hoare_connect_dbs.
  - intros _. now apply hoare_with_db.
  - intros s [H _]. exact H.
Qed.

(** ** The mode gate *)

Lemma insert_meta_none key value db :
  sql_meta key db = [] ->
  sql_insert_meta key value db = Some (set_meta_rows db (meta_rows db ++ [(key, value)])).
Proof.
  unfold sql_meta, sql_insert_meta. intros H.
  assert (E : existsb (fun r => String.eqb (fst r) key) (meta_rows db) = false).
  { induction (meta_rows db) as [|r l IH]; [reflexivity|].
    cbn in *. destruct (String.eqb (fst r) key); [discriminate | now apply IH]. }
  now rewrite E.
Qed.

Lemma sql_meta_app key db rows :
  sql_meta key (set_meta_rows db (meta_rows db ++ rows))
  = sql_meta key db ++ map snd (filter (fun r => String.eqb (fst r) key) rows).
Proof. unfold sql_meta. cbn. now rewrite filter_app, map_app. Qed.

Lemma agrees_no_mode s db :
  agrees s db -> _has_lines s = false -> _has_arcs s = false ->
  sql_meta "has_arcs" db = [].
Proof.
  unfold agrees. destruct (sql_meta "has_arcs" db) as [|v l]; [reflexivity|].
  intros [Ha Hl] Hl' Ha'. rewrite Ha' in Ha. rewrite Hl' in Hl.
  destruct (String.eqb v "1"); discriminate.
Qed.

Lemma Inv_mode used mode mode' s :
  Inv used mode s -> mode_is mode' s -> Inv used mode' s.
Proof.
  intros (H1 & H2 & H3 & H4 & _) H5. exact (conj H1 (conj H2 (conj H3 (conj H4 H5)))).
Qed.

(** The mode gate keeps the invariant; when it returns, the flags are those
    of the call. *)
Lemma choose_spec mode lines arcs s :
  Inv true mode s ->
  Inv true mode (snd (_choose_lines_or_arcs lines arcs s))
  /\ (fst (_choose_lines_or_arcs lines arcs s) = Return tt ->
      _has_lines (snd (_choose_lines_or_arcs lines arcs s)) = lines
      /\ _has_arcs (snd (_choose_lines_or_arcs lines arcs s)) = arcs)
  /\ (_has_lines s = false -> _has_arcs s = false -> arcs = negb lines ->
      fst (_choose_lines_or_arcs lines arcs s) = Return tt
      /\ exists db, database (snd (_choose_lines_or_arcs lines arcs s)) = Some db
                    /\ sql_meta "has_arcs" db = [if arcs then "1" else "0"]).
Proof.
  intros HI. remember (_choose_lines_or_arcs lines arcs s) as r eqn:Er.
  unfold _choose_lines_or_arcs in Er.
  destruct (negb (lines || arcs)) eqn:E1.
  { subst r. split; [exact HI|]. split; [discriminate|].
    intros _ _ ->. destruct lines; discriminate. }
  destruct (lines && arcs) eqn:E2.
  { subst r. split; [exact HI|]. split; [discriminate|].
    intros _ _ ->. destruct lines; discriminate. }
  unfold bind at 1 in Er. cbn [get] in Er.
  destruct (lines && _has_arcs s) eqn:E3.
  { subst r. split; [exact HI|]. split; [discriminate|].
    intros _ Ha _. rewrite Ha, andb_false_r in E3. discriminate. }
  destruct (arcs && _has_lines s) eqn:E4.
  { subst r. split; [exact HI|]. split; [discriminate|].
    intros Hl _ _. rewrite Hl, andb_false_r in E4. discriminate. }
  assert (Hflags : arcs = negb lines) by (destruct lines, arcs; cbn in *; congruence).
  destruct (negb (_has_arcs s) && negb (_has_lines s)) eqn:E5.
  2: { subst r. split; [exact HI|]. split.
       - intros _. unfold when, ret. cbn [fst snd].
         destruct (_has_arcs s), (_has_lines s), lines, arcs; cbn in *;
           try discriminate; split; reflexivity.
       - intros Hl Ha _. rewrite Hl, Ha in E5. discriminate. }
  cbn [when] in Er. apply andb_prop in E5. destruct E5 as [Ea El].
  apply negb_true_iff in Ea, El.
  destruct HI as (H1 & H2 & H3 & H4 & H5).
  assert (Hmode : mode = None).
  { destruct mode as [a|]; [|reflexivity]. destruct H5 as [Ha Hl].
    destruct a; cbn in *; congruence. }
  subst mode.
  (* the state once the flags are set *)
  set (s1 := set__has_arcs (set__has_lines s lines) arcs).
  assert (HI1 : Inv true None s1).
  { unfold Inv, fresh, agrees, mode_is in *. subst s1. cbn.
    split; [exact H1|]. split; [exact H2|]. split; [exact H3|]. split; [|exact I].
    intros db E. destruct (H4 db E) as [Hok [(Hd & _)|Hag]].
    - destruct (H3 (H1 eq_refl)); congruence.
    - split; [exact Hok|]. right.
      rewrite (agrees_no_mode s db Hag El Ea). exact I. }
  unfold bind, modify in Er. cbn [fst snd] in Er. fold s1 in Er.
  destruct (connect_ok true None s1 HI1) as (s2 & E & HI2 & Hd2 & Hu2 & Hsame).
  rewrite E in Er. unfold with_db, query, bind, get in Er. cbn in Er.
  destruct HI2 as (G1 & G2 & G3 & G4 & G5).
  destruct (database s2) as [db|] eqn:Edb; [|exfalso; now apply G2].
  cbn in Er.
  assert (Hnone : sql_meta "has_arcs" db = []).
  { destruct (_dbs s1) eqn:Ed1.
    - rewrite (Hsame eq_refl) in Edb.
      destruct (H4 db Edb) as [_ [(Hd & _)|Hag]].
      + subst s1. cbn in Ed1. congruence.
      + apply (agrees_no_mode s db Hag El Ea).
    - (* the database was just made *)
      rewrite connect_result, Ed1 in E.
      destruct (file_exists s1) eqn:Ef.
      + unfold file_exists in Ef. apply andb_prop in Ef. destruct Ef as [_ Ef].
        destruct (database s1) as [db1|] eqn:Edb1; [|discriminate].
        subst s1. cbn in Edb1, Ed1.
        destruct (H3 (H1 eq_refl)); congruence.
      + injection E as <-. cbn in Edb. injection Edb as <-. reflexivity. }
  rewrite (insert_meta_none _ _ _ Hnone) in Er. unfold ret, modify in Er.
  cbn [fst snd] in Er.
  (* the flags are those that were set *)
  assert (Hf2 : _has_arcs s2 = arcs /\ _has_lines s2 = lines).
  { destruct (_dbs s1) eqn:Ed1.
    - rewrite (Hsame eq_refl). subst s1. cbn. auto.
    - rewrite connect_result, Ed1 in E.
      destruct (file_exists s1) eqn:Ef.
      + unfold file_exists in Ef. apply andb_prop in Ef. destruct Ef as [_ Ef].
        destruct (database s1) as [db1|] eqn:Edb1; [|discriminate].
        subst s1. cbn in Edb1, Ed1.
        destruct (H3 (H1 eq_refl)); congruence.
      + injection E as <-. subst s1. cbn. auto. }
  destruct Hf2 as [Hfa Hfl].
  destruct (G4 db eq_refl) as [[Hs _] _].
  pose proof (sql_meta_app "has_arcs" db [("has_arcs", if arcs then "1" else "0")]) as Hm.
  rewrite Hnone in Hm. cbn [filter map fst snd String.eqb Ascii.eqb Bool.eqb app] in Hm.
  set (db' := set_meta_rows db (meta_rows db ++ [("has_arcs", if arcs then "1" else "0")])) in *.
  assert (Hs' : coverage_schema_rows db' = [SCHEMA_VERSION]) by exact Hs.
  subst r. cbn [fst snd].
  split; [|split; [intros _; cbn; auto|]].
  2: { intros _ _ _. split; [reflexivity|]. exists db'. split; [reflexivity | exact Hm]. }
  unfold Inv, fresh, agrees, mode_is, db_meta_ok.
  cbn [database set_database _has_arcs _has_lines _dbs _have_used].
  split; [exact G1|]. split; [discriminate|]. split; [now left|]. split; [|exact I].
  intros db0 E0. injection E0 as <-. rewrite Hm, Hfa, Hfl, Hflags.
  split; [split; [exact Hs'|]|right]; destruct lines; cbn; auto.
Qed.

Lemma hoare_choose mode lines arcs :
  hoare (Inv true mode) (_choose_lines_or_arcs lines arcs) (Inv true mode).
Proof. intros s H. apply (choose_spec mode lines arcs s H). Qed.


Lemma hoare_connect_with_db_then {A B} mode (body : M A) (k : A -> M B) :
  hoare ready body ready ->
  (forall mode', hoare (Inv true mode') body (Inv true mode')) ->
  (forall a, hoare (Inv true mode) (k a) (Inv true mode)) ->
  hoare (Inv true mode) (_connect ;; (a <- with_db body ;; k a)) (Inv true mode).
Proof.
  intros Hr Hb Hk. apply (hoare_bind _ (fun s => Inv true mode s /\ _dbs s = true)).
  - apply hoare_connect_dbs.
  - intros _. apply (hoare_bind _ (Inv true mode)); auto. now apply hoare_with_db.
  - intros s [H _]. exact H.
Qed.
(* ---- automation ---- *)

Lemma hoare_lift {A} (P : CoverageData -> Prop) (r : result A) : hoare P (lift r) P.
Proof. intros s H. exact H. Qed.

Lemma hoare_query_then {X B} used mode (q : Db -> X) (k : X -> M B) :
  (forall s db, database s = Some db -> Inv used mode s ->
                Inv used mode (snd (k (q db) s))) ->
  hoare (Inv used mode) (bind (query q) k) (Inv used mode).
Proof.
  intros Hk s H. unfold bind, query, get. cbn.
  destruct (database s) as [db|] eqn:E; cbn; [|exact H].
  now apply Hk.
Qed.

Ltac attrs := intros ?; cbn; repeat split.

Create HintDb stable.
#[local] Hint Resolve stable_ignore_file stable_ignore_context stable_replace_line_bits
  stable_ignore_arc stable_ignore_tracer stable_delete_line_bits : stable.

Lemma hoare_start_using_used mode :
  hoare (Inv true mode) _start_using (Inv true mode).
Proof. apply hoare_start_using. Qed.

(** The steps that do not depend on the invariant. *)
Ltac gstep :=
  match goal with
  | |- hoare _ (let _ := _ in _) _ => progress cbv zeta
  | |- hoare _ (bind _ _) _ => apply hoare_seq; [|intro]
  | |- hoare _ (ret _) _ => apply hoare_ret
  | |- hoare _ (raise _ _ _) _ => apply hoare_raise
  | |- hoare _ no_table _ => apply hoare_no_table
  | |- hoare _ get _ => apply hoare_get
  | |- hoare _ (query _) _ => apply hoare_query
  | |- hoare _ (the _) _ => apply hoare_the
  | |- hoare _ (lookup _ _) _ => apply hoare_lookup
  | |- hoare _ (lift _) _ => apply hoare_lift
  | |- hoare _ (when _ _) _ => apply hoare_when
  | |- hoare _ (for_each _ _) _ => apply hoare_for_each; intro
  | |- hoare _ (map_M _ _) _ => apply hoare_map_M; intro
  | |- hoare _ (if ?b then _ else _) _ => destruct b
  | |- hoare _ (match ?x with _ => _ end) _ => destruct x
  | |- hoare _ (let '(_, _) := ?x in _) _ => destruct x
  end.

Ltac rstep :=
  match goal with
  | |- hoare ready (execute _) ready => apply ready_execute
  | |- hoare ready (executemany_raw _) ready => apply ready_executemany_raw
  | |- hoare ready (modify _) ready => apply ready_modify; intros ?; cbn; split; reflexivity
  | |- hoare ready _connect ready => apply ready_connect
  | |- hoare ready _start_using ready => apply ready_start_using
  | |- hoare ready (with_db _) ready => apply ready_with_db
  | |- hoare ready _ ready => gstep
  end.

Ltac rauto := repeat rstep.

Lemma ready_select_regexp e patterns rows : forall ids,
  hoare ready (select_regexp e patterns rows ids) ready.
Proof.
  induction rows as [|[id context] rows IH]; intros ids; cbn [select_regexp].
  - apply hoare_ret.
  - destruct (regexp_any e context patterns) as [[]|]; [apply IH | apply IH |].
    destruct (is_empty ids); [apply hoare_no_table | apply hoare_raise].
Qed.

Lemma ready_file_id filename add : hoare ready (_file_id filename add) ready.
Proof. unfold _file_id. rauto. Qed.

Lemma ready_context_id context : hoare ready (_context_id context) ready.
Proof. unfold _context_id. rauto. Qed.

Lemma ready_set_context_id : hoare ready _set_context_id ready.
Proof.
  unfold _set_context_id. rstep; [rstep|]. rstep; [apply ready_context_id|]. rauto.
Qed.

Lemma ready_choose lines arcs : hoare ready (_choose_lines_or_arcs lines arcs) ready.
Proof. unfold _choose_lines_or_arcs. rauto. Qed.

Lemma ready_file_tracer filename : hoare ready (file_tracer filename) ready.
Proof. unfold file_tracer. rauto; apply ready_file_id. Qed.

Lemma ready_insert_arc f c x y : hoare ready (insert_arc f c x y) ready.
Proof. unfold insert_arc. rauto. Qed.

Ltac rstep2 :=
  match goal with
  | |- hoare ready (_file_id _ _) ready => apply ready_file_id
  | |- hoare ready (_context_id _) ready => apply ready_context_id
  | |- hoare ready _set_context_id ready => apply ready_set_context_id
  | |- hoare ready (_choose_lines_or_arcs _ _) ready => apply ready_choose
  | |- hoare ready (file_tracer _) ready => apply ready_file_tracer
  | |- hoare ready (insert_arc _ _ _ _) ready => apply ready_insert_arc
  | |- hoare ready (select_regexp _ _ _ _) ready => apply ready_select_regexp
  | _ => rstep
  end.

Ltac rauto2 := repeat rstep2.

Ltac hstep :=
  match goal with
  | |- hoare _ (bind (query (sql_replace_file _)) _) _ => fail 1
  | |- hoare _ (bind (query (sql_insert_context _)) _) _ => fail 1
  | |- hoare _ (bind (query (sql_insert_tracer _ _)) _) _ => fail 1
  | |- hoare _ (bind (query (sql_insert_meta _ _)) _) _ => fail 1
  | |- hoare (Inv true _) (bind _connect (fun _ => with_db _)) (Inv true _) =>
      apply hoare_connect_with_db; [solve [rauto2] | intro]
  | |- hoare (Inv true _) (bind _connect (fun _ => bind (with_db _) _)) (Inv true _) =>
      apply hoare_connect_with_db_then; [solve [rauto2] | intro | intro]
  | |- hoare _ (execute _) _ => apply hoare_execute; solve [auto with stable]
  | |- hoare _ (modify _) _ => apply hoare_modify_attrs; solve [attrs]
  | |- hoare _ _connect _ => apply hoare_connect
  | |- hoare _ _start_using _ => apply hoare_start_using_used
  | |- hoare _ (_choose_lines_or_arcs _ _) _ => apply hoare_choose
  | |- hoare _ _ _ => gstep
  end.

Ltac hauto := repeat hstep.

Lemma hoare_replace_file mode filename :
  hoare (Inv true mode)
    (r <- query (sql_replace_file filename) ;;
     let '(db', lastrowid) := r in
     modify (fun s =>
       set__file_map (set_database s (Some db'))
         (dict_set String.eqb filename lastrowid (_file_map s))))
    (Inv true mode).
Proof.
  apply hoare_query_then. intros s db Hdb HI.
  destruct (sql_replace_file filename db) as [db' id] eqn:E. cbn.
  apply (Inv_attrs true mode (fun s => set__file_map s _)); [attrs|].
  apply (Inv_set_db true mode s db); auto;
    unfold sql_replace_file in E; injection E as <- _; reflexivity.
Qed.

Lemma hoare_file_id mode filename add :
  hoare (Inv true mode) (_file_id filename add) (Inv true mode).
Proof.
  unfold _file_id. hauto. apply hoare_replace_file.
Qed.

Lemma hoare_context_id mode context :
  hoare (Inv true mode) (_context_id context) (Inv true mode).
Proof. unfold _context_id. hauto. Qed.

Lemma hoare_insert_context mode context :
  hoare (Inv true mode)
    (r <- query (sql_insert_context context) ;;
     match r with
     | Some (db', lastrowid) =>
         modify (fun s =>
           set__current_context_id (set_database s (Some db')) (Some lastrowid))
     | None => no_table
     end)
    (Inv true mode).
Proof.
  apply hoare_query_then. intros s db Hdb HI.
  destruct (sql_insert_context _ db) as [[db' id]|] eqn:E; cbn; [|exact HI].
  destruct (stable_insert_context _ _ _ _ E).
  apply (Inv_attrs true mode (fun s => set__current_context_id s _)); [attrs|].
  apply (Inv_set_db true mode s db); auto.
Qed.

Lemma hoare_set_context_id mode :
  hoare (Inv true mode) _set_context_id (Inv true mode).
Proof.
  unfold _set_context_id. hstep; [hstep|]. hstep; [apply hoare_context_id|].
  hauto. apply hoare_insert_context.
Qed.

Lemma Inv_any used mode s : Inv true mode s -> Inv used mode s.
Proof. destruct used; [auto | apply Inv_weaken]. Qed.

Lemma hoare_start_then {B} used used' mode (k : unit -> M B) :
  (forall a, hoare (Inv true mode) (k a) (Inv true mode)) ->
  hoare (Inv used mode) (bind _start_using k) (Inv used' mode).
Proof.
  intros Hk. apply (hoare_bind _ (Inv true mode)).
  - apply hoare_start_using.
  - intros a. eapply hoare_weaken; [apply Hk | auto | apply Inv_any].
  - apply Inv_any.
Qed.

Lemma hoare_any {A} used mode (m : M A) :
  hoare (Inv true mode) m (Inv true mode) -> hoare (Inv true mode) m (Inv used mode).
Proof. intros H. eapply hoare_weaken; [exact H | auto | apply Inv_any]. Qed.

Lemma hoare_insert_tracer mode file_id plugin_name :
  hoare (Inv true mode)
    (bind (query (sql_insert_tracer file_id plugin_name))
       (fun r => match r with
                 | Some db' => modify (fun s => set_database s (Some db'))
                 | None => no_table
                 end))
    (Inv true mode).
Proof.
  apply hoare_query_then. intros s db Hdb HI.
  destruct (sql_insert_tracer _ _ db) as [db'|] eqn:E; cbn; [|exact HI].
  destruct (stable_insert_tracer _ _ _ _ E).
  apply (Inv_set_db true mode s db); auto.
Qed.

Lemma hoare_insert_arc mode f c x y :
  hoare (Inv true mode) (insert_arc f c x y) (Inv true mode).
Proof. unfold insert_arc. hauto. Qed.

Lemma hoare_select_regexp (P : CoverageData -> Prop) e patterns rows : forall ids,
  hoare P (select_regexp e patterns rows ids) P.
Proof.
  induction rows as [|[id context] rows IH]; intros ids; cbn [select_regexp].
  - apply hoare_ret.
  - destruct (regexp_any e context patterns) as [[]|]; [apply IH | apply IH |].
    destruct (is_empty ids); [apply hoare_no_table | apply hoare_raise].
Qed.

Ltac hstep2 :=
  match goal with
  | |- hoare _ (bind (query (sql_insert_tracer _ _)) _) _ => apply hoare_insert_tracer
  | |- hoare (Inv _ _) (bind _start_using _) (Inv _ _) => apply hoare_start_then; intro
  | |- hoare _ (_file_id _ _) _ => apply hoare_file_id
  | |- hoare _ (_context_id _) _ => apply hoare_context_id
  | |- hoare _ _set_context_id _ => apply hoare_set_context_id
  | |- hoare _ (insert_arc _ _ _ _) _ => apply hoare_insert_arc
  | |- hoare _ (select_regexp _ _ _ _) _ => apply hoare_select_regexp
  | |- hoare _ (executemany_raw (sql_insert_line_bits _ _ _)) _ =>
      apply hoare_executemany_raw; apply stable_insert_line_bits
  | _ => hstep
  end.

Ltac hauto2 := repeat hstep2.

(** The block of [add_lines] and that of [add_arcs]. *)
Lemma hoare_add_lines_block mode line_data :
  hoare (Inv true mode)
    (_connect ;;
     with_db
       (_set_context_id ;;
        for_each line_data (fun '(filename, linenos) =>
          let linemap := nums_to_numbits linenos in
          file_id <- bind (_file_id filename true) the ;;
          s <- get ;;
          context_id <- the (_current_context_id s) ;;
          existing <- query (sql_line_bits file_id context_id) ;;
          let linemap := match existing with
                         | nb :: _ => numbits_union linemap nb
                         | [] => linemap
                         end in
          execute (sql_replace_line_bits file_id context_id linemap))))
    (Inv true mode).
Proof. hauto2. Qed.

Lemma hoare_add_arcs_block mode arc_data :
  hoare (Inv true mode)
    (_connect ;;
     with_db
       (_set_context_id ;;
        for_each arc_data (fun '(filename, arcs) =>
          file_id <- bind (_file_id filename true) the ;;
          s <- get ;;
          context_id <- the (_current_context_id s) ;;
          for_each arcs (fun '(fromno, tono) =>
            insert_arc file_id context_id fromno tono))))
    (Inv true mode).
Proof. hauto2. Qed.

Lemma hoare_add_lines used used' mode line_data :
  hoare (Inv used mode) (add_lines line_data) (Inv used' mode).
Proof. unfold add_lines. hauto2. Qed.

Lemma hoare_add_arcs used used' mode arc_data :
  hoare (Inv used mode) (add_arcs arc_data) (Inv used' mode).
Proof. unfold add_arcs. hauto2. Qed.

Lemma hoare_file_tracer used used' mode filename :
  hoare (Inv used mode) (file_tracer filename) (Inv used' mode).
Proof. unfold file_tracer. hauto2. Qed.

Ltac hstep3 :=
  match goal with
  | |- hoare _ (file_tracer _) _ => apply (hoare_file_tracer true true)
  | _ => hstep2
  end.

Lemma hoare_add_file_tracers used mode file_tracers :
  hoare (Inv used mode) (add_file_tracers file_tracers) (Inv used mode).
Proof.
  unfold add_file_tracers. destruct (is_empty file_tracers); [apply hoare_ret|].
  repeat hstep3.
Qed.

Lemma hoare_touch_file used used' mode filename plugin_name :
  hoare (Inv used mode) (touch_file filename plugin_name) (Inv used' mode).
Proof.
  unfold touch_file. repeat hstep3. apply hoare_add_file_tracers.
Qed.

Lemma hoare_reset_read mode :
  hoare (Inv true mode) (_reset ;; read) (Inv true mode).
Proof.
  intros s H. unfold bind at 1. cbn [_reset modify fst snd].
  apply (hoare_read false mode). apply (hoare_reset true mode s H).
Qed.

Ltac hstep4 :=
  match goal with
  | |- hoare _ (bind _reset (fun _ => read)) _ => apply hoare_reset_read
  | _ => hstep3
  end.

Lemma hoare_update used mode other_data aliases :
  hoare (Inv used mode) (update other_data aliases) (Inv used mode).
Proof.
  intros s H. unfold update. unfold bind at 1. cbn [get].
  destruct (_has_lines s && _has_arcs other_data); [exact H|].
  destruct (_has_arcs s && _has_lines other_data); [exact H|].
  revert s H. apply hoare_start_then. intro.
  repeat hstep4.
Qed.

Lemma hoare_measured_contexts used used' mode :
  hoare (Inv used mode) measured_contexts (Inv used' mode).
Proof. unfold measured_contexts. repeat hstep4. Qed.

Lemma hoare_set_query_context used used' mode context :
  hoare (Inv used mode) (set_query_context context) (Inv used' mode).
Proof. unfold set_query_context. repeat hstep4. Qed.

Lemma hoare_set_query_contexts used used' mode contexts :
  hoare (Inv used mode) (set_query_contexts contexts) (Inv used' mode).
Proof. unfold set_query_contexts. repeat hstep4. Qed.

Lemma hoare_arcs used used' mode filename :
  hoare (Inv used mode) (arcs filename) (Inv used' mode).
Proof. unfold arcs. repeat hstep4. Qed.

Lemma hoare_lines used used' mode filename :
  hoare (Inv used mode) (lines filename) (Inv used' mode).
Proof.
  unfold lines. repeat hstep4. apply (hoare_arcs true true).
Qed.

Lemma hoare_contexts_by_lineno used used' mode filename :
  hoare (Inv used mode) (contexts_by_lineno filename) (Inv used' mode).
Proof. unfold contexts_by_lineno. repeat hstep4. Qed.
Lemma with_db_query {A} (q : Db -> A) s : with_db (query q) s = query q s.
Proof.
  apply with_db_keeps. unfold query, bind, get. cbn.
  destruct (database s) eqn:E; cbn; now rewrite E.
Qed.

Lemma hoare_dumps used mode : hoare (Inv used mode) dumps (Inv used mode).
Proof.
  unfold dumps. apply hoare_seq; [apply hoare_connect|].
  intros _ s H. rewrite with_db_query. now apply hoare_query.
Qed.

Lemma hoare_nonzero used mode : hoare (Inv used mode) __nonzero__ (Inv used mode).
Proof.
  unfold __nonzero__. apply hoare_seq; [apply hoare_get|]. intros s0.
  destruct (negb (_dbs s0) && negb (file_exists s0)); [apply hoare_ret|].
  intros s H. unfold except_CoverageException.
  assert (Hm : hoare (Inv used mode)
                 (_connect ;;
                  with_db (rows <- query (fun db => firstn 1 (file_rows db)) ;;
                           ret (negb (is_empty rows))))
                 (Inv used mode)).
  { apply hoare_seq; [apply hoare_connect|]. intros _ s1 H1.
    rewrite with_db_keeps.
    - unfold bind, query, get. cbn. destruct (database s1); exact H1.
    - unfold bind, query, get. cbn. destruct (database s1) eqn:E; cbn; now rewrite E. }
  specialize (Hm s H).
  destruct ((_connect ;; _) s) as [[b|[[] msg args]] s']; exact Hm.
Qed.

(** Every call but the loading of a dump keeps the invariant, and the mode
    once it is chosen. *)
Lemma hoare_do_call mode c :
  no_load c -> hoare (Inv false mode) (do_call c) (Inv false mode).
Proof.
  intros Hc. destruct c; cbn [do_call]; unfold forget.
  - apply hoare_add_lines.
  - apply hoare_add_arcs.
  - apply hoare_add_file_tracers.
  - apply hoare_touch_file.
  - unfold set_context. repeat hstep4.
  - apply hoare_set_query_context.
  - apply hoare_set_query_contexts.
  - apply hoare_update.
  - apply hoare_erase.
  - eapply hoare_weaken; [apply (hoare_read false mode) | auto | apply Inv_weaken].
  - apply hoare_ret.
  - apply hoare_seq; [apply hoare_nonzero | intro; apply hoare_ret].
  - apply hoare_seq; [apply hoare_dumps | intro; apply hoare_ret].
  - destruct data as [db|data head]; [destruct Hc|]. apply hoare_raise.
  - apply hoare_seq; [apply hoare_lines | intro; apply hoare_ret].
  - apply hoare_seq; [apply hoare_arcs | intro; apply hoare_ret].
  - apply hoare_seq; [apply hoare_contexts_by_lineno | intro; apply hoare_ret].
  - apply hoare_seq; [apply hoare_file_tracer | intro; apply hoare_ret].
  - unfold measured_files. repeat hstep4.
  - apply hoare_seq; [apply hoare_measured_contexts | intro; apply hoare_ret].
  - unfold has_arcs. repeat hstep4.
Qed.

Lemma Inv_after_calls mode cs : Forall no_load cs -> forall s,
  Inv false mode s -> Inv false mode (after_calls cs s).
Proof.
  unfold after_calls. induction 1 as [|c cs Hc _ IH]; intros s H; cbn [fold_left].
  - exact H.
  - apply IH. apply (hoare_do_call mode c Hc s H).
Qed.

(** A new object satisfies the invariant when the data file is absent or was
    written by this code. *)
Lemma Inv_init e no_disk data_file :
  (forall db, data_file = Some db -> db_meta_ok db) ->
  Inv false None (CoverageData_init e no_disk data_file).
Proof.
  intros H. unfold Inv, fresh, mode_is. cbn.
  split; [discriminate|]. split; [discriminate|]. split; [discriminate|].
  split; [|exact I].
  intros db E. destruct no_disk; [discriminate|]. split; [now apply H | now left].
Qed.

(** ** The mode lock *)

Lemma start_using_flags s :
  fst (_start_using s) = Return tt
  /\ _has_lines (snd (_start_using s)) = _has_lines s
  /\ _has_arcs (snd (_start_using s)) = _has_arcs s.
Proof.
  rewrite start_using_result. cbn [fst snd].
  destruct (_have_used s); cbn; auto.
Qed.

Lemma add_arcs_on_lines s arc_data :
  _has_lines s = true ->
  fst (add_arcs arc_data s)
  = Raise (Exc CoverageException "Can't add arcs to existing line data" []).
Proof.
  intros H. unfold add_arcs. unfold bind at 1.
  destruct (start_using_flags s) as (_ & Hl & _).
  rewrite start_using_result in *. cbn [fst snd] in *.
  unfold bind at 1. unfold _choose_lines_or_arcs. cbn [orb negb andb].
  unfold bind at 1. cbn [get]. rewrite Hl, H. reflexivity.
Qed.

Lemma add_lines_on_arcs s line_data :
  _has_arcs s = true ->
  fst (add_lines line_data s)
  = Raise (Exc CoverageException "Can't add lines to existing arc data" []).
Proof.
  intros H. unfold add_lines. unfold bind at 1.
  destruct (start_using_flags s) as (_ & _ & Ha).
  rewrite start_using_result in *. cbn [fst snd] in *.
  unfold bind at 1. unfold _choose_lines_or_arcs. cbn [orb negb andb].
  unfold bind at 1. cbn [get]. rewrite Ha, H. reflexivity.
Qed.

(** A successful [add_lines] leaves a lines-mode store. *)
Lemma add_lines_locks mode s line_data s1 :
  Inv false mode s -> add_lines line_data s = (Return tt, s1) ->
  Inv false (Some false) s1.
Proof.
  intros HI E. unfold add_lines in E. unfold bind at 1 in E.
  pose proof (hoare_start_using false mode s HI) as H0.
  rewrite start_using_result in *. cbn [fst snd] in *.
  set (s0 := if _have_used s then _ else _) in *.
  unfold bind at 1 in E.
  destruct (choose_spec mode true false s0 H0) as (H1 & Hf & _).
  destruct (_choose_lines_or_arcs true false s0) as [[[]|e] s'] eqn:Ec;
    cbn [fst snd] in *; [|discriminate].
  destruct (Hf eq_refl) as [Hl Ha].
  assert (H2 : Inv true (Some false) s').
  { apply (Inv_mode true mode); [exact H1|]. cbn. auto. }
  apply Inv_weaken with (used := true).
  match type of E with
  | ?rest s' = _ =>
      assert (Hr : hoare (Inv true (Some false)) rest (Inv true (Some false)))
        by hauto2;
      specialize (Hr s' H2); rewrite E in Hr; exact Hr
  end.
Qed.

(** A successful [add_arcs] leaves an arcs-mode store. *)
Lemma add_arcs_locks mode s arc_data s1 :
  Inv false mode s -> add_arcs arc_data s = (Return tt, s1) ->
  Inv false (Some true) s1.
Proof.
  intros HI E. unfold add_arcs in E. unfold bind at 1 in E.
  pose proof (hoare_start_using false mode s HI) as H0.
  rewrite start_using_result in *. cbn [fst snd] in *.
  set (s0 := if _have_used s then _ else _) in *.
  unfold bind at 1 in E.
  destruct (choose_spec mode false true s0 H0) as (H1 & Hf & _).
  destruct (_choose_lines_or_arcs false true s0) as [[[]|e] s'] eqn:Ec;
    cbn [fst snd] in *; [|discriminate].
  destruct (Hf eq_refl) as [Hl Ha].
  assert (H2 : Inv true (Some true) s').
  { apply (Inv_mode true mode); [exact H1|]. cbn. auto. }
  apply Inv_weaken with (used := true).
  match type of E with
  | ?rest s' = _ =>
      assert (Hr : hoare (Inv true (Some true)) rest (Inv true (Some true)))
        by hauto2;
      specialize (Hr s' H2); rewrite E in Hr; exact Hr
  end.
Qed.

(** C2, as the code has it.  From a new object, on a data file that is absent
    or was written by this code, and with calls that load no dump: once
    [add_lines] has returned, every later [add_arcs], whatever calls come in
    between ([erase], [read] and [update] among them), raises
    [CoverageException("Can't add arcs to existing line data")], and
    symmetrically every [add_lines] after a successful [add_arcs] raises
    [CoverageException("Can't add lines to existing arc data")]; the mode of
    the first ingestion stays.  [loads] is the one call that replaces the
    mode, by that of the dump. *)
Theorem mode_lock (e : Environ) (no_disk : bool) (data_file : option Db)
    (before between : list call) (line_data : list (string * list nat))
    (arc_data : list (string * list (Z * Z))) (s1 : CoverageData) :
  (forall db, data_file = Some db -> db_meta_ok db) ->
  Forall no_load before -> Forall no_load between ->
  let s := after_calls before (CoverageData_init e no_disk data_file) in
  (add_lines line_data s = (Return tt, s1) ->
   mode_is (Some false) (after_calls between s1)
   /\ forall arc_data',
        fst (add_arcs arc_data' (after_calls between s1))
        = Raise (Exc CoverageException "Can't add arcs to existing line data" []))
  /\ (add_arcs arc_data s = (Return tt, s1) ->
      mode_is (Some true) (after_calls between s1)
      /\ forall line_data',
           fst (add_lines line_data' (after_calls between s1))
           = Raise (Exc CoverageException "Can't add lines to existing arc data" [])).
Proof.
  intros Hfile Hbefore Hbetween s.
  assert (HI : Inv false None s).
  { apply Inv_after_calls; [exact Hbefore|]. now apply Inv_init. }
  split; intros E.
  - pose proof (Inv_after_calls _ between Hbetween s1 (add_lines_locks _ _ _ _ HI E)) as H.
    destruct H as (_ & _ & _ & _ & Hm). split; [exact Hm|].
    intros d. apply add_arcs_on_lines. destruct Hm as [_ Hl]. exact Hl.
  - pose proof (Inv_after_calls _ between Hbetween s1 (add_arcs_locks _ _ _ _ HI E)) as H.
    destruct H as (_ & _ & _ & _ & Hm). split; [exact Hm|].
    intros d. apply add_lines_on_arcs. destruct Hm as [Ha _]. exact Ha.
Qed.

Lemma add_lines_empty s :
  add_lines [] s = _choose_lines_or_arcs true false (snd (_start_using s)).
Proof.
  unfold add_lines. unfold bind at 1. rewrite start_using_result. cbn [fst snd is_empty].
  unfold bind. destruct (_choose_lines_or_arcs true false _) as [[[]|x] s']; reflexivity.
Qed.

Lemma add_arcs_empty s :
  add_arcs [] s = _choose_lines_or_arcs false true (snd (_start_using s)).
Proof.
  unfold add_arcs. unfold bind at 1. rewrite start_using_result. cbn [fst snd is_empty].
  unfold bind. destruct (_choose_lines_or_arcs false true _) as [[[]|x] s']; reflexivity.
Qed.

(** C9.  On a store that has not chosen a mode, [add_lines] with an empty
    mapping returns, writes [meta['has_arcs'] = "0"] and fixes lines-mode, so
    that every [add_arcs] then raises; symmetrically [add_arcs] with an empty
    mapping writes ["1"] and fixes arcs-mode.  On a new object no line and no
    file is recorded by it. *)
Theorem empty_ingest_fixes_mode (e : Environ) (no_disk : bool) (data_file : option Db)
    (before : list call) :
  (forall db, data_file = Some db -> db_meta_ok db) ->
  Forall no_load before ->
  let s := after_calls before (CoverageData_init e no_disk data_file) in
  _has_lines s = false -> _has_arcs s = false ->
  (exists s1,
      add_lines [] s = (Return tt, s1)
      /\ mode_is (Some false) s1
      /\ (exists db, database s1 = Some db /\ sql_meta "has_arcs" db = ["0"])
      /\ (before = [] ->
          exists db, database s1 = Some db /\ line_bits_rows db = [] /\ file_rows db = [])
      /\ forall arc_data,
           fst (add_arcs arc_data s1)
           = Raise (Exc CoverageException "Can't add arcs to existing line data" []))
  /\ (exists s1,
         add_arcs [] s = (Return tt, s1)
         /\ mode_is (Some true) s1
         /\ (exists db, database s1 = Some db /\ sql_meta "has_arcs" db = ["1"])
         /\ (before = [] ->
             exists db, database s1 = Some db /\ arc_rows db = [] /\ file_rows db = [])
         /\ forall line_data,
              fst (add_lines line_data s1)
              = Raise (Exc CoverageException "Can't add lines to existing arc data" [])).
Proof.
  intros Hfile Hbefore s Hl Ha.
  assert (HI : Inv false None s).
  { apply Inv_after_calls; [exact Hbefore|]. now apply Inv_init. }
  pose proof (hoare_start_using false None s HI) as H0.
  destruct (start_using_flags s) as (_ & Hl0 & Ha0).
  rewrite Hl in Hl0. rewrite Ha in Ha0.
  split.
  - destruct (choose_spec None true false _ H0) as (H1 & Hf & Hr).
    destruct (Hr Hl0 Ha0 eq_refl) as (Hret & db & Hdb & Hm).
    destruct (Hf Hret) as [Hl1 Ha1].
    exists (snd (_choose_lines_or_arcs true false (snd (_start_using s)))).
    split; [|split; [|split; [|split]]].
    + rewrite add_lines_empty.
      destruct (_choose_lines_or_arcs true false _) as [r s']. cbn in *. now subst.
    + cbn. auto.
    + eauto.
    + intros ->. subst s. destruct no_disk, data_file; cbn; eauto.
    + intros d. now apply add_arcs_on_lines.
  - destruct (choose_spec None false true _ H0) as (H1 & Hf & Hr).
    destruct (Hr Hl0 Ha0 eq_refl) as (Hret & db & Hdb & Hm).
    destruct (Hf Hret) as [Hl1 Ha1].
    exists (snd (_choose_lines_or_arcs false true (snd (_start_using s)))).
    split; [|split; [|split; [|split]]].
    + rewrite add_arcs_empty.
      destruct (_choose_lines_or_arcs false true _) as [r s']. cbn in *. now subst.
    + cbn. auto.
    + eauto.
    + intros ->. subst s. destruct no_disk, data_file; cbn; eauto.
    + intros d. now apply add_lines_on_arcs.
Qed.
Lemma mode_lock_witness :
  fst (add_arcs [("f", [(1, 2)])]
         (after_calls [Erase; Read; Touch_file "g" ""]
            (snd (add_lines [("f", [1; 2]%nat)] new_store))))
  = Raise (Exc CoverageException "Can't add arcs to existing line data" []).
Proof.
  refine (proj2 (proj1 (mode_lock example_environ false None []
                          [Erase; Read; Touch_file "g" ""]
                          [("f", [1; 2]%nat)] [("f", [(1, 2)])]
                          (snd (add_lines [("f", [1; 2]%nat)] new_store)) _ _ _) _) _).
  - intros db H. discriminate H.
  - constructor.
  - repeat constructor.
  - vm_compute. reflexivity.
Defined.

(** C2 as stated fails twice.  On the class of the error: [add_arcs] after
    [add_lines] raises a [CoverageException], which is not a [DataError].  On
    the lifetime of the mode: after [add_lines], [erase] and [loads] of the
    dump of an arcs-mode store, [add_arcs] returns. *)
Lemma mode_lock_counterexample :
  let s1 := snd (add_lines [("f", [1; 2]%nat)] new_store) in
  fst (add_lines [("f", [1; 2]%nat)] new_store) = Return tt
  /\ fst (add_arcs [("f", [(1, 2)])] s1)
     = Raise (Exc CoverageException "Can't add arcs to existing line data" [])
  /\ ~ raises_class DataError (fst (add_arcs [("f", [(1, 2)])] s1))
  /\ fst (dumps arcs_store) = Return (dump_of arcs_store)
  /\ fst (add_arcs [("f", [(1, 2)])]
            (after_calls [Erase; Loads (dump_of arcs_store)] s1))
     = Return tt.
Proof.
  cbv zeta. split; [vm_compute; reflexivity|].
  split; [vm_compute; reflexivity|].
  split; [intros (msg & args & H); vm_compute in H; discriminate H|].
  split; vm_compute; reflexivity.
Qed.

Lemma empty_ingest_fixes_mode_witness :
  exists s1,
    add_lines [] new_store = (Return tt, s1)
    /\ fst (add_arcs [("f", [(1, 2)])] s1)
       = Raise (Exc CoverageException "Can't add arcs to existing line data" []).
Proof.
  destruct (empty_ingest_fixes_mode example_environ false None []
              (fun db (H : None = Some db) =>
                 False_ind _ (eq_ind None (fun o => match o with
                                                    | None => True
                                                    | Some _ => False
                                                    end) I _ H))
              (Forall_nil _)
              eq_refl eq_refl) as [(s1 & E & _ & _ & _ & H) _].
  exists s1. split; [exact E | apply H].
Defined.

(** * Evaluation of the methods on a store in use *)

Lemma bind_return {A B} (m : M A) (k : A -> M B) s a s' :
  m s = (Return a, s') -> bind m k s = k a s'.
Proof. intros H. unfold bind. now rewrite H. Qed.

Lemma bind_raise {A B} (m : M A) (k : A -> M B) s e s' :
  m s = (Raise e, s') -> bind m k s = (Raise e, s').
Proof. intros H. unfold bind. now rewrite H. Qed.

Lemma set_have_used_id s : _have_used s = true -> set__have_used s true = s.
Proof. destruct s. cbn. now intros ->. Qed.

Lemma start_using_used s : _have_used s = true -> _start_using s = (Return tt, s).
Proof.
  intros H. rewrite start_using_result, H. now rewrite set_have_used_id.
Qed.

Lemma connect_used s : _dbs s = true -> _connect s = (Return tt, s).
Proof. intros H. now rewrite connect_result, H. Qed.

Lemma query_used {A} (q : Db -> A) s db :
  database s = Some db -> query q s = (Return (q db), s).
Proof. intros H. unfold query, bind, get. cbn. now rewrite H. Qed.

Lemma execute_used stmt s db :
  database s = Some db ->
  execute stmt s = (Return tt, set_database s (Some (stmt db))).
Proof. intros H. unfold execute, bind, get. cbn. now rewrite H. Qed.

(** The result of a block that, when it raises, has left the database as it
    was. *)
Lemma with_db_result {A} (body : M A) s r :
  body s = r ->
  (is_raise (fst r) = true -> database (snd r) = database s) ->
  with_db body s = r.
Proof.
  intros <- H. unfold with_db. destruct (body s) as [[a|e] s']; [reflexivity|].
  cbn in H. now rewrite (rollback_same s s' (H eq_refl)).
Qed.

Lemma file_id_lookup filename s :
  _file_id filename false s = (Return (dict_get String.eqb filename (_file_map s)), s).
Proof.
  unfold _file_id, bind, get, when. cbn. now rewrite andb_false_r.
Qed.

Lemma file_tracer_used filename s db :
  in_use s db ->
  file_tracer filename s
  = (Return (match dict_get String.eqb filename (_file_map s) with
             | None => None
             | Some file_id =>
                 Some (match sql_tracer file_id db with
                       | t :: _ => t
                       | [] => ""
                       end)
             end), s).
Proof.
  intros (Hu & Hd & Hdb). unfold file_tracer.
  rewrite (bind_return _ _ _ _ _ (start_using_used s Hu)).
  rewrite (bind_return _ _ _ _ _ (connect_used s Hd)).
  apply with_db_return.
  rewrite (bind_return _ _ _ _ _ (file_id_lookup filename s)).
  destruct (dict_get String.eqb filename (_file_map s)) as [file_id|]; [|reflexivity].
  rewrite (bind_return _ _ _ _ _ (query_used _ s db Hdb)).
  destruct (sql_tracer file_id db); reflexivity.
Qed.



(** * File tracers *)

Lemma add_file_tracers_one filename plugin_name s db :
  in_use s db ->
  add_file_tracers [(filename, plugin_name)] s
  = match dict_get String.eqb filename (_file_map s) with
    | None =>
        (Raise (Exc CoverageException
                  "Can't add file tracer data for unmeasured file '%s'"
                  [VStr filename]), s)
    | Some file_id =>
        let t := match sql_tracer file_id db with t :: _ => t | [] => "" end in
        if negb (String.eqb t "") then
          if negb (String.eqb t plugin_name) then
            (Raise (Exc CoverageException
                      "Conflicting file tracer name for '%s': %r vs %r"
                      [VStr filename; VStr t; VStr plugin_name]), s)
          else (Return tt, s)
        else if negb (String.eqb plugin_name "") then
          match sql_insert_tracer file_id plugin_name db with
          | Some db' => (Return tt, set_database s (Some db'))
          | None => no_table s
          end
        else (Return tt, s)
    end.
Proof.
  intros Hin. pose proof Hin as (Hu & Hd & Hdb).
  pose proof (file_tracer_used filename s db Hin) as Eft.
  unfold add_file_tracers. cbn [is_empty].
  rewrite (bind_return _ _ _ _ _ (start_using_used s Hu)).
  rewrite (bind_return _ _ _ _ _ (connect_used s Hd)).
  apply with_db_result.
  - cbn [for_each]. cbv beta iota.
    unfold bind at 1.
    rewrite (bind_return _ _ _ _ _ (file_id_lookup filename s)).
    destruct (dict_get String.eqb filename (_file_map s)) as [file_id|] eqn:Ef;
      [|reflexivity].
    cbv beta iota zeta.
    rewrite (bind_return _ _ _ _ _ Eft).
    set (t := match sql_tracer file_id db with t :: _ => t | [] => "" end).
    destruct (String.eqb t "") eqn:Et; cbn [negb].
    + destruct (String.eqb plugin_name ""); cbn [negb when]; [reflexivity|].
      rewrite (bind_return _ _ _ _ _ (query_used _ s db Hdb)).
      destruct (sql_insert_tracer file_id plugin_name db); reflexivity.
    + destruct (String.eqb t plugin_name); reflexivity.
  - destruct (dict_get String.eqb filename (_file_map s)) as [file_id|];
      [|reflexivity].
    cbv zeta.
    destruct (negb (String.eqb _ "")); [destruct (negb _); [reflexivity | discriminate]|].
    destruct (negb (String.eqb plugin_name "")); [|discriminate].
    destruct (sql_insert_tracer file_id plugin_name db); [discriminate | reflexivity].
Qed.

(** C7, as the code has it.  On a store in use, for a file that is in the
    store, with [t] the tracer that [file_tracer] gives for it: adding the
    empty tracer name returns and leaves the store as it is when [t] is empty;
    when [t] is not empty it raises the conflict of [t] with [""], and leaves
    the store as it is. *)
Theorem add_empty_file_tracer (s : CoverageData) (db : Db) (filename t : string) :
  in_use s db ->
  fst (file_tracer filename s) = Return (Some t) ->
  (t = "" -> add_file_tracers [(filename, "")] s = (Return tt, s))
  /\ (t <> "" ->
      add_file_tracers [(filename, "")] s
      = (Raise (Exc CoverageException
                  "Conflicting file tracer name for '%s': %r vs %r"
                  [VStr filename; VStr t; VStr ""]), s)).
Proof.
  intros Hin Ht.
  rewrite (file_tracer_used filename s db Hin) in Ht. cbn [fst] in Ht.
  rewrite (add_file_tracers_one filename "" s db Hin).
  destruct (dict_get String.eqb filename (_file_map s)) as [file_id|];
    [|discriminate].
  injection Ht as Ht. cbv zeta. rewrite Ht. clear Ht.
  split; intros Hcase.
  - rewrite Hcase. reflexivity.
  - destruct (String.eqb_spec t ""); [contradiction|]. reflexivity.
Qed.

Lemma add_empty_file_tracer_witness :
  add_file_tracers [("f.py", "")]
    (after_calls [Add_lines [("f.py", [1%nat; 2%nat])]] new_store)
  = (Return tt, after_calls [Add_lines [("f.py", [1%nat; 2%nat])]] new_store).
Proof.
  refine (proj1 (add_empty_file_tracer _ _ "f.py" "" _ _) eq_refl).
  - vm_compute. repeat split; reflexivity.
  - vm_compute. reflexivity.
Defined.

Lemma add_empty_file_tracer_counterexample :
  fst (file_tracer "f.py" tracer_store) = Return (Some "plugin")
  /\ add_file_tracers [("f.py", "")] tracer_store
     = (Raise (Exc CoverageException
                 "Conflicting file tracer name for '%s': %r vs %r"
                 [VStr "f.py"; VStr "plugin"; VStr ""]), tracer_store).
Proof. split; vm_compute; reflexivity. Qed.

(** * The queries *)

(** ** Dicts *)

Section DictFacts.
Context {K V : Type} (eqb : K -> K -> bool).
Hypothesis eqb_eq : forall a b, eqb a b = true <-> a = b.

Lemma eqb_refl_true a : eqb a a = true.
Proof. now apply eqb_eq. Qed.

Lemma eqb_neq a b : a <> b -> eqb a b = false.
Proof.
  intros H. destruct (eqb a b) eqn:E; [|reflexivity].
  apply eqb_eq in E. contradiction.
Qed.

Lemma dict_get_set_same k (v : V) d : dict_get eqb k (dict_set eqb k v d) = Some v.
Proof.
  induction d as [|[k' v'] d IH]; cbn.
  - now rewrite eqb_refl_true.
  - destruct (eqb k k') eqn:E; cbn.
    + now rewrite eqb_refl_true.
    + now rewrite E.
Qed.

Lemma dict_get_set_other k k' (v : V) d :
  k <> k' -> dict_get eqb k (dict_set eqb k' v d) = dict_get eqb k d.
Proof.
  intros Hne. induction d as [|[k0 v0] d IH]; cbn.
  - now rewrite (eqb_neq _ _ Hne).
  - destruct (eqb k' k0) eqn:E; cbn.
    + apply eqb_eq in E. subst k0. now rewrite (eqb_neq _ _ Hne).
    + destruct (eqb k k0); [reflexivity | exact IH].
Qed.

Lemma dict_get_In k (d : list (K * V)) :
  In k (map fst d) <-> dict_get eqb k d <> None.
Proof.
  induction d as [|[k' v'] d IH]; cbn.
  - split; [intros [] | intros H; now apply H].
  - destruct (eqb k k') eqn:E.
    + apply eqb_eq in E. subst. split; [discriminate | auto].
    + rewrite <- IH. split; [intros [H|H]; [subst; now rewrite eqb_refl_true in E | exact H] | auto].
Qed.

Lemma dict_set_keys k k' (v : V) d :
  In k (map fst (dict_set eqb k' v d)) <-> k = k' \/ In k (map fst d).
Proof.
  induction d as [|[k0 v0] d IH]; cbn.
  - intuition.
  - destruct (eqb k' k0) eqn:E; cbn.
    + apply eqb_eq in E. subst k0. intuition.
    + rewrite IH. intuition.
Qed.

Lemma dict_set_NoDup k (v : V) d :
  NoDup (map fst d) -> NoDup (map fst (dict_set eqb k v d)).
Proof.
  induction d as [|[k0 v0] d IH]; cbn; intros H.
  - constructor; [intros [] | constructor].
  - inversion H as [|? ? Hn Hd]; subst.
    destruct (eqb k k0) eqn:E; cbn.
    + apply eqb_eq in E. subst k0. now constructor.
    + constructor; [|now apply IH].
      rewrite dict_set_keys. intros [->|Hin]; [|contradiction].
      now rewrite eqb_refl_true in E.
Qed.
End DictFacts.

(** ** Numbits *)

Lemma numbits_to_nums_from_In n i nb :
  In n (numbits_to_nums_from i nb)
  <-> (i * 8 <= n)%nat
      /\ N.testbit (nth (Nat.div n 8 - i) nb 0%N) (N.of_nat (Nat.modulo n 8)) = true.
Proof.
  revert i. induction nb as [|byte nb IH]; intros i; cbn [numbits_to_nums_from].
  - split; [intros [] | intros [_ H]].
    destruct (Nat.div n 8 - i)%nat; cbn in H; discriminate.
  - rewrite in_app_iff, IH, in_map_iff.
    pose proof (Nat.div_mod_eq n 8) as Hdm.
    pose proof (Nat.mod_upper_bound n 8 ltac:(discriminate)) as Hm.
    split.
    + intros [(b & <- & Hb) | [Hle Ht]].
      * apply filter_In in Hb. destruct Hb as [Hb Ht]. apply in_seq in Hb.
        assert (Hq : ((i * 8 + b) / 8 = i)%nat).
        { rewrite Nat.add_comm, Nat.div_add by discriminate.
          rewrite Nat.div_small by lia. reflexivity. }
        assert (Hr : ((i * 8 + b) mod 8 = b)%nat).
        { rewrite Nat.add_comm, Nat.Div0.mod_add. apply Nat.mod_small. lia. }
        split; [lia|]. rewrite Hq, Hr, Nat.sub_diag. exact Ht.
      * split; [lia|].
        assert (Hq : (S i <= n / 8)%nat).
        { apply Nat.div_le_lower_bound; lia. }
        replace (n / 8 - i)%nat with (S (n / 8 - S i)) by lia. exact Ht.
    + intros [Hle Ht].
      destruct (Nat.eq_dec (n / 8) i) as [E|E].
      * left. exists (n mod 8)%nat. split; [lia|].
        apply filter_In. split; [apply in_seq; lia|].
        rewrite E, Nat.sub_diag in Ht. exact Ht.
      * right.
        assert (Hq : (i <= n / 8)%nat).
        { apply Nat.div_le_lower_bound; lia. }
        split; [lia|].
        replace (n / 8 - i)%nat with (S (n / 8 - S i)) in Ht by lia. exact Ht.
Qed.

Lemma numbits_to_nums_In n nb :
  In n (numbits_to_nums nb) <-> numbits_bit nb n = true.
Proof.
  unfold numbits_to_nums, numbits_bit. rewrite numbits_to_nums_from_In.
  rewrite Nat.sub_0_r. split; [intros [_ H]; exact H | intros H; split; [lia | exact H]].
Qed.

(** ** The map of [contexts_by_lineno] *)

Lemma contexts_of_set l' l v m :
  contexts_of l' (dict_set Z.eqb l v m) = if Z.eqb l' l then v else contexts_of l' m.
Proof.
  unfold contexts_of. destruct (Z.eqb_spec l' l) as [->|Hne].
  - now rewrite (dict_get_set_same Z.eqb Z.eqb_eq).
  - now rewrite (dict_get_set_other Z.eqb Z.eqb_eq) by exact Hne.
Qed.

Lemma append_context_In l c m l' name :
  In name (contexts_of l' (append_context l c m))
  <-> In name (contexts_of l' m) \/ (l' = l /\ name = c).
Proof.
  unfold append_context. rewrite contexts_of_set.
  destruct (Z.eqb_spec l' l) as [->|Hne].
  - rewrite in_app_iff. cbn. intuition.
  - intuition.
Qed.

Lemma add_context_once_In l c m l' name :
  In name (contexts_of l' (add_context_once l c m))
  <-> In name (contexts_of l' m) \/ (l' = l /\ name = c).
Proof.
  unfold add_context_once.
  destruct (existsb (String.eqb c) (contexts_of l m)) eqn:Ex;
    rewrite contexts_of_set; destruct (Z.eqb_spec l' l) as [->|Hne].
  - apply existsb_exists in Ex. destruct Ex as (x & Hx & Ec).
    apply String.eqb_eq in Ec. subst x. intuition. now subst.
  - intuition.
  - rewrite in_app_iff. cbn. intuition.
  - intuition.
Qed.

Lemma append_context_keys l c m l' :
  In l' (map fst (append_context l c m)) <-> l' = l \/ In l' (map fst m).
Proof. apply (dict_set_keys Z.eqb Z.eqb_eq). Qed.

Lemma add_context_once_keys l c m l' :
  In l' (map fst (add_context_once l c m)) <-> l' = l \/ In l' (map fst m).
Proof.
  unfold add_context_once. destruct (existsb _ _); apply (dict_set_keys Z.eqb Z.eqb_eq).
Qed.

Section Steps.
Variable step : Z -> string -> list (Z * list string) -> list (Z * list string).
Hypothesis step_In : forall l c m l' name,
  In name (contexts_of l' (step l c m))
  <-> In name (contexts_of l' m) \/ (l' = l /\ name = c).
Hypothesis step_keys : forall l c m l',
  In l' (map fst (step l c m)) <-> l' = l \/ In l' (map fst m).
Hypothesis step_NoDup : forall l c m,
  NoDup (map fst m) -> NoDup (map fst (step l c m)).

Lemma step_well l c m : contexts_well m -> contexts_well (step l c m).
Proof.
  intros [Hn Hk]. split; [now apply step_NoDup|].
  intros l'. rewrite step_keys, Hk. split.
  - intros [->|(name & H)].
    + exists c. apply step_In. auto.
    + exists name. apply step_In. auto.
  - intros (name & H). apply step_In in H. destruct H as [H|[-> _]]; eauto.
Qed.

Lemma steps_spec (evs : list (Z * string)) m :
  contexts_well m ->
  let m' := fold_left (fun m ev => step (fst ev) (snd ev) m) evs m in
  contexts_well m'
  /\ forall l name,
       In name (contexts_of l m') <-> In name (contexts_of l m) \/ In (l, name) evs.
Proof.
  revert m. induction evs as [|[l0 c0] evs IH]; intros m Hw; cbn.
  - split; [exact Hw | intuition].
  - destruct (IH (step l0 c0 m) (step_well l0 c0 m Hw)) as [Hw' Hin].
    split; [exact Hw'|]. intros l name. rewrite Hin, step_In.
    split.
    + intros [[H|[-> ->]]|H]; auto.
    + intros [H|[H|H]]; auto. injection H as -> ->. auto.
Qed.
End Steps.

Lemma contexts_well_nil : contexts_well [].
Proof.
  split; [constructor|]. intros l. cbn. split; [intros [] | intros (name & [])].
Qed.

Lemma fold_left_flat_map {A B C} (f : A -> C -> A) (g : B -> list C) l a :
  fold_left f (flat_map g l) a = fold_left (fun a x => fold_left f (g x) a) l a.
Proof.
  revert a. induction l as [|x l IH]; intros a; cbn; [reflexivity|].
  now rewrite fold_left_app, IH.
Qed.

Lemma fold_left_map {A B C} (f : A -> C -> A) (h : B -> C) l a :
  fold_left f (map h l) a = fold_left (fun a x => f a (h x)) l a.
Proof.
  revert a. induction l as [|x l IH]; intros a; cbn; [reflexivity | apply IH].
Qed.

Lemma fold_left_pointwise {A B} (f g : A -> B -> A) l a :
  (forall a x, f a x = g a x) -> fold_left f l a = fold_left g l a.
Proof.
  intros H. revert a. induction l as [|x l IH]; intros a; cbn; [reflexivity|].
  now rewrite H, IH.
Qed.

Lemma lines_loop_events rows m :
  fold_left (fun m '(nb, context) =>
               fold_left (fun m lineno => append_context (Z.of_nat lineno) context m)
                         (numbits_to_nums nb) m) rows m
  = fold_left (fun m ev => append_context (fst ev) (snd ev) m) (line_events rows) m.
Proof.
  unfold line_events. rewrite fold_left_flat_map.
  apply fold_left_pointwise. intros a [nb c]. cbn [fst snd].
  now rewrite fold_left_map.
Qed.

Lemma arcs_loop_events rows m :
  fold_left (fun m '(fromno, tono, context) =>
               add_context_once tono context (add_context_once fromno context m)) rows m
  = fold_left (fun m ev => add_context_once (fst ev) (snd ev) m) (arc_events rows) m.
Proof.
  unfold arc_events. rewrite fold_left_flat_map.
  apply fold_left_pointwise. intros a [[f t] c]. reflexivity.
Qed.

Lemma bind_get {B} (k : CoverageData -> M B) s : bind get k s = k s s.
Proof. reflexivity. Qed.

Lemma sorted_In {A} (leb : A -> A -> bool) (l : list A) x :
  In x (sorted leb l) <-> In x l.
Proof.
  split; apply Permutation_in; [|symmetry]; apply sorted_perm.
Qed.

(** The test of the code on a context id is the matching of the query. *)
Lemma in_query_matching s c :
  in_query (_query_context_ids s) c = true <-> matching s c.
Proof.
  unfold in_query, matching, memZ. destruct (_query_context_ids s) as [ids|].
  - rewrite existsb_exists. split.
    + intros (x & Hx & E) ids' H. injection H as <-.
      apply Z.eqb_eq in E. now subst.
    + intros H. exists c. split; [now apply H | apply Z.eqb_refl].
  - split; [discriminate | reflexivity].
Qed.

Lemma line_events_In s db file_id l name :
  In (l, name)
     (line_events
        (flat_map (fun r =>
           if (fst (fst r) =? file_id) && in_query (_query_context_ids s) (snd (fst r)) then
             map (fun cr => (snd r, snd cr))
                 (filter (fun cr => fst cr =? snd (fst r)) (context_rows db))
           else []) (sorted line_bits_index_leb (line_bits_rows db))))
  <-> line_with_context s db file_id l name.
Proof.
  unfold line_events, line_with_context. rewrite in_flat_map. split.
  - intros ([nb c] & Hrow & Hev). cbn [fst snd] in Hev.
    apply in_map_iff in Hev. destruct Hev as (n & Hn & Hbit).
    injection Hn as <- <-. apply numbits_to_nums_In in Hbit.
    apply in_flat_map in Hrow. destruct Hrow as ([[f cid] nb'] & Hlb & Hc).
    cbn [fst snd] in Hc.
    destruct ((f =? file_id) && in_query (_query_context_ids s) cid) eqn:Econd;
      [|destruct Hc].
    apply andb_true_iff in Econd. destruct Econd as [Ef Eq].
    apply Z.eqb_eq in Ef. subst f.
    apply in_query_matching in Eq. apply sorted_In in Hlb.
    apply in_map_iff in Hc. destruct Hc as ([cid' cname] & Hp & Hcr).
    cbn [fst snd] in Hp. injection Hp as -> ->.
    apply filter_In in Hcr. destruct Hcr as [Hcr Eid]. cbn [fst] in Eid.
    apply Z.eqb_eq in Eid. subst cid'.
    exists cid, nb, n. auto.
  - intros (cid & nb & n & Hlb & Hq & Hcr & Hbit & ->).
    apply in_query_matching in Hq.
    exists (nb, name). cbn [fst snd]. split.
    + apply in_flat_map. exists (file_id, cid, nb).
      split; [apply sorted_In; exact Hlb|].
      cbn [fst snd]. rewrite Z.eqb_refl, Hq. cbn [andb].
      apply in_map_iff. exists (cid, name). split; [reflexivity|].
      apply filter_In. split; [exact Hcr|]. cbn. apply Z.eqb_refl.
    + apply in_map_iff. exists n. split; [reflexivity|].
      now apply numbits_to_nums_In.
Qed.

Lemma arc_events_In s db file_id l name :
  In (l, name)
     (arc_events
        (flat_map (fun '(f, c, fromno, tono) =>
           if (f =? file_id) && in_query (_query_context_ids s) c then
             map (fun cr => (fromno, tono, snd cr))
                 (filter (fun cr => fst cr =? c) (context_rows db))
           else []) (sorted arc_index_leb (arc_rows db))))
  <-> arc_end_with_context s db file_id l name.
Proof.
  unfold arc_events, arc_end_with_context. rewrite in_flat_map. split.
  - intros ([[fromno tono] c] & Hrow & Hev). cbn [fst snd] in Hev.
    apply in_flat_map in Hrow. destruct Hrow as ([[[f cid] x] y] & Har & Hc).
    destruct ((f =? file_id) && in_query (_query_context_ids s) cid) eqn:Econd;
      [|destruct Hc].
    apply andb_true_iff in Econd. destruct Econd as [Ef Eq].
    apply Z.eqb_eq in Ef. subst f.
    apply in_query_matching in Eq. apply sorted_In in Har.
    apply in_map_iff in Hc. destruct Hc as ([cid' cname] & Hp & Hcr).
    cbn [fst snd] in Hp. injection Hp as -> -> ->.
    apply filter_In in Hcr. destruct Hcr as [Hcr Eid]. cbn [fst] in Eid.
    apply Z.eqb_eq in Eid. subst cid'.
    exists cid, fromno, tono.
    destruct Hev as [Hev|[Hev|[]]]; injection Hev as <- <-; auto.
  - intros (cid & fromno & tono & Har & Hq & Hcr & Hl).
    apply in_query_matching in Hq.
    exists (fromno, tono, name). cbn [fst snd]. split.
    + apply in_flat_map. exists (file_id, cid, fromno, tono).
      split; [apply sorted_In; exact Har|].
      rewrite Z.eqb_refl, Hq. cbn [andb].
      apply in_map_iff. exists (cid, name). split; [reflexivity|].
      apply filter_In. split; [exact Hcr|]. cbn. apply Z.eqb_refl.
    + destruct Hl as [->| ->]; cbn; auto.
Qed.

Lemma arcs_used filename s db :
  in_use s db ->
  arcs filename s
  = (Return (option_map (arcs_of s db) (dict_get String.eqb filename (_file_map s))), s).
Proof.
  intros (Hu & Hd & Hdb). unfold arcs.
  rewrite (bind_return _ _ _ _ _ (start_using_used s Hu)).
  rewrite (bind_return _ _ _ _ _ (connect_used s Hd)).
  apply with_db_return.
  rewrite (bind_return _ _ _ _ _ (file_id_lookup filename s)).
  destruct (dict_get String.eqb filename (_file_map s)) as [file_id|]; [|reflexivity].
  rewrite bind_get.
  rewrite (bind_return _ _ _ _ _ (query_used _ s db Hdb)). reflexivity.
Qed.

Lemma lines_used filename s db :
  in_use s db ->
  lines filename s
  = (Return (option_map (lines_of s db) (dict_get String.eqb filename (_file_map s))), s).
Proof.
  intros Hin. pose proof Hin as (Hu & Hd & Hdb). unfold lines, lines_of.
  rewrite (bind_return _ _ _ _ _ (start_using_used s Hu)).
  rewrite bind_get.
  destruct (_has_arcs s) eqn:Ha.
  - rewrite (bind_return _ _ _ _ _ (arcs_used filename s db Hin)).
    destruct (dict_get String.eqb filename (_file_map s)) as [file_id|] eqn:Ef;
      cbn [option_map]; [reflexivity|].
    rewrite (bind_return _ _ _ _ _ (connect_used s Hd)).
    apply with_db_return.
    rewrite (bind_return _ _ _ _ _ (file_id_lookup filename s)).
    now rewrite Ef.
  - rewrite bind_return with (a := None) (s' := s) by reflexivity.
    rewrite (bind_return _ _ _ _ _ (connect_used s Hd)).
    apply with_db_return.
    rewrite (bind_return _ _ _ _ _ (file_id_lookup filename s)).
    destruct (dict_get String.eqb filename (_file_map s)) as [file_id|] eqn:Ef;
      [|reflexivity].
    rewrite bind_get.
    rewrite (bind_return _ _ _ _ _ (query_used _ s db Hdb)). reflexivity.
Qed.


Lemma lines_unknown filename s db :
  in_use s db -> dict_get String.eqb filename (_file_map s) = None ->
  lines filename s = (Return None, s) /\ arcs filename s = (Return None, s).
Proof.
  intros (Hu & Hd & Hdb) Hf.
  assert (Ha : arcs filename s = (Return None, s)).
  { unfold arcs.
    rewrite (bind_return _ _ _ _ _ (start_using_used s Hu)).
    rewrite (bind_return _ _ _ _ _ (connect_used s Hd)).
    apply with_db_return.
    rewrite (bind_return _ _ _ _ _ (file_id_lookup filename s)).
    now rewrite Hf. }
  split; [|exact Ha].
  unfold lines.
  rewrite (bind_return _ _ _ _ _ (start_using_used s Hu)).
  rewrite bind_get.
  assert (E : (if _has_arcs s then arcs filename else ret None) s = (Return None, s)).
  { destruct (_has_arcs s); [exact Ha | reflexivity]. }
  rewrite (bind_return _ _ _ _ _ E).
  rewrite (bind_return _ _ _ _ _ (connect_used s Hd)).
  apply with_db_return.
  rewrite (bind_return _ _ _ _ _ (file_id_lookup filename s)).
  now rewrite Hf.
Qed.

(** [contexts_by_lineno] on a store in use. *)
Lemma contexts_by_lineno_used (s : CoverageData) (db : Db) (filename : string) :
  in_use s db ->
  (dict_get String.eqb filename (_file_map s) = None ->
   contexts_by_lineno filename s = (Return [], s)
   /\ lines filename s = (Return None, s)
   /\ arcs filename s = (Return None, s))
  /\ (forall file_id,
        dict_get String.eqb filename (_file_map s) = Some file_id ->
        exists m,
          contexts_by_lineno filename s = (Return m, s)
          /\ NoDup (map fst m)
          /\ (forall l, In l (map fst m) <-> exists name, has_context s db file_id l name)
          /\ (forall l name,
                In name (contexts_of l m) <-> has_context s db file_id l name)).
Proof.
  intros Hin. pose proof Hin as (Hu & Hd & Hdb).
  assert (Hblock : forall (m : list (Z * list string)) (body : M (list (Z * list string))),
             body s = (Return m, s) ->
             (_start_using ;; _connect ;; with_db body) s = (Return m, s)).
  { intros m body Hb.
    rewrite (bind_return _ _ _ _ _ (start_using_used s Hu)).
    rewrite (bind_return _ _ _ _ _ (connect_used s Hd)).
    now apply with_db_return. }
  match goal with
  | |- context [contexts_by_lineno filename s] =>
      unfold contexts_by_lineno;
      match goal with
      | |- context [with_db ?b] => set (body := b)
      end
  end.
  pose proof (eq_refl (body s)) as E. unfold body in E at 2.
  rewrite (bind_return _ _ _ _ _ (file_id_lookup filename s)) in E.
  split.
  - intros Hf. rewrite Hf in E. split; [exact (Hblock _ _ E)|].
    exact (lines_unknown filename s db Hin Hf).
  - intros file_id Hf. rewrite Hf in E. rewrite bind_get in E.
    unfold has_context. destruct (_has_arcs s) eqn:Harcs.
    + rewrite (bind_return _ _ _ _ _ (query_used _ s db Hdb)) in E.
      rewrite arcs_loop_events in E.
      eexists. split; [exact (Hblock _ _ E)|].
      match goal with
      | |- context [fold_left _ (arc_events ?rows) []] =>
          destruct (steps_spec (fun l c m => add_context_once l c m)
                      add_context_once_In add_context_once_keys
                      (fun l c m => ltac:(unfold add_context_once;
                                          destruct (existsb _ _);
                                          apply (dict_set_NoDup Z.eqb Z.eqb_eq)))
                      (arc_events rows) [] contexts_well_nil) as [[Hn Hk] Hv]
      end.
      cbv zeta in Hn, Hk, Hv.
      match type of Hn with
      | NoDup (map fst ?m) =>
          assert (Hv' : forall l name,
                     In name (contexts_of l m) <-> arc_end_with_context s db file_id l name)
      end.
      { intros l name. rewrite Hv, arc_events_In. cbn. intuition. }
      split; [exact Hn|]. split; [|exact Hv'].
      intros l. rewrite Hk. split; intros (name & H); exists name; now apply Hv'.
    + rewrite (bind_return _ _ _ _ _ (query_used _ s db Hdb)) in E.
      rewrite lines_loop_events in E.
      eexists. split; [exact (Hblock _ _ E)|].
      match goal with
      | |- context [fold_left _ (line_events ?rows) []] =>
          destruct (steps_spec (fun l c m => append_context l c m)
                      append_context_In append_context_keys
                      (fun l c m => dict_set_NoDup Z.eqb Z.eqb_eq _ _ m)
                      (line_events rows) [] contexts_well_nil) as [[Hn Hk] Hv]
      end.
      cbv zeta in Hn, Hk, Hv.
      match type of Hn with
      | NoDup (map fst ?m) =>
          assert (Hv' : forall l name,
                     In name (contexts_of l m) <-> line_with_context s db file_id l name)
      end.
      { intros l name. rewrite Hv, line_events_In. cbn. intuition. }
      split; [exact Hn|]. split; [|exact Hv'].
      intros l. rewrite Hk. split; intros (name & H); exists name; now apply Hv'.
Qed.




(** * [update] *)

(** ** Dict updates *)

Section DictUpdate.
Context {K V : Type} (eqb : K -> K -> bool).
Hypothesis eqb_eq : forall a b, eqb a b = true <-> a = b.

Lemma dict_get_app k (d1 d2 : list (K * V)) :
  dict_get eqb k (d1 ++ d2)
  = match dict_get eqb k d1 with
    | Some v => Some v
    | None => dict_get eqb k d2
    end.
Proof.
  induction d1 as [|[k' v'] d1 IH]; cbn; [reflexivity|].
  destruct (eqb k k'); [reflexivity | exact IH].
Qed.

(** After [d.update(items)] a key has the value of its last item, or else the
    value it had. *)
Lemma dict_update_get k (items d : list (K * V)) :
  dict_get eqb k (dict_update eqb d items)
  = match dict_get eqb k (rev items) with
    | Some v => Some v
    | None => dict_get eqb k d
    end.
Proof.
  unfold dict_update. revert d.
  induction items as [|[k' v'] items IH]; intros d; cbn [fold_left rev fst snd].
  - reflexivity.
  - rewrite IH, dict_get_app. cbn [dict_get].
    destruct (dict_get eqb k (rev items)) as [v|]; [reflexivity|].
    destruct (eqb k k') eqn:E.
    + apply eqb_eq in E. subst k'. apply (dict_get_set_same eqb eqb_eq).
    + apply (dict_get_set_other eqb eqb_eq). intros ->.
      now rewrite (eqb_refl_true eqb eqb_eq) in E.
Qed.

Lemma dict_get_Some_In k v (d : list (K * V)) :
  dict_get eqb k d = Some v -> In (k, v) d.
Proof.
  induction d as [|[k' v'] d IH]; cbn; [discriminate|].
  destruct (eqb k k') eqn:E.
  - apply eqb_eq in E. subst k'. intros H. injection H as ->. now left.
  - intros H. right. now apply IH.
Qed.

Lemma dict_get_None k (d : list (K * V)) :
  dict_get eqb k d = None <-> ~ In k (map fst d).
Proof.
  rewrite (dict_get_In eqb eqb_eq). destruct (dict_get eqb k d); split; intros H.
  - discriminate.
  - exfalso. apply H. discriminate.
  - intros H'. now apply H'.
  - reflexivity.
Qed.

Lemma dict_get_functional k v (d : list (K * V)) :
  functional d -> In (k, v) d -> dict_get eqb k d = Some v.
Proof.
  intros Hf Hin. destruct (dict_get eqb k d) as [v0|] eqn:E.
  - apply dict_get_Some_In in E. f_equal. exact (Hf k v0 v E Hin).
  - apply dict_get_None in E. exfalso. apply E.
    apply in_map_iff. exists (k, v). auto.
Qed.

Lemma functional_rev (d : list (K * V)) : functional d -> functional (rev d).
Proof.
  intros Hf k v v' H1 H2. apply in_rev in H1. apply in_rev in H2. eauto.
Qed.

Lemma dict_update_keys k (items d : list (K * V)) :
  In k (map fst (dict_update eqb d items)) <-> In k (map fst d) \/ In k (map fst items).
Proof.
  rewrite !(dict_get_In eqb eqb_eq), dict_update_get.
  assert (H : dict_get eqb k (rev items) <> None <-> dict_get eqb k items <> None).
  { rewrite <- !(dict_get_In eqb eqb_eq), map_rev. symmetry. apply in_rev. }
  destruct (dict_get eqb k (rev items)); intuition congruence.
Qed.

Lemma dict_update_NoDup (items d : list (K * V)) :
  NoDup (map fst d) -> NoDup (map fst (dict_update eqb d items)).
Proof.
  unfold dict_update. revert d. induction items as [|[k v] items IH]; intros d H; cbn.
  - exact H.
  - apply IH. now apply (dict_set_NoDup eqb eqb_eq).
Qed.
End DictUpdate.

Lemma key_eqb_eq a b : key_eqb a b = true <-> a = b.
Proof.
  destruct a as [a1 a2], b as [b1 b2]. unfold key_eqb. cbn.
  rewrite andb_true_iff, !String.eqb_eq. split; [intros [-> ->] | intros H; injection H]; auto.
Qed.

(** ** Loops *)

Lemma map_M_pure {X Y} (f : X -> M Y) (g : X -> Y) l s :
  (forall x, In x l -> f x s = (Return (g x), s)) ->
  map_M f l s = (Return (map g l), s).
Proof.
  induction l as [|x l IH]; intros H; cbn [map_M map]; [reflexivity|].
  rewrite (bind_return _ _ _ _ _ (H x (or_introl eq_refl))).
  rewrite (bind_return _ _ _ _ _ (IH (fun y Hy => H y (or_intror Hy)))).
  reflexivity.
Qed.

Lemma for_each_execute {X} (stmt : X -> Db -> Db) l s db :
  database s = Some db ->
  for_each l (fun x => execute (stmt x)) s
  = (Return tt, set_database s (Some (fold_left (fun db x => stmt x db) l db))).
Proof.
  revert s db. induction l as [|x l IH]; intros s db H; cbn [for_each fold_left].
  - unfold ret. f_equal. destruct s; cbn in *. now subst.
  - rewrite (bind_return _ _ _ _ _ (execute_used _ s db H)).
    rewrite (IH (set_database s (Some (stmt x db))) (stmt x db) eq_refl). reflexivity.
Qed.

(** ** The joins *)

Lemma join_names_In db file_id context_id p c :
  In (p, c) (join_names db file_id context_id)
  <-> In (file_id, p) (file_rows db) /\ In (context_id, c) (context_rows db).
Proof.
  unfold join_names. rewrite in_flat_map. split.
  - intros ([f p'] & Hf & H). cbn [fst snd] in H.
    destruct (Z.eqb_spec f file_id) as [->|]; [|destruct H].
    apply in_flat_map in H. destruct H as ([cid c'] & Hc & H). cbn [fst snd] in H.
    destruct (Z.eqb_spec cid context_id) as [->|]; [|destruct H].
    destruct H as [H|[]]. injection H as -> ->. auto.
  - intros [Hf Hc]. exists (file_id, p). split; [exact Hf|]. cbn [fst snd].
    rewrite Z.eqb_refl. apply in_flat_map. exists (context_id, c).
    split; [exact Hc|]. cbn [fst snd]. rewrite Z.eqb_refl. now left.
Qed.

Lemma sql_line_bits_joined_In db p c nb :
  In (p, c, nb) (sql_line_bits_joined db)
  <-> exists file_id context_id,
        In (file_id, context_id, nb) (line_bits_rows db)
        /\ In (file_id, p) (file_rows db) /\ In (context_id, c) (context_rows db).
Proof.
  unfold sql_line_bits_joined. rewrite in_flat_map. split.
  - intros ([[f cid] nb'] & Hr & H). cbn [fst snd] in H.
    apply in_map_iff in H. destruct H as ([p' c'] & E & H). cbn [fst snd] in E.
    injection E as -> -> ->. apply join_names_In in H. exists f, cid. tauto.
  - intros (f & cid & Hr & Hf & Hc). exists (f, cid, nb). split; [exact Hr|].
    cbn [fst snd]. apply in_map_iff. exists (p, c). split; [reflexivity|].
    apply join_names_In. auto.
Qed.

Lemma sql_arcs_joined_In db p c x y :
  In (p, c, x, y) (sql_arcs_joined db)
  <-> exists file_id context_id,
        In (file_id, context_id, x, y) (arc_rows db)
        /\ In (file_id, p) (file_rows db) /\ In (context_id, c) (context_rows db).
Proof.
  unfold sql_arcs_joined. rewrite in_flat_map. split.
  - intros ([[[f cid] x'] y'] & Hr & H).
    apply in_map_iff in H. destruct H as ([p' c'] & E & H). cbn [fst snd] in E.
    injection E as -> -> -> ->. apply join_names_In in H. exists f, cid. tauto.
  - intros (f & cid & Hr & Hf & Hc). exists (f, cid, x, y). split; [exact Hr|].
    apply in_map_iff. exists (p, c). split; [reflexivity|].
    apply join_names_In. auto.
Qed.

Lemma sql_tracers_joined_In db p t :
  In (p, t) (sql_tracers_joined db)
  <-> exists file_id, In (file_id, t) (tracer_rows db) /\ In (file_id, p) (file_rows db).
Proof.
  unfold sql_tracers_joined. rewrite in_flat_map. split.
  - intros ([f t'] & Ht & H). apply in_flat_map in H.
    destruct H as ([f' p'] & Hf & H). cbn [fst snd] in H.
    destruct (Z.eqb_spec f' f) as [->|]; [|destruct H].
    destruct H as [H|[]]. injection H as -> ->. eauto.
  - intros (f & Ht & Hf). exists (f, t). split; [exact Ht|].
    apply in_flat_map. exists (f, p). split; [exact Hf|]. cbn [fst snd].
    rewrite Z.eqb_refl. now left.
Qed.

(** ** The first part of [update] *)

Lemma other_files_get odb path :
  In path (map snd (file_rows odb)) ->
  dict_get String.eqb path (other_files odb) = Some path.
Proof.
  intros Hin. unfold other_files. rewrite (dict_update_get String.eqb String.eqb_eq).
  cbn [dict_get].
  destruct (dict_get String.eqb path (rev _)) as [v|] eqn:E.
  - apply (dict_get_Some_In String.eqb String.eqb_eq) in E.
    apply in_rev, in_map_iff in E. destruct E as (r & E & _).
    unfold PathAliases_empty in E. injection E as E1 E2. congruence.
  - apply (dict_get_None String.eqb String.eqb_eq) in E. exfalso. apply E.
    rewrite map_rev, <- in_rev, map_map. exact Hin.
Qed.

Lemma other_files_values odb path :
  In path (map snd (other_files odb)) <-> In path (map snd (file_rows odb)).
Proof.
  assert (Hd : forall k v, In (k, v) (other_files odb) -> k = v).
  { intros k v H.
    assert (Hn : NoDup (map fst (other_files odb))).
    { apply (dict_update_NoDup String.eqb String.eqb_eq). constructor. }
    assert (Hk : In k (map snd (file_rows odb))).
    { assert (H' : In k (map fst (other_files odb))).
      { apply in_map_iff. exists (k, v). auto. }
      apply (dict_update_keys String.eqb String.eqb_eq) in H'.
      destruct H' as [[]|H']. now rewrite map_map in H'. }
    pose proof (other_files_get odb k Hk) as Hg.
    apply (dict_get_Some_In String.eqb String.eqb_eq) in Hg.
    clear Hk. revert Hn H Hg. generalize (other_files odb).
    induction l as [|[k0 v0] l IH]; cbn; [tauto|].
    intros Hn. inversion Hn as [|? ? Hnot Hn']; subst.
    intros [H|H] [Hg|Hg].
    - congruence.
    - injection H as -> ->. exfalso. apply Hnot. apply in_map_iff. exists (k, k). auto.
    - injection Hg as -> ->. exfalso. apply Hnot. apply in_map_iff. exists (k, v). auto.
    - now apply IH. }
  split; intros H.
  - apply in_map_iff in H. destruct H as ([k v] & <- & H). cbn.
    pose proof (Hd k v H) as ->.
    assert (H' : In v (map fst (other_files odb))).
    { apply in_map_iff. exists (v, v). auto. }
    apply (dict_update_keys String.eqb String.eqb_eq) in H'.
    destruct H' as [[]|H']. now rewrite map_map in H'.
  - pose proof (other_files_get odb path H) as Hg.
    apply (dict_get_Some_In String.eqb String.eqb_eq) in Hg.
    apply in_map_iff. exists (path, path). auto.
Qed.

(** [update] without aliases, on a store in use: its block, the rest of
    the method, and what the block does up to its writes. *)
Lemma update_eval s db other_data odb :
  can_update s db other_data odb ->
  exists body : M unit,
    update other_data None s = (with_db body ;; _reset ;; read) s
    /\ body s
       = let db' := with_other_rows odb db in
         let s' := set_database s (Some db') in
         match check_tracers (this_tracers_of db) (other_tracers_of odb)
                 (map snd (other_files odb)) [] with
         | Raise e => (Raise e, s')
         | Return tracer_map =>
             update_write (sql_arcs_joined odb) (merged_lines odb db')
               (path_ids (with_other_files odb db)) (context_ids_of db') tracer_map s'
         end.
Proof.
  intros ((Hu & Hd & Hdb) & Hread & Hm1 & Hm2).
  unfold update. rewrite bind_get. rewrite Hm1, Hm2.
  rewrite (bind_return _ _ _ _ _ (start_using_used s Hu)).
  destruct ((read ;; _connect ;; query (fun db => db)) other_data) as [r o'].
  cbn [fst] in Hread. subst r.
  assert (Hlook : forall path s0, In path (map snd (file_rows odb)) ->
            lookup (other_files odb) path s0 = (Return path, s0)).
  { intros path s0 H. unfold lookup. now rewrite (other_files_get odb path H). }
  fold (other_files odb).
  rewrite bind_return with (a := sql_arcs_joined odb) (s' := s).
  2:{ rewrite <- (map_id (sql_arcs_joined odb)) at 2. apply map_M_pure.
      intros [[[p c] x] y] H. apply sql_arcs_joined_In in H.
      destruct H as (f & cid & _ & Hf & _).
      rewrite (bind_return _ _ _ _ _ (Hlook p s (in_map snd _ _ Hf))).
      reflexivity. }
  rewrite bind_return
    with (a := map (fun '(path, context, nb) => ((path, context), nb))
                 (sql_line_bits_joined odb)) (s' := s).
  2:{ apply map_M_pure.
      intros [[p c] nb] H. apply sql_line_bits_joined_In in H.
      destruct H as (f & cid & _ & Hf & _).
      rewrite (bind_return _ _ _ _ _ (Hlook p s (in_map snd _ _ Hf))).
      reflexivity. }
  rewrite bind_return with (a := sql_tracers_joined odb) (s' := s).
  2:{ rewrite <- (map_id (sql_tracers_joined odb)) at 2. apply map_M_pure.
      intros [p t] H. apply sql_tracers_joined_In in H.
      destruct H as (f & _ & Hf).
      rewrite (bind_return _ _ _ _ _ (Hlook p s (in_map snd _ _ Hf))).
      reflexivity. }
  rewrite (bind_return _ _ _ _ _ (connect_used s Hd)).
  eexists. split; [reflexivity|].
  rewrite (bind_return _ _ _ _ _ (query_used _ s db Hdb)).
  rewrite (bind_return _ _ _ _ _ (query_used _ s db Hdb)).
  rewrite (bind_return _ _ _ _ _ (for_each_execute _ _ s db Hdb)).
  erewrite bind_return; [|apply query_used; reflexivity].
  erewrite bind_return; [|apply for_each_execute; reflexivity].
  erewrite bind_return; [|apply query_used; reflexivity].
  fold (this_tracers_of db). fold (other_tracers_of odb).
  cbv zeta. unfold bind at 1, lift at 1.
  destruct (check_tracers _ _ _ _) as [tracer_map|e]; [|reflexivity].
  erewrite bind_return; [|apply query_used; reflexivity].
  reflexivity.
Qed.

(** ** The tracers of the two stores *)

Lemma NoDup_fst_functional {A B} (l : list (A * B)) a v v' :
  NoDup (map fst l) -> In (a, v) l -> In (a, v') l -> v = v'.
Proof.
  induction l as [|[a0 v0] l IH]; cbn; [tauto|].
  intros Hn. inversion Hn as [|? ? Hnot Hn']; subst.
  intros [H|H] [H'|H'].
  - congruence.
  - injection H as -> ->. exfalso. apply Hnot. apply in_map_iff. exists (a, v'). auto.
  - injection H' as -> ->. exfalso. apply Hnot. apply in_map_iff. exists (a, v). auto.
  - now apply IH.
Qed.

Lemma NoDup_snd_functional {A B} (l : list (A * B)) a a' v :
  NoDup (map snd l) -> In (a, v) l -> In (a', v) l -> a = a'.
Proof.
  induction l as [|[a0 v0] l IH]; cbn; [tauto|].
  intros Hn. inversion Hn as [|? ? Hnot Hn']; subst.
  intros [H|H] [H'|H'].
  - congruence.
  - injection H as -> ->. exfalso. apply Hnot. apply in_map_iff. exists (a', v). auto.
  - injection H' as -> ->. exfalso. apply Hnot. apply in_map_iff. exists (a, v). auto.
  - now apply IH.
Qed.

Lemma db_tracer_joined db path t :
  tracers_unique db -> In (path, t) (sql_tracers_joined db) ->
  db_tracer db path = Some t.
Proof.
  intros [Hp Ht] H. apply sql_tracers_joined_In in H. destruct H as (id & Hin & Hf).
  unfold db_tracer.
  destruct (filter _ (file_rows db)) as [|[id' p'] rest] eqn:E.
  - assert (H : In (id, path) (filter (fun r => String.eqb (snd r) path) (file_rows db))).
    { apply filter_In. split; [exact Hf|]. cbn. apply String.eqb_refl. }
    rewrite E in H. destruct H.
  - assert (H : In (id', p') (filter (fun r => String.eqb (snd r) path) (file_rows db))).
    { rewrite E. now left. }
    apply filter_In in H. destruct H as [H Hpe]. cbn in Hpe.
    apply String.eqb_eq in Hpe. subst p'.
    pose proof (NoDup_snd_functional _ _ _ _ Hp H Hf) as ->. cbn [fst].
    unfold sql_tracer.
    destruct (filter _ (tracer_rows db)) as [|[id2 t2] rest2] eqn:E2.
    + assert (H2 : In (id, t) (filter (fun r => fst r =? id) (tracer_rows db))).
      { apply filter_In. split; [exact Hin|]. cbn. apply Z.eqb_refl. }
      rewrite E2 in H2. destruct H2.
    + assert (H2 : In (id2, t2) (filter (fun r => fst r =? id) (tracer_rows db))).
      { rewrite E2. now left. }
      apply filter_In in H2. destruct H2 as [H2 Hid]. cbn in Hid.
      apply Z.eqb_eq in Hid. subst id2. cbn.
      f_equal. exact (NoDup_fst_functional _ _ _ _ Ht H2 Hin).
Qed.

Lemma db_tracer_not_joined db path :
  (forall t, ~ In (path, t) (sql_tracers_joined db)) ->
  db_tracer db path
  = if existsb (String.eqb path) (map snd (file_rows db)) then Some "" else None.
Proof.
  intros Hno. unfold db_tracer.
  destruct (filter _ (file_rows db)) as [|[id p'] rest] eqn:E.
  - destruct (existsb _ _) eqn:Ex; [|reflexivity].
    apply existsb_exists in Ex. destruct Ex as (p & Hp & Ep).
    apply String.eqb_eq in Ep. subst p.
    apply in_map_iff in Hp. destruct Hp as ([id p] & Hs & Hp). cbn in Hs. subst p.
    assert (H : In (id, path) (filter (fun r => String.eqb (snd r) path) (file_rows db))).
    { apply filter_In. split; [exact Hp|]. cbn. apply String.eqb_refl. }
    rewrite E in H. destruct H.
  - assert (H : In (id, p') (filter (fun r => String.eqb (snd r) path) (file_rows db))).
    { rewrite E. now left. }
    apply filter_In in H. destruct H as [H Hpe]. cbn in Hpe.
    apply String.eqb_eq in Hpe. subst p'. cbn [fst].
    assert (Ex : existsb (String.eqb path) (map snd (file_rows db)) = true).
    { apply existsb_exists. exists path. split; [|apply String.eqb_refl].
      apply in_map_iff. exists (id, path). auto. }
    rewrite Ex. unfold sql_tracer.
    destruct (filter _ (tracer_rows db)) as [|[id2 t2] rest2] eqn:E2; [reflexivity|].
    assert (H2 : In (id2, t2) (filter (fun r => fst r =? id) (tracer_rows db))).
    { rewrite E2. now left. }
    apply filter_In in H2. destruct H2 as [H2 Hid]. cbn in Hid.
    apply Z.eqb_eq in Hid. subst id2.
    exfalso. apply (Hno t2). apply sql_tracers_joined_In. eauto.
Qed.

Lemma joined_functional db :
  tracers_unique db -> functional (sql_tracers_joined db).
Proof.
  intros Hu p t t' H H'.
  pose proof (db_tracer_joined db p t Hu H).
  pose proof (db_tracer_joined db p t' Hu H'). congruence.
Qed.

Lemma other_tracers_get odb path :
  tracers_unique odb ->
  match dict_get String.eqb path (other_tracers_of odb) with
  | Some t => t
  | None => ""
  end
  = match db_tracer odb path with Some t => t | None => "" end.
Proof.
  intros Hu. unfold other_tracers_of.
  rewrite (dict_update_get String.eqb String.eqb_eq). cbn [dict_get].
  destruct (dict_get String.eqb path (rev (sql_tracers_joined odb))) as [t|] eqn:E.
  - apply (dict_get_Some_In String.eqb String.eqb_eq), in_rev in E.
    now rewrite (db_tracer_joined odb path t Hu E).
  - rewrite db_tracer_not_joined; [now destruct (existsb _ _)|].
    intros t H. apply (dict_get_None String.eqb String.eqb_eq) in E. apply E.
    rewrite map_rev, <- in_rev. apply in_map_iff. exists (path, t). auto.
Qed.

Lemma this_tracers_get db path :
  tracers_unique db ->
  dict_get String.eqb path (this_tracers_of db) = db_tracer db path.
Proof.
  intros Hu. unfold this_tracers_of.
  rewrite (dict_update_get String.eqb String.eqb_eq).
  destruct (dict_get String.eqb path (rev _)) as [t|] eqn:E.
  - apply (dict_get_Some_In String.eqb String.eqb_eq), in_rev, in_map_iff in E.
    destruct E as ([p t'] & E & H). cbv [PathAliases_empty] in E. cbn in E.
    injection E as -> ->. now rewrite (db_tracer_joined db path t Hu H).
  - rewrite db_tracer_not_joined.
    2:{ intros t H. apply (dict_get_None String.eqb String.eqb_eq) in E. apply E.
        rewrite map_rev, <- in_rev, map_map. apply in_map_iff. exists (path, t). auto. }
    rewrite (dict_update_get String.eqb String.eqb_eq). cbn [dict_get].
    clear E.
    destruct (dict_get String.eqb path (rev _)) as [v|] eqn:E2.
    + apply (dict_get_Some_In String.eqb String.eqb_eq), in_rev, in_map_iff in E2.
      destruct E2 as (p & E2 & Hp). cbv beta in E2. injection E2 as E3 E4. subst p v.
      assert (Ex : existsb (String.eqb path) (map snd (file_rows db)) = true).
      { apply existsb_exists. exists path. split; [exact Hp | apply String.eqb_refl]. }
      now rewrite Ex.
    + destruct (existsb _ _) eqn:Ex; [|reflexivity].
      apply existsb_exists in Ex. destruct Ex as (p & Hp & Ep).
      apply String.eqb_eq in Ep. subst p.
      apply (dict_get_None String.eqb String.eqb_eq) in E2. exfalso. apply E2.
      rewrite map_rev, <- in_rev, map_map. cbn. now rewrite map_id.
Qed.

(** ** The loop that checks the tracers *)

Lemma check_tracers_spec this_tracers tracers paths tracer_map :
  let other path := match dict_get String.eqb path tracers with
                    | Some t => t
                    | None => ""
                    end in
  match check_tracers this_tracers tracers paths tracer_map with
  | Raise e =>
      exists path t,
        In path paths /\ dict_get String.eqb path this_tracers = Some t
        /\ t <> other path /\ e = conflict path t (other path)
  | Return tracer_map' =>
      (forall path t, In path paths ->
                      dict_get String.eqb path this_tracers = Some t -> t = other path)
      /\ tracer_map' = dict_update String.eqb tracer_map
                         (map (fun path => (path, other path)) paths)
  end.
Proof.
  intros other. revert tracer_map.
  induction paths as [|path paths IH]; intros tracer_map; cbn [check_tracers].
  - split; [intros ? ? []|reflexivity].
  - fold (other path).
    destruct (dict_get String.eqb path this_tracers) as [t|] eqn:Et.
    + destruct (String.eqb_spec t (other path)) as [E|E]; cbn [negb].
      * specialize (IH (dict_set String.eqb path (other path) tracer_map)).
        destruct (check_tracers _ _ paths _) as [tm|e].
        -- destruct IH as [IH1 IH2]. split; [|exact IH2].
           intros p t0 [<-|Hp] Hg; [congruence | eauto].
        -- destruct IH as (p & t0 & Hp & Hg & Hne & He). exists p, t0. cbn. auto.
      * exists path, t. cbn. auto.
    + specialize (IH (dict_set String.eqb path (other path) tracer_map)).
      destruct (check_tracers _ _ paths _) as [tm|e].
      * destruct IH as [IH1 IH2]. split; [|exact IH2].
        intros p t0 [<-|Hp] Hg; [congruence | eauto].
      * destruct IH as (p & t0 & Hp & Hg & Hne & He). exists p, t0. cbn. auto.
Qed.

(** ** The errors that a method can raise *)

Section Avoids.
Variable msg : string.

Lemma avoids_ret {A} (a : A) : avoids msg (ret a).
Proof. intros s e H. discriminate H. Qed.

Lemma avoids_get : avoids msg get.
Proof. intros s e H. discriminate H. Qed.

Lemma avoids_modify f : avoids msg (modify f).
Proof. intros s e H. discriminate H. Qed.

Lemma avoids_raise {A} c m args : m <> msg -> avoids msg (@raise A c m args).
Proof. intros Hne s e H. injection H as <-. exact Hne. Qed.

Lemma avoids_bind {A B} (m : M A) (k : A -> M B) :
  avoids msg m -> (forall a, avoids msg (k a)) -> avoids msg (bind m k).
Proof.
  intros Hm Hk s e H. unfold bind in H.
  destruct (m s) as [[a|e'] s'] eqn:E.
  - exact (Hk a s' e H).
  - cbn in H. injection H as <-. apply (Hm s e'). now rewrite E.
Qed.

Lemma avoids_when b (m : M unit) : avoids msg m -> avoids msg (when b m).
Proof. intros H. destruct b; [exact H | apply avoids_ret]. Qed.

Lemma avoids_for_each {X} (l : list X) body :
  (forall x, avoids msg (body x)) -> avoids msg (for_each l body).
Proof.
  intros H. induction l as [|x l IH]; cbn [for_each].
  - apply avoids_ret.
  - apply avoids_bind; [apply H | intros _; exact IH].
Qed.

Lemma avoids_map_M {X Y} (f : X -> M Y) l :
  (forall x, avoids msg (f x)) -> avoids msg (map_M f l).
Proof.
  intros H. induction l as [|x l IH]; cbn [map_M].
  - apply avoids_ret.
  - apply avoids_bind; [apply H | intros y].
    apply avoids_bind; [exact IH | intros ys; apply avoids_ret].
Qed.
End Avoids.

Ltac avoid_step :=
  match goal with
  | |- avoids _ (bind _ _) => apply avoids_bind; [|intro]
  | |- avoids _ (ret _) => apply avoids_ret
  | |- avoids _ get => apply avoids_get
  | |- avoids _ (modify _) => apply avoids_modify
  | |- avoids _ (raise _ _ _) => apply avoids_raise; discriminate
  | |- avoids _ no_table => apply avoids_raise; discriminate
  | |- avoids _ (when _ _) => apply avoids_when
  | |- avoids _ (for_each _ _) => apply avoids_for_each; intro
  | |- avoids _ (map_M _ _) => apply avoids_map_M; intro
  | |- avoids _ (match ?x with _ => _ end) => destruct x
  end.

Ltac avoid := repeat avoid_step.

Lemma avoids_query {A} (q : Db -> A) : avoids conflict_msg (query q).
Proof. unfold query. avoid. Qed.

Lemma avoids_execute stmt : avoids conflict_msg (execute stmt).
Proof. unfold execute. avoid. Qed.

Lemma avoids_executemany_raw stmt : avoids conflict_msg (executemany_raw stmt).
Proof. unfold executemany_raw. avoid. Qed.

Lemma avoids_lookup {V} (d : list (string * V)) k : avoids conflict_msg (lookup d k).
Proof. unfold lookup. avoid. Qed.

Lemma avoids_with_db {A} msg (body : M A) : avoids msg body -> avoids msg (with_db body).
Proof. intros H s e. rewrite with_db_fst. apply H. Qed.

Lemma avoids_read_db : avoids conflict_msg _read_db.
Proof. unfold _read_db. apply avoids_with_db. avoid; apply avoids_query. Qed.

Lemma avoids_connect : avoids conflict_msg _connect.
Proof.
  unfold _connect, _open_db, _create_db. avoid. apply avoids_read_db.
Qed.

Lemma avoids_choose lines arcs : avoids conflict_msg (_choose_lines_or_arcs lines arcs).
Proof.
  unfold _choose_lines_or_arcs. avoid; try apply avoids_connect.
  apply avoids_with_db. avoid. apply avoids_query.
Qed.

Lemma avoids_update_write arcs lines file_ids context_ids tracer_map :
  avoids conflict_msg (update_write arcs lines file_ids context_ids tracer_map).
Proof.
  unfold update_write.
  avoid;
    first [ apply avoids_choose | apply avoids_lookup | apply avoids_execute
          | apply avoids_executemany_raw ].
Qed.

Lemma avoids_reset_read : avoids conflict_msg (_reset ;; read).
Proof.
  unfold _reset, read. avoid; [apply avoids_connect|].
  apply avoids_with_db. avoid.
Qed.

(** What [update] without aliases raises: the conflict that the loop over
    the files of the other store finds, or else no conflict at all. *)
Lemma update_result s db other_data odb :
  can_update s db other_data odb ->
  match check_tracers (this_tracers_of db) (other_tracers_of odb)
          (map snd (other_files odb)) [] with
  | Raise e => fst (update other_data None s) = Raise e
  | Return _ =>
      forall e, fst (update other_data None s) = Raise e -> exc_msg e <> conflict_msg
  end.
Proof.
  intros Hcan. destruct (update_eval s db other_data odb Hcan) as (body & -> & Hb).
  cbv zeta in Hb.
  destruct (check_tracers _ _ _ _) as [tracer_map|e0].
  - intros e He. unfold bind in He at 1.
    pose proof (with_db_fst body s) as Hf.
    destruct (with_db body s) as [[[]|e1] s1]; cbn [fst] in *.
    + exact (avoids_reset_read s1 e He).
    + injection He as ->. rewrite Hb in Hf. symmetry in Hf.
      exact (avoids_update_write _ _ _ _ _ _ e Hf).
  - unfold bind. rewrite (with_db_raise _ _ _ _ Hb). reflexivity.
Qed.

(** C6, as the code has it.  When this store is in use and the other one can
    be read, [update] raises the conflict of tracer names exactly when some
    file of the other store is already in this store and the tracer this store
    has for it, [""] if it was measured without tracer, differs from the
    tracer the other store has for it, [""] if it has none; the error names
    such a file and the two tracers.  A file that is not yet in this store
    never conflicts. *)
Theorem update_tracer_conflict (s : CoverageData) (db : Db)
    (other_data : CoverageData) (odb : Db) :
  can_update s db other_data odb -> tracers_unique db -> tracers_unique odb ->
  let other_tracer path :=
    match db_tracer odb path with Some t => t | None => "" end in
  (forall e,
      fst (update other_data None s) = Raise e -> exc_msg e = conflict_msg ->
      exists path t,
        In path (map snd (file_rows odb))
        /\ db_tracer db path = Some t
        /\ t <> other_tracer path
        /\ e = conflict path t (other_tracer path))
  /\ (forall path t,
        In path (map snd (file_rows odb)) ->
        db_tracer db path = Some t -> t <> other_tracer path ->
        exists path' t',
          In path' (map snd (file_rows odb))
          /\ db_tracer db path' = Some t'
          /\ t' <> other_tracer path'
          /\ fst (update other_data None s)
             = Raise (conflict path' t' (other_tracer path'))).
Proof.
  intros Hcan Hu Hou other_tracer.
  pose proof (update_result s db other_data odb Hcan) as Hres.
  pose proof (check_tracers_spec (this_tracers_of db) (other_tracers_of odb)
                (map snd (other_files odb)) []) as Hspec.
  cbv zeta in Hspec.
  destruct (check_tracers _ _ _ _) as [tracer_map|e0]; [|rewrite Hres].
  - destruct Hspec as [Hnone _]. split.
    + intros e He Hmsg. exfalso. exact (Hres e He Hmsg).
    + intros path t Hin Ht Hne. exfalso. apply Hne.
      rewrite <- (this_tracers_get db path Hu) in Ht.
      apply other_files_values in Hin.
      rewrite (Hnone path t Hin Ht). apply (other_tracers_get odb path Hou).
  - destruct Hspec as (path & t & Hin & Ht & Hne & He).
    rewrite (other_tracers_get odb path Hou) in Hne, He.
    rewrite (this_tracers_get db path Hu) in Ht.
    apply other_files_values in Hin. fold (other_tracer path) in Hne, He.
    split.
    + intros e H _. cbn [fst] in H. injection H as <-. exists path, t. auto.
    + intros _ _ _ _ _. exists path, t. cbn [fst]. rewrite He. auto.
Qed.

Lemma update_tracer_conflict_counterexample :
  let a := after_calls [Add_lines [("f.py", [1%nat])]] new_store in
  fst (file_tracer "f.py" a) = Return (Some "")
  /\ fst (file_tracer "f.py" tracer_store) = Return (Some "plugin")
  /\ fst (update tracer_store None a)
     = Raise (Exc CoverageException "Conflicting file tracer name for '%s': %r vs %r"
                [VStr "f.py"; VStr ""; VStr "plugin"]).
Proof. cbv zeta. repeat split; vm_compute; reflexivity. Qed.

Lemma update_tracer_conflict_witness :
  fst (update tracer_store None other_tracer_store)
  = Raise (Exc CoverageException "Conflicting file tracer name for '%s': %r vs %r"
             [VStr "f.py"; VStr "other"; VStr "plugin"]).
Proof.
  assert (Hcan : can_update other_tracer_store (tables other_tracer_store)
                   tracer_store (tables tracer_store)).
  { vm_compute. repeat split; reflexivity. }
  assert (Hu : tracers_unique (tables other_tracer_store)).
  { vm_compute. split; (constructor; [intros [] | constructor]). }
  assert (Hou : tracers_unique (tables tracer_store)).
  { vm_compute. split; (constructor; [intros [] | constructor]). }
  assert (Efiles : map snd (file_rows (tables tracer_store)) = ["f.py"])
    by (vm_compute; reflexivity).
  assert (Ethis : db_tracer (tables other_tracer_store) "f.py" = Some "other")
    by (vm_compute; reflexivity).
  assert (Eother : db_tracer (tables tracer_store) "f.py" = Some "plugin")
    by (vm_compute; reflexivity).
  destruct (proj2 (update_tracer_conflict _ _ _ _ Hcan Hu Hou) "f.py" "other")
    as (path & t & Hin & Ht & _ & H).
  - rewrite Efiles. now left.
  - exact Ethis.
  - rewrite Eother. discriminate.
  - rewrite Efiles in Hin. destruct Hin as [<-|[]].
    rewrite Ethis in Ht. injection Ht as <-.
    rewrite Eother in H. exact H.
Defined.
(** * The regular expressions of [set_query_contexts] *)





(** * [update] on an in-memory store *)

Lemma memory_modify f :
  (forall s, _no_disk (f s) = _no_disk s) -> hoare in_memory (modify f) in_memory.
Proof. intros Hf s H. cbn. unfold in_memory. now rewrite Hf. Qed.

Lemma memory_execute stmt : hoare in_memory (execute stmt) in_memory.
Proof.
  intros s H. unfold execute, bind, get. cbn. destruct (database s); exact H.
Qed.

Lemma memory_executemany_raw stmt : hoare in_memory (executemany_raw stmt) in_memory.
Proof.
  intros s H. unfold executemany_raw, bind, get. cbn.
  destruct (database s) as [db|]; [|exact H]. destruct (stmt db); exact H.
Qed.

Lemma memory_with_db {A} (body : M A) :
  hoare in_memory body in_memory -> hoare in_memory (with_db body) in_memory.
Proof.
  intros H. apply hoare_with_db_stable; [exact H|].
  intros s0 s _ Hs. unfold in_memory. destruct (rollback_attrs s0 s) as (_ & _ & _ & _ & _ & _ & E).
  now rewrite E.
Qed.

Ltac mstep :=
  match goal with
  | |- hoare in_memory (execute _) in_memory => apply memory_execute
  | |- hoare in_memory (executemany_raw _) in_memory => apply memory_executemany_raw
  | |- hoare in_memory (modify _) in_memory => apply memory_modify; intros ?; reflexivity
  | |- hoare in_memory (with_db _) in_memory => apply memory_with_db
  | |- hoare in_memory _ in_memory => gstep
  end.

Ltac mauto := repeat mstep.

Lemma memory_read_db : hoare in_memory _read_db in_memory.
Proof. unfold _read_db. mauto. Qed.

Lemma memory_connect : hoare in_memory _connect in_memory.
Proof. unfold _connect, _open_db, _create_db. mauto. apply memory_read_db. Qed.

Lemma memory_start_using : hoare in_memory _start_using in_memory.
Proof. unfold _start_using, erase, _reset. mauto. Qed.

Lemma memory_choose lines arcs : hoare in_memory (_choose_lines_or_arcs lines arcs) in_memory.
Proof. unfold _choose_lines_or_arcs. mauto; apply memory_connect. Qed.

Lemma bind_ends {A B} (m : M A) (k : A -> M B) s b s' :
  bind m k s = (Return b, s') ->
  exists a s1, m s = (Return a, s1) /\ k a s1 = (Return b, s').
Proof.
  unfold bind. destruct (m s) as [[a|e] s1]; [eauto | discriminate].
Qed.

(** A returning step of a computation that keeps a store in memory. *)
Lemma memory_step {A B} (m : M A) (k : A -> M B) s b s' :
  hoare in_memory m in_memory -> in_memory s ->
  bind m k s = (Return b, s') ->
  exists a s1, in_memory s1 /\ k a s1 = (Return b, s').
Proof.
  intros Hm Hs E. destruct (bind_ends m k s b s' E) as (a & s1 & E1 & E2).
  exists a, s1. split; [|exact E2]. specialize (Hm s Hs). now rewrite E1 in Hm.
Qed.

Lemma memory_lookup_M {X Y V} (d : list (string * V)) (key : X -> string)
    (f : X -> V -> Y) l :
  hoare in_memory (map_M (fun x => v <- lookup d (key x) ;; ret (f x v)) l) in_memory.
Proof. mauto. Qed.

(** [_reset] and [read] on an in-memory store: a new, empty database. *)
Lemma reset_read_memory s :
  in_memory s ->
  exists s',
    (_reset ;; read) s = (Return tt, s')
    /\ in_use s' (new_db (environ s')) /\ _file_map s' = [].
Proof.
  intros H. unfold in_memory in H. eexists. split.
  - unfold bind at 1. cbn [_reset modify fst snd]. unfold read.
    rewrite bind_return with (a := tt)
      (s' := set_database
               (set__dbs
                  (set__current_context_id
                     (set__have_used
                        (set__file_map
                           (set__dbs (set_database s (if _no_disk s then None else database s))
                                     false) []) false) None) true)
               (Some (new_db (environ s)))).
    + reflexivity.
    + rewrite connect_result. cbn. unfold file_exists. cbn. rewrite H. reflexivity.
  - cbn. repeat split.
Qed.

Lemma update_ends_memory other_data aliases s s' :
  in_memory s -> update other_data aliases s = (Return tt, s') ->
  exists s1, in_memory s1 /\ (_reset ;; read) s1 = (Return tt, s').
Proof.
  intros Hs E. unfold update in E. rewrite bind_get in E.
  destruct (_has_lines s && _has_arcs other_data); [discriminate|].
  destruct (_has_arcs s && _has_lines other_data); [discriminate|].
  apply (memory_step _ _ _ _ _ memory_start_using Hs) in E.
  destruct E as ([] & s0 & H0 & E).
  destruct ((read ;; _connect ;; query (fun db => db)) other_data) as [[odb|e] o'];
    [|discriminate].
  apply memory_step in E; [|solve [mauto]|exact H0].
  destruct E as (arcs0 & s1 & H1 & E).
  apply memory_step in E; [|solve [mauto]|exact H1].
  destruct E as (lines0 & s2 & H2 & E).
  apply memory_step in E; [|solve [mauto]|exact H2].
  destruct E as (tracers0 & s3 & H3 & E).
  apply (memory_step _ _ _ _ _ memory_connect H3) in E.
  destruct E as ([] & s4 & H4 & E).
  apply memory_step in E; [| |exact H4].
  - destruct E as ([] & s5 & H5 & E). exists s5. auto.
  - mauto;
      first [ apply memory_choose | apply memory_connect ].
Qed.

(** C1 fails on an in-memory store.  [update] ends with [_reset] and [read]:
    on a store made with [no_disk] the first drops the connection, and with it
    the database that [update] has just written, and the second makes a new,
    empty one.  Whatever the two stores hold, once [update] has returned this
    store has no file: [lines], like [arcs], returns [None] for every file,
    where C1 promises the union of the lines of the two stores. *)
Theorem update_drops_memory_data (s s' other_data : CoverageData)
    (aliases : option PathAliases) :
  _no_disk s = true ->
  update other_data aliases s = (Return tt, s') ->
  database s' = Some (new_db (environ s'))
  /\ _file_map s' = []
  /\ forall filename,
       lines filename s' = (Return None, s')
       /\ arcs filename s' = (Return None, s')
       /\ contexts_by_lineno filename s' = (Return [], s').
Proof.
  intros Hs E.
  destruct (update_ends_memory other_data aliases s s' Hs E) as (s1 & H1 & E1).
  destruct (reset_read_memory s1 H1) as (s2 & E2 & Hin & Hmap).
  rewrite E1 in E2. injection E2 as <-.
  split; [apply Hin|]. split; [exact Hmap|].
  intros filename.
  assert (Hf : dict_get String.eqb filename (_file_map s') = None)
    by now rewrite Hmap.
  destruct (contexts_by_lineno_used s' _ filename Hin) as [Hnone _].
  destruct (Hnone Hf) as (Hc & Hl & Ha). auto.
Qed.

(** The lines of [f.py] are [1] in this store and [1] and [2] in the other
    one; after [update] the store has no line for it. *)
Lemma update_drops_memory_data_witness :
  let a := after_calls [Add_lines [("f.py", [1%nat])]] new_memory_store in
  fst (lines "f.py" a) = Return (Some [1])
  /\ fst (lines "f.py" lines_store) = Return (Some [1; 2])
  /\ fst (update lines_store None a) = Return tt
  /\ fst (lines "f.py" (snd (update lines_store None a))) = Return None.
Proof.
  cbv zeta.
  assert (E : update lines_store None
                (after_calls [Add_lines [("f.py", [1%nat])]] new_memory_store)
              = (Return tt,
                 snd (update lines_store None
                        (after_calls [Add_lines [("f.py", [1%nat])]] new_memory_store))))
    by (vm_compute; reflexivity).
  split; [vm_compute; reflexivity|]. split; [vm_compute; reflexivity|].
  split; [rewrite E; reflexivity|].
  assert (Hm : _no_disk (after_calls [Add_lines [("f.py", [1%nat])]] new_memory_store)
               = true) by (vm_compute; reflexivity).
  destruct (update_drops_memory_data _ _ _ _ Hm E) as (_ & _ & H).
  destruct (H "f.py") as (Hl & _). rewrite Hl. reflexivity.
Defined.

(* ================================================================== *)
(** * Proofs: the constraints of the schema are kept *)
(* ================================================================== *)

(** ** The largest id *)

Lemma fold_max_le ids a : a <= fold_left Z.max ids a.
Proof.
  revert a. induction ids as [|x ids IH]; intros a; cbn; [lia|].
  specialize (IH (Z.max a x)). lia.
Qed.

Lemma fold_max_In ids a x : In x ids -> x <= fold_left Z.max ids a.
Proof.
  revert a. induction ids as [|y ids IH]; intros a; cbn; [tauto|].
  intros [->|H]; [|now apply IH].
  pose proof (fold_max_le ids (Z.max a x)). lia.
Qed.

Lemma fold_max_mono ids a b : a <= b -> fold_left Z.max ids a <= fold_left Z.max ids b.
Proof.
  revert a b. induction ids as [|y ids IH]; intros a b H; cbn; [exact H|].
  apply IH. lia.
Qed.

Lemma fold_max_app ids x a :
  fold_left Z.max (ids ++ [x]) a = Z.max (fold_left Z.max ids a) x.
Proof. now rewrite fold_left_app. Qed.

Lemma id_bound_In db id path : In (id, path) (file_rows db) -> id <= id_bound db.
Proof.
  intros H. apply fold_max_In. apply in_map_iff. exists (id, path). auto.
Qed.

Lemma next_rowid_bound db : next_rowid (map fst (file_rows db)) = id_bound db + 1.
Proof. reflexivity. Qed.

Lemma NoDup_filter {A} (f : A -> bool) l : NoDup l -> NoDup (filter f l).
Proof.
  induction 1 as [|x l Hx Hn IH]; cbn; [constructor|].
  destruct (f x); [constructor|]; auto.
  intros H. apply filter_In in H. tauto.
Qed.

Lemma NoDup_map_filter {A B} (g : A -> B) (f : A -> bool) l :
  NoDup (map g l) -> NoDup (map g (filter f l)).
Proof.
  induction l as [|x l IH]; cbn; intros H; [constructor|].
  inversion H as [|? ? Hx Hn]; subst.
  destruct (f x); cbn; [constructor|]; auto.
  intros Hin. apply Hx. apply in_map_iff in Hin. destruct Hin as (y & E & Hy).
  apply filter_In in Hy. apply in_map_iff. exists y. tauto.
Qed.

Lemma NoDup_snoc {A} (l : list A) x : NoDup l -> ~ In x l -> NoDup (l ++ [x]).
Proof.
  intros Hn Hx. apply NoDup_app; [exact Hn | repeat constructor; intros [] |].
  intros y Hy [<-|[]]. contradiction.
Qed.

Lemma has_path_false path (rows : list (Z * string)) :
  has_path path rows = false -> ~ In path (map snd rows).
Proof.
  unfold has_path. intros H Hin. apply in_map_iff in Hin. destruct Hin as (r & <- & Hr).
  assert (E : existsb (fun r0 => String.eqb (snd r0) (snd r)) rows = true).
  { apply existsb_exists. exists r. split; [exact Hr | apply String.eqb_refl]. }
  congruence.
Qed.

(** ** The statements keep the constraints *)

Lemma wf_new_db e : db_wf (new_db e).
Proof. constructor; cbn; try constructor; intros r []. Qed.

Lemma wf_set_meta db rows : db_wf db -> db_wf (set_meta_rows db rows).
Proof. intros [Hfi Hfp Hci Hcn Hlk Har Htk Hlf Haf Htf]. constructor; assumption. Qed.

Lemma wf_insert_meta key value db db' :
  sql_insert_meta key value db = Some db' ->
  db_wf db -> db_wf db' /\ file_rows db' = file_rows db.
Proof.
  unfold sql_insert_meta. destruct (existsb _ _); [discriminate|].
  intros H. injection H as <-. intros Hw. split; [now apply wf_set_meta | reflexivity].
Qed.

Lemma id_bound_snoc db rows id path :
  id_bound (set_file_rows db (rows ++ [(id, path)]))
  = Z.max (fold_left Z.max (map fst rows) 0) id.
Proof.
  unfold id_bound. cbn [file_rows set_file_rows]. rewrite map_app. cbn [map fst].
  apply fold_max_app.
Qed.

Lemma wf_add_file db path :
  ~ In path (map snd (file_rows db)) -> db_wf db ->
  db_wf (set_file_rows db (file_rows db ++ [(id_bound db + 1, path)])).
Proof.
  intros Hp [Hfi Hfp Hci Hcn Hlk Har Htk Hlf Haf Htf].
  assert (Hb : id_bound db <= id_bound (set_file_rows db
                                          (file_rows db ++ [(id_bound db + 1, path)]))).
  { rewrite id_bound_snoc. fold (id_bound db). lia. }
  constructor; cbn [file_rows set_file_rows context_rows line_bits_rows arc_rows
                      tracer_rows]; try assumption.
  - rewrite map_app. apply NoDup_snoc; [assumption|]. cbn.
    intros H. apply (fold_max_In _ 0) in H. fold (id_bound db) in H. lia.
  - rewrite map_app. now apply NoDup_snoc.
  - intros r Hr. specialize (Hlf r Hr). lia.
  - intros r Hr. specialize (Haf r Hr). lia.
  - intros r Hr. specialize (Htf r Hr). lia.
Qed.

Lemma wf_ignore_file path db : db_wf db -> db_wf (sql_ignore_file path db).
Proof.
  intros Hw. unfold sql_ignore_file. destruct (has_path path (file_rows db)) eqn:E.
  - exact Hw.
  - rewrite next_rowid_bound. apply wf_add_file; [|exact Hw]. now apply has_path_false.
Qed.

Lemma ignore_file_rows path db :
  incl (file_rows db) (file_rows (sql_ignore_file path db)).
Proof.
  unfold sql_ignore_file. destruct (has_path _ _); cbn.
  - apply incl_refl.
  - apply incl_appl, incl_refl.
Qed.

Lemma wf_replace_file path db : db_wf db -> db_wf (fst (sql_replace_file path db)).
Proof.
  intros [Hfi Hfp Hci Hcn Hlk Har Htk Hlf Haf Htf]. unfold sql_replace_file. cbn [fst]. rewrite next_rowid_bound.
  set (rows := filter (fun r => negb (String.eqb (snd r) path)) (file_rows db)).
  assert (Hsub : forall r, In r rows -> In r (file_rows db)).
  { intros r Hr. apply filter_In in Hr. tauto. }
  assert (Hb : id_bound db <= id_bound (set_file_rows db (rows ++ [(id_bound db + 1, path)]))).
  { rewrite id_bound_snoc. lia. }
  constructor; cbn [file_rows set_file_rows context_rows line_bits_rows arc_rows
                      tracer_rows]; try assumption.
  - rewrite map_app. apply NoDup_snoc; [now apply NoDup_map_filter|]. cbn.
    intros H. apply in_map_iff in H. destruct H as ([id p] & E & Hr). cbn in E. subst id.
    apply Hsub, id_bound_In in Hr. lia.
  - rewrite map_app. apply NoDup_snoc; [now apply NoDup_map_filter|]. cbn.
    intros H. apply in_map_iff in H. destruct H as ([id p] & E & Hr). cbn in E. subst p.
    apply filter_In in Hr. destruct Hr as [_ Hr]. cbn in Hr.
    now rewrite String.eqb_refl in Hr.
  - intros r Hr. specialize (Hlf r Hr). lia.
  - intros r Hr. specialize (Haf r Hr). lia.
  - intros r Hr. specialize (Htf r Hr). lia.
Qed.

Lemma wf_insert_context context db db' id :
  sql_insert_context context db = Some (db', id) ->
  db_wf db -> db_wf db' /\ file_rows db' = file_rows db.
Proof.
  unfold sql_insert_context. destruct (has_path context (context_rows db)) eqn:E;
    [discriminate|].
  intros H. injection H as <- _. intros [Hfi Hfp Hci Hcn Hlk Har Htk Hlf Haf Htf]. split; [|reflexivity].
  constructor; cbn [file_rows set_context_rows context_rows line_bits_rows arc_rows
                      tracer_rows]; try assumption.
  - rewrite map_app. apply NoDup_snoc; [assumption|]. cbn.
    intros H. apply (fold_max_In _ 0) in H. unfold next_rowid in H. lia.
  - rewrite map_app. apply NoDup_snoc; [assumption|]. now apply has_path_false.
Qed.

Lemma wf_ignore_context context : wf_stable (sql_ignore_context context).
Proof.
  intros db Hw. unfold sql_ignore_context.
  destruct (sql_insert_context context db) as [[db' id]|] eqn:E.
  - exact (wf_insert_context _ _ _ _ E Hw).
  - auto.
Qed.

Lemma line_key_eqb_eq file_id context_id r :
  line_key_eqb file_id context_id r = true <-> fst r = (file_id, context_id).
Proof.
  destruct r as [[f c] nb]. unfold line_key_eqb. cbn.
  rewrite andb_true_iff, !Z.eqb_eq. split; [intros [-> ->] | intros H; injection H]; auto.
Qed.

Lemma wf_replace_line_bits file_id context_id nb db :
  file_id <= id_bound db -> db_wf db ->
  db_wf (sql_replace_line_bits file_id context_id nb db).
Proof.
  intros Hid [Hfi Hfp Hci Hcn Hlk Har Htk Hlf Haf Htf]. unfold sql_replace_line_bits.
  constructor; cbn [file_rows set_line_bits_rows context_rows line_bits_rows arc_rows
                      tracer_rows]; try assumption.
  - rewrite map_app. apply NoDup_snoc; [now apply NoDup_map_filter|]. cbn.
    intros H. apply in_map_iff in H. destruct H as (r & E & Hr).
    apply filter_In in Hr. destruct Hr as [_ Hr].
    apply line_key_eqb_eq in E. now rewrite E in Hr.
  - intros r Hr. apply in_app_iff in Hr. destruct Hr as [Hr|[<-|[]]].
    + apply filter_In in Hr. now apply Hlf.
    + exact Hid.
Qed.

Lemma wf_insert_line_bits file_id context_id nb db db' :
  sql_insert_line_bits file_id context_id nb db = Some db' ->
  file_id <= id_bound db -> db_wf db ->
  db_wf db' /\ file_rows db' = file_rows db.
Proof.
  unfold sql_insert_line_bits.
  destruct (existsb (line_key_eqb file_id context_id) (line_bits_rows db)) eqn:E;
    [discriminate|].
  intros H. injection H as <-. intros Hid [Hfi Hfp Hci Hcn Hlk Har Htk Hlf Haf Htf]. split; [|reflexivity].
  constructor; cbn [file_rows set_line_bits_rows context_rows line_bits_rows arc_rows
                      tracer_rows]; try assumption.
  - rewrite map_app. apply NoDup_snoc; [assumption|]. cbn.
    intros H. apply in_map_iff in H. destruct H as (r & Er & Hr).
    assert (Ex : existsb (line_key_eqb file_id context_id) (line_bits_rows db) = true).
    { apply existsb_exists. exists r. split; [exact Hr | now apply line_key_eqb_eq]. }
    congruence.
  - intros r Hr. apply in_app_iff in Hr. destruct Hr as [Hr|[<-|[]]].
    + now apply Hlf.
    + exact Hid.
Qed.

Lemma wf_delete_line_bits : wf_stable (fun db => set_line_bits_rows db []).
Proof.
  intros db [Hfi Hfp Hci Hcn Hlk Har Htk Hlf Haf Htf]. split; [|reflexivity].
  constructor; cbn [file_rows set_line_bits_rows context_rows line_bits_rows arc_rows
                      tracer_rows]; try assumption.
  - constructor.
  - intros r [].
Qed.

Lemma arc_eqb_eq a b : arc_eqb a b = true <-> a = b.
Proof.
  destruct a as [[[f1 c1] x1] y1], b as [[[f2 c2] x2] y2]. unfold arc_eqb.
  rewrite !andb_true_iff, !Z.eqb_eq. split.
  - intros [[[-> ->] ->] ->]. reflexivity.
  - intros H. injection H as -> -> -> ->. auto.
Qed.

Lemma wf_ignore_arc row db :
  fst (fst (fst row)) <= id_bound db -> db_wf db ->
  db_wf (sql_ignore_arc row db) /\ file_rows (sql_ignore_arc row db) = file_rows db.
Proof.
  intros Hid Hw. unfold sql_ignore_arc.
  destruct (existsb (arc_eqb row) (arc_rows db)) eqn:E; [auto|].
  destruct Hw as [Hfi Hfp Hci Hcn Hlk Har Htk Hlf Haf Htf]. split; [|reflexivity].
  constructor; cbn [file_rows set_arc_rows context_rows line_bits_rows arc_rows
                      tracer_rows]; try assumption.
  - apply NoDup_snoc; [assumption|]. intros H.
    assert (Ex : existsb (arc_eqb row) (arc_rows db) = true).
    { apply existsb_exists. exists row. split; [exact H | now apply arc_eqb_eq]. }
    congruence.
  - intros r Hr. apply in_app_iff in Hr. destruct Hr as [Hr|[<-|[]]].
    + now apply Haf.
    + exact Hid.
Qed.

Lemma wf_insert_tracer file_id tracer db db' :
  sql_insert_tracer file_id tracer db = Some db' ->
  file_id <= id_bound db -> db_wf db ->
  db_wf db' /\ file_rows db' = file_rows db.
Proof.
  unfold sql_insert_tracer.
  destruct (existsb (fun r => fst r =? file_id) (tracer_rows db)) eqn:E; [discriminate|].
  intros H. injection H as <-. intros Hid [Hfi Hfp Hci Hcn Hlk Har Htk Hlf Haf Htf]. split; [|reflexivity].
  constructor; cbn [file_rows set_tracer_rows context_rows line_bits_rows arc_rows
                      tracer_rows]; try assumption.
  - rewrite map_app. apply NoDup_snoc; [assumption|]. cbn.
    intros H. apply in_map_iff in H. destruct H as (r & Er & Hr).
    assert (Ex : existsb (fun r => fst r =? file_id) (tracer_rows db) = true).
    { apply existsb_exists. exists r. split; [exact Hr | now apply Z.eqb_eq]. }
    congruence.
  - intros r Hr. apply in_app_iff in Hr. destruct Hr as [Hr|[<-|[]]].
    + now apply Htf.
    + exact Hid.
Qed.

Lemma wf_ignore_tracer file_id tracer db :
  file_id <= id_bound db -> db_wf db ->
  db_wf (sql_ignore_tracer file_id tracer db)
  /\ file_rows (sql_ignore_tracer file_id tracer db) = file_rows db.
Proof.
  intros Hid Hw. unfold sql_ignore_tracer.
  destruct (sql_insert_tracer file_id tracer db) as [db'|] eqn:E; [|auto].
  exact (wf_insert_tracer _ _ _ _ E Hid Hw).
Qed.

(** ** Rules for triples *)

Section Triples.
Variable E : CoverageData -> Prop.

Lemma triple_ret {A} (Q : A -> CoverageData -> Prop) (a : A) : triple (Q a) (ret a) Q E.
Proof. intros s H. exact H. Qed.

Lemma triple_raise {A} (P : CoverageData -> Prop) (Q : A -> CoverageData -> Prop)
    c msg args :
  (forall s, P s -> E s) -> triple P (raise c msg args) Q E.
Proof. intros H s HP. cbn. now apply H. Qed.

Lemma triple_get (P : CoverageData -> Prop) : triple P get (fun a s => P s /\ a = s) E.
Proof. intros s H. cbn. auto. Qed.

Lemma triple_modify (P : CoverageData -> Prop) (Q : unit -> CoverageData -> Prop) f :
  (forall s, P s -> Q tt (f s)) -> triple P (modify f) Q E.
Proof. intros H s HP. cbn. now apply H. Qed.

Lemma triple_bind {A B} (P : CoverageData -> Prop) (R : A -> CoverageData -> Prop)
    (Q : B -> CoverageData -> Prop) (m : M A) (k : A -> M B) :
  triple P m R E -> (forall a, triple (R a) (k a) Q E) -> triple P (bind m k) Q E.
Proof.
  intros Hm Hk s HP. unfold bind. specialize (Hm s HP).
  destruct (m s) as [[a|e] s']; [|exact Hm].
  exact (Hk a s' Hm).
Qed.

Lemma triple_weaken {A} (P P' : CoverageData -> Prop) (Q Q' : A -> CoverageData -> Prop)
    (m : M A) :
  triple P m Q E -> (forall s, P' s -> P s) -> (forall a s, Q a s -> Q' a s) ->
  triple P' m Q' E.
Proof.
  intros H HP HQ s Hs. specialize (H s (HP s Hs)).
  destruct (m s) as [[a|e] s']; [now apply HQ | exact H].
Qed.

Lemma triple_for_each {X} (I : CoverageData -> Prop) (l : list X) (body : X -> M unit) :
  (forall x, In x l -> triple I (body x) (fun _ => I) E) ->
  triple I (for_each l body) (fun _ => I) E.
Proof.
  induction l as [|x l IH]; intros Hb; cbn [for_each].
  - apply (triple_ret (fun _ => I)).
  - apply (triple_bind _ (fun _ => I)); [apply Hb; now left|].
    intros _. apply IH. intros y Hy. apply Hb. now right.
Qed.

Lemma triple_map_M {X Y} (I : CoverageData -> Prop) (R : Y -> Prop) (l : list X)
    (f : X -> M Y) :
  (forall x, triple I (f x) (fun y s => I s /\ R y) E) ->
  triple I (map_M f l) (fun ys s => I s /\ Forall R ys) E.
Proof.
  intros Hf. induction l as [|x l IH]; cbn [map_M].
  - intros s H. cbn. auto.
  - apply (triple_bind _ (fun y s => I s /\ R y)); [apply Hf|]. intros y.
    apply (triple_bind _ (fun ys s => (I s /\ Forall R ys) /\ R y)).
    + intros s [HI Hy]. specialize (IH s HI).
      destruct (map_M f l s) as [[ys|e] s']; [auto | exact IH].
    + intros ys s [[HI Hys] Hy]. cbn. auto.
Qed.

Lemma triple_when (I : CoverageData -> Prop) (b : bool) (m : M unit) :
  triple I m (fun _ => I) E -> triple I (when b m) (fun _ => I) E.
Proof. intros H. destruct b; [exact H | apply (triple_ret (fun _ => I))]. Qed.

Lemma triple_query {A} (P : CoverageData -> Prop) (q : Db -> A) :
  (forall s, P s -> E s) ->
  triple P (query q)
    (fun a s => P s /\ exists db, database s = Some db /\ a = q db) E.
Proof.
  intros HE s H. unfold query, bind, get. cbn.
  destruct (database s) as [db|] eqn:Edb; cbn; [eauto | now apply HE].
Qed.

Lemma triple_the {A} (P : CoverageData -> Prop) (o : option A) :
  (forall s, P s -> E s) ->
  triple P (the o) (fun a s => P s /\ o = Some a) E.
Proof. intros HE s H. destruct o; cbn; [auto | now apply HE]. Qed.

Lemma triple_lookup {V} (P : CoverageData -> Prop) (d : list (string * V)) k :
  (forall s, P s -> E s) ->
  triple P (lookup d k) (fun v s => P s /\ dict_get String.eqb k d = Some v) E.
Proof.
  intros HE s H. unfold lookup. destruct (dict_get String.eqb k d); cbn; [auto | now apply HE].
Qed.

Lemma triple_hoare {A} (P : CoverageData -> Prop) (m : M A) :
  triple P m (fun _ => E) E -> hoare P m E.
Proof.
  intros H s HP. specialize (H s HP). destruct (m s) as [[a|e] s']; exact H.
Qed.

Lemma hoare_triple {A} (m : M A) :
  hoare E m E -> triple E m (fun _ => E) E.
Proof.
  intros H s HP. specialize (H s HP). destruct (m s) as [[a|e] s']; exact H.
Qed.
End Triples.

(** ** The invariant and the attributes *)

Lemma WF_attrs f s : maps_stable f -> WF s -> WF (f s).
Proof.
  intros Hf (Hm & H1 & H2). destruct (Hf s) as (E1 & E2 & E3 & E4).
  unfold WF, in_memory, map_ok. rewrite E1, E2, E3, E4. auto.
Qed.

Lemma known_attrs f id s : maps_stable f -> known id s -> known id (f s).
Proof.
  intros Hf H. destruct (Hf s) as (E1 & E2 & E3 & E4). unfold known. now rewrite E3.
Qed.

Lemma WF_set_db s db db' :
  database s = Some db -> db_wf db' -> incl (file_rows db) (file_rows db') ->
  WF s -> WF (set_database s (Some db')).
Proof.
  intros Hdb Hw Hincl (Hm & H1 & H2). split; [exact Hm|]. split; [exact H1|].
  intros db0 E. cbn in E. injection E as <-. split; [exact Hw|].
  intros f id Hg. apply Hincl. exact (proj2 (H2 db Hdb) f id Hg).
Qed.

Lemma fold_max_lub l a b :
  a <= b -> (forall x, In x l -> x <= b) -> fold_left Z.max l a <= b.
Proof.
  revert a. induction l as [|y l IH]; intros a Ha Hl; cbn; [exact Ha|].
  apply IH.
  - specialize (Hl y (or_introl eq_refl)). lia.
  - intros x Hx. apply Hl. now right.
Qed.

Lemma fold_max_incl l1 l2 a :
  incl l1 l2 -> fold_left Z.max l1 a <= fold_left Z.max l2 a.
Proof.
  intros H. apply fold_max_lub; [apply fold_max_le|].
  intros x Hx. apply fold_max_In. now apply H.
Qed.

Lemma id_bound_incl db db' :
  incl (file_rows db) (file_rows db') -> id_bound db <= id_bound db'.
Proof.
  intros H. apply fold_max_incl. intros x Hx. apply in_map_iff in Hx.
  destruct Hx as (r & <- & Hr). apply in_map. now apply H.
Qed.

(** ** The connection keeps the invariant *)

Lemma WF_reset : hoare WF _reset WF.
Proof.
  intros s (Hm & H1 & H2). unfold _reset, modify. cbn. split; [exact Hm|].
  split; [reflexivity|].
  intros db E. cbn in E. unfold in_memory in Hm. rewrite Hm in E. discriminate E.
Qed.

Lemma WF_erase : hoare WF erase WF.
Proof.
  intros s H. rewrite erase_result. cbn [snd].
  pose proof (WF_reset s H) as (Hm & H1 & H2). split; [exact Hm|]. split; [exact H1|].
  intros db E. discriminate E.
Qed.

Lemma set_have_used_stable v : maps_stable (fun s => set__have_used s v).
Proof. intros s. cbn. auto. Qed.

Lemma WF_start_using : hoare WF _start_using WF.
Proof.
  intros s H. rewrite start_using_result. cbn [snd].
  destruct (_have_used s).
  - apply (WF_attrs (fun s => set__have_used s true)); [apply set_have_used_stable | exact H].
  - apply (WF_attrs (fun s => set__have_used s true)); [apply set_have_used_stable|].
    pose proof (WF_erase s H) as He. now rewrite erase_result in He.
Qed.

Lemma memory_no_file s : in_memory s -> file_exists s = false.
Proof. intros H. unfold file_exists. now rewrite H. Qed.

Lemma triple_with_db {A} (P : CoverageData -> Prop) (body : M A) Q E :
  (forall s, P s -> in_memory s) -> triple P body Q E -> triple P (with_db body) Q E.
Proof.
  intros Hm H s HP. specialize (H s HP). unfold with_db.
  destruct (body s) as [[a|e] s']; [exact H|].
  unfold rollback. now rewrite (Hm s HP).
Qed.

Lemma hoare_with_db_memory {A} (P Q : CoverageData -> Prop) (body : M A) :
  (forall s, P s -> in_memory s) -> hoare P body Q -> hoare P (with_db body) Q.
Proof.
  intros Hm H s HP. specialize (H s HP). unfold with_db.
  destruct (body s) as [[a|e] s']; [exact H|].
  cbn [snd] in *. unfold rollback. now rewrite (Hm s HP).
Qed.

Lemma WF_memory s : WF s -> in_memory s.
Proof. intros H. apply H. Qed.

Lemma WF_connect : hoare WF _connect WF.
Proof.
  intros s H. rewrite connect_result. destruct (_dbs s) eqn:Ed; [exact H|].
  rewrite (memory_no_file s (WF_memory s H)).
  destruct H as (Hm & H1 & H2). specialize (H1 Ed).
  cbn [snd]. split; [exact Hm|]. split; [discriminate|].
  intros db E. cbn in E. injection E as <-.
  split; [apply wf_new_db|]. intros f id Hg. cbn in Hg. rewrite H1 in Hg.
  discriminate Hg.
Qed.

Lemma WF_read : hoare WF read WF.
Proof.
  unfold read. apply hoare_seq; [apply WF_connect|]. intros _.
  apply hoare_with_db_memory; [apply WF_memory|]. intros s H. cbn.
  apply (WF_attrs (fun s => set__have_used s true)); [apply set_have_used_stable | exact H].
Qed.

(** ** A store that is in use and connected *)

Lemma K_WF ids s : K ids s -> WF s.
Proof. intros H. apply H. Qed.

Lemma start_using_ready s : ready s -> _start_using s = (Return tt, s).
Proof. intros [H _]. now apply start_using_used. Qed.

Lemma connect_ready s : ready s -> _connect s = (Return tt, s).
Proof. intros [_ H]. now apply connect_used. Qed.

Lemma WF_known s filename file_id :
  WF s -> dict_get String.eqb filename (_file_map s) = Some file_id -> known file_id s.
Proof.
  intros (_ & _ & H) Hg db Hdb. destruct (H db Hdb) as [_ Hm].
  exact (id_bound_In db file_id filename (Hm filename file_id Hg)).
Qed.

Lemma triple_start_using :
  triple WF _start_using (fun _ s => WF s /\ _have_used s = true) WF.
Proof.
  intros s H. pose proof (WF_start_using s H) as Hw.
  rewrite start_using_result in *. cbn [snd] in Hw. split; [exact Hw|].
  destruct (_have_used s); reflexivity.
Qed.

Lemma triple_connect :
  triple (fun s => WF s /\ _have_used s = true) _connect (fun _ s => WF s /\ ready s) WF.
Proof.
  intros s [Hw Hu]. pose proof (WF_connect s Hw) as Hw'.
  rewrite connect_result in *. destruct (_dbs s) eqn:Ed.
  - split; [exact Hw | split; assumption].
  - rewrite (memory_no_file s (WF_memory s Hw)) in *.
    cbn [snd] in Hw'. split; [exact Hw'|]. split; [exact Hu | reflexivity].
Qed.

Lemma triple_connect_WF : triple WF _connect (fun _ s => WF s /\ _dbs s = true) WF.
Proof.
  intros s Hw. pose proof (WF_connect s Hw) as Hw'.
  rewrite connect_result in *. destruct (_dbs s) eqn:Ed.
  - split; assumption.
  - rewrite (memory_no_file s (WF_memory s Hw)) in *.
    cbn [snd] in Hw'. split; [exact Hw' | reflexivity].
Qed.

(** ** Ids of files and contexts *)

Ltac wmem :=
  let s := fresh "s" in
  let H := fresh "H" in
  intros s H; try unfold K in H; apply WF_memory; tauto.

Lemma triple_file_id filename add :
  triple WF (_file_id filename add)
    (fun r s => WF s /\ r = dict_get String.eqb filename (_file_map s)) WF.
Proof.
  unfold _file_id.
  apply (triple_bind _ _ (fun a s => WF s /\ a = s)); [apply triple_get|].
  intros s0. apply (triple_bind _ _ (fun _ s => WF s)).
  - destruct (negb (dict_mem String.eqb filename (_file_map s0)) && add);
      [|intros s [H _]; exact H].
    cbn [when].
    apply (triple_bind _ _ (fun _ s => WF s /\ _dbs s = true)).
    { eapply triple_weaken; [apply triple_connect_WF | intros s H; apply H | auto]. }
    intros _. apply triple_with_db; [wmem|].
    apply (triple_bind _ _
             (fun r s => (WF s /\ _dbs s = true)
                         /\ exists db, database s = Some db /\ r = sql_replace_file filename db)).
    { apply triple_query. tauto. }
    intros [db' id] s [[Hw Hd] (db & Hdb & Er)]. cbn [modify].
    assert (Edb : db' = fst (sql_replace_file filename db)) by now rewrite <- Er.
    assert (Eid : id = id_bound db + 1).
    { unfold sql_replace_file in Er. injection Er as _ Er. rewrite Er.
      apply next_rowid_bound. }
    destruct Hw as (Hm & H1 & H2). destruct (H2 db Hdb) as [Hwf Hmap].
    split; [exact Hm|]. split; [intros Hf; cbn in Hf; congruence|].
    intros db0 E0. cbn in E0. injection E0 as <-.
    split; [rewrite Edb; now apply wf_replace_file|].
    intros f id' Hg. cbn [_file_map set__file_map set_database] in Hg.
    rewrite Edb. unfold sql_replace_file. cbn [fst file_rows set_file_rows].
    apply in_app_iff.
    destruct (String.eqb_spec f filename) as [->|Hne].
    + rewrite (dict_get_set_same String.eqb String.eqb_eq) in Hg. injection Hg as <-.
      right. left. now rewrite Eid, next_rowid_bound.
    + rewrite (dict_get_set_other String.eqb String.eqb_eq) in Hg by exact Hne.
      left. apply filter_In. split; [now apply Hmap|]. cbn.
      destruct (String.eqb_spec f filename); [contradiction | reflexivity].
  - intros _. apply (triple_bind _ _ (fun a s => WF s /\ a = s)); [apply triple_get|].
    intros s1 s [Hw ->]. cbn. auto.
Qed.

Lemma K_set_db ids s db db' :
  database s = Some db -> db_wf db' -> file_rows db' = file_rows db ->
  K ids s -> K ids (set_database s (Some db')).
Proof.
  intros Hdb Hw Hf (Hwf & Hr & Hk). split; [|split].
  - apply (WF_set_db s db db' Hdb Hw); [|exact Hwf]. rewrite Hf. apply incl_refl.
  - exact Hr.
  - intros id Hid db0 E0. cbn in E0. injection E0 as <-.
    unfold id_bound. rewrite Hf. exact (Hk id Hid db Hdb).
Qed.

Lemma K_attrs ids f s :
  maps_stable f -> (forall s, _have_used (f s) = _have_used s) -> K ids s -> K ids (f s).
Proof.
  intros Hf Hu (Hwf & [Hr1 Hr2] & Hk). destruct (Hf s) as (E1 & E2 & E3 & E4).
  split; [now apply WF_attrs|]. split.
  - split; [now rewrite Hu | now rewrite E1].
  - intros id Hid. apply known_attrs; auto.
Qed.

Lemma triple_K_connect ids : triple (K ids) _connect (fun _ => K ids) WF.
Proof. intros s H. rewrite (connect_ready s (proj1 (proj2 H))). exact H. Qed.

Lemma triple_K_start_using ids : triple (K ids) _start_using (fun _ => K ids) WF.
Proof. intros s H. rewrite (start_using_ready s (proj1 (proj2 H))). exact H. Qed.

(** [_choose_lines_or_arcs] keeps the invariant, and what is known on a
    connected store. *)
Lemma triple_K_choose ids lines arcs :
  triple (K ids) (_choose_lines_or_arcs lines arcs) (fun _ => K ids) WF.
Proof.
  unfold _choose_lines_or_arcs.
  destruct (negb (lines || arcs)); [apply triple_raise, K_WF|].
  destruct (lines && arcs); [apply triple_raise, K_WF|].
  apply (triple_bind _ _ (fun a s => K ids s /\ a = s)); [apply triple_get|].
  intros s0.
  destruct (lines && _has_arcs s0); [apply triple_raise; intros s [H _]; apply H|].
  destruct (arcs && _has_lines s0); [apply triple_raise; intros s [H _]; apply H|].
  destruct (negb (_has_arcs s0) && negb (_has_lines s0)); cbn [when];
    [|intros s [H _]; exact H].
  apply (triple_bind _ _ (fun _ => K ids)).
  { apply triple_modify. intros s [H _].
    apply (K_attrs ids (fun s => set__has_arcs (set__has_lines s lines) arcs));
      [intros s1; cbn; auto | reflexivity | exact H]. }
  intros _. apply (triple_bind _ _ (fun _ => K ids)); [apply triple_K_connect|].
  intros _. apply triple_with_db; [wmem|].
  apply (triple_bind _ _
           (fun r s => K ids s /\ exists db, database s = Some db
                                 /\ r = sql_insert_meta "has_arcs" (if arcs then "1" else "0") db)).
  { apply triple_query. apply K_WF. }
  intros [db'|].
  - apply triple_modify. intros s [H (db & Hdb & Er)]. symmetry in Er.
    destruct H as (Hwf & Hr & Hk).
    destruct (wf_insert_meta _ _ _ _ Er (proj1 (proj2 (proj2 Hwf) db Hdb))) as [Hw' Hf].
    now apply (K_set_db ids s db db').
  - apply triple_raise. intros s [H _]. apply H.
Qed.

Lemma triple_WF_choose lines arcs :
  triple WF (_choose_lines_or_arcs lines arcs) (fun _ => WF) WF.
Proof.
  unfold _choose_lines_or_arcs.
  destruct (negb (lines || arcs)); [apply triple_raise; auto|].
  destruct (lines && arcs); [apply triple_raise; auto|].
  apply (triple_bind _ _ (fun a s => WF s /\ a = s)); [apply triple_get|].
  intros s0.
  destruct (lines && _has_arcs s0); [apply triple_raise; intros s [H _]; apply H|].
  destruct (arcs && _has_lines s0); [apply triple_raise; intros s [H _]; apply H|].
  destruct (negb (_has_arcs s0) && negb (_has_lines s0)); cbn [when];
    [|intros s [H _]; exact H].
  apply (triple_bind _ _ (fun _ => WF)).
  { apply triple_modify. intros s [H _].
    apply (WF_attrs (fun s => set__has_arcs (set__has_lines s lines) arcs));
      [intros s1; cbn; auto | exact H]. }
  intros _. apply (triple_bind _ _ (fun _ => WF)); [apply hoare_triple, WF_connect|].
  intros _. apply triple_with_db; [wmem|].
  apply (triple_bind _ _
           (fun r s => WF s /\ exists db, database s = Some db
                              /\ r = sql_insert_meta "has_arcs" (if arcs then "1" else "0") db)).
  { apply triple_query. auto. }
  intros [db'|].
  - apply triple_modify. intros s [H (db & Hdb & Er)]. symmetry in Er.
    destruct (wf_insert_meta _ _ _ _ Er (proj1 (proj2 (proj2 H) db Hdb))) as [Hw' Hf].
    apply (WF_set_db s db db' Hdb Hw'); [rewrite Hf; apply incl_refl | exact H].
  - apply triple_raise. intros s [H _]. apply H.
Qed.

Lemma triple_WF_context_id context :
  triple WF (_context_id context) (fun _ => WF) WF.
Proof.
  unfold _context_id.
  apply (triple_bind _ _ (fun _ => WF)); [apply hoare_triple, WF_start_using|]. intros _.
  apply (triple_bind _ _ (fun _ => WF)); [apply hoare_triple, WF_connect|]. intros _.
  apply triple_with_db; [wmem|].
  apply (triple_bind _ _ (fun _ => WF)).
  - eapply triple_weaken; [apply (triple_query WF WF); auto | auto | intros a s H; apply H].
  - intros ids s H. exact H.
Qed.

Lemma triple_WF_set_context_id : triple WF _set_context_id (fun _ => WF) WF.
Proof.
  unfold _set_context_id.
  apply (triple_bind _ _ (fun a s => WF s /\ a = s)); [apply triple_get|].
  intros s0. cbv zeta.
  apply (triple_bind _ _ (fun _ => WF)).
  { eapply triple_weaken; [apply triple_WF_context_id | intros s H; apply H | auto]. }
  intros [id|].
  - apply triple_modify. intros s H.
    apply (WF_attrs (fun s => set__current_context_id s (Some id)));
      [intros s1; cbn; auto | exact H].
  - apply (triple_bind _ _ (fun _ => WF)); [apply hoare_triple, WF_connect|]. intros _.
    set (context := match _current_context s0 with Some c => c | None => "" end).
    apply triple_with_db; [wmem|].
    apply (triple_bind _ _
             (fun r s => WF s /\ exists db, database s = Some db
                                /\ r = sql_insert_context context db)).
    { apply triple_query. auto. }
    intros [[db' id]|].
    + apply triple_modify. intros s [H (db & Hdb & Er)]. symmetry in Er.
      destruct (wf_insert_context _ _ _ _ Er (proj1 (proj2 (proj2 H) db Hdb))) as [Hw' Hf].
      apply (WF_attrs (fun s => set__current_context_id s (Some id)));
        [intros s1; cbn; auto|].
      apply (WF_set_db s db db' Hdb Hw'); [rewrite Hf; apply incl_refl | exact H].
    + apply triple_raise. intros s [H _]. apply H.
Qed.

(** ** The methods that write *)

(** A statement on a file id that the tables know. *)
Lemma triple_execute_known (P : CoverageData -> Prop) file_id stmt :
  (forall s, P s -> WF s /\ known file_id s) ->
  (forall db, file_id <= id_bound db -> db_wf db ->
              db_wf (stmt db) /\ file_rows (stmt db) = file_rows db) ->
  (forall s db db', P s -> database s = Some db -> file_rows db' = file_rows db ->
                    db_wf db' -> P (set_database s (Some db'))) ->
  triple P (execute stmt) (fun _ => P) WF.
Proof.
  intros HP Hst Hset s H. destruct (HP s H) as [Hw Hk].
  unfold execute, bind, get. cbn.
  destruct (database s) as [db|] eqn:Hdb; cbn; [|exact Hw].
  destruct (Hst db (Hk db Hdb) (proj1 (proj2 (proj2 Hw) db Hdb))) as [Hw' Hf].
  now apply (Hset s db).
Qed.

Lemma WF_known_set_db file_id s db db' :
  WF s /\ known file_id s -> database s = Some db -> file_rows db' = file_rows db ->
  db_wf db' -> WF (set_database s (Some db')) /\ known file_id (set_database s (Some db')).
Proof.
  intros [Hw Hk] Hdb Hf Hw'. split.
  - apply (WF_set_db s db db' Hdb Hw'); [rewrite Hf; apply incl_refl | exact Hw].
  - intros db0 E0. cbn in E0. injection E0 as <-. unfold id_bound. rewrite Hf.
    exact (Hk db Hdb).
Qed.

Lemma triple_file_id_add filename :
  triple WF (bind (_file_id filename true) the)
    (fun file_id s => WF s /\ known file_id s) WF.
Proof.
  apply (triple_bind _ _
           (fun r s => WF s /\ r = dict_get String.eqb filename (_file_map s)));
    [apply triple_file_id|].
  intros [id|] s [Hw Hr]; cbn; [|exact Hw].
  split; [exact Hw|]. now apply (WF_known s filename id).
Qed.

Lemma WF_add_lines line_data : hoare WF (add_lines line_data) WF.
Proof.
  apply triple_hoare. unfold add_lines.
  apply (triple_bind _ _ (fun _ => WF)); [apply hoare_triple, WF_start_using|]. intros _.
  apply (triple_bind _ _ (fun _ => WF)); [apply triple_WF_choose|]. intros _.
  destruct (is_empty line_data); [apply (triple_ret WF (fun _ => WF))|].
  apply (triple_bind _ _ (fun _ => WF)); [apply hoare_triple, WF_connect|]. intros _.
  apply triple_with_db; [wmem|].
  apply (triple_bind _ _ (fun _ => WF)); [apply triple_WF_set_context_id|]. intros _.
  apply triple_for_each. intros [filename linenos] _.
  apply (triple_bind _ _ (fun file_id s => WF s /\ known file_id s));
    [apply triple_file_id_add|].
  intros file_id.
  apply (triple_bind _ _ (fun a s => (WF s /\ known file_id s) /\ a = s));
    [apply triple_get|].
  intros s0.
  apply (triple_bind _ _ (fun _ s => WF s /\ known file_id s)).
  { eapply triple_weaken;
      [apply (triple_the WF (fun s => WF s /\ known file_id s)); tauto
      | intros s H; apply H | intros a s H; apply H]. }
  intros context_id.
  apply (triple_bind _ _ (fun _ s => WF s /\ known file_id s)).
  { eapply triple_weaken;
      [apply (triple_query WF (fun s => WF s /\ known file_id s)); tauto
      | auto | intros a s H; apply H]. }
  intros existing.
  eapply triple_weaken;
    [apply (triple_execute_known (fun s => WF s /\ known file_id s) file_id)
    | auto | intros a s H; apply H].
  - auto.
  - intros db Hid Hw. split; [now apply wf_replace_line_bits | reflexivity].
  - intros s db db'. apply WF_known_set_db.
Qed.

Lemma WF_add_arcs arc_data : hoare WF (add_arcs arc_data) WF.
Proof.
  apply triple_hoare. unfold add_arcs.
  apply (triple_bind _ _ (fun _ => WF)); [apply hoare_triple, WF_start_using|]. intros _.
  apply (triple_bind _ _ (fun _ => WF)); [apply triple_WF_choose|]. intros _.
  destruct (is_empty arc_data); [apply (triple_ret WF (fun _ => WF))|].
  apply (triple_bind _ _ (fun _ => WF)); [apply hoare_triple, WF_connect|]. intros _.
  apply triple_with_db; [wmem|].
  apply (triple_bind _ _ (fun _ => WF)); [apply triple_WF_set_context_id|]. intros _.
  apply triple_for_each. intros [filename arcs] _.
  apply (triple_bind _ _ (fun file_id s => WF s /\ known file_id s));
    [apply triple_file_id_add|].
  intros file_id.
  apply (triple_bind _ _ (fun a s => (WF s /\ known file_id s) /\ a = s));
    [apply triple_get|].
  intros s0.
  apply (triple_bind _ _ (fun _ s => WF s /\ known file_id s)).
  { eapply triple_weaken;
      [apply (triple_the WF (fun s => WF s /\ known file_id s)); tauto
      | intros s H; apply H | intros a s H; apply H]. }
  intros context_id.
  eapply triple_weaken;
    [apply (triple_for_each WF (fun s => WF s /\ known file_id s)) | auto
    | intros a s H; apply H].
  intros [fromno tono] _. unfold insert_arc.
  destruct (sqlite_int fromno && sqlite_int tono);
    [|apply triple_raise; intros s H; apply H].
  apply (triple_execute_known (fun s => WF s /\ known file_id s) file_id).
  - auto.
  - intros db Hid Hw. now apply wf_ignore_arc.
  - intros s db db'. apply WF_known_set_db.
Qed.

Lemma with_db_unchanged {A} (body : M A) s : snd (body s) = s -> snd (with_db body s) = s.
Proof.
  intros H. unfold with_db. destruct (body s) as [[a|e] s']; cbn [snd] in *; subst s';
    [reflexivity|].
  now apply rollback_same.
Qed.

Lemma file_tracer_ready filename s : ready s -> snd (file_tracer filename s) = s.
Proof.
  intros Hr. unfold file_tracer.
  rewrite (bind_return _ _ _ _ _ (start_using_ready s Hr)).
  rewrite (bind_return _ _ _ _ _ (connect_ready s Hr)).
  apply with_db_unchanged.
  rewrite (bind_return _ _ _ _ _ (file_id_lookup filename s)).
  destruct (dict_get String.eqb filename (_file_map s)) as [file_id|]; [|reflexivity].
  unfold bind, query, get. cbn.
  destruct (database s) as [db|]; cbn; [|reflexivity].
  destruct (sql_tracer file_id db); reflexivity.
Qed.

Lemma WF_add_file_tracers file_tracers : hoare WF (add_file_tracers file_tracers) WF.
Proof.
  apply triple_hoare. unfold add_file_tracers.
  destruct (is_empty file_tracers); [apply (triple_ret WF (fun _ => WF))|].
  apply (triple_bind _ _ (fun _ s => WF s /\ _have_used s = true));
    [apply triple_start_using|]. intros _.
  apply (triple_bind _ _ (fun _ s => WF s /\ ready s)); [apply triple_connect|]. intros _.
  apply triple_with_db; [wmem|].
  eapply triple_weaken;
    [apply (triple_for_each WF (fun s => WF s /\ ready s)) | auto | intros a s H; apply H].
  intros [filename plugin_name] _.
  apply (triple_bind _ _
           (fun r s => (WF s /\ ready s) /\ r = dict_get String.eqb filename (_file_map s))).
  { intros s H. rewrite file_id_lookup. auto. }
  intros [file_id|]; [|apply triple_raise; intros s H; apply H].
  apply (triple_bind _ _
           (fun _ s => (WF s /\ ready s) /\ known file_id s)).
  { intros s [[Hw Hr] Hg]. pose proof (file_tracer_ready filename s Hr) as Es.
    destruct (file_tracer filename s) as [[a|e] s']; cbn [snd] in Es; subst s';
      [|exact Hw].
    split; [auto|]. now apply (WF_known s filename file_id). }
  intros existing. cbv zeta.
  destruct (negb (String.eqb _ "")).
  - destruct (negb (String.eqb _ plugin_name)); cbn [when].
    + apply triple_raise. intros s H. apply H.
    + intros s H. cbn. apply H.
  - destruct (negb (String.eqb plugin_name "")); cbn [when]; [|intros s H; cbn; apply H].
    apply (triple_bind _ _
             (fun r s => ((WF s /\ ready s) /\ known file_id s)
                         /\ exists db, database s = Some db
                                       /\ r = sql_insert_tracer file_id plugin_name db)).
    { apply triple_query. intros s H. apply H. }
    intros [db'|].
    + apply triple_modify. intros s [[[Hw Hr] Hk] (db & Hdb & Er)]. symmetry in Er.
      destruct (wf_insert_tracer _ _ _ _ Er (Hk db Hdb) (proj1 (proj2 (proj2 Hw) db Hdb)))
        as [Hw' Hf].
      split; [|exact Hr].
      apply (WF_set_db s db db' Hdb Hw'); [rewrite Hf; apply incl_refl | exact Hw].
    + apply triple_raise. intros s H. apply H.
Qed.

Lemma WF_touch_file filename plugin_name : hoare WF (touch_file filename plugin_name) WF.
Proof.
  unfold touch_file.
  apply hoare_seq; [apply WF_start_using|]. intros _.
  apply hoare_seq; [apply hoare_get|]. intros s0.
  destruct (negb (_has_arcs s0) && negb (_has_lines s0)); [apply hoare_raise|].
  apply hoare_seq.
  - apply triple_hoare. eapply triple_weaken; [apply triple_file_id | auto|].
    intros a s H. apply H.
  - intros _. apply hoare_when. apply WF_add_file_tracers.
Qed.

(** ** The queries *)

Lemma WF_modify f : maps_stable f -> hoare WF (modify f) WF.
Proof. intros Hf s H. cbn. now apply WF_attrs. Qed.

Lemma WF_file_id filename add : hoare WF (_file_id filename add) WF.
Proof.
  apply triple_hoare. eapply triple_weaken; [apply triple_file_id | auto|].
  intros a s H. apply H.
Qed.

Ltac wstep :=
  match goal with
  | |- hoare _ (bind _ _) _ => apply hoare_seq; [|intro]
  | |- hoare _ (with_db _) _ => apply hoare_with_db_memory; [apply WF_memory|]
  | |- hoare _ (select_regexp _ _ _ _) _ => apply hoare_select_regexp
  | |- hoare _ no_table _ => apply hoare_no_table
  | |- hoare _ (ret _) _ => apply hoare_ret
  | |- hoare _ (raise _ _ _) _ => apply hoare_raise
  | |- hoare _ get _ => apply hoare_get
  | |- hoare _ (query _) _ => apply hoare_query
  | |- hoare _ _start_using _ => apply WF_start_using
  | |- hoare _ _connect _ => apply WF_connect
  | |- hoare _ (_file_id _ _) _ => apply WF_file_id
  | |- hoare _ (when _ _) _ => apply hoare_when
  | |- hoare _ (map_M _ _) _ => apply hoare_map_M; intro
  | |- hoare _ (for_each _ _) _ => apply hoare_for_each; intro
  | |- hoare _ (modify _) _ => apply WF_modify; intros ?; cbn; auto
  | |- hoare _ (match ?x with _ => _ end) _ => destruct x
  end.

Lemma WF_file_tracer filename : hoare WF (file_tracer filename) WF.
Proof. unfold file_tracer. repeat wstep. Qed.

Lemma WF_measured_contexts : hoare WF measured_contexts WF.
Proof. unfold measured_contexts. repeat wstep. Qed.

Lemma WF_set_query_context context : hoare WF (set_query_context context) WF.
Proof. unfold set_query_context. repeat wstep. Qed.

Lemma WF_set_query_contexts contexts : hoare WF (set_query_contexts contexts) WF.
Proof. unfold set_query_contexts. repeat wstep. Qed.

Lemma WF_arcs filename : hoare WF (arcs filename) WF.
Proof. unfold arcs. repeat wstep. Qed.

Lemma WF_lines filename : hoare WF (lines filename) WF.
Proof. unfold lines. repeat wstep; apply WF_arcs. Qed.

Lemma WF_contexts_by_lineno filename : hoare WF (contexts_by_lineno filename) WF.
Proof. unfold contexts_by_lineno. repeat wstep. Qed.

(** ** Update *)

Lemma triple_pure_pre {A} (E P : CoverageData -> Prop) (phi : Prop) (m : M A) Q :
  (phi -> triple P m Q E) -> triple (fun s => P s /\ phi) m Q E.
Proof. intros H s [HP Hphi]. exact (H Hphi s HP). Qed.

Lemma triple_pure {A} (E P : CoverageData -> Prop) (m : M A) :
  pure_m m -> (forall s, P s -> E s) -> triple P m (fun _ => P) E.
Proof.
  intros Hm HE s H. specialize (Hm s). destruct (m s) as [[a|e] s']; cbn in Hm; subst s';
    auto.
Qed.

Lemma pure_ret {A} (a : A) : pure_m (ret a).
Proof. intros s. reflexivity. Qed.

Lemma pure_lookup {V} (d : list (string * V)) k : pure_m (lookup d k).
Proof. intros s. unfold lookup. destruct (dict_get _ _ _); reflexivity. Qed.

Lemma pure_query {A} (q : Db -> A) : pure_m (query q).
Proof. intros s. unfold query, bind, get. cbn. destruct (database s); reflexivity. Qed.

Lemma pure_lift {A} (r : result A) : pure_m (lift r).
Proof. intros s. reflexivity. Qed.

Lemma pure_bind {A B} (m : M A) (k : A -> M B) :
  pure_m m -> (forall a, pure_m (k a)) -> pure_m (bind m k).
Proof.
  intros Hm Hk s. unfold bind. specialize (Hm s).
  destruct (m s) as [[a|e] s']; cbn in Hm; subst s'; [apply Hk | reflexivity].
Qed.

Lemma pure_map_M {X Y} (f : X -> M Y) l : (forall x, pure_m (f x)) -> pure_m (map_M f l).
Proof.
  intros Hf. induction l as [|x l IH]; cbn [map_M]; [apply pure_ret|].
  apply pure_bind; [apply Hf|]. intros y.
  apply pure_bind; [exact IH|]. intros ys. apply pure_ret.
Qed.

Lemma dict_set_In {K V} (eqb : K -> K -> bool) k v k' v' (d : list (K * V)) :
  In (k, v) (dict_set eqb k' v' d) -> (k, v) = (k', v') \/ In (k, v) d.
Proof.
  induction d as [|[k0 v0] d IH]; cbn.
  - intros [H|[]]. now left.
  - destruct (eqb k' k0); cbn.
    + intros [H|H]; [now left | right; now right].
    + intros [H|H]; [right; now left|]. destruct (IH H); [now left | right; now right].
Qed.

Lemma dict_update_In {K V} (eqb : K -> K -> bool) k v (items d : list (K * V)) :
  In (k, v) (dict_update eqb d items) -> In (k, v) d \/ In (k, v) items.
Proof.
  unfold dict_update. revert d. induction items as [|[k' v'] items IH]; intros d; cbn.
  - now left.
  - intros H. destruct (IH _ H) as [H'|H']; [|right; now right].
    apply dict_set_In in H'. destruct H' as [H'|H']; [right; now left | now left].
Qed.

Lemma path_ids_known db id :
  In id (map snd (path_ids db)) -> id <= id_bound db.
Proof.
  intros H. apply in_map_iff in H. destruct H as ([p id'] & E & H). cbn in E. subst id'.
  apply dict_update_In in H. destruct H as [[]|H].
  apply in_map_iff in H. destruct H as ([id' p'] & E & H). cbn in E.
  injection E as -> ->. now apply (id_bound_In db id p).
Qed.

Lemma dict_get_value {V} (d : list (string * V)) k v :
  dict_get String.eqb k d = Some v -> In v (map snd d).
Proof.
  intros H. apply (dict_get_Some_In String.eqb String.eqb_eq) in H.
  apply in_map_iff. exists (k, v). auto.
Qed.

Lemma triple_K_execute ids stmt :
  (forall db, (forall id, In id ids -> id <= id_bound db) -> db_wf db ->
              db_wf (stmt db) /\ file_rows (stmt db) = file_rows db) ->
  triple (K ids) (execute stmt) (fun _ => K ids) WF.
Proof.
  intros Hst s H. pose proof H as (Hw & Hr & Hk).
  unfold execute, bind, get. cbn.
  destruct (database s) as [db|] eqn:Hdb; cbn; [|exact Hw].
  destruct (Hst db (fun id Hid => Hk id Hid db Hdb) (proj1 (proj2 (proj2 Hw) db Hdb))) as [Hw' Hf].
  now apply (K_set_db ids s db).
Qed.

Lemma triple_K_executemany_raw ids stmt :
  (forall db db', stmt db = Some db' ->
                  (forall id, In id ids -> id <= id_bound db) -> db_wf db ->
                  db_wf db' /\ file_rows db' = file_rows db) ->
  triple (K ids) (executemany_raw stmt) (fun _ => K ids) WF.
Proof.
  intros Hst s H. pose proof H as (Hw & Hr & Hk).
  unfold executemany_raw, bind, get. cbn.
  destruct (database s) as [db|] eqn:Hdb; cbn; [|exact Hw].
  destruct (stmt db) as [db'|] eqn:Es; cbn; [|exact Hw].
  destruct (Hst db db' Es (fun id Hid => Hk id Hid db Hdb) (proj1 (proj2 (proj2 Hw) db Hdb)))
    as [Hw' Hf].
  now apply (K_set_db ids s db).
Qed.

Lemma triple_ready_execute_grow stmt :
  (forall db, db_wf db -> db_wf (stmt db) /\ incl (file_rows db) (file_rows (stmt db))) ->
  triple (fun s => WF s /\ ready s) (execute stmt) (fun _ s => WF s /\ ready s) WF.
Proof.
  intros Hst s [Hw Hr]. unfold execute, bind, get. cbn.
  destruct (database s) as [db|] eqn:Hdb; cbn; [|exact Hw].
  destruct (Hst db (proj1 (proj2 (proj2 Hw) db Hdb))) as [Hw' Hf].
  split; [|exact Hr]. now apply (WF_set_db s db).
Qed.

Lemma WF_reset_read : hoare WF (_reset ;; read) WF.
Proof. apply hoare_seq; [apply WF_reset | intros _; apply WF_read]. Qed.

Lemma triple_K_lookup {V} ids (d : list (string * V)) k :
  triple (K ids) (lookup d k)
    (fun v s => K ids s /\ dict_get String.eqb k d = Some v) WF.
Proof. apply triple_lookup. apply K_WF. Qed.

Lemma WF_update other_data aliases : hoare WF (update other_data aliases) WF.
Proof.
  apply triple_hoare. unfold update.
  apply (triple_bind _ _ (fun a s => WF s /\ a = s)); [apply triple_get|]. intros s0.
  destruct (_has_lines s0 && _has_arcs other_data);
    [apply triple_raise; intros s H; apply H|].
  destruct (_has_arcs s0 && _has_lines other_data);
    [apply triple_raise; intros s H; apply H|].
  cbv zeta.
  apply (triple_bind _ _ (fun _ s => WF s /\ _have_used s = true)).
  { eapply triple_weaken; [apply triple_start_using | intros s H; apply H | auto]. }
  intros _.
  destruct ((read ;; _connect ;; query (fun db => db)) other_data) as [[odb|e] o'].
  2:{ intros s H. cbn. apply H. }
  set (P := fun s => WF s /\ _have_used s = true).
  assert (HP : forall s, P s -> WF s) by (intros s H; apply H).
  apply (triple_bind _ _ (fun _ => P)).
  { apply triple_pure; [|exact HP]. apply pure_map_M. intros [[[p c] x] y].
    apply pure_bind; [apply pure_lookup | intros f; apply pure_ret]. }
  intros arcs.
  apply (triple_bind _ _ (fun _ => P)).
  { apply triple_pure; [|exact HP]. apply pure_map_M. intros [[p c] nb].
    apply pure_bind; [apply pure_lookup | intros f; apply pure_ret]. }
  intros line_items.
  apply (triple_bind _ _ (fun _ => P)).
  { apply triple_pure; [|exact HP]. apply pure_map_M. intros [p t].
    apply pure_bind; [apply pure_lookup | intros f; apply pure_ret]. }
  intros tracer_items.
  set (R := fun s => WF s /\ ready s).
  assert (HR : forall s, R s -> WF s) by (intros s H; apply H).
  apply (triple_bind _ _ (fun _ => R)); [apply triple_connect|]. intros _.
  apply (triple_bind _ _ (fun _ => WF));
    [|intros _; apply hoare_triple, WF_reset_read].
  apply triple_with_db; [intros s H; apply WF_memory, H|].
  apply (triple_bind _ _ (fun _ => R)); [apply triple_pure; [apply pure_query | exact HR]|].
  intros paths.
  apply (triple_bind _ _ (fun _ => R)); [apply triple_pure; [apply pure_query | exact HR]|].
  intros this_tracer_rows.
  apply (triple_bind _ _ (fun _ => R)).
  { apply triple_for_each. intros file _. apply triple_ready_execute_grow.
    intros db Hw. split; [now apply wf_ignore_file | apply ignore_file_rows]. }
  intros _.
  apply (triple_bind _ _ (fun file_ids s => K (map snd file_ids) s)).
  { eapply triple_weaken; [apply (triple_query WF R); exact HR | auto|].
    intros file_ids s [[Hw Hr] (db & Hdb & E)]. split; [exact Hw|]. split; [exact Hr|].
    intros id Hid db0 Hdb0. rewrite Hdb in Hdb0. injection Hdb0 as <-.
    subst file_ids. now apply path_ids_known. }
  intros file_ids. set (ids := map snd file_ids).
  assert (Hids : forall k id, dict_get String.eqb k file_ids = Some id -> In id ids).
  { intros k id. apply dict_get_value. }
  apply (triple_bind _ _ (fun _ => K ids)).
  { apply triple_for_each. intros context _. apply triple_K_execute.
    intros db _ Hw. now apply wf_ignore_context. }
  intros _.
  apply (triple_bind _ _ (fun _ => K ids));
    [apply triple_pure; [apply pure_query | apply K_WF]|].
  intros context_ids.
  apply (triple_bind _ _ (fun _ => K ids));
    [apply triple_pure; [apply pure_lift | apply K_WF]|].
  intros tracer_map.
  apply (triple_bind _ _ (fun _ => K ids));
    [apply triple_pure; [apply pure_query | apply K_WF]|].
  intros this_lines.
  apply (triple_bind _ _ (fun _ => K ids)).
  { apply triple_when.
    apply (triple_bind _ _ (fun _ => K ids)); [apply triple_K_choose|]. intros _.
    apply triple_for_each. intros [[[file context] fromno] tono] _.
    apply (triple_bind _ _
             (fun v s => K ids s /\ dict_get String.eqb file file_ids = Some v));
      [apply triple_K_lookup|].
    intros file_id. apply triple_pure_pre. intros Hf.
    apply (triple_bind _ _ (fun _ => K ids)).
    { eapply triple_weaken; [apply (triple_K_lookup ids) | auto | intros a s H; apply H]. }
    intros context_id. apply triple_K_execute.
    intros db Hk Hw. apply wf_ignore_arc; [|exact Hw]. cbn. apply Hk. now apply (Hids file). }
  intros _.
  apply (triple_bind _ _ (fun _ => K ids)).
  { apply triple_when.
    apply (triple_bind _ _ (fun _ => K ids)); [apply triple_K_choose|]. intros _.
    apply (triple_bind _ _ (fun _ => K ids)).
    { apply triple_K_execute. intros db _ Hw. now apply wf_delete_line_bits. }
    intros _.
    apply (triple_bind _ _
             (fun rows s => K ids s /\ Forall (fun row => In (fst (fst row)) ids) rows)).
    { apply triple_map_M. intros [[file context] nb].
      apply (triple_bind _ _
               (fun v s => K ids s /\ dict_get String.eqb file file_ids = Some v));
        [apply triple_K_lookup|].
      intros file_id. apply triple_pure_pre. intros Hf.
      apply (triple_bind _ _ (fun _ => K ids)).
      { eapply triple_weaken; [apply (triple_K_lookup ids) | auto | intros a s H; apply H]. }
      intros context_id s H. cbn. split; [exact H|]. now apply (Hids file). }
    intros rows. apply triple_pure_pre. intros Hrows.
    apply triple_for_each. intros [[file_id context_id] nb] Hin.
    apply triple_K_executemany_raw. intros db db' Es Hk Hw.
    apply (wf_insert_line_bits _ _ _ _ _ Es); [|exact Hw].
    apply Hk. rewrite Forall_forall in Hrows. exact (Hrows _ Hin). }
  intros _.
  eapply triple_weaken;
    [apply (triple_for_each WF (K ids)) | auto | intros a s H; apply (K_WF ids), H].
  intros [filename tracer] _.
  apply (triple_bind _ _
           (fun v s => K ids s /\ dict_get String.eqb filename file_ids = Some v));
    [apply triple_K_lookup|].
  intros file_id. apply triple_pure_pre. intros Hf.
  apply triple_K_execute. intros db Hk Hw. apply wf_ignore_tracer; [|exact Hw].
  apply Hk. now apply (Hids filename).
Qed.

Lemma hoare_except (P Q : CoverageData -> Prop) (m : M bool) :
  hoare P m Q -> hoare P (except_CoverageException m) Q.
Proof.
  intros H s HP. specialize (H s HP). unfold except_CoverageException.
  destruct (m s) as [[a|[[] msg args]] s']; exact H.
Qed.

Lemma WF_nonzero : hoare WF __nonzero__ WF.
Proof.
  unfold __nonzero__. apply hoare_seq; [apply hoare_get|]. intros s0.
  destruct (negb (_dbs s0) && negb (file_exists s0)); [apply hoare_ret|].
  apply hoare_except. repeat wstep.
Qed.

Lemma WF_dumps : hoare WF dumps WF.
Proof. unfold dumps. repeat wstep. Qed.

Lemma WF_do_call c : no_load c -> hoare WF (do_call c) WF.
Proof.
  intros Hc. destruct c; cbn [do_call]; unfold forget.
  - apply WF_add_lines.
  - apply WF_add_arcs.
  - apply WF_add_file_tracers.
  - apply WF_touch_file.
  - unfold set_context. apply WF_modify. intros s. cbn. auto.
  - apply WF_set_query_context.
  - apply WF_set_query_contexts.
  - apply WF_update.
  - apply WF_erase.
  - apply WF_read.
  - apply hoare_ret.
  - apply hoare_seq; [apply WF_nonzero | intros; apply hoare_ret].
  - apply hoare_seq; [apply WF_dumps | intros; apply hoare_ret].
  - destruct data as [db|data Hd]; [contradiction | apply hoare_raise].
  - apply hoare_seq; [apply WF_lines | intros; apply hoare_ret].
  - apply hoare_seq; [apply WF_arcs | intros; apply hoare_ret].
  - apply hoare_seq; [apply WF_contexts_by_lineno | intros; apply hoare_ret].
  - apply hoare_seq; [apply WF_file_tracer | intros; apply hoare_ret].
  - unfold measured_files. repeat wstep.
  - apply hoare_seq; [apply WF_measured_contexts | intros; apply hoare_ret].
  - unfold has_arcs. repeat wstep.
Qed.

Lemma WF_after_calls cs : forall s, Forall no_load cs -> WF s -> WF (after_calls cs s).
Proof.
  unfold after_calls. induction cs as [|c cs IH]; intros s Hcs H; cbn [fold_left].
  - exact H.
  - inversion Hcs; subst. apply IH; [assumption|]. now apply WF_do_call.
Qed.

Lemma WF_init e data_file : WF (CoverageData_init e true data_file).
Proof.
  split; [reflexivity|]. split; [reflexivity|]. intros db E. discriminate E.
Qed.

(** X1.  The tables of every store that calls produce from a new object
    whose database is in memory ([no_disk]), none of the calls loading a
    dump, satisfy the constraints of the schema: ids, paths and context names
    are unique, there is one [line_bits] row for a file and a context, one
    [tracer] row for a file, no row refers to a file id beyond the largest
    one; and each entry of the file map is a row of the [file] table. *)
Theorem store_keeps_constraints (e : Environ) (data_file : option Db)
    (calls : list call) :
  Forall no_load calls ->
  let s := after_calls calls (CoverageData_init e true data_file) in
  (_dbs s = false -> _file_map s = [])
  /\ forall db, database s = Some db -> db_wf db /\ map_ok s db.
Proof.
  intros Hcalls s. apply WF_after_calls; [exact Hcalls | apply WF_init].
Qed.

Lemma store_keeps_constraints_witness :
  db_wf (tables (after_calls [Add_arcs [("h.py", [(1, 2 ^ 63)])]; Touch_file "g.py" "plugin";
                              Add_arcs [("f.py", [(1, 2)])]]
                   new_memory_store)).
Proof.
  assert (E : database (after_calls [Add_arcs [("h.py", [(1, 2 ^ 63)])];
                                     Touch_file "g.py" "plugin";
                                     Add_arcs [("f.py", [(1, 2)])]] new_memory_store)
              = Some (tables (after_calls [Add_arcs [("h.py", [(1, 2 ^ 63)])];
                                           Touch_file "g.py" "plugin";
                                           Add_arcs [("f.py", [(1, 2)])]]
                                new_memory_store)))
    by (vm_compute; reflexivity).
  assert (Hc : Forall no_load [Add_arcs [("h.py", [(1, 2 ^ 63)])];
                               Touch_file "g.py" "plugin";
                               Add_arcs [("f.py", [(1, 2)])]])
    by (repeat constructor).
  exact (proj1 (proj2 (store_keeps_constraints example_environ None
                         [Add_arcs [("h.py", [(1, 2 ^ 63)])]; Touch_file "g.py" "plugin";
                          Add_arcs [("f.py", [(1, 2)])]]
                         Hc) _ E)).
Defined.

Lemma no_row_not_map_ok s filename file_id :
  _file_map s = [(filename, file_id)] ->
  option_map file_rows (database s) = Some [] ->
  ~ map_ok s (tables s).
Proof.
  intros Hmap Hrows Hm. specialize (Hm filename file_id). rewrite Hmap in Hm.
  cbn in Hm. rewrite String.eqb_refl in Hm. specialize (Hm eq_refl).
  unfold tables in Hm. destruct (database s) as [db|]; [|discriminate Hrows].
  cbn in Hrows. injection Hrows as Hrows. rewrite Hrows in Hm. exact Hm.
Qed.

(** X2.  On a new object whose data file does not exist yet, [add_arcs] with
    a line number that SQLite cannot store as a 64-bit integer raises
    [OverflowError]; the file was given the id [1] before, and [_file_map]
    keeps this id, while the [file] table, rolled back with the transaction of
    the block, has no row: the file map then names a row that the table does
    not have. *)
Theorem overflow_leaves_file_id (e : Environ) (filename : string) (fromno tono : Z) :
  sqlite_int fromno && sqlite_int tono = false ->
  let r := add_arcs [(filename, [(fromno, tono)])] (CoverageData_init e false None) in
  fst r = Raise (Exc OverflowError "Python int too large to convert to SQLite INTEGER" [])
  /\ _file_map (snd r) = [(filename, 1)]
  /\ option_map file_rows (database (snd r)) = Some []
  /\ ~ map_ok (snd r) (tables (snd r)).
Proof.
  intros H. cbv zeta.
  assert (Hr : fst (add_arcs [(filename, [(fromno, tono)])] (CoverageData_init e false None))
               = Raise (Exc OverflowError
                          "Python int too large to convert to SQLite INTEGER" [])
               /\ _file_map (snd (add_arcs [(filename, [(fromno, tono)])]
                                    (CoverageData_init e false None)))
                  = [(filename, 1)]
               /\ option_map file_rows
                    (database (snd (add_arcs [(filename, [(fromno, tono)])]
                                      (CoverageData_init e false None))))
                  = Some []).
  { unfold add_arcs, insert_arc. cbn [for_each is_empty]. rewrite H.
    cbv - [String.eqb].
    repeat match goal with
           | |- context [String.eqb ?a ?b] =>
               first [ rewrite (String.eqb_refl a)
                     | let v := eval vm_compute in (String.eqb a b) in
                       change (String.eqb a b) with v ];
               cbv - [String.eqb]
           end.
    auto. }
  destruct Hr as (Hr1 & Hr2 & Hr3). repeat split; try assumption.
  now apply (no_row_not_map_ok _ filename 1).
Qed.

Lemma overflow_leaves_file_id_witness :
  _file_map (snd (add_arcs [("f.py", [(1, 2 ^ 63)])]
                    (CoverageData_init example_environ false None)))
  = [("f.py", 1)].
Proof.
  exact (proj1 (proj2 (overflow_leaves_file_id example_environ "f.py" 1 (2 ^ 63) eq_refl))).
Defined.

(* ---- sets and loops ---- *)

Lemma dedup_In {A} (eqb : A -> A -> bool) (l : list A) x :
  (forall a b, eqb a b = true <-> a = b) -> In x (dedup eqb l) <-> In x l.
Proof.
  intros Heq. induction l as [|y l IH]; cbn; [tauto|].
  rewrite filter_In, IH. split.
  - intros [H|[H _]]; auto.
  - intros [H|H]; [now left|].
    destruct (eqb y x) eqn:E.
    + left. now apply Heq.
    + right. split; [exact H | reflexivity].
Qed.

Lemma arc_pair_eqb_eq a b : arc_pair_eqb a b = true <-> a = b.
Proof.
  destruct a, b. unfold arc_pair_eqb. cbn. rewrite andb_true_iff, !Z.eqb_eq.
  split; [intros [-> ->] | intros H; injection H]; auto.
Qed.

Lemma for_each_ext {X} (f g : X -> M unit) l :
  (forall x, In x l -> f x = g x) -> for_each l f = for_each l g.
Proof.
  intros H. induction l as [|x l IH]; cbn [for_each]; [reflexivity|].
  rewrite (H x (or_introl eq_refl)), IH; [reflexivity|].
  intros y Hy. apply H. now right.
Qed.

(* ---- the mode of a store in use ---- *)

Lemma same_data_refl s db : same_data s db s db.
Proof. repeat split. Qed.

Lemma same_data_trans s1 db1 s2 db2 s3 db3 :
  same_data s1 db1 s2 db2 -> same_data s2 db2 s3 db3 -> same_data s1 db1 s3 db3.
Proof.
  intros (A1 & A2 & A3 & A4 & A5 & A6 & A7) (B1 & B2 & B3 & B4 & B5 & B6 & B7).
  unfold same_data. repeat split; congruence.
Qed.

Lemma same_data_map_ok s db s' db' :
  same_data s db s' db' -> map_ok s db -> map_ok s' db'.
Proof.
  intros (A1 & _ & _ & A4 & _) H f id Hg. rewrite A4. rewrite A1 in Hg. now apply H.
Qed.

(** The mode gate on a connected store whose mode allows the call: it
    returns, and at most writes the mode. *)
Lemma choose_eval s db lines arcs :
  good s db -> agrees s db -> lines = negb arcs ->
  _has_lines s = false \/ lines = true -> _has_arcs s = false \/ arcs = true ->
  exists s1 db1,
    _choose_lines_or_arcs lines arcs s = (Return tt, s1)
    /\ good s1 db1 /\ same_data s db s1 db1
    /\ context_rows db1 = context_rows db
    /\ _current_context_id s1 = _current_context_id s
    /\ _has_lines s1 = lines /\ _has_arcs s1 = arcs.
Proof.
  intros Hg Hag -> Hl Ha. pose proof Hg as ((Hu & Hd & Hdb) & Hw & Hm).
  unfold _choose_lines_or_arcs.
  replace (negb (negb arcs || arcs)) with false by now destruct arcs.
  replace (negb arcs && arcs) with false by now destruct arcs.
  rewrite bind_get.
  assert (E1 : negb arcs && _has_arcs s = false).
  { destruct arcs; [reflexivity|]. destruct Ha as [->|]; [reflexivity | discriminate]. }
  assert (E2 : arcs && _has_lines s = false).
  { destruct arcs; [|reflexivity]. destruct Hl as [->|]; [reflexivity | discriminate]. }
  rewrite E1, E2.
  destruct (_has_arcs s) eqn:Harcs, (_has_lines s) eqn:Hlines; cbn [negb andb when].
  - destruct arcs; discriminate.
  - destruct arcs; [|discriminate]. exists s, db.
    split; [reflexivity|]. split; [exact Hg|]. split; [apply same_data_refl|].
    cbn. auto.
  - destruct arcs; [discriminate|]. exists s, db.
    split; [reflexivity|]. split; [exact Hg|]. split; [apply same_data_refl|].
    cbn. auto.
  - pose proof (agrees_no_mode s db Hag Hlines Harcs) as Hmeta.
    unfold bind at 1. cbn [modify].
    set (s0 := set__has_arcs (set__has_lines s (negb arcs)) arcs).
    rewrite (bind_return _ _ _ _ _ (connect_used s0 Hd)). unfold with_db.
    rewrite (bind_return _ _ _ _ _ (query_used _ s0 db Hdb)).
    rewrite (insert_meta_none _ _ db Hmeta). cbn [modify].
    eexists _, _. split; [reflexivity|].
    split.
    { split; [split; [exact Hu | split; [exact Hd | reflexivity]]|].
      split; [now apply wf_set_meta|].
      intros f id Hf. cbn in *. now apply Hm. }
    split; [repeat split|]. cbn. auto.
Qed.

Lemma context_id_eval context s db :
  in_use s db ->
  _context_id context s = (Return (hd_error (sql_context_ids context db)), s).
Proof.
  intros (Hu & Hd & Hdb). unfold _context_id.
  rewrite (bind_return _ _ _ _ _ (start_using_used s Hu)).
  rewrite (bind_return _ _ _ _ _ (connect_used s Hd)). unfold with_db.
  rewrite (bind_return _ _ _ _ _ (query_used _ s db Hdb)). reflexivity.
Qed.

Lemma sql_context_ids_In context db id :
  In id (sql_context_ids context db) <-> In (id, context) (context_rows db).
Proof.
  unfold sql_context_ids. rewrite in_map_iff. split.
  - intros ([id' c] & E & H). cbn in E. subst id'. apply filter_In in H.
    destruct H as [H Ec]. cbn in Ec. apply String.eqb_eq in Ec. now subst c.
  - intros H. exists (id, context). split; [reflexivity|]. apply filter_In.
    split; [exact H | apply String.eqb_refl].
Qed.

Lemma has_path_In path (rows : list (Z * string)) :
  has_path path rows = true <-> In path (map snd rows).
Proof.
  unfold has_path. rewrite existsb_exists, in_map_iff. split.
  - intros (r & Hr & E). apply String.eqb_eq in E. eauto.
  - intros (r & E & Hr). exists r. split; [exact Hr | now apply String.eqb_eq].
Qed.

(** [_set_context_id] on a connected store: it returns with the id of the
    current context, which it adds to [context] when new. *)
Lemma set_context_id_eval s db :
  good s db ->
  exists s1 db1 context_id,
    _set_context_id s = (Return tt, s1)
    /\ good s1 db1 /\ same_data s db s1 db1
    /\ _current_context_id s1 = Some context_id
    /\ _has_lines s1 = _has_lines s /\ _has_arcs s1 = _has_arcs s
    /\ In (context_id,
           match _current_context s with Some c => c | None => "" end) (context_rows db1).
Proof.
  intros Hg. pose proof Hg as ((Hu & Hd & Hdb) & Hw & Hm).
  unfold _set_context_id. rewrite bind_get. cbv zeta.
  set (context := match _current_context s with Some c => c | None => "" end).
  rewrite (bind_return _ _ _ _ _ (context_id_eval context s db (proj1 Hg))).
  destruct (sql_context_ids context db) as [|id ids] eqn:Eids; cbn [hd_error].
  - rewrite (bind_return _ _ _ _ _ (connect_used s Hd)). unfold with_db.
    rewrite (bind_return _ _ _ _ _ (query_used _ s db Hdb)).
    destruct (sql_insert_context context db) as [[db' id]|] eqn:Eins.
    + destruct (wf_insert_context _ _ _ _ Eins Hw) as [Hw' Hf].
      cbn [modify]. eexists _, db', id. split; [reflexivity|].
      unfold sql_insert_context in Eins.
      destruct (has_path context (context_rows db)); [discriminate|].
      injection Eins as <- <-.
      split.
      { split; [split; [exact Hu | split; [exact Hd | reflexivity]]|].
        split; [exact Hw'|]. intros f i Hf'. cbn in *. now apply Hm. }
      split; [repeat split|]. cbn. repeat split. apply in_app_iff. right. now left.
    + exfalso. unfold sql_insert_context in Eins.
      destruct (has_path context (context_rows db)) eqn:Ep; [|discriminate].
      apply has_path_In, in_map_iff in Ep. destruct Ep as ([i c] & E & Hin).
      cbn in E. subst c. apply sql_context_ids_In in Hin. rewrite Eids in Hin.
      destruct Hin.
  - cbn [modify]. eexists _, db, id. split; [reflexivity|].
    split.
    { split; [split; [exact Hu | split; [exact Hd | exact Hdb]]|].
      split; [exact Hw|]. intros f i Hf'. cbn in *. now apply Hm. }
    split; [repeat split|]. cbn. repeat split.
    apply sql_context_ids_In. rewrite Eids. now left.
Qed.

(* ---- the id of a file, added when new ---- *)

Lemma file_id_add_eval filename s db :
  good s db ->
  exists s1 db1 file_id,
    bind (_file_id filename true) the s = (Return file_id, s1)
    /\ good s1 db1
    /\ ((dict_get String.eqb filename (_file_map s) = Some file_id /\ s1 = s /\ db1 = db)
        \/ (dict_get String.eqb filename (_file_map s) = None
            /\ file_id = id_bound db + 1
            /\ db1 = fst (sql_replace_file filename db)
            /\ s1 = set__file_map (set_database s (Some db1))
                      (dict_set String.eqb filename file_id (_file_map s)))).
Proof.
  intros Hg. pose proof Hg as ((Hu & Hd & Hdb) & Hw & Hm).
  unfold _file_id. unfold bind at 1. rewrite bind_get. unfold dict_mem.
  destruct (dict_get String.eqb filename (_file_map s)) as [id|] eqn:Ef;
    cbn [negb andb when].
  - unfold bind at 1. cbn [ret]. rewrite bind_get. cbn [ret]. rewrite Ef. cbn [the ret].
    exists s, db, id. split; [reflexivity|]. split; [exact Hg|]. left. auto.
  - unfold bind at 1.
    rewrite (bind_return _ _ _ _ _ (connect_used s Hd)). unfold with_db.
    rewrite (bind_return _ _ _ _ _ (query_used _ s db Hdb)).
    unfold sql_replace_file at 1. cbn [modify]. rewrite bind_get. cbn [ret].
    cbn [_file_map set__file_map set_database].
    rewrite (dict_get_set_same String.eqb String.eqb_eq). cbn [the ret].
    rewrite next_rowid_bound.
    eexists _, (fst (sql_replace_file filename db)), _. split; [reflexivity|].
    split.
    + split; [split; [exact Hu | split; [exact Hd | reflexivity]]|].
      split; [now apply wf_replace_file|].
      intros f id Hf. cbn [_file_map set__file_map set_database] in Hf.
      unfold sql_replace_file. cbn [fst file_rows set_file_rows].
      apply in_app_iff. destruct (String.eqb_spec f filename) as [->|Hne].
      * rewrite (dict_get_set_same String.eqb String.eqb_eq) in Hf. injection Hf as <-.
        right. left. now rewrite next_rowid_bound.
      * rewrite (dict_get_set_other String.eqb String.eqb_eq) in Hf by exact Hne.
        left. apply filter_In. split; [now apply Hm|]. cbn.
        destruct (String.eqb_spec f filename); [contradiction | reflexivity].
    + right. split; [reflexivity|]. split; [reflexivity|]. split; reflexivity.
Qed.

(* ---- arcs ---- *)

Lemma ignore_arcs_spec file_id context_id (arcs : list (Z * Z)) db :
  let db' := fold_left (fun db a => sql_ignore_arc (file_id, context_id, fst a, snd a) db)
               arcs db in
  file_rows db' = file_rows db
  /\ line_bits_rows db' = line_bits_rows db
  /\ tracer_rows db' = tracer_rows db
  /\ context_rows db' = context_rows db
  /\ meta_rows db' = meta_rows db
  /\ (forall r, In r (arc_rows db')
                <-> In r (arc_rows db)
                    \/ exists a, In a arcs /\ r = (file_id, context_id, fst a, snd a))
  /\ (file_id <= id_bound db -> db_wf db -> db_wf db').
Proof.
  revert db. induction arcs as [|a arcs IH]; intros db; cbn [fold_left].
  - refine (conj eq_refl (conj eq_refl (conj eq_refl (conj eq_refl (conj eq_refl
             (conj _ _)))))).
    + intros r. split; [now left | intros [H|(a & [] & _)]; exact H].
    + auto.
  - specialize (IH (sql_ignore_arc (file_id, context_id, fst a, snd a) db)).
    cbv zeta in IH. destruct IH as (E1 & E2 & E3 & E4 & E5 & Hr & Hw).
    assert (Hstep : file_rows (sql_ignore_arc (file_id, context_id, fst a, snd a) db)
                    = file_rows db
                    /\ line_bits_rows (sql_ignore_arc (file_id, context_id, fst a, snd a) db)
                       = line_bits_rows db
                    /\ tracer_rows (sql_ignore_arc (file_id, context_id, fst a, snd a) db)
                       = tracer_rows db
                    /\ context_rows (sql_ignore_arc (file_id, context_id, fst a, snd a) db)
                       = context_rows db
                    /\ meta_rows (sql_ignore_arc (file_id, context_id, fst a, snd a) db)
                       = meta_rows db
                    /\ forall r, In r (arc_rows (sql_ignore_arc
                                                   (file_id, context_id, fst a, snd a) db))
                                 <-> In r (arc_rows db)
                                     \/ r = (file_id, context_id, fst a, snd a)).
    { unfold sql_ignore_arc.
      destruct (existsb (arc_eqb (file_id, context_id, fst a, snd a)) (arc_rows db)) eqn:Ex.
      - refine (conj eq_refl (conj eq_refl (conj eq_refl (conj eq_refl (conj eq_refl _))))).
        intros r. split; [now left|]. intros [H | ->]; [exact H|].
        apply existsb_exists in Ex. destruct Ex as (r & Hin & Er).
        apply arc_eqb_eq in Er. now subst r.
      - refine (conj eq_refl (conj eq_refl (conj eq_refl (conj eq_refl (conj eq_refl _))))).
        intros r. cbn. rewrite in_app_iff. cbn. intuition. }
    destruct Hstep as (S1 & S2 & S3 & S4 & S5 & Sr).
    split; [congruence|]. split; [congruence|]. split; [congruence|].
    split; [congruence|]. split; [congruence|]. split.
    + intros r. rewrite Hr, Sr. split.
      * intros [[H|H]|(a' & Ha & E)]; [now left | right; exists a; split; [now left|exact H]|].
        right. exists a'. split; [now right | exact E].
      * intros [H|(a' & [<-|Ha] & E)]; [left; now left | left; now right|].
        right. exists a'. auto.
    + intros Hid Hwf. apply Hw.
      * unfold id_bound. rewrite S1. exact Hid.
      * now apply wf_ignore_arc.
Qed.

Lemma as_list_arcs_raw s db filename a :
  In a (as_list (arcs_raw s db filename))
  <-> exists file_id context_id,
        dict_get String.eqb filename (_file_map s) = Some file_id
        /\ In (file_id, context_id, fst a, snd a) (arc_rows db).
Proof.
  unfold arcs_raw. destruct (dict_get String.eqb filename (_file_map s)) as [id|];
    cbn [option_map as_list].
  - rewrite in_map_iff. split.
    + intros ([[[f c] x] y] & E & H). cbn in E. subst a. apply filter_In in H.
      destruct H as [H Ef]. cbn in Ef. apply Z.eqb_eq in Ef. subst f.
      apply sorted_In in H. exists id, c. auto.
    + intros (id' & c & E & H). injection E as <-.
      exists (id, c, fst a, snd a). split; [now destruct a|].
      apply filter_In. split; [now apply sorted_In|]. cbn. apply Z.eqb_refl.
  - split; [intros [] | intros (id & c & E & _); discriminate].
Qed.

Lemma arcs_raw_None s db filename :
  arcs_raw s db filename = None <-> dict_get String.eqb filename (_file_map s) = None.
Proof.
  unfold arcs_raw. destruct (dict_get String.eqb filename (_file_map s)); cbn;
    split; congruence.
Qed.

Lemma map_ok_injective s db f g id :
  db_wf db -> map_ok s db ->
  dict_get String.eqb f (_file_map s) = Some id ->
  dict_get String.eqb g (_file_map s) = Some id -> f = g.
Proof.
  intros Hw Hm Hf Hg.
  exact (NoDup_fst_functional _ _ _ _ (wf_file_ids db Hw) (Hm f id Hf) (Hm g id Hg)).
Qed.

(** One file of [add_arcs]. *)
Lemma add_arcs_body s db context_id filename (arcs : list (Z * Z)) :
  good s db -> _current_context_id s = Some context_id -> storable arcs ->
  exists s1 db1,
    (file_id <- bind (_file_id filename true) the ;;
     s0 <- get ;;
     context_id <- the (_current_context_id s0) ;;
     for_each arcs (fun '(fromno, tono) =>
       insert_arc file_id context_id fromno tono)) s
    = (Return tt, s1)
    /\ good s1 db1
    /\ _current_context_id s1 = Some context_id
    /\ _query_context_ids s1 = _query_context_ids s
    /\ forall g,
         (arcs_raw s1 db1 g = None <-> arcs_raw s db g = None /\ g <> filename)
         /\ forall a, In a (as_list (arcs_raw s1 db1 g))
                      <-> In a (as_list (arcs_raw s db g)) \/ (g = filename /\ In a arcs).
Proof.
  intros Hg Hc Hst. pose proof Hg as ((Hu & Hd & Hdb) & Hw & Hm).
  destruct (file_id_add_eval filename s db Hg) as (sa & dba & id & Ea & Hga & Hcase).
  pose proof Hga as ((Hua & Hda & Hdba) & Hwa & Hma).
  rewrite (bind_return _ _ _ _ _ Ea). rewrite bind_get.
  assert (Hca : _current_context_id sa = Some context_id).
  { destruct Hcase as [(_ & -> & _)|(_ & _ & _ & ->)]; [exact Hc | exact Hc]. }
  assert (Hqa : _query_context_ids sa = _query_context_ids s).
  { destruct Hcase as [(_ & -> & _)|(_ & _ & _ & ->)]; reflexivity. }
  assert (Hida : dict_get String.eqb filename (_file_map sa) = Some id).
  { destruct Hcase as [(H & -> & _)|(_ & _ & _ & ->)]; [exact H|].
    cbn. apply (dict_get_set_same String.eqb String.eqb_eq). }
  rewrite Hca. cbn [the].
  rewrite (bind_return (ret context_id) _ sa context_id sa eq_refl).
  rewrite (for_each_ext _ (fun a => execute (sql_ignore_arc (id, context_id, fst a, snd a))))
    by (intros [x y] Hxy; unfold insert_arc; pose proof (Hst (x, y) Hxy) as Hi;
        cbn [fst snd] in Hi; now rewrite Hi).
  rewrite (for_each_execute _ _ sa dba Hdba).
  destruct (ignore_arcs_spec id context_id arcs dba) as (E1 & E2 & E3 & E4 & E5 & Hr & Hwf).
  cbv zeta in *.
  set (db1 := fold_left _ arcs dba) in *.
  assert (Hidb : id <= id_bound dba) by exact (id_bound_In dba id filename (Hma _ _ Hida)).
  eexists _, db1. split; [reflexivity|].
  split.
  { split; [split; [exact Hua | split; [exact Hda | reflexivity]]|].
    split; [now apply Hwf|]. intros f i Hf. rewrite E1. now apply Hma. }
  split; [exact Hca|]. split; [exact Hqa|].
  assert (Hrows : arc_rows dba = arc_rows db).
  { destruct Hcase as [(_ & _ & ->)|(_ & _ & -> & _)]; reflexivity. }
  intros g. split.
  - rewrite !arcs_raw_None. cbn [_file_map set_database].
    destruct Hcase as [(Hf & -> & ->)|(Hf & Eid & Edb & ->)].
    + split; [|tauto]. intros H. split; [exact H|]. intros ->. congruence.
    + cbn [_file_map set__file_map].
      destruct (String.eqb_spec g filename) as [->|Hne].
      * rewrite (dict_get_set_same String.eqb String.eqb_eq). split; [discriminate|tauto].
      * rewrite (dict_get_set_other String.eqb String.eqb_eq) by exact Hne. tauto.
  - intros a. rewrite !as_list_arcs_raw. cbn [_file_map set_database].
    split.
    + intros (idg & c & Eg & Hin). apply Hr in Hin. rewrite Hrows in Hin.
      destruct Hin as [Hin|(a' & Ha' & E)].
      * destruct Hcase as [(Hf & -> & ->)|(Hf & Eid & Edb & ->)].
        -- left. exists idg, c. auto.
        -- cbn [_file_map set__file_map] in Eg.
           destruct (String.eqb_spec g filename) as [->|Hne].
           ++ rewrite (dict_get_set_same String.eqb String.eqb_eq) in Eg. injection Eg as <-.
              pose proof (wf_arc_files db Hw _ Hin) as Hb. cbn in Hb. lia.
           ++ rewrite (dict_get_set_other String.eqb String.eqb_eq) in Eg by exact Hne.
              left. exists idg, c. auto.
      * injection E as -> -> Ex Ey. right.
        split; [|destruct a, a'; cbn in *; now subst].
        exact (map_ok_injective sa dba g filename id Hwa Hma Eg Hida).
    + intros [(idg & c & Eg & Hin)|[-> Ha]].
      * assert (Eg' : dict_get String.eqb g (_file_map sa) = Some idg).
        { destruct Hcase as [(Hf & -> & ->)|(Hf & Eid & Edb & ->)]; [exact Eg|].
          cbn [_file_map set__file_map set_database].
          rewrite (dict_get_set_other String.eqb String.eqb_eq); [exact Eg|].
          intros ->. congruence. }
        exists idg, c. split; [exact Eg'|]. apply Hr. left. now rewrite Hrows.
      * exists id, context_id. split; [exact Hida|]. apply Hr. right. exists a. auto.
Qed.

Lemma add_arcs_loop (arc_data : list (string * list (Z * Z))) : forall s db context_id,
  good s db -> _current_context_id s = Some context_id ->
  (forall filename arcs, In (filename, arcs) arc_data -> storable arcs) ->
  exists s1 db1,
    for_each arc_data (fun '(filename, arcs) =>
      file_id <- bind (_file_id filename true) the ;;
      s0 <- get ;;
      context_id <- the (_current_context_id s0) ;;
      for_each arcs (fun '(fromno, tono) =>
        insert_arc file_id context_id fromno tono)) s
    = (Return tt, s1)
    /\ good s1 db1
    /\ _query_context_ids s1 = _query_context_ids s
    /\ forall g,
         (arcs_raw s1 db1 g = None
          <-> arcs_raw s db g = None /\ ~ In g (map fst arc_data))
         /\ forall a, In a (as_list (arcs_raw s1 db1 g))
                      <-> In a (as_list (arcs_raw s db g))
                          \/ exists l, In (g, l) arc_data /\ In a l.
Proof.
  induction arc_data as [|[filename arcs] arc_data IH]; intros s db context_id Hg Hc Hst.
  - exists s, db. split; [reflexivity|]. split; [exact Hg|]. split; [reflexivity|].
    intros g. split; [cbn; tauto|]. intros a. split; [now left|].
    intros [H|(l & [] & _)]. exact H.
  - cbn [for_each]. cbv beta iota.
    destruct (add_arcs_body s db context_id filename arcs Hg Hc
                (Hst filename arcs (or_introl eq_refl)))
      as (s1 & db1 & E1 & Hg1 & Hc1 & Hq1 & Hrel1).
    rewrite (bind_return _ _ _ _ _ E1).
    destruct (IH s1 db1 context_id Hg1 Hc1 (fun f l H => Hst f l (or_intror H)))
      as (s2 & db2 & E2 & Hg2 & Hq2 & Hrel2).
    exists s2, db2. split; [exact E2|]. split; [exact Hg2|]. split; [congruence|].
    intros g. destruct (Hrel1 g) as [N1 I1]. destruct (Hrel2 g) as [N2 I2]. split.
    + rewrite N2, N1. cbn [map fst In]. split.
      * intros [[H1 H2] H3]. split; [exact H1|]. intros [H|H]; [now subst | contradiction].
      * intros [H1 H2]. split; [split; [exact H1|]|]; intros H; apply H2; auto.
    + intros a. rewrite I2, I1. split.
      * intros [[H|[-> H]]|(l & Hl & Ha)]; [now left | |].
        -- right. exists arcs. split; [now left | exact H].
        -- right. exists l. split; [now right | exact Ha].
      * intros [H|(l & [E|Hl] & Ha)]; [left; now left | |].
        -- injection E as -> ->. left. right. auto.
        -- right. exists l. auto.
Qed.

Lemma arc_rows_of_file id (rows : list (Z * Z * Z * Z)) :
  map (fun '(_, _, fromno, tono) => (fromno, tono))
      (filter (fun '(f, c, _, _) => (f =? id) && in_query None c) rows)
  = map (fun r => (snd (fst r), snd r))
        (filter (fun r => fst (fst (fst r)) =? id) rows).
Proof.
  induction rows as [|[[[f c] x] y] rows IH]; [reflexivity|].
  cbn. rewrite andb_true_r. destruct (f =? id); cbn; [f_equal|]; exact IH.
Qed.

Lemma arcs_eval_raw filename s db :
  in_use s db -> _query_context_ids s = None ->
  arcs filename s
  = (Return (option_map (dedup arc_pair_eqb) (arcs_raw s db filename)), s).
Proof.
  intros Hin Hq. rewrite (arcs_used filename s db Hin). unfold arcs_raw, arcs_of.
  destruct (dict_get String.eqb filename (_file_map s)) as [id|]; [|reflexivity].
  cbn [option_map]. rewrite Hq. now rewrite arc_rows_of_file.
Qed.

Lemma as_list_dedup_arcs o a :
  In a (as_list (option_map (dedup arc_pair_eqb) o)) <-> In a (as_list o).
Proof.
  destruct o as [l|]; cbn; [|tauto]. apply dedup_In. apply arc_pair_eqb_eq.
Qed.

Lemma same_data_arcs_raw s db s' db' g :
  same_data s db s' db' -> arcs_raw s' db' g = arcs_raw s db g.
Proof.
  intros (A1 & _ & _ & _ & _ & A6 & _). unfold arcs_raw. now rewrite A1, A6.
Qed.

(** [add_arcs] on a connected store that is not in lines-mode. *)
Lemma add_arcs_eval arc_data s db :
  good s db -> agrees s db -> _has_lines s = false -> _query_context_ids s = None ->
  (forall filename arcs, In (filename, arcs) arc_data -> storable arcs) ->
  exists s' db',
    add_arcs arc_data s = (Return tt, s')
    /\ good s' db'
    /\ _query_context_ids s' = None
    /\ forall g,
         (arcs_raw s' db' g = None
          <-> arcs_raw s db g = None /\ ~ In g (map fst arc_data))
         /\ forall a, In a (as_list (arcs_raw s' db' g))
                      <-> In a (as_list (arcs_raw s db g))
                          \/ exists l, In (g, l) arc_data /\ In a l.
Proof.
  intros Hg Hag Hl Hq Hst. pose proof Hg as ((Hu & Hd & Hdb) & Hw & Hm).
  unfold add_arcs.
  rewrite (bind_return _ _ _ _ _ (start_using_used s Hu)).
  destruct (choose_eval s db false true Hg Hag eq_refl (or_introl Hl) (or_intror eq_refl))
    as (s1 & db1 & E1 & Hg1 & Hsame1 & _ & _ & _ & _).
  rewrite (bind_return _ _ _ _ _ E1).
  destruct arc_data as [|x arc_data]; cbn [is_empty].
  - exists s1, db1. split; [reflexivity|]. split; [exact Hg1|].
    split; [destruct Hsame1 as (_ & -> & _); exact Hq|].
    intros g. rewrite (same_data_arcs_raw s db s1 db1 g Hsame1). split; [cbn; tauto|].
    intros a. split; [now left|]. intros [H|(l & [] & _)]. exact H.
  - pose proof Hg1 as ((Hu1 & Hd1 & Hdb1) & _).
    rewrite (bind_return _ _ _ _ _ (connect_used s1 Hd1)).
    destruct (set_context_id_eval s1 db1 Hg1)
      as (s2 & db2 & cid & E2 & Hg2 & Hsame2 & Hc2 & _).
    destruct (add_arcs_loop (x :: arc_data) s2 db2 cid Hg2 Hc2 Hst)
      as (s3 & db3 & E3 & Hg3 & Hq3 & Hrel).
    exists s3, db3.
    split; [apply with_db_return; rewrite (bind_return _ _ _ _ _ E2); exact E3|].
    split; [exact Hg3|].
    split.
    { rewrite Hq3. destruct Hsame2 as (_ & -> & _). destruct Hsame1 as (_ & -> & _).
      exact Hq. }
    intros g. specialize (Hrel g).
    rewrite (same_data_arcs_raw s1 db1 s2 db2 g Hsame2) in Hrel.
    rewrite (same_data_arcs_raw s db s1 db1 g Hsame1) in Hrel. exact Hrel.
Qed.

Lemma option_map_None {A B} (f : A -> B) o : option_map f o = None <-> o = None.
Proof. destruct o; cbn; split; congruence. Qed.

(** X3.  On a connected store in use, whose tables satisfy the constraints
    of the schema, whose file map names rows of the [file] table and whose
    flags agree with the [meta] table, not in lines-mode and with no query
    context set, [add_arcs] of arcs that SQLite can store returns, and
    afterwards [arcs] gives for every file the arcs it gave before together
    with the arcs added for that file: nothing is lost, nothing else appears,
    and a file is unmeasured afterwards exactly when it was unmeasured and is
    not a key of the data. *)
Theorem add_arcs_then_arcs (s : CoverageData) (db : Db)
    (arc_data : list (string * list (Z * Z))) :
  in_use s db -> db_wf db -> map_ok s db -> agrees s db ->
  _has_lines s = false -> _query_context_ids s = None ->
  (forall filename arcs, In (filename, arcs) arc_data -> storable arcs) ->
  exists s',
    add_arcs arc_data s = (Return tt, s')
    /\ forall filename,
         exists old new,
           arcs filename s = (Return old, s)
           /\ arcs filename s' = (Return new, s')
           /\ (new = None <-> old = None /\ ~ In filename (map fst arc_data))
           /\ forall a, In a (as_list new)
                        <-> In a (as_list old)
                            \/ exists l, In (filename, l) arc_data /\ In a l.
Proof.
  intros Hin Hw Hm Hag Hl Hq Hst.
  assert (Hg : good s db) by exact (conj Hin (conj Hw Hm)).
  destruct (add_arcs_eval arc_data s db Hg Hag Hl Hq Hst)
    as (s' & db' & E & Hg' & Hq' & Hrel).
  exists s'. split; [exact E|]. intros filename.
  eexists _, _. split; [exact (arcs_eval_raw filename s db Hin Hq)|].
  split; [exact (arcs_eval_raw filename s' db' (proj1 Hg') Hq')|].
  destruct (Hrel filename) as [HN HI]. split.
  - rewrite !option_map_None. exact HN.
  - intros a. rewrite !as_list_dedup_arcs. apply HI.
Qed.

(* ---- numbits ---- *)

Lemma nth_numbits_union a b k :
  nth k (numbits_union a b) 0%N = N.lor (nth k a 0%N) (nth k b 0%N).
Proof.
  revert b k. induction a as [|x a IH]; intros b k.
  - cbn [numbits_union]. destruct k; cbn; now rewrite ?N.lor_0_l.
  - destruct b as [|y b].
    + cbn [numbits_union]. destruct k; cbn [nth]; now rewrite N.lor_0_r.
    + cbn [numbits_union]. destruct k; cbn [nth]; [reflexivity | apply IH].
Qed.

Lemma numbits_bit_union a b n :
  numbits_bit (numbits_union a b) n = numbits_bit a n || numbits_bit b n.
Proof. unfold numbits_bit. now rewrite nth_numbits_union, N.lor_spec. Qed.

Lemma byte_of_nums_fold nums k i b :
  N.testbit
    (fold_left (fun b num =>
                  if Nat.eqb (Nat.div num 8) k
                  then N.lor b (N.shiftl 1 (N.of_nat (Nat.modulo num 8)))
                  else b) nums b) (N.of_nat i)
  = N.testbit b (N.of_nat i)
    || existsb (fun num => Nat.eqb (Nat.div num 8) k && Nat.eqb (Nat.modulo num 8) i) nums.
Proof.
  revert b. induction nums as [|num nums IH]; intros b; cbn [fold_left existsb].
  - now rewrite orb_false_r.
  - rewrite IH. destruct (Nat.eqb (Nat.div num 8) k); cbn [andb orb]; [|reflexivity].
    rewrite N.lor_spec, N.shiftl_1_l, N.pow2_bits_eqb.
    rewrite <- orb_assoc. f_equal. f_equal.
    destruct (Nat.eqb_spec (Nat.modulo num 8) i) as [->|Hne].
    + apply N.eqb_refl.
    + apply N.eqb_neq. intros H. apply Hne. now apply Nat2N.inj.
Qed.

Lemma byte_of_nums_testbit nums k i :
  N.testbit (byte_of_nums nums k) (N.of_nat i)
  = existsb (fun num => Nat.eqb (Nat.div num 8) k && Nat.eqb (Nat.modulo num 8) i) nums.
Proof. unfold byte_of_nums. now rewrite byte_of_nums_fold. Qed.

Lemma list_max_In l n : In n l -> (n <= list_max l)%nat.
Proof.
  intros H. pose proof (proj1 (list_max_le l (list_max l)) (Nat.le_refl _)) as F.
  rewrite Forall_forall in F. now apply F.
Qed.

Lemma numbits_bit_nums nums n :
  numbits_bit (nums_to_numbits nums) n = true <-> In n nums.
Proof.
  unfold numbits_bit, nums_to_numbits.
  destruct nums as [|x nums0] eqn:En.
  { rewrite nth_overflow by (simpl; apply Nat.le_0_l). rewrite N.bits_0.
    split; [discriminate | intros []]. }
  rewrite <- En. clear En x nums0.
  set (m := (Nat.div (list_max nums) 8 + 1)%nat).
  destruct (Nat.lt_ge_cases (Nat.div n 8) m) as [Hlt|Hge].
  - rewrite (nth_indep _ 0%N (byte_of_nums nums 0)) by (now rewrite length_map, length_seq).
    rewrite map_nth, seq_nth by exact Hlt. cbn [Nat.add].
    rewrite byte_of_nums_testbit, existsb_exists. split.
    + intros (num & Hin & Hc). apply andb_true_iff in Hc. destruct Hc as [Hq Hr].
      apply Nat.eqb_eq in Hq, Hr.
      assert (num = n).
      { rewrite (Nat.div_mod_eq num 8), (Nat.div_mod_eq n 8). congruence. }
      now subst.
    + intros Hin. exists n. split; [exact Hin|]. now rewrite !Nat.eqb_refl.
  - rewrite nth_overflow by (now rewrite length_map, length_seq). rewrite N.bits_0.
    split; [discriminate|]. intros Hin. exfalso.
    pose proof (list_max_In nums n Hin) as Hle.
    assert (Nat.div n 8 <= Nat.div (list_max nums) 8)%nat by now apply Nat.Div0.div_le_mono.
    unfold m in Hge. lia.
Qed.

(* ---- lines ---- *)

Lemma as_list_lines_raw s db filename n :
  In n (as_list (lines_raw s db filename))
  <-> exists file_id context_id nb,
        dict_get String.eqb filename (_file_map s) = Some file_id
        /\ In (file_id, context_id, nb) (line_bits_rows db)
        /\ numbits_bit nb n = true.
Proof.
  unfold lines_raw. destruct (dict_get String.eqb filename (_file_map s)) as [id|];
    cbn [option_map as_list].
  - rewrite in_flat_map. split.
    + intros ([[f c] nb] & H & Hn). apply filter_In in H. destruct H as [H Ef].
      cbn in Ef. apply Z.eqb_eq in Ef. subst f. cbn in Hn.
      apply numbits_to_nums_In in Hn. exists id, c, nb. auto.
    + intros (id' & c & nb & E & H & Hn). injection E as <-.
      exists (id, c, nb). split; [|now apply numbits_to_nums_In].
      apply filter_In. split; [exact H|]. cbn. apply Z.eqb_refl.
  - split; [intros [] | intros (id & c & nb & E & _); discriminate].
Qed.

Lemma lines_raw_None s db filename :
  lines_raw s db filename = None <-> dict_get String.eqb filename (_file_map s) = None.
Proof.
  unfold lines_raw. destruct (dict_get String.eqb filename (_file_map s)); cbn;
    split; congruence.
Qed.

(** The row that [add_lines] writes holds the new lines and those of the
    row it replaces. *)
Lemma replace_line_bits_spec file_id context_id (linenos : list nat) db :
  NoDup (map fst (line_bits_rows db)) ->
  let existing := sql_line_bits file_id context_id db in
  let linemap := match existing with
                 | nb :: _ => numbits_union (nums_to_numbits linenos) nb
                 | [] => nums_to_numbits linenos
                 end in
  forall f c n,
    (exists nb, In (f, c, nb)
                   (line_bits_rows (sql_replace_line_bits file_id context_id linemap db))
                /\ numbits_bit nb n = true)
    <-> (exists nb, In (f, c, nb) (line_bits_rows db) /\ numbits_bit nb n = true)
        \/ (f = file_id /\ c = context_id /\ In n linenos).
Proof.
  intros Hnd existing linemap f c n.
  unfold sql_replace_line_bits. cbn [line_bits_rows set_line_bits_rows].
  assert (Hex : forall nb, In (file_id, context_id, nb) (line_bits_rows db) ->
                           existing = [nb]).
  { intros nb Hin. unfold existing, sql_line_bits.
    assert (Hf : forall r, In r (filter (line_key_eqb file_id context_id) (line_bits_rows db))
                           -> r = (file_id, context_id, nb)).
    { intros [k nb'] Hr. apply filter_In in Hr. destruct Hr as [Hr Hk].
      apply line_key_eqb_eq in Hk. cbn in Hk. subst k.
      f_equal. exact (NoDup_fst_functional _ _ _ _ Hnd Hr Hin). }
    assert (Hin' : In (file_id, context_id, nb)
                      (filter (line_key_eqb file_id context_id) (line_bits_rows db))).
    { apply filter_In. split; [exact Hin|]. now apply line_key_eqb_eq. }
    assert (Hnd' : NoDup (filter (line_key_eqb file_id context_id) (line_bits_rows db))).
    { apply NoDup_filter. eapply NoDup_map_inv. exact Hnd. }
    destruct (filter _ _) as [|r1 [|r2 rest]]; [destruct Hin' | |].
    - rewrite (Hf r1 (or_introl eq_refl)). reflexivity.
    - exfalso. inversion Hnd' as [|? ? Hnot _]; subst. apply Hnot.
      rewrite (Hf r1 (or_introl eq_refl)), (Hf r2 (or_intror (or_introl eq_refl))).
      now left. }
  assert (Hmap : forall m, numbits_bit linemap m = true
                           <-> In m linenos
                               \/ exists nb, existing = nb :: tl existing
                                             /\ numbits_bit nb m = true).
  { intros m. unfold linemap. destruct existing as [|nb0 rest].
    - rewrite numbits_bit_nums. split; [now left|]. intros [H|(nb & E & _)]; [exact H|].
      discriminate.
    - rewrite numbits_bit_union, orb_true_iff, numbits_bit_nums. split.
      + intros [H|H]; [now left | right; exists nb0; auto].
      + intros [H|(nb & E & H)]; [now left|]. injection E as <-. now right. }
  split.
  - intros (nb & Hin & Hn). apply in_app_iff in Hin. destruct Hin as [Hin|[E|[]]].
    + apply filter_In in Hin. left. exists nb. tauto.
    + injection E as <- <- <-. apply Hmap in Hn. destruct Hn as [Hn|(nb & E & Hn)].
      * right. auto.
      * left. exists nb. split; [|exact Hn].
        assert (Hin : In nb existing) by (rewrite E; now left).
        unfold existing, sql_line_bits in Hin. apply in_map_iff in Hin.
        destruct Hin as ([k nb'] & Enb & Hin). cbn in Enb. subst nb'.
        apply filter_In in Hin. destruct Hin as [Hin Hk].
        apply line_key_eqb_eq in Hk. cbn in Hk. now subst k.
  - intros [(nb & Hin & Hn)|(-> & -> & Hn)].
    + destruct (line_key_eqb file_id context_id (f, c, nb)) eqn:Ek.
      * apply line_key_eqb_eq in Ek. cbn in Ek. injection Ek as -> ->.
        exists linemap. split; [apply in_app_iff; right; now left|].
        apply Hmap. right. exists nb. rewrite (Hex nb Hin). auto.
      * exists nb. split; [|exact Hn]. apply in_app_iff. left.
        apply filter_In. split; [exact Hin|]. now rewrite Ek.
    + exists linemap. split; [apply in_app_iff; right; now left|].
      apply Hmap. now left.
Qed.

(** One file of [add_lines]. *)
Lemma add_lines_body s db context_id filename (linenos : list nat) :
  good s db -> _current_context_id s = Some context_id ->
  exists s1 db1,
    (let linemap := nums_to_numbits linenos in
     file_id <- bind (_file_id filename true) the ;;
     s0 <- get ;;
     context_id <- the (_current_context_id s0) ;;
     existing <- query (sql_line_bits file_id context_id) ;;
     let linemap := match existing with
                    | nb :: _ => numbits_union linemap nb
                    | [] => linemap
                    end in
     execute (sql_replace_line_bits file_id context_id linemap)) s
    = (Return tt, s1)
    /\ good s1 db1
    /\ _current_context_id s1 = Some context_id
    /\ _query_context_ids s1 = _query_context_ids s
    /\ _has_arcs s1 = _has_arcs s
    /\ forall g,
         (lines_raw s1 db1 g = None <-> lines_raw s db g = None /\ g <> filename)
         /\ forall n, In n (as_list (lines_raw s1 db1 g))
                      <-> In n (as_list (lines_raw s db g)) \/ (g = filename /\ In n linenos).
Proof.
  intros Hg Hc. pose proof Hg as ((Hu & Hd & Hdb) & Hw & Hm). cbv zeta.
  destruct (file_id_add_eval filename s db Hg) as (sa & dba & id & Ea & Hga & Hcase).
  pose proof Hga as ((Hua & Hda & Hdba) & Hwa & Hma).
  rewrite (bind_return _ _ _ _ _ Ea). rewrite bind_get.
  assert (Hca : _current_context_id sa = Some context_id).
  { destruct Hcase as [(_ & -> & _)|(_ & _ & _ & ->)]; [exact Hc | exact Hc]. }
  assert (Hqa : _query_context_ids sa = _query_context_ids s).
  { destruct Hcase as [(_ & -> & _)|(_ & _ & _ & ->)]; reflexivity. }
  assert (Haa : _has_arcs sa = _has_arcs s).
  { destruct Hcase as [(_ & -> & _)|(_ & _ & _ & ->)]; reflexivity. }
  assert (Hida : dict_get String.eqb filename (_file_map sa) = Some id).
  { destruct Hcase as [(H & -> & _)|(_ & _ & _ & ->)]; [exact H|].
    cbn. apply (dict_get_set_same String.eqb String.eqb_eq). }
  rewrite Hca. cbn [the].
  rewrite (bind_return (ret context_id) _ sa context_id sa eq_refl).
  rewrite (bind_return _ _ _ _ _ (query_used _ sa dba Hdba)).
  rewrite (execute_used _ sa dba Hdba).
  pose proof (replace_line_bits_spec id context_id linenos dba (wf_line_keys dba Hwa))
    as Hspec. cbv zeta in Hspec.
  set (linemap := match sql_line_bits id context_id dba with
                  | nb :: _ => numbits_union (nums_to_numbits linenos) nb
                  | [] => nums_to_numbits linenos
                  end) in *.
  set (db1 := sql_replace_line_bits id context_id linemap dba).
  assert (Hidb : id <= id_bound dba) by exact (id_bound_In dba id filename (Hma _ _ Hida)).
  eexists _, db1. split; [reflexivity|].
  split.
  { split; [split; [exact Hua | split; [exact Hda | reflexivity]]|].
    split; [now apply wf_replace_line_bits|]. intros f i Hf. now apply Hma. }
  split; [exact Hca|]. split; [exact Hqa|]. split; [exact Haa|].
  assert (Hrows : line_bits_rows dba = line_bits_rows db).
  { destruct Hcase as [(_ & _ & ->)|(_ & _ & -> & _)]; reflexivity. }
  intros g. split.
  - rewrite !lines_raw_None. cbn [_file_map set_database].
    destruct Hcase as [(Hf & -> & ->)|(Hf & Eid & Edb & ->)].
    + split; [|tauto]. intros H. split; [exact H|]. intros ->. congruence.
    + cbn [_file_map set__file_map].
      destruct (String.eqb_spec g filename) as [->|Hne].
      * rewrite (dict_get_set_same String.eqb String.eqb_eq). split; [discriminate|tauto].
      * rewrite (dict_get_set_other String.eqb String.eqb_eq) by exact Hne. tauto.
  - intros n. rewrite !as_list_lines_raw. cbn [_file_map set_database].
    split.
    + intros (idg & c & nb & Eg & Hin & Hn).
      destruct (proj1 (Hspec idg c n) (ex_intro _ nb (conj Hin Hn)))
        as [(nb' & Hin' & Hn')|(-> & -> & Hl)].
      * rewrite Hrows in Hin'.
        destruct Hcase as [(Hf & -> & ->)|(Hf & Eid & Edb & ->)].
        -- left. exists idg, c, nb'. auto.
        -- cbn [_file_map set__file_map] in Eg.
           destruct (String.eqb_spec g filename) as [->|Hne].
           ++ rewrite (dict_get_set_same String.eqb String.eqb_eq) in Eg. injection Eg as <-.
              pose proof (wf_line_files db Hw _ Hin') as Hb. cbn in Hb. lia.
           ++ rewrite (dict_get_set_other String.eqb String.eqb_eq) in Eg by exact Hne.
              left. exists idg, c, nb'. auto.
      * right. split; [|exact Hl].
        exact (map_ok_injective sa dba g filename id Hwa Hma Eg Hida).
    + intros [(idg & c & nb & Eg & Hin & Hn)|[-> Hl]].
      * assert (Eg' : dict_get String.eqb g (_file_map sa) = Some idg).
        { destruct Hcase as [(Hf & -> & ->)|(Hf & Eid & Edb & ->)]; [exact Eg|].
          cbn [_file_map set__file_map set_database].
          rewrite (dict_get_set_other String.eqb String.eqb_eq); [exact Eg|].
          intros ->. congruence. }
        rewrite <- Hrows in Hin.
        destruct (proj2 (Hspec idg c n) (or_introl (ex_intro _ nb (conj Hin Hn))))
          as (nb' & Hin' & Hn').
        exists idg, c, nb'. auto.
      * destruct (proj2 (Hspec id context_id n) (or_intror (conj eq_refl (conj eq_refl Hl))))
          as (nb' & Hin' & Hn').
        exists id, context_id, nb'. auto.
Qed.

Lemma add_lines_loop (line_data : list (string * list nat)) : forall s db context_id,
  good s db -> _current_context_id s = Some context_id ->
  exists s1 db1,
    for_each line_data (fun '(filename, linenos) =>
      let linemap := nums_to_numbits linenos in
      file_id <- bind (_file_id filename true) the ;;
      s0 <- get ;;
      context_id <- the (_current_context_id s0) ;;
      existing <- query (sql_line_bits file_id context_id) ;;
      let linemap := match existing with
                     | nb :: _ => numbits_union linemap nb
                     | [] => linemap
                     end in
      execute (sql_replace_line_bits file_id context_id linemap)) s
    = (Return tt, s1)
    /\ good s1 db1
    /\ _query_context_ids s1 = _query_context_ids s
    /\ _has_arcs s1 = _has_arcs s
    /\ forall g,
         (lines_raw s1 db1 g = None
          <-> lines_raw s db g = None /\ ~ In g (map fst line_data))
         /\ forall n, In n (as_list (lines_raw s1 db1 g))
                      <-> In n (as_list (lines_raw s db g))
                          \/ exists l, In (g, l) line_data /\ In n l.
Proof.
  induction line_data as [|[filename linenos] line_data IH]; intros s db context_id Hg Hc.
  - exists s, db. split; [reflexivity|]. split; [exact Hg|]. split; [reflexivity|].
    split; [reflexivity|].
    intros g. split; [cbn; tauto|]. intros a. split; [now left|].
    intros [H|(l & [] & _)]. exact H.
  - cbn [for_each]. cbv beta iota.
    destruct (add_lines_body s db context_id filename linenos Hg Hc)
      as (s1 & db1 & E1 & Hg1 & Hc1 & Hq1 & Ha1 & Hrel1).
    rewrite (bind_return _ _ _ _ _ E1).
    destruct (IH s1 db1 context_id Hg1 Hc1) as (s2 & db2 & E2 & Hg2 & Hq2 & Ha2 & Hrel2).
    exists s2, db2. split; [exact E2|]. split; [exact Hg2|]. split; [congruence|].
    split; [congruence|].
    intros g. destruct (Hrel1 g) as [N1 I1]. destruct (Hrel2 g) as [N2 I2]. split.
    + rewrite N2, N1. cbn [map fst In]. split.
      * intros [[H1 H2] H3]. split; [exact H1|]. intros [H|H]; [now subst | contradiction].
      * intros [H1 H2]. split; [split; [exact H1|]|]; intros H; apply H2; auto.
    + intros a. rewrite I2, I1. split.
      * intros [[H|[-> H]]|(l & Hl & Ha)]; [now left | |].
        -- right. exists linenos. split; [now left | exact H].
        -- right. exists l. split; [now right | exact Ha].
      * intros [H|(l & [E|Hl] & Ha)]; [left; now left | |].
        -- injection E as -> ->. left. right. auto.
        -- right. exists l. auto.
Qed.

Lemma same_data_lines_raw s db s' db' g :
  same_data s db s' db' -> lines_raw s' db' g = lines_raw s db g.
Proof.
  intros (A1 & _ & _ & _ & A5 & _). unfold lines_raw. now rewrite A1, A5.
Qed.

(** [add_lines] on a connected store that is not in arcs-mode. *)
Lemma add_lines_eval line_data s db :
  good s db -> agrees s db -> _has_arcs s = false -> _query_context_ids s = None ->
  exists s' db',
    add_lines line_data s = (Return tt, s')
    /\ good s' db'
    /\ _query_context_ids s' = None
    /\ _has_arcs s' = false
    /\ forall g,
         (lines_raw s' db' g = None
          <-> lines_raw s db g = None /\ ~ In g (map fst line_data))
         /\ forall n, In n (as_list (lines_raw s' db' g))
                      <-> In n (as_list (lines_raw s db g))
                          \/ exists l, In (g, l) line_data /\ In n l.
Proof.
  intros Hg Hag Ha Hq. pose proof Hg as ((Hu & Hd & Hdb) & Hw & Hm).
  unfold add_lines.
  rewrite (bind_return _ _ _ _ _ (start_using_used s Hu)).
  destruct (choose_eval s db true false Hg Hag eq_refl (or_intror eq_refl) (or_introl Ha))
    as (s1 & db1 & E1 & Hg1 & Hsame1 & _ & _ & _ & Ha1).
  rewrite (bind_return _ _ _ _ _ E1).
  destruct line_data as [|x line_data]; cbn [is_empty].
  - exists s1, db1. split; [reflexivity|]. split; [exact Hg1|].
    split; [destruct Hsame1 as (_ & -> & _); exact Hq|]. split; [exact Ha1|].
    intros g. rewrite (same_data_lines_raw s db s1 db1 g Hsame1). split; [cbn; tauto|].
    intros a. split; [now left|]. intros [H|(l & [] & _)]. exact H.
  - pose proof Hg1 as ((Hu1 & Hd1 & Hdb1) & _).
    rewrite (bind_return _ _ _ _ _ (connect_used s1 Hd1)).
    destruct (set_context_id_eval s1 db1 Hg1)
      as (s2 & db2 & cid & E2 & Hg2 & Hsame2 & Hc2 & _ & Ha2 & _).
    destruct (add_lines_loop (x :: line_data) s2 db2 cid Hg2 Hc2)
      as (s3 & db3 & E3 & Hg3 & Hq3 & Ha3 & Hrel).
    exists s3, db3.
    split; [apply with_db_return; rewrite (bind_return _ _ _ _ _ E2); exact E3|].
    split; [exact Hg3|].
    split.
    { rewrite Hq3. destruct Hsame2 as (_ & -> & _). destruct Hsame1 as (_ & -> & _).
      exact Hq. }
    split; [congruence|].
    intros g. specialize (Hrel g).
    rewrite (same_data_lines_raw s1 db1 s2 db2 g Hsame2) in Hrel.
    rewrite (same_data_lines_raw s db s1 db1 g Hsame1) in Hrel. exact Hrel.
Qed.

Lemma flat_map_map_snd {A B C} (f : B -> list C) (g : C -> Z) (l : list (A * B)) :
  flat_map (fun b => map g (f b)) (map snd l) = map g (flat_map (fun r => f (snd r)) l).
Proof.
  induction l as [|r l IH]; cbn; [reflexivity|]. now rewrite map_app, IH.
Qed.

Lemma lines_eval_raw filename s db :
  in_use s db -> _has_arcs s = false -> _query_context_ids s = None ->
  lines filename s
  = (Return (option_map (fun l => dedup Z.eqb (map Z.of_nat l)) (lines_raw s db filename)),
     s).
Proof.
  intros Hin Ha Hq. rewrite (lines_used filename s db Hin). unfold lines_raw, lines_of.
  destruct (dict_get String.eqb filename (_file_map s)) as [id|]; [|reflexivity].
  cbn [option_map]. rewrite Ha, Hq. rewrite flat_map_map_snd.
  rewrite (filter_ext _ (fun r : Z * Z * numbits => fst (fst r) =? id))
    by (intros r; cbn; apply andb_true_r).
  reflexivity.
Qed.

Lemma as_list_lines_api o l :
  In l (as_list (option_map (fun l => dedup Z.eqb (map Z.of_nat l)) o))
  <-> exists n, In n (as_list o) /\ l = Z.of_nat n.
Proof.
  destruct o as [ns|]; cbn.
  - rewrite (dedup_In Z.eqb _ l Z.eqb_eq), in_map_iff. split.
    + intros (n & E & H). eauto.
    + intros (n & H & E). eauto.
  - split; [intros [] | intros (n & [] & _)].
Qed.

(** X4.  On a connected store in use, whose tables satisfy the constraints
    of the schema, whose file map names rows of the [file] table and whose
    flags agree with the [meta] table, not in arcs-mode and with no query
    context set, [add_lines] of sets of lines none of which is empty returns,
    and afterwards [lines] gives for every file the lines it gave before
    together with the lines added for that file; a file is unmeasured
    afterwards exactly when it was unmeasured and is not a key of the
    data. *)
Theorem add_lines_then_lines (s : CoverageData) (db : Db)
    (line_data : list (string * list nat)) :
  in_use s db -> db_wf db -> map_ok s db -> agrees s db ->
  _has_arcs s = false -> _query_context_ids s = None ->
  (forall filename linenos, In (filename, linenos) line_data -> linenos <> []) ->
  exists s',
    add_lines line_data s = (Return tt, s')
    /\ forall filename,
         exists old new,
           lines filename s = (Return old, s)
           /\ lines filename s' = (Return new, s')
           /\ (new = None <-> old = None /\ ~ In filename (map fst line_data))
           /\ forall l, In l (as_list new)
                        <-> In l (as_list old)
                            \/ exists linenos n,
                                 In (filename, linenos) line_data
                                 /\ In n linenos /\ l = Z.of_nat n.
Proof.
  intros Hin Hw Hm Hag Ha Hq _.
  assert (Hg : good s db) by exact (conj Hin (conj Hw Hm)).
  destruct (add_lines_eval line_data s db Hg Hag Ha Hq)
    as (s' & db' & E & Hg' & Hq' & Ha' & Hrel).
  exists s'. split; [exact E|]. intros filename.
  eexists _, _. split; [exact (lines_eval_raw filename s db Hin Ha Hq)|].
  split; [exact (lines_eval_raw filename s' db' (proj1 Hg') Ha' Hq')|].
  destruct (Hrel filename) as [HN HI]. split.
  - rewrite !option_map_None. exact HN.
  - intros l. rewrite !as_list_lines_api. split.
    + intros (n & Hn & ->). apply HI in Hn. destruct Hn as [Hn|(nums & Hd & Hn)].
      * left. eauto.
      * right. exists nums, n. auto.
    + intros [(n & Hn & ->)|(nums & n & Hd & Hn & ->)].
      * exists n. split; [apply HI; now left | reflexivity].
      * exists n. split; [apply HI; right; eauto | reflexivity].
Qed.
Ltac concrete :=
  match goal with
  | |- NoDup _ => cbn; repeat constructor; cbn; intuition congruence
  | |- _ = _ => reflexivity
  | |- forall r, In r _ -> _ =>
      let r := fresh "r" in
      let Hr := fresh "Hr" in
      intros r Hr; cbn in Hr;
      repeat match goal with
             | H : _ \/ _ |- _ => destruct H
             | H : False |- _ => destruct H
             end; subst; vm_compute; intros Hc; discriminate Hc
  | |- forall f id, _ = Some _ -> _ =>
      let f := fresh "f" in
      let id := fresh "id" in
      let H := fresh "H" in
      intros f id H; cbn in H |- *;
      repeat match type of H with
             | context [String.eqb f ?p] =>
                 destruct (String.eqb_spec f p) as [->|];
                 [injection H as <-; cbn; tauto|]
             end; discriminate H
  end.

Lemma arcs_store_good :
  good arcs_store (tables arcs_store) /\ agrees arcs_store (tables arcs_store).
Proof.
  set (s := arcs_store). vm_compute in s. subst s.
  unfold good, in_use, map_ok, agrees, tables. cbn.
  repeat split; concrete.
Qed.

Lemma lines_store_good :
  good lines_store (tables lines_store) /\ agrees lines_store (tables lines_store).
Proof.
  set (s := lines_store). vm_compute in s. subst s.
  unfold good, in_use, map_ok, agrees, tables. cbn.
  repeat split; concrete.
Qed.

Lemma add_arcs_then_arcs_witness :
  exists s' new,
    add_arcs [("f.py", [(2, 3)]); ("g.py", [(-1, 1)])] arcs_store = (Return tt, s')
    /\ arcs "f.py" s' = (Return new, s')
    /\ In (1, 2) (as_list new) /\ In (2, 3) (as_list new).
Proof.
  destruct arcs_store_good as [(Hin & Hw & Hm) Hag].
  assert (Hl : _has_lines arcs_store = false) by (vm_compute; reflexivity).
  assert (Hq : _query_context_ids arcs_store = None) by (vm_compute; reflexivity).
  assert (Hst : forall filename arcs,
             In (filename, arcs) [("f.py", [(2, 3)]); ("g.py", [(-1, 1)])] ->
             storable arcs).
  { intros f l [E|[E|[]]]; injection E as <- <-; intros a [<-|[]]; reflexivity. }
  assert (Eold : arcs "f.py" arcs_store = (Return (Some [(1, 2)]), arcs_store))
    by (vm_compute; reflexivity).
  destruct (add_arcs_then_arcs arcs_store (tables arcs_store)
              [("f.py", [(2, 3)]); ("g.py", [(-1, 1)])] Hin Hw Hm Hag Hl Hq Hst)
    as (s' & E & H).
  destruct (H "f.py") as (old & new & Eo & En & _ & HI).
  exists s', new. split; [exact E|]. split; [exact En|].
  assert (Ho : old = Some [(1, 2)]).
  { rewrite Eold in Eo. now injection Eo as <-. }
  subst old. split; apply HI.
  - left. now left.
  - right. exists [(2, 3)]. split; now left.
Defined.

Lemma add_lines_then_lines_witness :
  exists s' new,
    add_lines [("f.py", [2%nat; 7%nat]); ("g.py", [3%nat])] lines_store = (Return tt, s')
    /\ lines "f.py" s' = (Return new, s')
    /\ In 1 (as_list new) /\ In 7 (as_list new).
Proof.
  destruct lines_store_good as [(Hin & Hw & Hm) Hag].
  assert (Ha : _has_arcs lines_store = false) by (vm_compute; reflexivity).
  assert (Hq : _query_context_ids lines_store = None) by (vm_compute; reflexivity).
  assert (Eold : lines "f.py" lines_store = (Return (Some [1; 2]), lines_store))
    by (vm_compute; reflexivity).
  assert (Hne : forall filename linenos,
             In (filename, linenos) [("f.py", [2%nat; 7%nat]); ("g.py", [3%nat])] ->
             linenos <> []).
  { intros f l [E|[E|[]]]; injection E as <- <-; discriminate. }
  destruct (add_lines_then_lines lines_store (tables lines_store)
              [("f.py", [2%nat; 7%nat]); ("g.py", [3%nat])] Hin Hw Hm Hag Ha Hq Hne)
    as (s' & E & H).
  destruct (H "f.py") as (old & new & Eo & En & _ & HI).
  exists s', new. split; [exact E|]. split; [exact En|].
  assert (Ho : old = Some [1; 2]).
  { rewrite Eold in Eo. now injection Eo as <-. }
  subst old. split; apply HI.
  - left. now left.
  - right. exists [2%nat; 7%nat], 7%nat. split; [now left|]. split; [right; now left|].
    reflexivity.
Defined.
